(** * h64: a flat hash table with 7-slot groups and quadratic probing

    A shallow embedding of [source/h64.c], [source/utils.h] and
    [include/h64/h64.h].

    - [size_t], [uint64_t] and [uint8_t] values are integers of [Z] with the
      wrap-around written out ([u64], [u8]).
    - A pointer to an element is its address, [NULL] is [0].
    - The group array is a list of groups, a pointer to a group is its
      position in the array.
    - Functions that mutate [struct h64] in place return the new table.
    - The two [while (true)] loops and the recursion between
      [h64_insert_new] and [h64_resize] are driven by fuel; a failed
      [assert] and undefined behaviour are [Abort].
    - [double] arithmetic is computed exactly: a binary64 value is a pair
      mantissa/exponent and every operation rounds to nearest-even. *)

From Stdlib Require Import ZArith Lia.
From stdpp Require Import base list.

Local Open Scope Z_scope.

(** ** Machine integers *)

Definition u64 (x : Z) : Z := x mod 2 ^ 64.
Definition u32 (x : Z) : Z := x mod 2 ^ 32.
Definition u8 (x : Z) : Z := x mod 2 ^ 8.

Definition NULL : Z := 0.

(** [__builtin_ctz] on a 32-bit operand: the number of trailing zero bits.
    The builtin is undefined at 0, where this model answers 32. *)
Fixpoint ctz_from (n : nat) (i : Z) (x : Z) : Z :=
  match n with
  | O => i
  | S n' => if Z.testbit x i then i else ctz_from n' (i + 1) x
  end.

Definition builtin_ctz (x : Z) : Z := ctz_from 32 0 (u32 x).

(** ** Outcomes of a run *)

Inductive result (A : Type) : Type :=
| Ok (a : A)
| Abort
| OutOfFuel.

Arguments Ok {A} a.
Arguments Abort {A}.
Arguments OutOfFuel {A}.

Definition rbind {A B : Type} (m : result A) (k : A -> result B) : result B :=
  match m with
  | Ok a => k a
  | Abort => Abort
  | OutOfFuel => OutOfFuel
  end.

(** The allocator: the addresses the next calls of [calloc] and
    [aligned_alloc] return.  An empty supply is a failed allocation, which
    [xcalloc] and [aligned_xalloc] turn into a failed [assert]. *)
Definition heap : Type := list Z.

Definition M (A : Type) : Type := heap -> result (A * heap).

Definition ret {A : Type} (a : A) : M A := fun hp => Ok (a, hp).

Definition bind {A B : Type} (m : M A) (k : A -> M B) : M B :=
  fun hp =>
    match m hp with
    | Ok (a, hp') => k a hp'
    | Abort => Abort
    | OutOfFuel => OutOfFuel
    end.

Definition lift {A : Type} (r : result A) : M A :=
  fun hp => rbind r (fun a => Ok (a, hp)).

Definition abort {A : Type} : M A := fun _ => Abort.

Definition xalloc : M Z :=
  fun hp =>
    match hp with
    | [] => Abort
    | addr :: hp' => Ok (addr, hp')
    end.

Notation "'let*' x ':=' m 'in' k" := (bind m (fun x => k))
  (at level 10, x name, m at level 100, k at level 200).

Fixpoint foldM {A B : Type} (f : A -> B -> M A) (l : list B) (a : A) : M A :=
  match l with
  | [] => ret a
  | x :: l' => let* a' := f a x in foldM f l' a'
  end.

(** ** binary64 arithmetic

    Only positive finite values far from the subnormal and overflow ranges
    occur ([0.67], [4.0], table sizes and their products and quotients), so
    a value is [mant * 2 ^ expo] and an operation is the exact rational
    result rounded to 53 significant bits, ties to even. *)

Record double : Type := { mant : Z; expo : Z }.

(** [floor (log2 (p / q))] for positive [p] and [q]. *)
Definition ilog2_ratio (p q : Z) : Z :=
  let d := Z.log2 p - Z.log2 q in
  if (if 0 <=? d then q * 2 ^ d <=? p else q <=? p * 2 ^ (- d))
  then d else d - 1.

(** The integer nearest to [num / den], ties to even. *)
Definition round_ne (num den : Z) : Z :=
  let m := num / den in
  let r := num mod den in
  if (den <? 2 * r) || ((2 * r =? den) && Z.odd m) then m + 1 else m.

(** The binary64 value nearest to the rational [p / q]. *)
Definition round53 (p q : Z) : double :=
  if p =? 0 then {| mant := 0; expo := 0 |}
  else
    let e := ilog2_ratio p q - 52 in
    {| mant := if 0 <=? e then round_ne p (q * 2 ^ e)
               else round_ne (p * 2 ^ (- e)) q;
       expo := e |}.

Definition double_of_size_t (n : Z) : double := round53 n 1.

Definition dmul (a b : double) : double :=
  let e := expo a + expo b in
  round53 (mant a * mant b * 2 ^ Z.max 0 e) (2 ^ Z.max 0 (- e)).

Definition ddiv (a b : double) : double :=
  let e := expo a - expo b in
  round53 (mant a * 2 ^ Z.max 0 e) (mant b * 2 ^ Z.max 0 (- e)).

(** Conversion to an integer truncates; the C conversion is undefined when
    the value does not fit the target type. *)
Definition trunc_double (a : double) : Z :=
  if 0 <=? expo a then mant a * 2 ^ expo a else mant a / 2 ^ (- expo a).

(** ** Constants of h64.c *)

Definition L1CACHE_LINE_SIZE : Z := 64.
Definition DEFAULT_SIZE : Z := 4.
Definition MIN_SIZE : Z := DEFAULT_SIZE.
Definition GROUP_ENTRIES : Z := 7.
Definition ENTRIES_MASK : Z := 0x7F.
Definition CHAR_BIT : Z := 8.

Definition MAX_LOAD_FACTOR : double := round53 67 100.
Definition MIN_LOAD_FACTOR : double := ddiv MAX_LOAD_FACTOR (round53 4 1).

(** ** utils.h *)

Definition mixer64 (n : Z) : Z :=
  let z := 0x9FB21C651E98DF25 in
  let n := Z.lxor n (Z.lxor (Z.lor (u64 (Z.shiftl n 49)) (Z.shiftr n 15))
                            (Z.lor (u64 (Z.shiftl n 24)) (Z.shiftr n 40))) in
  let n := u64 (n * z) in
  let n := Z.lxor n (Z.shiftr n 35) in
  let n := u64 (n * z) in
  let n := Z.lxor n (Z.shiftr n 28) in
  n.

Definition roundup_to_pow2 (n : Z) : Z :=
  let n := u64 (n - 1) in
  let n := Z.lor n (Z.shiftr n 1) in
  let n := Z.lor n (Z.shiftr n 2) in
  let n := Z.lor n (Z.shiftr n 4) in
  let n := Z.lor n (Z.shiftr n 8) in
  let n := Z.lor n (Z.shiftr n 16) in
  let n := Z.lor n (Z.shiftr n 32) in
  u64 (n + 1).

Definition is_power_of_2 (n : Z) : bool := Z.land n (u64 (n - 1)) =? 0.

(** ** Groups *)

Record h64_group : Type := {
  status : Z;
  hints : list Z;
  entries : list Z
}.

Definition group_was_full (group : h64_group) : Z :=
  Z.shiftr (status group) (CHAR_BIT - 1).

Definition group_is_full (group : h64_group) : bool :=
  Z.land (status group) ENTRIES_MASK =? ENTRIES_MASK.

Definition group_insert (group : h64_group) (entry hint idx : Z)
  : result h64_group :=
  if negb (idx <? GROUP_ENTRIES) then Abort
  else match entries group !! Z.to_nat idx with
       | None => Abort
       | Some old =>
         if negb (old =? NULL) then Abort
         else if negb (Z.land (Z.shiftr (status group) idx) 1 =? 0) then Abort
         else
           let group1 :=
             {| status := u8 (Z.lor (status group) (Z.shiftl 1 idx));
                hints := <[Z.to_nat idx := hint]> (hints group);
                entries := <[Z.to_nat idx := entry]> (entries group) |} in
           if group_is_full group1
           then Ok {| status := 0xFF;
                      hints := hints group1;
                      entries := entries group1 |}
           else Ok group1
       end.

Definition group_update (group : h64_group) (entry idx : Z)
  : result h64_group :=
  if negb (idx <? GROUP_ENTRIES) then Abort
  else if negb (Z.land (Z.shiftr (status group) idx) 1 =? 1) then Abort
  else Ok {| status := status group;
             hints := hints group;
             entries := <[Z.to_nat idx := entry]> (entries group) |}.

Definition group_erase_entry (group : h64_group) (idx : Z)
  : result (Z * h64_group) :=
  if negb (idx <? GROUP_ENTRIES) then Abort
  else match entries group !! Z.to_nat idx with
       | None => Abort
       | Some entry =>
         Ok (entry,
             {| status := u8 (Z.land (status group) (Z.lnot (Z.shiftl 1 idx)));
                hints := <[Z.to_nat idx := 0]> (hints group);
                entries := <[Z.to_nat idx := NULL]> (entries group) |})
       end.

(** [_mm_cmpeq_epi8] followed by [_mm_movemask_epi8]: bit [i] of the answer
    says whether lane [i] holds the target byte. *)
Fixpoint cmpeq_movemask (target : Z) (lanes : list Z) : Z :=
  match lanes with
  | [] => 0
  | b :: rest =>
    Z.lor (if b =? target then 1 else 0)
          (Z.shiftl (cmpeq_movemask target rest) 1)
  end.

(** The 16-byte load covers the seven hints and nine bytes of [entries];
    the mask [0x7F] drops lanes 7 to 15, so only the hints are compared. *)
Definition group_match_inserted (group : h64_group) (hint : Z) : Z :=
  Z.land (Z.land (cmpeq_movemask hint (hints group)) (status group)) 0x7F.

Definition empty_group : h64_group :=
  {| status := 0;
     hints := replicate 7 0;
     entries := replicate 7 NULL |}.


(** ** The table *)

Record h64 : Type := {
  hasher : Z -> Z -> Z;
  equals : Z -> Z -> Z;
  seed : Z;
  groups : list h64_group;
  size_in_groups : Z;
  count : Z
}.

(** [sizeof(struct h64_group)], which h64.h asserts to be 64. *)
Definition sizeof_group : Z := 64.

(** [h64_init] leaves through its [h] argument a table that says it has
    [size] groups.  The byte count [size * sizeof(struct h64_group)] is a
    [size_t]: from [2 ^ 58] groups on it wraps around, and the array that
    [aligned_alloc] and [memset] make holds the groups that fit the
    wrapped count, none for a power of two. *)
Definition h64_init (size : Z) (hasher : Z -> Z -> Z) (equals : Z -> Z -> Z)
  : M h64 :=
  if negb (is_power_of_2 size) then abort
  else
    let size := if size <? MIN_SIZE then MIN_SIZE else size in
    let bytes := u64 (size * sizeof_group) in
    let* addr := xalloc in
    ret {| hasher := hasher;
           equals := equals;
           seed := mixer64 addr;
           groups := replicate (Z.to_nat (bytes / sizeof_group)) empty_group;
           size_in_groups := size;
           count := 0 |}.

(** Function pointers cannot be [NULL] in this model, which discharges the
    two asserts; the table record itself comes from [xcalloc]. *)
Definition h64_create (hasher : Z -> Z -> Z) (equals : Z -> Z -> Z) : M h64 :=
  let* _ := xalloc in
  h64_init DEFAULT_SIZE hasher equals.

Definition h64_hash (h : h64) (entry : Z) : Z :=
  u64 (hasher h entry (seed h)).

Definition h64_equals (h : h64) (lhs rhs : Z) : bool :=
  negb (equals h lhs rhs =? 0).

Definition hash_hint (hash : Z) : Z :=
  u8 (Z.shiftr hash (CHAR_BIT * 7)).

(** ** Quadratic probing *)

Record probe_sequence : Type := {
  start : Z;
  iteration : Z;
  size_mask : Z
}.

Definition ps_init (hash size : Z) : probe_sequence :=
  {| start := Z.land hash (u64 (size - 1));
     iteration := 0;
     size_mask := u64 (size - 1) |}.

Definition ps_next (ps : probe_sequence) : probe_sequence :=
  {| start := start ps;
     iteration := u64 (iteration ps + 1);
     size_mask := size_mask ps |}.

Definition ps_position (ps : probe_sequence) : Z :=
  let s := start ps in
  let i := iteration ps in
  let mask := size_mask ps in
  Z.land (u64 (s + u64 (i * u64 (i + 1)) / 2)) mask.

(** ** Lookup *)

(** [group] is the position of the group pointed to, [None] for [NULL]. *)
Record find_result : Type := {
  fr_group : option Z;
  fr_index : Z;
  fr_found : bool
}.

Definition find_result_init (group : option Z) (index : Z) (found : bool)
  : find_result :=
  {| fr_group := group; fr_index := index; fr_found := found |}.

(** The inner loop of [h64_find_entry] over the set bits of [match_byte];
    a byte has eight bits, so eight rounds always suffice. *)
Fixpoint scan_matches (n : nat) (h : h64) (entry : Z) (entries : list Z)
    (match_byte : Z) : result (option Z) :=
  if match_byte =? 0 then Ok None
  else match n with
       | O => OutOfFuel
       | S n' =>
         let match_bit := u8 (Z.land match_byte (- match_byte)) in
         let idx := u8 (builtin_ctz match_byte) in
         match entries !! Z.to_nat idx with
         | None => Abort
         | Some stored =>
           if h64_equals h entry stored then Ok (Some idx)
           else scan_matches n' h entry entries (Z.lxor match_byte match_bit)
         end
       end.

Fixpoint find_entry_loop (fuel : nat) (h : h64) (entry hint : Z)
    (seq : probe_sequence) : result find_result :=
  match fuel with
  | O => OutOfFuel
  | S fuel' =>
    let position := ps_position seq in
    match groups h !! Z.to_nat position with
    | None => Abort
    | Some group =>
      let match_byte := group_match_inserted group hint in
      match scan_matches 8 h entry (entries group) match_byte with
      | Ok (Some idx) => Ok (find_result_init (Some position) idx true)
      | Ok None =>
        if group_was_full group =? 0
        then Ok (find_result_init None (u64 (-1)) false)
        else find_entry_loop fuel' h entry hint (ps_next seq)
      | Abort => Abort
      | OutOfFuel => OutOfFuel
      end
    end
  end.

Definition h64_find_entry (fuel : nat) (h : h64) (entry hash : Z)
  : result find_result :=
  find_entry_loop fuel h entry (hash_hint hash)
                  (ps_init hash (size_in_groups h)).

Fixpoint find_empty_loop (fuel : nat) (h : h64) (seq : probe_sequence)
  : result find_result :=
  match fuel with
  | O => OutOfFuel
  | S fuel' =>
    let position := ps_position seq in
    match groups h !! Z.to_nat position with
    | None => Abort
    | Some group =>
      if negb (group_is_full group)
      then Ok (find_result_init (Some position)
                                (builtin_ctz (Z.lnot (status group))) true)
      else find_empty_loop fuel' h (ps_next seq)
    end
  end.

Definition h64_find_empty_entry (fuel : nat) (h : h64) (hash : Z)
  : result find_result :=
  find_empty_loop fuel h (ps_init hash (size_in_groups h)).

(** [result.group->entries[result.index]] *)
Definition deref_entry (h : h64) (r : find_result) : result Z :=
  match fr_group r with
  | None => Abort
  | Some position =>
    match groups h !! Z.to_nat position with
    | None => Abort
    | Some group =>
      match entries group !! Z.to_nat (fr_index r) with
      | None => Abort
      | Some entry => Ok entry
      end
    end
  end.

Definition h64_find (fuel : nat) (h : h64) (entry : Z) : result Z :=
  let hash := h64_hash h entry in
  rbind (h64_find_entry fuel h entry hash) (fun r =>
  if fr_found r then deref_entry h r else Ok NULL).

(** ** Load factor *)

Definition h64_should_grow_up (h : h64) : bool :=
  let max_count :=
    trunc_double (dmul MAX_LOAD_FACTOR
      (double_of_size_t (u64 (size_in_groups h * GROUP_ENTRIES)))) in
  max_count <? count h.

Definition h64_should_grow_down (h : h64) : bool :=
  let min_count :=
    trunc_double (dmul MIN_LOAD_FACTOR
      (double_of_size_t (u64 (size_in_groups h * GROUP_ENTRIES)))) in
  (count h <? min_count) && (MIN_SIZE <? size_in_groups h).

(** ** Mutation *)

Definition with_groups (h : h64) (gs : list h64_group) : h64 :=
  {| hasher := hasher h; equals := equals h; seed := seed h;
     groups := gs; size_in_groups := size_in_groups h; count := count h |}.

Definition with_count (h : h64) (c : Z) : h64 :=
  {| hasher := hasher h; equals := equals h; seed := seed h;
     groups := groups h; size_in_groups := size_in_groups h; count := c |}.

(** [f(result.group, ...)] for a group operation [f] that writes through
    the pointer [result.group]. *)
Definition on_group {A : Type} (h : h64) (r : find_result)
    (f : h64_group -> result (A * h64_group)) : result (A * h64) :=
  match fr_group r with
  | None => Abort
  | Some position =>
    match groups h !! Z.to_nat position with
    | None => Abort
    | Some group =>
      rbind (f group) (fun ag =>
      Ok (ag.1, with_groups h (<[Z.to_nat position := ag.2]> (groups h))))
    end
  end.

Definition insert_at (h : h64) (r : find_result) (entry hint : Z)
  : result h64 :=
  rbind (on_group h r (fun group =>
           rbind (group_insert group entry hint (fr_index r))
                 (fun g => Ok (tt, g))))
        (fun uh => Ok uh.2).

Definition update_at (h : h64) (r : find_result) (entry : Z) : result h64 :=
  rbind (on_group h r (fun group =>
           rbind (group_update group entry (fr_index r))
                 (fun g => Ok (tt, g))))
        (fun uh => Ok uh.2).

Definition erase_at (h : h64) (r : find_result) : result (Z * h64) :=
  on_group h r (fun group => group_erase_entry group (fr_index r)).

(** The entries [h64_for_each] hands to its body, in its order: groups
    [0 .. size_in_groups - 1], slots [0 .. 6], non-[NULL] entries only. *)
Definition h64_for_each (h : h64) : list Z :=
  filter (fun entry => entry <> NULL)
         (concat (map (fun group => take 7 (entries group))
                      (take (Z.to_nat (size_in_groups h)) (groups h)))).

(** [h64_resize], with the function it calls on every entry as a
    parameter.  The loop of [h64_for_each] reads the groups
    [0 .. size_in_groups - 1] of [h]; over an array that is shorter than
    that the reads are out of bounds.  The table left in [h] after
    [h64_swap] is [tmp]; [h64_free] releases the old array. *)
Definition resize_with (insert_new : h64 -> Z -> M h64) (h : h64) (size : Z)
  : M h64 :=
  if negb (is_power_of_2 size) then abort
  else
    let* tmp := h64_init size (hasher h) (equals h) in
    if Z.of_nat (length (groups h)) <? size_in_groups h then abort
    else foldM insert_new (h64_for_each h) tmp.

Fixpoint h64_insert_new (fuel : nat) (h : h64) (entry : Z) : M h64 :=
  match fuel with
  | O => fun _ => OutOfFuel
  | S fuel' =>
    let* h := (if h64_should_grow_up h
               then resize_with (h64_insert_new fuel') h
                                (u64 (size_in_groups h * 2))
               else ret h) in
    let hash := h64_hash h entry in
    let hint := hash_hint hash in
    let* r := lift (h64_find_empty_entry fuel' h hash) in
    let* h := lift (insert_at h r entry hint) in
    ret (with_count h (u64 (count h + 1)))
  end.

Definition h64_resize (fuel : nat) (h : h64) (size : Z) : M h64 :=
  resize_with (h64_insert_new fuel) h size.

Definition h64_grow_up (fuel : nat) (h : h64) : M h64 :=
  h64_resize fuel h (u64 (size_in_groups h * 2)).

Definition h64_grow_down (fuel : nat) (h : h64) : M h64 :=
  h64_resize fuel h (size_in_groups h / 2).

Definition h64_reserve (fuel : nat) (h : h64) (entries_count : Z) : M h64 :=
  let total_entries :=
    trunc_double (ddiv (double_of_size_t entries_count) MAX_LOAD_FACTOR) in
  if 2 ^ 64 <=? total_entries then abort
  else
    let size_in_groups :=
      roundup_to_pow2 (u64 (total_entries / GROUP_ENTRIES + 1)) in
    h64_resize fuel h size_in_groups.

Definition h64_insert (fuel : nat) (h : h64) (entry : Z) : M h64 :=
  let* h := (if h64_should_grow_up h then h64_grow_up fuel h else ret h) in
  let hash := h64_hash h entry in
  let hint := hash_hint hash in
  let* r := lift (h64_find_entry fuel h entry hash) in
  if fr_found r then lift (update_at h r entry)
  else
    let* r := lift (h64_find_empty_entry fuel h hash) in
    let* h := lift (insert_at h r entry hint) in
    ret (with_count h (u64 (count h + 1))).

Definition h64_erase (fuel : nat) (h : h64) (entry : Z) : M (Z * h64) :=
  let hash := h64_hash h entry in
  let* r := lift (h64_find_entry fuel h entry hash) in
  if fr_found r then
    let* eh := lift (erase_at h r) in
    let h := with_count eh.2 (u64 (count eh.2 - 1)) in
    let* h := (if h64_should_grow_down h then h64_grow_down fuel h
               else ret h) in
    ret (eh.1, h)
  else ret (NULL, h).

Definition h64_count (h : h64) : Z := count h.

(** ** Sequences of public operations *)

Inductive op : Type :=
| OpInsert (entry : Z)
| OpInsertNew (entry : Z)
| OpErase (entry : Z)
| OpReserve (entries_count : Z).

Definition run_op (fuel : nat) (o : op) (h : h64) : M h64 :=
  match o with
  | OpInsert entry => h64_insert fuel h entry
  | OpInsertNew entry => h64_insert_new fuel h entry
  | OpErase entry => let* eh := h64_erase fuel h entry in ret eh.2
  | OpReserve n => h64_reserve fuel h n
  end.

Fixpoint run_ops (fuel : nat) (os : list op) (h : h64) : M h64 :=
  match os with
  | [] => ret h
  | o :: os' => let* h' := run_op fuel o h in run_ops fuel os' h'
  end.

(** What a caller may pass: elements are not [NULL], a size is a [size_t].
    In [strict] use [h64_insert_new] is only called with an entry that
    equals no entry of the table, as its documentation asks. *)
Definition op_valid (strict : bool) (h : h64) (o : op) : Prop :=
  match o with
  | OpInsert entry => entry <> NULL
  | OpInsertNew entry =>
    entry <> NULL /\
    (strict = true ->
     forall x, x ∈ h64_for_each h -> h64_equals h entry x = false)
  | OpErase entry => True
  | OpReserve n => 0 <= n < 2 ^ 64
  end.

(** [reachable strict hasher equals trace h]: [h] is the table that
    [h64_create hasher equals] followed by the operations of [trace], all
    of which returned, leaves. *)
Inductive reachable (strict : bool) (hs eq : Z -> Z -> Z)
  : list op -> h64 -> Prop :=
| reach_create hp h hp' :
    h64_create hs eq hp = Ok (h, hp') ->
    reachable strict hs eq [] h
| reach_step tr h o fuel hp h' hp' :
    reachable strict hs eq tr h ->
    op_valid strict h o ->
    run_op fuel o h hp = Ok (h', hp') ->
    reachable strict hs eq (tr ++ [o]) h'.

(** The contract of the two callbacks (h64.h and section 6 of the
    specification): [equals] answers non-zero exactly on an equivalence
    relation, and equal elements have equal hashes under every seed. *)
Record callbacks_ok (hs eq : Z -> Z -> Z) : Prop := {
  equals_refl : forall a, eq a a <> 0;
  equals_sym : forall a b, eq a b <> 0 -> eq b a <> 0;
  equals_trans : forall a b c, eq a b <> 0 -> eq b c <> 0 -> eq a c <> 0;
  equals_hash : forall a b s, eq a b <> 0 -> hs a s = hs b s
}.

(** ** Vocabulary of the invariants *)

Definition popcount (x : Z) : Z :=
  foldr (fun i acc => Z.b2z (Z.testbit x (Z.of_nat i)) + acc) 0 (seq 0 8).

Definition occupancy (group : h64_group) : Z :=
  popcount (Z.land (status group) ENTRIES_MASK).

Definition occupancy_sum (gs : list h64_group) : Z :=
  foldr (fun group acc => occupancy group + acc) 0 gs.

Definition non_null_entries (group : h64_group) : Z :=
  Z.of_nat (length (filter (fun entry => entry <> NULL) (entries group))).

(** The group invariant and the table invariant as the specification
    words them. *)
Definition group_invariant (h : h64) (group : h64_group) : Prop :=
  occupancy group = non_null_entries group /\
  (Z.land (status group) ENTRIES_MASK = ENTRIES_MASK ->
   Z.testbit (status group) 7 = true) /\
  (forall (i : nat) entry,
     Z.testbit (status group) (Z.of_nat i) = true -> (i < 7)%nat ->
     entries group !! i = Some entry ->
     hints group !! i = Some (Z.shiftr (h64_hash h entry) 56)).

Definition table_invariant (h : h64) : Prop :=
  Forall (group_invariant h) (groups h) /\
  occupancy_sum (groups h) = count h.

(** Slot [idx] of the group at [pos] holds the element [entry]. *)
Definition stored (h : h64) (pos idx : nat) (entry : Z) : Prop :=
  exists group,
    groups h !! pos = Some group /\
    entries group !! idx = Some entry /\ entry <> NULL.

(** The first element of [l] that satisfies [f]. *)
Fixpoint first_hit (f : Z -> bool) (l : list Z) : option Z :=
  match l with
  | [] => None
  | i :: l' => if f i then Some i else first_hit f l'
  end.

(** Whether slot [i] of a list of entries holds an element that [equals]
    identifies with [entry]. *)
Definition slot_equals (h : h64) (entry : Z) (ents : list Z) (i : Z) : bool :=
  match ents !! Z.to_nat i with
  | Some stored => h64_equals h entry stored
  | None => false
  end.

(** The lowest slot of a group that is present, carries [hint] and holds
    an element equal to [entry]. *)
Definition group_lookup (h : h64) (entry hint : Z) (group : h64_group)
  : option Z :=
  first_hit (fun i => Z.testbit (group_match_inserted group hint) i
                      && slot_equals h entry (entries group) i)
            (seqZ 0 7).

(** The thresholds [h64_should_grow_up] and [h64_should_grow_down]
    compute for a table of [size] groups. *)
Definition max_count (size : Z) : Z :=
  trunc_double (dmul MAX_LOAD_FACTOR
    (double_of_size_t (u64 (size * GROUP_ENTRIES)))).

Definition min_count (size : Z) : Z :=
  trunc_double (dmul MIN_LOAD_FACTOR
    (double_of_size_t (u64 (size * GROUP_ENTRIES)))).

(** The probe sequence of [hash] after [j] calls of [ps_next], and the
    group it visits then. *)
Definition probe_seq (h : h64) (hash : Z) (j : nat) : probe_sequence :=
  Nat.iter j ps_next (ps_init hash (size_in_groups h)).

Definition probe_at (h : h64) (hash : Z) (j : nat) : Z :=
  ps_position (probe_seq h hash j).

Definition was_full_at (h : h64) (pos : Z) : Prop :=
  exists group,
    groups h !! Z.to_nat pos = Some group /\ group_was_full group = 1.

(** [pos] lies on the probe path of [entry], behind groups that all have
    their was-full bit set. *)
Definition on_path (h : h64) (entry : Z) (pos : nat) : Prop :=
  exists j : nat,
    Z.of_nat j < size_in_groups h /\
    probe_at h (h64_hash h entry) j = Z.of_nat pos /\
    forall i : nat,
      (i < j)%nat -> was_full_at h (probe_at h (h64_hash h entry) i).

(** Whether the loop of [h64_find_entry] leaves at the group at [pos]:
    it found an equal element there, or the group was never full. *)
Definition entry_halts (h : h64) (entry hint : Z) (pos : Z) : bool :=
  match groups h !! Z.to_nat pos with
  | Some group =>
    match group_lookup h entry hint group with
    | Some _ => true
    | None => group_was_full group =? 0
    end
  | None => true
  end.

(** What the loop of [h64_find_entry] answers when it leaves at [pos]. *)
Definition entry_answer (h : h64) (entry hint : Z) (pos : Z)
  : result find_result :=
  match groups h !! Z.to_nat pos with
  | Some group =>
    match group_lookup h entry hint group with
    | Some idx => Ok (find_result_init (Some pos) idx true)
    | None => Ok (find_result_init None (u64 (-1)) false)
    end
  | None => Abort
  end.

(** The same for the loop of [h64_find_empty_entry], which leaves at the
    first group that is not full. *)
Definition empty_halts (h : h64) (pos : Z) : bool :=
  match groups h !! Z.to_nat pos with
  | Some group => negb (group_is_full group)
  | None => true
  end.

Definition empty_answer (h : h64) (pos : Z) : result find_result :=
  match groups h !! Z.to_nat pos with
  | Some group =>
    Ok (find_result_init (Some pos) (builtin_ctz (Z.lnot (status group))) true)
  | None => Abort
  end.

Record group_wf (h : h64) (group : h64_group) : Prop := {
  wf_status : 0 <= status group < 256;
  wf_hints : length (hints group) = 7%nat;
  wf_entries : length (entries group) = 7%nat;
  wf_present : forall (i : nat) entry,
      entries group !! i = Some entry ->
      Z.testbit (status group) (Z.of_nat i) = bool_decide (entry <> NULL);
  wf_full : group_is_full group = true -> group_was_full group = 1;
  wf_hint : forall (i : nat) entry,
      entries group !! i = Some entry -> entry <> NULL ->
      hints group !! i = Some (hash_hint (h64_hash h entry))
}.

Record table_wf (h : h64) : Prop := {
  wf_size : exists k, 2 <= k <= 57 /\ size_in_groups h = 2 ^ k;
  wf_length : length (groups h) = Z.to_nat (size_in_groups h);
  wf_groups : forall pos group,
      groups h !! pos = Some group -> group_wf h group;
  wf_count : count h = occupancy_sum (groups h);
  wf_load : count h <= max_count (size_in_groups h) + 1;
  wf_path : forall pos idx entry, stored h pos idx entry -> on_path h entry pos
}.

(** No two elements of a list are identified by [equals]. *)
Fixpoint distinct_keys (eq : Z -> Z -> Z) (l : list Z) : Prop :=
  match l with
  | [] => True
  | x :: l' => Forall (fun y => eq x y = 0) l' /\ distinct_keys eq l'
  end.

(** No two entries of the table are identified by [equals]. *)
Definition unique_keys (h : h64) : Prop :=
  distinct_keys (equals h) (h64_for_each h).

(** ** The effect of the mutators, written out *)

(** The status byte [group_insert] leaves. *)
Definition status_after_insert (s i : Z) : Z :=
  let s1 := u8 (Z.lor s (Z.shiftl 1 i)) in
  if Z.land s1 ENTRIES_MASK =? ENTRIES_MASK then 0xFF else s1.

Definition status_after_erase (s i : Z) : Z :=
  u8 (Z.land s (Z.lnot (Z.shiftl 1 i))).

(** The group [group_insert], [group_update] and [group_erase_entry]
    leave. *)
Definition group_after_insert (h : h64) (group : h64_group) (entry idx : Z)
  : h64_group :=
  {| status := status_after_insert (status group) idx;
     hints := <[Z.to_nat idx := hash_hint (h64_hash h entry)]> (hints group);
     entries := <[Z.to_nat idx := entry]> (entries group) |}.

Definition group_after_update (group : h64_group) (entry idx : Z)
  : h64_group :=
  {| status := status group;
     hints := hints group;
     entries := <[Z.to_nat idx := entry]> (entries group) |}.

Definition group_after_erase (group : h64_group) (idx : Z) : h64_group :=
  {| status := status_after_erase (status group) idx;
     hints := <[Z.to_nat idx := 0]> (hints group);
     entries := <[Z.to_nat idx := NULL]> (entries group) |}.

(** All entries of a group array, slot by slot, [NULL] included. *)
Definition flat_entries (gs : list h64_group) : list Z :=
  concat (map entries gs).

(** The steps [h64_insert_new] and the not-found branch of [h64_insert]
    share: find a free slot, fill it, count. *)
Definition install_new (fuel : nat) (h : h64) (entry : Z) : M h64 :=
  let hash := h64_hash h entry in
  let hint := hash_hint hash in
  let* r := lift (h64_find_empty_entry fuel h hash) in
  let* h := lift (insert_at h r entry hint) in
  ret (with_count h (u64 (count h + 1))).

(** The table with the group at [pos] replaced and the count set. *)
Definition table_update (h : h64) (pos : nat) (group : h64_group) (c : Z)
  : h64 :=
  with_count (with_groups h (<[pos := group]> (groups h))) c.

(** Only full groups have their was-full bit set: the table has seen no
    erase since its group array was made. *)
Definition pristine (h : h64) : Prop :=
  forall (pos : nat) group,
    groups h !! pos = Some group ->
    group_was_full group = 1 -> group_is_full group = true.

(** The table [h64_init] makes in an array at address [addr], for a size
    whose array fits. *)
Definition fresh_table (size : Z) (hs eq : Z -> Z -> Z) (addr : Z) : h64 :=
  {| hasher := hs; equals := eq; seed := mixer64 addr;
     groups := replicate (Z.to_nat (Z.max 4 size)) empty_group;
     size_in_groups := Z.max 4 size; count := 0 |}.

(** The table [h64_init] makes when the byte count of the array wraps
    around to [0]: it says [size] groups and its array holds none. *)
Definition hollow_table (size : Z) (hs eq : Z -> Z -> Z) (addr : Z) : h64 :=
  {| hasher := hs; equals := eq; seed := mixer64 addr;
     groups := []; size_in_groups := size; count := 0 |}.

(** A table without elements over an array of no bytes, of [2 ^ 58]
    groups or more by its [size_in_groups]. *)
Definition hollow (h : h64) : Prop :=
  groups h = [] /\ count h = 0 /\
  exists k, 58 <= k <= 63 /\ size_in_groups h = 2 ^ k.

(** [h'] is [h] with [entry] put into a free slot of a group on its
    probe path. *)
Definition installed (h : h64) (entry : Z) (h' : h64) : Prop :=
  exists (pos : nat) group idx,
    groups h !! pos = Some group /\
    0 <= idx < 7 /\
    Z.testbit (status group) idx = false /\
    on_path h entry pos /\
    h' = table_update h pos (group_after_insert h group entry idx)
                      (count h + 1).

(** What a call of [h64_resize] that returned has done. *)
Record resized (h : h64) (size : Z) (hp : heap) (h' : h64) (hp' : heap)
  : Prop := {
  rs_wf : table_wf h';
  rs_for_each : h64_for_each h' ≡ₚ h64_for_each h;
  rs_hasher : hasher h' = hasher h;
  rs_equals : equals h' = equals h;
  rs_pristine : pristine h';
  rs_heap : (length hp' < length hp)%nat;
  rs_pow2 : is_power_of_2 size = true;
  rs_fits : Z.max 4 size * 64 < 2 ^ 64;
  rs_exact :
    count h <= max_count (Z.max 4 size) + 1 ->
    size_in_groups h' = Z.max 4 size /\
    exists addr, hp = addr :: hp' /\ seed h' = mixer64 addr
}.

(** What a call of [h64_insert_new] that returned has done. *)
Record inserted_new (h : h64) (entry : Z) (hp : heap) (h' : h64)
    (hp' : heap) : Prop := {
  ins_wf : table_wf h';
  ins_for_each : h64_for_each h' ≡ₚ entry :: h64_for_each h;
  ins_hasher : hasher h' = hasher h;
  ins_equals : equals h' = equals h;
  ins_in_place :
    h64_should_grow_up h = false -> installed h entry h' /\ hp' = hp;
  ins_rehashed :
    h64_should_grow_up h = true ->
    exists h1,
      resized h (u64 (size_in_groups h * 2)) hp h1 hp' /\
      installed h1 entry h'
}.

(** No element of the table equals [probe]. *)
Definition absent (h : h64) (probe : Z) : Prop :=
  forall (pos idx : nat) x, stored h pos idx x -> h64_equals h probe x = false.

(** [h'] is [h] with the handle of an element equal to [entry] replaced
    by [entry]: one slot of [entries] changes, nothing else. *)
Definition overwritten (h : h64) (entry : Z) (h' : h64) : Prop :=
  exists (pos : nat) idx group x,
    groups h !! pos = Some group /\
    0 <= idx < 7 /\
    entries group !! Z.to_nat idx = Some x /\ x <> NULL /\
    h64_equals h entry x = true /\
    Z.testbit (status group) idx = true /\
    hints group !! Z.to_nat idx = Some (hash_hint (h64_hash h entry)) /\
    on_path h entry pos /\
    h' = table_update h pos (group_after_update group entry idx) (count h).

(** [h'] is [h] with the slot of [x], an element equal to [probe],
    cleared and the count decremented. *)
Definition erased (h : h64) (probe x : Z) (h' : h64) : Prop :=
  exists (pos : nat) idx group,
    groups h !! pos = Some group /\
    0 <= idx < 7 /\
    entries group !! Z.to_nat idx = Some x /\ x <> NULL /\
    h64_equals h probe x = true /\
    Z.testbit (status group) idx = true /\
    h' = table_update h pos (group_after_erase group idx) (count h - 1).

(** The size [h64_reserve] asks [h64_resize] for. *)
Definition reserve_size (entries_count : Z) : Z :=
  roundup_to_pow2
    (u64 (trunc_double (ddiv (double_of_size_t entries_count)
                             MAX_LOAD_FACTOR) / GROUP_ENTRIES + 1)).

(** The operation [o] neither erases nor overwrites an element that
    [equals] identifies with [x]. *)
Definition leaves_alone (eq : Z -> Z -> Z) (x : Z) (o : op) : Prop :=
  match o with
  | OpInsert entry => eq entry x = 0
  | OpErase entry => eq entry x = 0
  | OpInsertNew _ => True
  | OpReserve _ => True
  end.

(** The triangular numbers, the offsets of the probe sequence from its
    start. *)
Definition tri (i : Z) : Z := i * (i + 1) / 2.


(** [total_entries] of [h64_reserve]. *)
Definition reserve_total (entries_count : Z) : Z :=
  trunc_double (ddiv (double_of_size_t entries_count) MAX_LOAD_FACTOR).

(** The value of [a] is at most the value of [b], for doubles whose
    exponents are in that order. *)
Definition dle (a b : double) : Prop :=
  expo a <= expo b /\ mant a <= mant b * 2 ^ (expo b - expo a).

(** Whether an operation is an erase. *)
Definition is_erase (o : op) : bool :=
  match o with
  | OpErase _ => true
  | _ => false
  end.

(** The first step of [mixer64], [n ^ rotl(n, a) ^ rotl(n, b)], on the
    bits of a 64-bit [n]: bit [i] is the sum of the bits [i], [i - a] and
    [i - b], positions modulo 64. *)
Definition rot_xor (a b : Z) (f : Z -> bool) (i : Z) : bool :=
  xorb (f i) (xorb (f ((i - a) mod 64)) (f ((i - b) mod 64))).

(** ** [h64_byte_hash] (h64.h)

    The key is the list of the bytes of the object [key] points to; an
    access beyond them is [None].  The loads through [const uint64_t *]
    are little-endian, as on the x86 targets the intrinsics of h64.c ask
    for.  [len] is an [int], and may be negative: [len * m] is taken in
    [uint64_t], [len / 8] truncates toward zero and [len & 7] is taken
    on the two's complement, so that for [len] from [-7] to [-1] the
    loop is skipped and the [switch] reads [len & 7] bytes.  From [-8]
    down [end] lies before [data] and the loop runs off the key. *)

(** The constants [m] and [r] of [h64_byte_hash]. *)
Definition byte_hash_m : Z := 0xc6a4a7935bd1e995.
Definition byte_hash_r : Z := 47.

Definition le_bytes (bytes : list Z) : Z :=
  foldr (fun b acc => b + 256 * acc) 0 bytes.

(** [*data] *)
Definition load64 (data : list Z) : option Z :=
  if (length data <? 8)%nat then None else Some (le_bytes (take 8 data)).

(** The body of the [while] loop. *)
Definition byte_hash_round (h k : Z) : Z :=
  let k := u64 (k * byte_hash_m) in
  let k := Z.lxor k (Z.shiftr k byte_hash_r) in
  let k := u64 (k * byte_hash_m) in
  let h := Z.lxor h k in
  u64 (h * byte_hash_m).

(** The loop, [n] words from [data] on; it leaves [h] and the advanced
    pointer. *)
Fixpoint byte_hash_words (n : nat) (data : list Z) (h : Z)
  : option (Z * list Z) :=
  match n with
  | O => Some (h, data)
  | S n' =>
    match load64 data with
    | None => None
    | Some k => byte_hash_words n' (drop 8 data) (byte_hash_round h k)
    end
  end.

(** The [switch], entered at [case t] and falling through to [case 1],
    which ends with the multiplication. *)
Fixpoint byte_hash_tail (t : nat) (data2 : list Z) (h : Z) : option Z :=
  match t with
  | O => Some h
  | S t' =>
    match data2 !! t' with
    | None => None
    | Some b =>
      let h := Z.lxor h (u64 (Z.shiftl b (8 * Z.of_nat t'))) in
      match t' with
      | O => Some (u64 (h * byte_hash_m))
      | S _ => byte_hash_tail t' data2 h
      end
    end
  end.

Definition h64_byte_hash (key : list Z) (len seed : Z) : option Z :=
  if (len <? - 2 ^ 31) || (2 ^ 31 <=? len) || (Z.quot len 8 <? 0) then None
  else
    let h := Z.lxor seed (u64 (len * byte_hash_m)) in
    match byte_hash_words (Z.to_nat (Z.quot len 8)) key h with
    | None => None
    | Some (h, data2) =>
      match byte_hash_tail (Z.to_nat (Z.land len 7)) data2 h with
      | None => None
      | Some h =>
        let h := Z.lxor h (Z.shiftr h byte_hash_r) in
        let h := u64 (h * byte_hash_m) in
        let h := Z.lxor h (Z.shiftr h byte_hash_r) in
        Some h
      end
    end.

(** The bytes of a key are bytes. *)
Definition is_bytes (key : list Z) : Prop :=
  Forall (fun b => 0 <= b < 256) key.

(** The bytes of the C strings and of the [int] of the checks below. *)
Definition bytes_help : list Z := [104; 101; 108; 112].
Definition bytes_not_in_the_table : list Z :=
  [110; 111; 116; 32; 105; 110; 32; 116; 104; 101; 32; 116; 97; 98; 108; 101].
Definition bytes_ramp : list Z := (fun i => (17 * i + 200) mod 256) <$> seqZ 0 23.

(** ** h64_test.c

    [mem ptr] is the C string at [ptr], the bytes before its terminator:
    what [strcmp] compares and [strlen] counts. *)

Definition str_equals (mem : Z -> list Z) (ptr1 ptr2 : Z) : Z :=
  if bool_decide (mem ptr1 = mem ptr2) then 1 else 0.

Definition str_hash (mem : Z -> list Z) (ptr seed : Z) : Z :=
  match h64_byte_hash (mem ptr) (Z.of_nat (length (mem ptr))) seed with
  | Some hash => hash
  | None => 0
  end.

(** [assert(cond)] *)
Definition assert_that (cond : bool) : M unit :=
  if cond then ret tt else abort.

(** [h64_destroy] frees the group array and the table; the allocator of
    this model hands out addresses and keeps no account of the blocks. *)
Definition h64_destroy (h : h64) : M unit := ret tt.

(** [general_test], with the two callbacks and the addresses of the
    three string literals as parameters. *)
Definition general_test (fuel : nat) (hasher equals : Z -> Z -> Z)
    (str1 str2 not_in_the_table : Z) : M unit :=
  let* h64 := h64_create hasher equals in
  let* _ := assert_that (h64_count h64 =? 0) in
  let* found := lift (h64_find fuel h64 str1) in
  let* _ := assert_that (found =? NULL) in
  let* found := lift (h64_find fuel h64 str2) in
  let* _ := assert_that (found =? NULL) in
  let* h64 := h64_insert fuel h64 str1 in
  let* _ := assert_that (h64_count h64 =? 1) in
  let* found := lift (h64_find fuel h64 str1) in
  let* _ := assert_that (found =? str1) in
  let* eh := h64_erase fuel h64 str1 in
  let h64 := eh.2 in
  let* _ := assert_that (h64_count h64 =? 0) in
  let* found := lift (h64_find fuel h64 str1) in
  let* _ := assert_that (found =? NULL) in
  let* h64 := h64_insert fuel h64 str1 in
  let* _ := assert_that (h64_count h64 =? 1) in
  let* h64 := h64_insert fuel h64 str1 in
  let* _ := assert_that (h64_count h64 =? 1) in
  let* h64 := h64_insert fuel h64 str2 in
  let* _ := assert_that (h64_count h64 =? 2) in
  let* found := lift (h64_find fuel h64 str1) in
  let* _ := assert_that (found =? str1) in
  let* found := lift (h64_find fuel h64 str2) in
  let* _ := assert_that (found =? str2) in
  let* found := lift (h64_find fuel h64 not_in_the_table) in
  let* _ := assert_that (found =? NULL) in
  let* eh := h64_erase fuel h64 str2 in
  let h64 := eh.2 in
  let* _ := assert_that (h64_count h64 =? 1) in
  let* found := lift (h64_find fuel h64 str1) in
  let* _ := assert_that (found =? str1) in
  let* found := lift (h64_find fuel h64 str2) in
  let* _ := assert_that (found =? NULL) in
  let* eh := h64_erase fuel h64 str1 in
  let h64 := eh.2 in
  let* _ := assert_that (h64_count h64 =? 0) in
  let* found := lift (h64_find fuel h64 str1) in
  let* _ := assert_that (found =? NULL) in
  let* found := lift (h64_find fuel h64 str2) in
  let* _ := assert_that (found =? NULL) in
  h64_destroy h64.

(** Every was-full bit of the table is clear: no group has been full
    since the array was made. *)
Definition never_full (h : h64) : Prop :=
  forall (pos : nat) group,
    groups h !! pos = Some group -> group_was_full group = 0.

(** The state of the table between two statements of [general_test]:
    four groups, none ever full, holding the elements of [l]. *)
Record small_table (hs eq : Z -> Z -> Z) (h : h64) (l : list Z) : Prop := {
  st_wf : table_wf h;
  st_hasher : hasher h = hs;
  st_equals : equals h = eq;
  st_never_full : never_full h;
  st_size : size_in_groups h = 4;
  st_entries : h64_for_each h ≡ₚ l;
  st_distinct : distinct_keys eq l
}.

(** A memory with the three string literals of [general_test]. *)
Definition test_memory (ptr : Z) : list Z :=
  if ptr =? 1000 then [104; 101; 108; 112]
  else if ptr =? 2000 then [109; 101]
  else [110; 111; 116; 32; 105; 110; 32; 116; 104; 101; 32; 116; 97; 98;
        108; 101].

(** ** Callbacks and tables of the examples *)

(** A hasher that answers the address of the element, whatever the seed,
    and the equality of addresses. *)
Definition addr_hasher (entry seed : Z) : Z := entry.
Definition addr_equals (lhs rhs : Z) : Z := if lhs =? rhs then 1 else 0.

Definition example_heap : heap := replicate 16 4096.


(** The table a run of operations on a new table leaves; the default is
    never used in the examples. *)
Definition table_of_run (os : list op) : h64 :=
  match bind (h64_create addr_hasher addr_equals) (run_ops 8 os) example_heap
  with
  | Ok (h, _) => h
  | _ => fresh_table 4 addr_hasher addr_equals 0
  end.

Definition run_returns (os : list op) : bool :=
  match bind (h64_create addr_hasher addr_equals) (run_ops 8 os) example_heap
  with
  | Ok _ => true
  | _ => false
  end.

Definition inserts (first n : Z) : list op := OpInsert <$> seqZ first n.

(** Operations whose validity does not depend on the table. *)
Definition simple_op (o : op) : bool :=
  match o with
  | OpInsert entry => negb (entry =? NULL)
  | OpInsertNew _ => false
  | OpErase _ => true
  | OpReserve n => (0 <=? n) && (n <? 2 ^ 64)
  end.

(** Seven elements whose home group is [r], inserted and erased again. *)
Definition family (r : Z) : list Z :=
  (fun i => 4 * i + r + 4) <$> seqZ 0 7.

Definition fill_and_empty (r : Z) : list op :=
  (OpInsert <$> family r) ++ (OpErase <$> family r).

(** A run that fills and empties each of the four groups of a new table,
    and the table it leaves: empty, every was-full bit set. *)
Definition saturating_trace : list op :=
  fill_and_empty 0 ++ fill_and_empty 1 ++ fill_and_empty 2 ++ fill_and_empty 3.

Definition worn_group : h64_group :=
  {| status := 0x80; hints := replicate 7 0; entries := replicate 7 NULL |}.

Definition saturated_table : h64 :=
  {| hasher := addr_hasher; equals := addr_equals; seed := mixer64 4096;
     groups := replicate 4 worn_group; size_in_groups := 4; count := 0 |}.

(** The table after [OpInsert 1] on a new table. *)
Definition one_entry_table : h64 :=
  {| hasher := addr_hasher; equals := addr_equals; seed := mixer64 4096;
     groups := [empty_group;
                {| status := 1;
                   hints := [0; 0; 0; 0; 0; 0; 0];
                   entries := [1; 0; 0; 0; 0; 0; 0] |};
                empty_group; empty_group];
     size_in_groups := 4; count := 1 |}.

(** * Proofs *)

(** ** Running the monads *)

Lemma rbind_Ok {A B : Type} (m : result A) (k : A -> result B) (b : B) :
  rbind m k = Ok b -> exists a, m = Ok a /\ k a = Ok b.
Proof. destruct m; simpl; intros; try discriminate; eauto. Qed.

Lemma bind_Ok {A B : Type} (m : M A) (k : A -> M B) hp b hp' :
  bind m k hp = Ok (b, hp') ->
  exists a hp1, m hp = Ok (a, hp1) /\ k a hp1 = Ok (b, hp').
Proof.
  unfold bind. destruct (m hp) as [[a hp1]| |]; intros; try discriminate; eauto.
Qed.

Lemma lift_Ok {A : Type} (r : result A) hp a hp' :
  lift r hp = Ok (a, hp') -> r = Ok a /\ hp' = hp.
Proof.
  unfold lift. destruct r; simpl; intros H; inversion H; auto.
Qed.

Lemma ret_Ok {A : Type} (a : A) hp b hp' :
  ret a hp = Ok (b, hp') -> b = a /\ hp' = hp.
Proof. unfold ret. intros H; inversion H; auto. Qed.

Lemma bind_of_Ok {A B : Type} (m : M A) (k : A -> M B) hp a hp1 :
  m hp = Ok (a, hp1) -> bind m k hp = k a hp1.
Proof. unfold bind. intros ->. reflexivity. Qed.

Lemma lift_of_Ok {A : Type} (r : result A) hp a :
  r = Ok a -> lift r hp = Ok (a, hp).
Proof. intros ->. reflexivity. Qed.

(** Break a successful run into the successful runs of its steps. *)
Ltac run_inv H :=
  repeat match type of H with
  | bind _ _ _ = Ok _ =>
    let a := fresh "a" in let hp := fresh "hp" in let H1 := fresh "Hrun" in
    apply bind_Ok in H; destruct H as (a & hp & H1 & H); run_inv H1
  | lift _ _ = Ok _ =>
    let E := fresh "Ehp" in
    apply lift_Ok in H; destruct H as [H E]; try subst
  | ret _ _ = Ok _ =>
    let E1 := fresh "Eret" in let E2 := fresh "Ehp" in
    apply ret_Ok in H; destruct H as [E1 E2]; try subst
  | rbind _ _ = Ok _ =>
    let a := fresh "a" in let H1 := fresh "Hrun" in
    apply rbind_Ok in H; destruct H as (a & H1 & H)
  end.

(** ** Machine integers *)

Lemma u64_small x : 0 <= x < 2 ^ 64 -> u64 x = x.
Proof. intros. unfold u64. apply Z.mod_small. lia. Qed.

Lemma u64_range x : 0 <= u64 x < 2 ^ 64.
Proof. unfold u64. apply Z.mod_pos_bound. lia. Qed.

Lemma u8_small x : 0 <= x < 256 -> u8 x = x.
Proof. intros. unfold u8. apply Z.mod_small. lia. Qed.

Lemma u8_range x : 0 <= u8 x < 256.
Proof. unfold u8. change (2 ^ 8) with 256. apply Z.mod_pos_bound. lia. Qed.

Lemma pow2_le_mono a b : 0 <= a <= b -> 2 ^ a <= 2 ^ b.
Proof. intros. apply Z.pow_le_mono_r; lia. Qed.

Lemma pow2_pos a : 0 <= a -> 0 < 2 ^ a.
Proof. intros. apply Z.pow_pos_nonneg; lia. Qed.

Lemma pow2_lt_mono a b : 0 <= a < b -> 2 ^ a < 2 ^ b.
Proof. intros. apply Z.pow_lt_mono_r; lia. Qed.

Lemma land_mask x k : 0 <= k -> Z.land x (2 ^ k - 1) = x mod 2 ^ k.
Proof.
  intros. replace (2 ^ k - 1) with (Z.ones k).
  - apply Z.land_ones; lia.
  - rewrite Z.ones_equiv. lia.
Qed.

Lemma mod_pow2_mod_pow2 x a b : 0 <= b <= a -> (x mod 2 ^ a) mod 2 ^ b = x mod 2 ^ b.
Proof.
  intros. apply Z.mod_mod_divide.
  exists (2 ^ (a - b)). rewrite <- Z.pow_add_r by lia. f_equal. lia.
Qed.

(** ** The probe sequence *)

Lemma tri_double i : 2 * tri i = i * (i + 1).
Proof.
  unfold tri.
  assert (E : (i * (i + 1)) mod 2 = 0).
  { rewrite Z.mul_mod by lia.
    rewrite Z.add_mod by lia.
    pose proof (Z.mod_pos_bound i 2 ltac:(lia)).
    assert (C : i mod 2 = 0 \/ i mod 2 = 1) by lia.
    destruct C as [-> | ->]; reflexivity. }
  pose proof (Z.div_mod (i * (i + 1)) 2 ltac:(lia)). lia.
Qed.

Lemma tri_nonneg i : 0 <= i -> 0 <= tri i.
Proof. intros. pose proof (tri_double i). nia. Qed.

Lemma tri_succ i : tri (i + 1) = tri i + i + 1.
Proof. pose proof (tri_double i). pose proof (tri_double (i + 1)). nia. Qed.

(** Halving after a 64-bit wrap keeps the low 63 bits of the half. *)
Lemma half_of_wrapped x : (x mod 2 ^ 64) / 2 = (x / 2) mod 2 ^ 63.
Proof.
  change (2 ^ 64) with (2 * 2 ^ 63).
  rewrite Z.rem_mul_r by lia.
  pose proof (Z.mod_pos_bound x 2 ltac:(lia)).
  replace (x mod 2 + 2 * ((x / 2) mod 2 ^ 63))
    with ((x / 2) mod 2 ^ 63 * 2 + x mod 2) by lia.
  rewrite Z.div_add_l by lia.
  rewrite (Z.div_small (x mod 2) 2) by lia. lia.
Qed.

(** The position is the start plus a triangular number, modulo the size;
    the wrap-around of [i * (i + 1)] does not show for sizes up to 2^63. *)
Lemma ps_position_tri k s i :
  0 <= k <= 63 -> 0 <= i < 2 ^ 64 - 1 ->
  ps_position {| start := s; iteration := i; size_mask := 2 ^ k - 1 |}
  = (s + tri i) mod 2 ^ k.
Proof.
  intros Hk Hi. unfold ps_position. simpl.
  rewrite land_mask by lia.
  rewrite (u64_small (i + 1)) by lia.
  unfold u64 at 1. rewrite (mod_pow2_mod_pow2 _ 64 k) by lia.
  unfold u64. rewrite half_of_wrapped. fold (tri i).
  rewrite Z.add_mod by (apply Z.pow_nonzero; lia).
  rewrite (mod_pow2_mod_pow2 _ 63 k) by lia.
  rewrite <- Z.add_mod by (apply Z.pow_nonzero; lia).
  reflexivity.
Qed.

Lemma odd_mul_even a c : a mod 2 = 1 -> (a * c) mod 2 = 0 -> c mod 2 = 0.
Proof.
  intros Ha H. rewrite Z.mul_mod, Ha in H by lia.
  pose proof (Z.mod_pos_bound c 2 ltac:(lia)).
  assert (C : c mod 2 = 0 \/ c mod 2 = 1) by lia.
  destruct C as [C | C]; [exact C|]. rewrite C in H. discriminate H.
Qed.

(** An odd factor can be cancelled from a multiple of a power of two. *)
Lemma pow2_divide_odd_mul n a b :
  0 <= n -> a mod 2 = 1 -> (2 ^ n | a * b) -> (2 ^ n | b).
Proof.
  intros Hn Ha. revert b.
  pattern n. apply natlike_ind; [| |exact Hn]; clear n Hn.
  - intros b _. exists b. simpl. lia.
  - intros n Hn IH b [q Hq].
    rewrite Z.pow_succ_r in Hq by lia.
    destruct (IH b) as [c Hc].
    { exists (q * 2). lia. }
    assert (E : a * c = q * 2).
    { assert (Hp : 0 < 2 ^ n) by (apply Z.pow_pos_nonneg; lia). nia. }
    assert (Hc2 : c mod 2 = 0).
    { apply (odd_mul_even a); [exact Ha|].
      rewrite E. apply Z.mod_mul. lia. }
    exists (c / 2). rewrite Z.pow_succ_r by lia.
    pose proof (Z.div_mod c 2 ltac:(lia)). nia.
Qed.

Lemma divide_small a b : (b | a) -> 0 < a < b -> False.
Proof.
  intros [q Hq] ?. assert (C : q <= 0 \/ 1 <= q) by lia.
  destruct C; nia.
Qed.

(** Two iterations below the size land on different groups. *)
Lemma tri_inj_mod k i j :
  0 <= k -> 0 <= j < i -> i < 2 ^ k ->
  tri i mod 2 ^ k <> tri j mod 2 ^ k.
Proof.
  intros Hk Hji Hi E.
  assert (Hp : 0 < 2 ^ k) by (apply pow2_pos; lia).
  assert (D : (2 ^ k | tri i - tri j)).
  { apply Z.mod_divide; [lia|].
    rewrite Zminus_mod, E, Z.sub_diag. apply Z.mod_0_l. lia. }
  assert (D2 : (2 ^ (k + 1) | (i - j) * (i + j + 1))).
  { destruct D as [q Hq]. exists q.
    rewrite Z.pow_add_r by lia.
    pose proof (tri_double i). pose proof (tri_double j). nia. }
  assert (Hpk : 2 ^ (k + 1) = 2 * 2 ^ k) by (rewrite Z.pow_add_r by lia; lia).
  pose proof (Z.mod_pos_bound (i - j) 2 ltac:(lia)) as Hb.
  assert (C : (i - j) mod 2 = 1 \/ (i - j) mod 2 = 0) by lia.
  destruct C as [C | C].
  - apply (divide_small (i + j + 1) (2 ^ (k + 1))); [|lia].
    apply pow2_divide_odd_mul with (a := i - j); [lia|exact C|exact D2].
  - apply (divide_small (i - j) (2 ^ (k + 1))); [|lia].
    apply pow2_divide_odd_mul with (a := i + j + 1); [lia| |].
    + replace (i + j + 1) with ((i - j) + (2 * j + 1)) by lia.
      rewrite Z.add_mod, C by lia.
      replace (2 * j + 1) with (1 + j * 2) by lia.
      rewrite Z.mod_add by lia. reflexivity.
    + rewrite Z.mul_comm. exact D2.
Qed.

Lemma probe_inj k s i j :
  0 <= k -> 0 <= i < 2 ^ k -> 0 <= j < 2 ^ k ->
  (s + tri i) mod 2 ^ k = (s + tri j) mod 2 ^ k -> i = j.
Proof.
  intros Hk Hi Hj E.
  assert (Hp : 0 < 2 ^ k) by (apply pow2_pos; lia).
  assert (E' : tri i mod 2 ^ k = tri j mod 2 ^ k).
  { replace (tri i) with ((s + tri i) - s) by lia.
    replace (tri j) with ((s + tri j) - s) by lia.
    rewrite (Zminus_mod (s + tri i)), (Zminus_mod (s + tri j)), E.
    reflexivity. }
  destruct (Z.lt_trichotomy i j) as [L | [L | L]]; [|exact L|].
  - exfalso. symmetry in E'. revert E'. apply tri_inj_mod; lia.
  - exfalso. revert E'. apply tri_inj_mod; lia.
Qed.

(** The first [2 ^ k] positions are the groups [0 .. 2 ^ k - 1], each
    once. *)
Lemma probe_positions_perm k s :
  0 <= k ->
  (fun i => (s + tri i) mod 2 ^ k) <$> seqZ 0 (2 ^ k) ≡ₚ seqZ 0 (2 ^ k).
Proof.
  intros Hk.
  assert (Hp : 0 < 2 ^ k) by (apply pow2_pos; lia).
  apply submseteq_length_Permutation.
  - apply NoDup_submseteq.
    + apply NoDup_fmap_2_strong; [|apply NoDup_seqZ].
      intros i j Hi Hj E.
      apply elem_of_seqZ in Hi. apply elem_of_seqZ in Hj.
      apply (probe_inj k s); [lia|lia|lia|exact E].
    + intros x Hx. apply list_elem_of_fmap in Hx as (i & -> & Hi).
      apply elem_of_seqZ.
      pose proof (Z.mod_pos_bound (s + tri i) (2 ^ k) Hp). lia.
  - rewrite length_fmap. lia.
Qed.

Lemma probe_surj k s pos :
  0 <= k -> 0 <= pos < 2 ^ k ->
  exists i, 0 <= i < 2 ^ k /\ (s + tri i) mod 2 ^ k = pos.
Proof.
  intros Hk Hpos.
  assert (Hin : pos ∈ (fun i => (s + tri i) mod 2 ^ k) <$> seqZ 0 (2 ^ k)).
  { rewrite (probe_positions_perm k s Hk). apply elem_of_seqZ. lia. }
  apply list_elem_of_fmap in Hin as (i & -> & Hi).
  apply elem_of_seqZ in Hi. exists i. split; [lia|reflexivity].
Qed.

(** ** Facts about a status byte, checked on all 256 bytes *)

Lemma forallb_seqZ (f : Z -> bool) (n : Z) :
  forallb f (seqZ 0 n) = true -> forall x, 0 <= x < n -> f x = true.
Proof.
  intros H x Hx. rewrite forallb_forall in H. apply H.
  apply list_elem_of_In, elem_of_seqZ. lia.
Qed.

Lemma byte_slot_enum (P : Z -> Z -> Prop) `{!forall s i, Decision (P s i)} :
  forallb (fun s => forallb (fun i => bool_decide (P s i)) (seqZ 0 7))
          (seqZ 0 256) = true ->
  forall s i, 0 <= s < 256 -> 0 <= i < 7 -> P s i.
Proof.
  intros Hall s i Hs Hi.
  pose proof (forallb_seqZ _ _ Hall s Hs) as H1. cbv beta in H1.
  pose proof (forallb_seqZ _ _ H1 i Hi) as H2. cbv beta in H2.
  apply bool_decide_eq_true in H2. exact H2.
Qed.

Lemma byte_enum (P : Z -> Prop) `{!forall s, Decision (P s)} :
  forallb (fun s => bool_decide (P s)) (seqZ 0 256) = true ->
  forall s, 0 <= s < 256 -> P s.
Proof.
  intros Hall s Hs.
  pose proof (forallb_seqZ _ _ Hall s Hs) as H1. cbv beta in H1.
  apply bool_decide_eq_true in H1. exact H1.
Qed.

Ltac byte_check :=
  lazymatch goal with
  | |- forall s i, 0 <= s < 256 -> 0 <= i < 7 -> @?P s i =>
    simple refine (@byte_slot_enum P _ _);
    first [solve [intros; cbv beta; apply _] | vm_compute; reflexivity]
  | |- forall s, 0 <= s < 256 -> @?P s =>
    simple refine (@byte_enum P _ _);
    first [solve [intros; cbv beta; apply _] | vm_compute; reflexivity]
  end.

Lemma status_insert_facts s i :
  0 <= s < 256 -> 0 <= i < 7 ->
  0 <= status_after_insert s i < 256 /\
  Forall (fun j => Z.testbit (status_after_insert s i) j
                   = (j =? i) || Z.testbit s j) (seqZ 0 7) /\
  (Z.land (status_after_insert s i) ENTRIES_MASK = ENTRIES_MASK ->
   Z.shiftr (status_after_insert s i) 7 = 1) /\
  (Z.testbit s i = false ->
   popcount (Z.land (status_after_insert s i) ENTRIES_MASK)
   = popcount (Z.land s ENTRIES_MASK) + 1) /\
  (Z.shiftr s 7 = 1 -> Z.shiftr (status_after_insert s i) 7 = 1).
Proof.
  revert s i. byte_check.
Qed.

Lemma status_erase_facts s i :
  0 <= s < 256 -> 0 <= i < 7 ->
  0 <= status_after_erase s i < 256 /\
  Forall (fun j => Z.testbit (status_after_erase s i) j
                   = negb (j =? i) && Z.testbit s j) (seqZ 0 8) /\
  (Z.testbit s i = true ->
   popcount (Z.land (status_after_erase s i) ENTRIES_MASK)
   = popcount (Z.land s ENTRIES_MASK) - 1) /\
  Z.shiftr (status_after_erase s i) 7 = Z.shiftr s 7 /\
  Z.land (status_after_erase s i) ENTRIES_MASK <> ENTRIES_MASK.
Proof.
  revert s i. byte_check.
Qed.

Lemma status_bit_test s i :
  0 <= s < 256 -> 0 <= i < 7 ->
  Z.land (Z.shiftr s i) 1 = Z.b2z (Z.testbit s i).
Proof.
  revert s i. byte_check.
Qed.

Lemma status_free_slot s :
  0 <= s < 256 ->
  Z.land s ENTRIES_MASK <> ENTRIES_MASK ->
  0 <= builtin_ctz (Z.lnot s) < 7 /\
  Z.testbit s (builtin_ctz (Z.lnot s)) = false.
Proof.
  revert s. byte_check.
Qed.

Lemma status_popcount s :
  0 <= s < 256 ->
  popcount (Z.land s ENTRIES_MASK)
  = foldr (fun j acc => Z.b2z (Z.testbit s j) + acc) 0 (seqZ 0 7) /\
  0 <= popcount (Z.land s ENTRIES_MASK) <= 7 /\
  (popcount (Z.land s ENTRIES_MASK) = 7 <->
   Z.land s ENTRIES_MASK = ENTRIES_MASK) /\
  (Z.land s ENTRIES_MASK = ENTRIES_MASK <->
   Forall (fun j => Z.testbit s j = true) (seqZ 0 7)) /\
  Z.shiftr s 7 = Z.b2z (Z.testbit s 7).
Proof.
  revert s. byte_check.
Qed.

(** ** The hint comparison *)

Lemma cmpeq_movemask_testbit target lanes (j : nat) :
  Z.testbit (cmpeq_movemask target lanes) (Z.of_nat j)
  = match lanes !! j with
    | Some b => b =? target
    | None => false
    end.
Proof.
  revert j. induction lanes as [|b rest IH]; intros j.
  - apply Z.testbit_0_l.
  - change (cmpeq_movemask target (b :: rest))
      with (Z.lor (if b =? target then 1 else 0)
                  (Z.shiftl (cmpeq_movemask target rest) 1)).
    rewrite Z.lor_spec. destruct j as [|j].
    + rewrite Z.shiftl_spec_low by lia.
      change ((b :: rest) !! 0%nat) with (Some b).
      destruct (b =? target); reflexivity.
    + rewrite Z.shiftl_spec by lia.
      replace (Z.of_nat (S j) - 1) with (Z.of_nat j) by lia.
      rewrite IH. change ((b :: rest) !! S j) with (rest !! j).
      replace (Z.testbit (if b =? target then 1 else 0) (Z.of_nat (S j)))
        with false; [reflexivity|].
      destruct (b =? target).
      * symmetry. apply (Z.bits_above_log2 1); simpl; lia.
      * symmetry. apply Z.testbit_0_l.
Qed.

Lemma testbit_mask7 j : 0 <= j -> Z.testbit 0x7F j = (j <? 7).
Proof.
  intros. change 0x7F with (Z.ones 7). apply Z.testbit_ones_nonneg; lia.
Qed.

Lemma group_match_testbit group hint (j : nat) :
  Z.testbit (group_match_inserted group hint) (Z.of_nat j)
  = match hints group !! j with
    | Some b => (b =? hint) && Z.testbit (status group) (Z.of_nat j)
                && (Z.of_nat j <? 7)
    | None => false
    end.
Proof.
  unfold group_match_inserted.
  rewrite !Z.land_spec, cmpeq_movemask_testbit, testbit_mask7 by lia.
  destruct (hints group !! j); reflexivity.
Qed.

Lemma group_match_range group hint :
  0 <= group_match_inserted group hint < 128.
Proof.
  unfold group_match_inserted.
  change 0x7F with (2 ^ 7 - 1). rewrite land_mask by lia.
  change 128 with (2 ^ 7). apply Z.mod_pos_bound. lia.
Qed.

(** ** The scan of a match byte *)

Lemma Forall_seqZ_range (P : Z -> Prop) (n : Z) :
  Forall P (seqZ 0 n) -> forall x, 0 <= x < n -> P x.
Proof.
  intros H x Hx. rewrite Forall_forall in H. apply H.
  apply elem_of_seqZ. lia.
Qed.

Lemma first_hit_ext (f g : Z -> bool) l :
  (forall i, i ∈ l -> f i = g i) -> first_hit f l = first_hit g l.
Proof.
  induction l as [|x l IH]; intros H; simpl; [reflexivity|].
  rewrite (H x) by (left). rewrite IH; [reflexivity|].
  intros i Hi. apply H. right. exact Hi.
Qed.

Lemma first_hit_seqZ_spec (f : Z -> bool) (n : nat) m :
  match first_hit f (seqZ m (Z.of_nat n)) with
  | Some i => m <= i < m + Z.of_nat n /\ f i = true /\
              forall j, m <= j < i -> f j = false
  | None => forall j, m <= j < m + Z.of_nat n -> f j = false
  end.
Proof.
  revert m. induction n as [|n IH]; intros m.
  - simpl. intros j Hj. lia.
  - rewrite seqZ_cons by lia. simpl.
    replace (Z.pred (Z.of_nat (S n))) with (Z.of_nat n) by lia.
    destruct (f m) eqn:Em.
    + split; [lia|]. split; [exact Em|]. intros j Hj. lia.
    + specialize (IH (Z.succ m)).
      destruct (first_hit f (seqZ (Z.succ m) (Z.of_nat n))) as [i|].
      * destruct IH as (Hi & Hf & Hlow). split; [lia|]. split; [exact Hf|].
        intros j Hj. destruct (Z.eq_dec j m) as [->|Hne]; [exact Em|].
        apply Hlow. lia.
      * intros j Hj. destruct (Z.eq_dec j m) as [->|Hne]; [exact Em|].
        apply IH. lia.
Qed.

Lemma first_hit_Some (f : Z -> bool) i :
  first_hit f (seqZ 0 7) = Some i ->
  0 <= i < 7 /\ f i = true /\ forall j, 0 <= j < i -> f j = false.
Proof.
  intros H. pose proof (first_hit_seqZ_spec f 7 0) as S.
  change (Z.of_nat 7) with 7 in S. rewrite H in S.
  destruct S as (? & ? & ?). split; [lia|]. split; assumption.
Qed.

Lemma first_hit_None (f : Z -> bool) :
  first_hit f (seqZ 0 7) = None -> forall j, 0 <= j < 7 -> f j = false.
Proof.
  intros H. pose proof (first_hit_seqZ_spec f 7 0) as S.
  change (Z.of_nat 7) with 7 in S. rewrite H in S.
  intros j Hj. apply S. lia.
Qed.

Lemma first_hit_intro (f : Z -> bool) i :
  0 <= i < 7 -> f i = true -> (forall j, 0 <= j < i -> f j = false) ->
  first_hit f (seqZ 0 7) = Some i.
Proof.
  intros Hi Hf Hlow. pose proof (first_hit_seqZ_spec f 7 0) as S.
  change (Z.of_nat 7) with 7 in S.
  destruct (first_hit f (seqZ 0 7)) as [i'|].
  - destruct S as (Hi' & Hf' & Hlow'). f_equal.
    destruct (Z.lt_trichotomy i i') as [L | [L | L]]; [|congruence|].
    + rewrite Hlow' in Hf by lia. discriminate.
    + rewrite Hlow in Hf' by lia. discriminate.
  - rewrite S in Hf by lia. discriminate.
Qed.

Lemma first_hit_none_intro (f : Z -> bool) :
  (forall j, 0 <= j < 7 -> f j = false) -> first_hit f (seqZ 0 7) = None.
Proof.
  intros Hall. pose proof (first_hit_seqZ_spec f 7 0) as S.
  change (Z.of_nat 7) with 7 in S.
  destruct (first_hit f (seqZ 0 7)) as [i'|]; [|reflexivity].
  destruct S as (Hi' & Hf' & _). rewrite Hall in Hf' by lia. discriminate.
Qed.

(** One round of the scan, on all match bytes. *)
Lemma match_byte_step m :
  0 <= m < 128 -> m <> 0 ->
  0 <= u8 (builtin_ctz m) < 7 /\
  Z.testbit m (u8 (builtin_ctz m)) = true /\
  Forall (fun j => j < u8 (builtin_ctz m) -> Z.testbit m j = false)
         (seqZ 0 7) /\
  Forall (fun j => Z.testbit (Z.lxor m (u8 (Z.land m (- m)))) j
                   = Z.testbit m j && negb (j =? u8 (builtin_ctz m)))
         (seqZ 0 7) /\
  0 <= Z.lxor m (u8 (Z.land m (- m))) < 128 /\
  popcount (Z.lxor m (u8 (Z.land m (- m)))) = popcount m - 1 /\
  0 < popcount m.
Proof.
  intros Hm. assert (Hm' : 0 <= m < 256) by lia. revert Hm.
  revert m Hm'. byte_check.
Qed.

Lemma scan_matches_first_hit h entry ents match_byte (n : nat) :
  length ents = 7%nat ->
  0 <= match_byte < 128 ->
  popcount match_byte < Z.of_nat n ->
  scan_matches n h entry ents match_byte
  = Ok (first_hit (fun i => Z.testbit match_byte i
                            && slot_equals h entry ents i)
                  (seqZ 0 7)).
Proof.
  intros Hlen. revert match_byte.
  induction n as [|n IH]; intros m Hm Hpop.
  - destruct (Z.eq_dec m 0) as [->|Hne].
    + reflexivity.
    + pose proof (match_byte_step m Hm Hne). lia.
  - cbn [scan_matches]. destruct (Z.eqb_spec m 0) as [->|Hne].
    + symmetry; f_equal;
        try (apply first_hit_none_intro; intros j Hj;
             rewrite Z.testbit_0_l; reflexivity).
    + destruct (match_byte_step m Hm Hne)
        as (Hidx & Hbit & Hlow & Hnext & Hrange & Hpop' & _).
      set (idx := u8 (builtin_ctz m)) in *.
      destruct (ents !! Z.to_nat idx) as [stored|] eqn:Es.
      2:{ apply lookup_ge_None in Es. lia. }
      destruct (h64_equals h entry stored) eqn:Eeq.
      * symmetry. f_equal. apply first_hit_intro; [exact Hidx| |].
        -- rewrite Hbit. unfold slot_equals. rewrite Es. exact Eeq.
        -- intros j Hj.
           rewrite (Forall_seqZ_range _ _ Hlow j) by lia. reflexivity.
      * rewrite IH by lia. f_equal. apply first_hit_ext.
        intros j Hj. apply elem_of_seqZ in Hj.
        rewrite (Forall_seqZ_range _ _ Hnext j) by lia.
        destruct (Z.eqb_spec j idx) as [->|Hji].
        -- unfold slot_equals; rewrite Es, Eeq; simpl;
             rewrite ?andb_false_r; reflexivity.
        -- simpl; rewrite ?andb_true_r; reflexivity.
Qed.

Lemma popcount_match_byte m : 0 <= m < 128 -> popcount m < 8.
Proof.
  intros Hm. assert (Hm' : 0 <= m < 256) by lia. revert Hm.
  revert m Hm'. byte_check.
Qed.

(** The inner loop of [h64_find_entry] computes [group_lookup]. *)
Lemma scan_matches_group_lookup h entry hint group :
  length (entries group) = 7%nat ->
  scan_matches 8 h entry (entries group) (group_match_inserted group hint)
  = Ok (group_lookup h entry hint group).
Proof.
  intros Hlen. apply scan_matches_first_hit.
  - exact Hlen.
  - apply group_match_range.
  - apply popcount_match_byte, group_match_range.
Qed.

Lemma status_insert_pristine s i :
  0 <= s < 256 -> 0 <= i < 7 ->
  Z.shiftr s 7 = 0 ->
  Z.shiftr (status_after_insert s i) 7 = 1 ->
  Z.land (status_after_insert s i) ENTRIES_MASK = ENTRIES_MASK.
Proof. revert s i. byte_check. Qed.

(** ** The three group mutators *)

Lemma group_is_full_iff group :
  group_is_full group = true <->
  Z.land (status group) ENTRIES_MASK = ENTRIES_MASK.
Proof. unfold group_is_full. apply Z.eqb_eq. Qed.

Lemma wf_slot_null h group (i : nat) :
  group_wf h group -> (i < 7)%nat ->
  Z.testbit (status group) (Z.of_nat i) = false ->
  entries group !! i = Some NULL.
Proof.
  intros W Hi Hbit.
  destruct (entries group !! i) as [x|] eqn:E.
  - pose proof (wf_present h group W i x E) as Hp.
    rewrite Hbit in Hp. symmetry in Hp.
    apply bool_decide_eq_false in Hp.
    destruct (Z.eq_dec x NULL) as [->|Hne]; [reflexivity|contradiction].
  - apply lookup_ge_None in E. pose proof (wf_entries h group W). lia.
Qed.

Lemma wf_slot_present h group (i : nat) x :
  group_wf h group -> entries group !! i = Some x -> x <> NULL ->
  Z.testbit (status group) (Z.of_nat i) = true.
Proof.
  intros W E Hx. rewrite (wf_present h group W i x E).
  apply bool_decide_eq_true. exact Hx.
Qed.

Lemma group_insert_ok h group entry idx :
  group_wf h group -> 0 <= idx < 7 ->
  Z.testbit (status group) idx = false -> entry <> NULL ->
  group_insert group entry (hash_hint (h64_hash h entry)) idx
  = Ok (group_after_insert h group entry idx).
Proof.
  intros W Hidx Hbit Hne. unfold group_insert, GROUP_ENTRIES.
  destruct (Z.ltb_spec idx 7) as [_|?]; [simpl|lia].
  assert (E0 : entries group !! Z.to_nat idx = Some NULL).
  { apply (wf_slot_null h); [exact W|lia|].
    rewrite Z2Nat.id by lia. exact Hbit. }
  rewrite E0. simpl.
  rewrite status_bit_test; [|apply (wf_status h), W|lia].
  rewrite Hbit. simpl. unfold group_after_insert, status_after_insert.
  unfold group_is_full. simpl.
  destruct (Z.land (u8 (Z.lor (status group) (Z.shiftl 1 idx))) ENTRIES_MASK
            =? ENTRIES_MASK); reflexivity.
Qed.

Lemma group_after_insert_wf h group entry idx :
  group_wf h group -> 0 <= idx < 7 ->
  Z.testbit (status group) idx = false -> entry <> NULL ->
  group_wf h (group_after_insert h group entry idx).
Proof.
  intros W Hidx Hbit Hne.
  destruct (status_insert_facts (status group) idx (wf_status h group W) Hidx)
    as (Hr & Hbits & Hfull & _ & _).
  constructor; simpl.
  - exact Hr.
  - rewrite length_insert. apply (wf_hints h), W.
  - rewrite length_insert. apply (wf_entries h), W.
  - intros i x E.
    assert (Hi : (i < 7)%nat).
    { apply lookup_lt_Some in E. rewrite length_insert in E.
      rewrite (wf_entries h group W) in E. exact E. }
    rewrite (Forall_seqZ_range _ _ Hbits (Z.of_nat i)) by lia.
    destruct (decide (Z.to_nat idx = i)) as [<-|Hd].
    + rewrite list_lookup_insert_eq in E
        by (rewrite (wf_entries h group W); lia).
      inversion E; subst x. rewrite Z2Nat.id, Z.eqb_refl by lia. simpl.
      symmetry. apply bool_decide_eq_true. exact Hne.
    + rewrite list_lookup_insert_ne in E by exact Hd.
      destruct (Z.eqb_spec (Z.of_nat i) idx) as [Heq|_]; [lia|]. simpl.
      apply (wf_present h group W). exact E.
  - intros F. apply group_is_full_iff in F. simpl in F.
    unfold group_was_full. simpl. apply Hfull. exact F.
  - intros i x E Hx.
    assert (Hi : (i < 7)%nat).
    { apply lookup_lt_Some in E. rewrite length_insert in E.
      rewrite (wf_entries h group W) in E. exact E. }
    destruct (decide (Z.to_nat idx = i)) as [<-|Hd].
    + rewrite list_lookup_insert_eq in E
        by (rewrite (wf_entries h group W); lia).
      inversion E; subst x.
      apply list_lookup_insert_eq. rewrite (wf_hints h group W). lia.
    + rewrite list_lookup_insert_ne in E by exact Hd.
      rewrite list_lookup_insert_ne by exact Hd.
      apply (wf_hint h group W); assumption.
Qed.

Lemma group_after_insert_occupancy h group entry idx :
  group_wf h group -> 0 <= idx < 7 ->
  Z.testbit (status group) idx = false ->
  occupancy (group_after_insert h group entry idx) = occupancy group + 1.
Proof.
  intros W Hidx Hbit.
  destruct (status_insert_facts (status group) idx (wf_status h group W) Hidx)
    as (_ & _ & _ & Hocc & _).
  unfold occupancy. simpl. apply Hocc. exact Hbit.
Qed.

Lemma group_after_insert_was_full h group entry idx :
  group_wf h group -> 0 <= idx < 7 ->
  group_was_full group = 1 ->
  group_was_full (group_after_insert h group entry idx) = 1.
Proof.
  intros W Hidx Hwas.
  destruct (status_insert_facts (status group) idx (wf_status h group W) Hidx)
    as (_ & _ & _ & _ & Hmono).
  unfold group_was_full. simpl. apply Hmono. exact Hwas.
Qed.

Lemma group_update_ok h group entry idx :
  group_wf h group -> 0 <= idx < 7 ->
  Z.testbit (status group) idx = true ->
  group_update group entry idx = Ok (group_after_update group entry idx).
Proof.
  intros W Hidx Hbit. unfold group_update, GROUP_ENTRIES.
  destruct (Z.ltb_spec idx 7) as [_|?]; [simpl|lia].
  rewrite status_bit_test; [|apply (wf_status h), W|lia].
  rewrite Hbit. reflexivity.
Qed.

Lemma group_after_update_wf h group entry idx :
  group_wf h group -> 0 <= idx < 7 ->
  Z.testbit (status group) idx = true -> entry <> NULL ->
  hints group !! Z.to_nat idx = Some (hash_hint (h64_hash h entry)) ->
  group_wf h (group_after_update group entry idx).
Proof.
  intros W Hidx Hbit Hne Hhint.
  constructor; simpl.
  - apply (wf_status h), W.
  - apply (wf_hints h), W.
  - rewrite length_insert. apply (wf_entries h), W.
  - intros i x E.
    destruct (decide (Z.to_nat idx = i)) as [<-|Hd].
    + rewrite list_lookup_insert_eq in E
        by (rewrite (wf_entries h group W); lia).
      inversion E; subst x. rewrite Z2Nat.id, Hbit by lia.
      symmetry. apply bool_decide_eq_true. exact Hne.
    + rewrite list_lookup_insert_ne in E by exact Hd.
      apply (wf_present h group W). exact E.
  - apply (wf_full h group W).
  - intros i x E Hx.
    destruct (decide (Z.to_nat idx = i)) as [<-|Hd].
    + rewrite list_lookup_insert_eq in E
        by (rewrite (wf_entries h group W); lia).
      inversion E; subst x. exact Hhint.
    + rewrite list_lookup_insert_ne in E by exact Hd.
      apply (wf_hint h group W); assumption.
Qed.

Lemma group_erase_ok group idx x :
  0 <= idx < 7 -> entries group !! Z.to_nat idx = Some x ->
  group_erase_entry group idx = Ok (x, group_after_erase group idx).
Proof.
  intros Hidx E. unfold group_erase_entry, GROUP_ENTRIES.
  destruct (Z.ltb_spec idx 7) as [_|?]; [simpl|lia].
  rewrite E. reflexivity.
Qed.

Lemma group_after_erase_wf h group idx :
  group_wf h group -> 0 <= idx < 7 ->
  group_wf h (group_after_erase group idx).
Proof.
  intros W Hidx.
  destruct (status_erase_facts (status group) idx (wf_status h group W) Hidx)
    as (Hr & Hbits & _ & _ & Hnf).
  constructor; simpl.
  - exact Hr.
  - rewrite length_insert. apply (wf_hints h), W.
  - rewrite length_insert. apply (wf_entries h), W.
  - intros i x E.
    assert (Hi : (i < 7)%nat).
    { apply lookup_lt_Some in E. rewrite length_insert in E.
      rewrite (wf_entries h group W) in E. exact E. }
    rewrite (Forall_seqZ_range _ _ Hbits (Z.of_nat i)) by lia.
    destruct (decide (Z.to_nat idx = i)) as [<-|Hd].
    + rewrite list_lookup_insert_eq in E
        by (rewrite (wf_entries h group W); lia).
      inversion E; subst x. rewrite Z2Nat.id, Z.eqb_refl by lia. simpl.
      reflexivity.
    + rewrite list_lookup_insert_ne in E by exact Hd.
      destruct (Z.eqb_spec (Z.of_nat i) idx) as [Heq|_]; [lia|]. simpl.
      apply (wf_present h group W). exact E.
  - intros F. apply group_is_full_iff in F. simpl in F. contradiction.
  - intros i x E Hx.
    destruct (decide (Z.to_nat idx = i)) as [<-|Hd].
    + rewrite list_lookup_insert_eq in E
        by (rewrite (wf_entries h group W); lia).
      inversion E; subst x. contradiction Hx. reflexivity.
    + rewrite list_lookup_insert_ne in E by exact Hd.
      rewrite list_lookup_insert_ne by exact Hd.
      apply (wf_hint h group W); assumption.
Qed.

Lemma group_after_erase_occupancy h group idx :
  group_wf h group -> 0 <= idx < 7 ->
  Z.testbit (status group) idx = true ->
  occupancy (group_after_erase group idx) = occupancy group - 1.
Proof.
  intros W Hidx Hbit.
  destruct (status_erase_facts (status group) idx (wf_status h group W) Hidx)
    as (_ & _ & Hocc & _ & _).
  unfold occupancy. simpl. apply Hocc. exact Hbit.
Qed.

Lemma group_after_erase_was_full h group idx :
  group_wf h group -> 0 <= idx < 7 ->
  group_was_full (group_after_erase group idx) = group_was_full group.
Proof.
  intros W Hidx.
  destruct (status_erase_facts (status group) idx (wf_status h group W) Hidx)
    as (_ & _ & _ & Hwas & _).
  unfold group_was_full. simpl. exact Hwas.
Qed.

(** The hash of an element depends on the table through the hasher and
    the seed only. *)
Lemma group_wf_same_hash h h' group :
  (forall e, h64_hash h' e = h64_hash h e) ->
  group_wf h group -> group_wf h' group.
Proof.
  intros Hh W. constructor.
  - apply (wf_status h), W.
  - apply (wf_hints h), W.
  - apply (wf_entries h), W.
  - apply (wf_present h), W.
  - apply (wf_full h), W.
  - intros i x E Hx. rewrite Hh. apply (wf_hint h group W); assumption.
Qed.

Lemma empty_group_wf h : group_wf h empty_group.
Proof.
  constructor.
  - simpl. lia.
  - reflexivity.
  - reflexivity.
  - intros i x E. unfold empty_group in E. cbn [entries] in E.
    apply lookup_replicate in E as [-> _].
    unfold empty_group. cbn [status]. rewrite Z.testbit_0_l. reflexivity.
  - intros F. discriminate F.
  - intros i x E Hx. unfold empty_group in E. cbn [entries] in E.
    apply lookup_replicate in E as [-> _].
    contradiction Hx. reflexivity.
Qed.

(** ** What [group_lookup] finds *)

Lemma group_lookup_Some h entry hint group idx :
  group_wf h group ->
  group_lookup h entry hint group = Some idx ->
  0 <= idx < 7 /\
  Z.testbit (status group) idx = true /\
  hints group !! Z.to_nat idx = Some hint /\
  exists x, entries group !! Z.to_nat idx = Some x /\ x <> NULL /\
            h64_equals h entry x = true.
Proof.
  intros W H. apply first_hit_Some in H as (Hidx & Hf & _).
  apply andb_true_iff in Hf as [Hm Heq].
  replace idx with (Z.of_nat (Z.to_nat idx)) in Hm by lia.
  rewrite group_match_testbit in Hm.
  destruct (hints group !! Z.to_nat idx) as [b|] eqn:Eh; [|discriminate].
  apply andb_true_iff in Hm as [Hm _].
  apply andb_true_iff in Hm as [Hb Hs].
  apply Z.eqb_eq in Hb. subst b. rewrite Z2Nat.id in Hs by lia.
  split; [exact Hidx|]. split; [exact Hs|]. split; [reflexivity|].
  unfold slot_equals in Heq.
  destruct (entries group !! Z.to_nat idx) as [x|] eqn:Ex; [|discriminate].
  exists x. split; [reflexivity|]. split; [|exact Heq].
  pose proof (wf_present h group W _ x Ex) as Hp.
  rewrite Z2Nat.id, Hs in Hp by lia. symmetry in Hp.
  apply bool_decide_eq_true in Hp. exact Hp.
Qed.

Lemma group_lookup_None h entry hint group (i : nat) x :
  group_wf h group ->
  group_lookup h entry hint group = None ->
  entries group !! i = Some x -> x <> NULL ->
  hints group !! i = Some hint ->
  h64_equals h entry x = false.
Proof.
  intros W H Ex Hx Eh.
  assert (Hi : (i < 7)%nat).
  { apply lookup_lt_Some in Ex. rewrite (wf_entries h group W) in Ex.
    exact Ex. }
  pose proof (first_hit_None _ H (Z.of_nat i) ltac:(lia)) as Hf.
  cbv beta in Hf. rewrite group_match_testbit, Eh in Hf.
  rewrite Z.eqb_refl, (wf_slot_present h group i x W Ex Hx) in Hf.
  destruct (Z.ltb_spec (Z.of_nat i) 7) as [_|?]; [|lia].
  unfold slot_equals in Hf. rewrite Nat2Z.id, Ex in Hf. exact Hf.
Qed.

Lemma group_lookup_present h entry hint group (i : nat) x :
  group_wf h group ->
  entries group !! i = Some x -> x <> NULL ->
  hints group !! i = Some hint ->
  h64_equals h entry x = true ->
  exists idx, group_lookup h entry hint group = Some idx.
Proof.
  intros W Ex Hx Eh Heq.
  destruct (group_lookup h entry hint group) as [idx|] eqn:E; [eauto|].
  rewrite (group_lookup_None h entry hint group i x W E Ex Hx Eh) in Heq.
  discriminate.
Qed.

(** ** Table sizes and thresholds, checked on the sizes 2^2 .. 2^57 *)

Lemma size_enum (P : Z -> Prop) `{!forall s, Decision (P s)} :
  forallb (fun k => bool_decide (P (2 ^ k))) (seqZ 2 56) = true ->
  forall k, 2 <= k <= 57 -> P (2 ^ k).
Proof.
  intros Hall k Hk.
  rewrite forallb_forall in Hall.
  specialize (Hall k). cbv beta in Hall.
  eapply bool_decide_eq_true, Hall.
  apply list_elem_of_In, elem_of_seqZ. lia.
Qed.

Lemma load_thresholds k :
  2 <= k <= 57 ->
  0 <= min_count (2 ^ k) /\
  min_count (2 ^ k) <= max_count (2 ^ k) /\
  max_count (2 ^ k) + 1 < 7 * 2 ^ k /\
  (2 * 2 ^ k <= 2 ^ 57 ->
   max_count (2 ^ k) + 1 <= max_count (2 * 2 ^ k) /\
   min_count (2 * 2 ^ k) <= max_count (2 ^ k) + 1 /\
   (4 < 2 ^ k -> min_count (2 ^ k) <= min_count (2 * 2 ^ k) - 1)).
Proof.
  revert k.
  simple refine (@size_enum (fun s =>
    0 <= min_count s /\
    min_count s <= max_count s /\
    max_count s + 1 < 7 * s /\
    (2 * s <= 2 ^ 57 ->
     max_count s + 1 <= max_count (2 * s) /\
     min_count (2 * s) <= max_count s + 1 /\
     (4 < s -> min_count s <= min_count (2 * s) - 1))) _ _);
    first [solve [intros; cbv beta; apply _] | vm_compute; reflexivity].
Qed.

(** ** The probe sequence of a table *)

Lemma probe_seq_record h hash (j : nat) :
  Z.of_nat j < 2 ^ 64 ->
  probe_seq h hash j
  = {| start := Z.land hash (u64 (size_in_groups h - 1));
       iteration := Z.of_nat j;
       size_mask := u64 (size_in_groups h - 1) |}.
Proof.
  unfold probe_seq. induction j as [|j IH]; intros Hj.
  - reflexivity.
  - rewrite Nat.iter_succ, IH by lia. unfold ps_next.
    cbn [start iteration size_mask].
    rewrite (u64_small (Z.of_nat j + 1)) by lia. f_equal. lia.
Qed.

Lemma probe_seq_succ h hash (j : nat) :
  ps_next (probe_seq h hash j) = probe_seq h hash (S j).
Proof. reflexivity. Qed.

Lemma probe_seq_mask h hash (j : nat) :
  size_mask (probe_seq h hash j) = u64 (size_in_groups h - 1).
Proof.
  unfold probe_seq. induction j as [|j IH]; [reflexivity|].
  rewrite Nat.iter_succ. unfold ps_next at 1. cbn [size_mask]. exact IH.
Qed.

Lemma size_mask_pow2 k : 0 <= k <= 63 -> u64 (2 ^ k - 1) = 2 ^ k - 1.
Proof.
  intros Hk. apply u64_small.
  pose proof (pow2_pos k ltac:(lia)).
  pose proof (pow2_le_mono k 63 ltac:(lia)).
  assert (2 ^ 63 < 2 ^ 64) by (apply pow2_lt_mono; lia). lia.
Qed.

Lemma probe_at_range h hash (j : nat) k :
  size_in_groups h = 2 ^ k -> 0 <= k <= 63 ->
  0 <= probe_at h hash j < 2 ^ k.
Proof.
  intros Hs Hk. unfold probe_at, ps_position.
  rewrite probe_seq_mask, Hs, size_mask_pow2, land_mask by lia.
  apply Z.mod_pos_bound. apply pow2_pos. lia.
Qed.

Lemma probe_at_tri h hash (j : nat) k :
  size_in_groups h = 2 ^ k -> 0 <= k <= 63 ->
  Z.of_nat j < 2 ^ 64 - 1 ->
  probe_at h hash j
  = (Z.land hash (2 ^ k - 1) + tri (Z.of_nat j)) mod 2 ^ k.
Proof.
  intros Hs Hk Hj. unfold probe_at.
  rewrite probe_seq_record, Hs, size_mask_pow2 by lia.
  apply ps_position_tri; lia.
Qed.

Lemma pow2_57_lt : 2 ^ 57 < 2 ^ 64 - 1.
Proof. reflexivity. Qed.

Lemma probe_at_inj h hash (i j : nat) k :
  size_in_groups h = 2 ^ k -> 0 <= k <= 57 ->
  Z.of_nat i < 2 ^ k -> Z.of_nat j < 2 ^ k ->
  probe_at h hash i = probe_at h hash j -> i = j.
Proof.
  intros Hs Hk Hi Hj E.
  pose proof (pow2_le_mono k 57 ltac:(lia)). pose proof pow2_57_lt.
  rewrite (probe_at_tri h hash i k), (probe_at_tri h hash j k) in E by lia.
  apply probe_inj in E; lia.
Qed.

Lemma probe_at_surj h hash pos k :
  size_in_groups h = 2 ^ k -> 0 <= k <= 57 ->
  0 <= pos < 2 ^ k ->
  exists j : nat, Z.of_nat j < 2 ^ k /\ probe_at h hash j = pos.
Proof.
  intros Hs Hk Hpos.
  pose proof (pow2_le_mono k 57 ltac:(lia)). pose proof pow2_57_lt.
  destruct (probe_surj k (Z.land hash (2 ^ k - 1)) pos ltac:(lia) Hpos)
    as (i & Hi & E).
  exists (Z.to_nat i). split; [lia|].
  rewrite (probe_at_tri h hash _ k) by lia.
  rewrite Z2Nat.id by lia. exact E.
Qed.

(** ** Consequences of well-formedness *)

Lemma wf_size_bounds h :
  table_wf h -> 4 <= size_in_groups h <= 2 ^ 57.
Proof.
  intros W. destruct (wf_size h W) as (k & Hk & ->).
  split.
  - change 4 with (2 ^ 2). apply pow2_le_mono. lia.
  - apply pow2_le_mono. lia.
Qed.

Lemma wf_probe_group h hash (j : nat) :
  table_wf h ->
  exists group, groups h !! Z.to_nat (probe_at h hash j) = Some group.
Proof.
  intros W. destruct (wf_size h W) as (k & Hk & Hs).
  pose proof (probe_at_range h hash j k Hs ltac:(lia)).
  apply lookup_lt_is_Some. rewrite (wf_length h W), Hs. lia.
Qed.

Lemma wf_probe_inj h hash (i j : nat) :
  table_wf h ->
  Z.of_nat i < size_in_groups h -> Z.of_nat j < size_in_groups h ->
  probe_at h hash i = probe_at h hash j -> i = j.
Proof.
  intros W. destruct (wf_size h W) as (k & Hk & Hs). rewrite Hs.
  apply probe_at_inj; [exact Hs|lia].
Qed.

Lemma wf_probe_surj h hash (pos : nat) :
  table_wf h -> (pos < length (groups h))%nat ->
  exists j : nat,
    Z.of_nat j < size_in_groups h /\ probe_at h hash j = Z.of_nat pos.
Proof.
  intros W Hpos. destruct (wf_size h W) as (k & Hk & Hs).
  rewrite (wf_length h W) in Hpos. rewrite Hs in *.
  apply (probe_at_surj h hash _ k); [exact Hs|lia|lia].
Qed.

Lemma wf_probe_lt h hash (j : nat) :
  table_wf h -> (Z.to_nat (probe_at h hash j) < length (groups h))%nat.
Proof.
  intros W. destruct (wf_probe_group h hash j W) as (g & E).
  apply lookup_lt_Some in E. exact E.
Qed.

Lemma wf_was_full_cases h group pos :
  table_wf h -> groups h !! pos = Some group ->
  group_was_full group = 0 \/ group_was_full group = 1.
Proof.
  intros W E. pose proof (wf_groups h W pos group E) as G.
  destruct (status_popcount (status group) (wf_status h group G))
    as (_ & _ & _ & _ & Hw).
  unfold group_was_full. change (CHAR_BIT - 1) with 7. rewrite Hw.
  destruct (Z.testbit (status group) 7); auto.
Qed.

(** ** Sums of occupancies *)

Lemma occupancy_sum_insert gs (pos : nat) group group' :
  gs !! pos = Some group ->
  occupancy_sum (<[pos := group']> gs)
  = occupancy_sum gs - occupancy group + occupancy group'.
Proof.
  revert pos. induction gs as [|g gs IH]; intros pos E; [discriminate|].
  destruct pos as [|pos]; simpl in *.
  - inversion E; subst. lia.
  - rewrite (IH pos E). lia.
Qed.

Lemma occupancy_range h group :
  group_wf h group -> 0 <= occupancy group <= 7.
Proof.
  intros W. unfold occupancy.
  apply (status_popcount (status group) (wf_status h group W)).
Qed.

Lemma occupancy_full h group :
  group_wf h group ->
  group_is_full group = true <-> occupancy group = 7.
Proof.
  intros W. rewrite group_is_full_iff. unfold occupancy.
  destruct (status_popcount (status group) (wf_status h group W))
    as (_ & _ & Hiff & _). symmetry. exact Hiff.
Qed.

Lemma occupancy_sum_replicate n : occupancy_sum (replicate n empty_group) = 0.
Proof. induction n as [|n IH]; simpl; [reflexivity|]. rewrite IH. reflexivity. Qed.

Lemma occupancy_sum_all_full h gs :
  (forall pos group, gs !! pos = Some group ->
                     group_wf h group /\ group_is_full group = true) ->
  occupancy_sum gs = 7 * Z.of_nat (length gs).
Proof.
  induction gs as [|g gs IH]; intros H; [reflexivity|].
  cbn [occupancy_sum foldr length].
  destruct (H 0%nat g eq_refl) as [W F].
  apply (occupancy_full h g W) in F.
  fold (occupancy_sum gs). rewrite IH.
  - lia.
  - intros pos group E. apply (H (S pos)). exact E.
Qed.

(** A table below its capacity has a group that is not full. *)
Lemma wf_not_all_full h :
  table_wf h ->
  exists (pos : nat) group,
    groups h !! pos = Some group /\ group_is_full group = false.
Proof.
  intros W.
  destruct (decide (Exists (fun g => group_is_full g = false) (groups h)))
    as [Hex|Hnex].
  - apply Exists_exists in Hex as (g & Hin & Hf).
    apply list_elem_of_lookup in Hin as (pos & E). eauto.
  - exfalso.
    assert (Hall : forall pos group, groups h !! pos = Some group ->
                     group_wf h group /\ group_is_full group = true).
    { intros pos group E. split; [apply (wf_groups h W pos), E|].
      destruct (group_is_full group) eqn:F; [reflexivity|].
      exfalso. apply Hnex. apply Exists_exists. exists group.
      split; [|exact F]. apply list_elem_of_lookup. eauto. }
    pose proof (occupancy_sum_all_full h (groups h) Hall) as Hsum.
    destruct (wf_size h W) as (k & Hk & Hs).
    pose proof (load_thresholds k Hk) as (_ & _ & Hcap & _).
    pose proof (wf_load h W). pose proof (wf_count h W).
    pose proof (wf_length h W) as Hl. rewrite Hs in *.
    pose proof (pow2_pos k ltac:(lia)). lia.
Qed.

(** ** The two probing loops *)

Lemma least_true (f : nat -> bool) (t0 : nat) :
  f t0 = true ->
  exists n : nat,
    (n <= t0)%nat /\ f n = true /\ forall j : nat, (j < n)%nat -> f j = false.
Proof.
  induction t0 as [t0 IH] using lt_wf_ind. intros Ht.
  destruct (decide (Exists (fun j => f j = true) (seq 0 t0))) as [Hex|Hnex].
  - apply Exists_exists in Hex as (j & Hj & Hfj).
    apply elem_of_seq in Hj.
    destruct (IH j ltac:(lia) Hfj) as (n & Hn & Hfn & Hlow).
    exists n. split; [lia|]. split; assumption.
  - exists t0. split; [lia|]. split; [exact Ht|].
    intros j Hj. destruct (f j) eqn:Efj; [|reflexivity].
    exfalso. apply Hnex. apply Exists_exists. exists j.
    split; [|exact Efj]. apply elem_of_seq. lia.
Qed.

Lemma first_true_unique (f : nat -> bool) (n n' : nat) :
  f n = true -> (forall j : nat, (j < n)%nat -> f j = false) ->
  f n' = true -> (forall j : nat, (j < n')%nat -> f j = false) ->
  n = n'.
Proof.
  intros Hn Hlow Hn' Hlow'.
  destruct (Nat.lt_trichotomy n n') as [L | [L | L]]; [|exact L|].
  - rewrite (Hlow' n L) in Hn. discriminate.
  - rewrite (Hlow n' L) in Hn'. discriminate.
Qed.

Lemma find_empty_loop_run h hash (n : nat) :
  forall (j0 fuel : nat),
    (forall j : nat, (j < n)%nat ->
       empty_halts h (probe_at h hash (j0 + j)) = false) ->
    empty_halts h (probe_at h hash (j0 + n)) = true ->
    (n < fuel)%nat ->
    find_empty_loop fuel h (probe_seq h hash j0)
    = empty_answer h (probe_at h hash (j0 + n)).
Proof.
  induction n as [|n IH]; intros j0 fuel Hlow Hn Hfuel.
  - destruct fuel as [|fuel]; [lia|]. cbn [find_empty_loop].
    rewrite Nat.add_0_r in *. unfold empty_halts, empty_answer in *.
    fold (probe_at h hash j0).
    destruct (groups h !! Z.to_nat (probe_at h hash j0)) as [g|];
      [|reflexivity].
    rewrite Hn. reflexivity.
  - destruct fuel as [|fuel]; [lia|]. cbn [find_empty_loop].
    pose proof (Hlow 0%nat ltac:(lia)) as H0. rewrite Nat.add_0_r in H0.
    unfold empty_halts in H0. fold (probe_at h hash j0).
    destruct (groups h !! Z.to_nat (probe_at h hash j0)) as [g|];
      [|discriminate].
    rewrite H0. rewrite probe_seq_succ.
    replace (j0 + S n)%nat with (S j0 + n)%nat by lia.
    apply IH; [|replace (S j0 + n)%nat with (j0 + S n)%nat by lia; exact Hn|lia].
    intros j Hj. replace (S j0 + j)%nat with (j0 + S j)%nat by lia.
    apply Hlow. lia.
Qed.

Lemma find_empty_loop_inv h hash (fuel : nat) :
  forall (j0 : nat) r,
    find_empty_loop fuel h (probe_seq h hash j0) = Ok r ->
    exists n : nat,
      (forall j : nat, (j < n)%nat ->
         empty_halts h (probe_at h hash (j0 + j)) = false) /\
      empty_halts h (probe_at h hash (j0 + n)) = true /\
      empty_answer h (probe_at h hash (j0 + n)) = Ok r.
Proof.
  induction fuel as [|fuel IH]; intros j0 r H; [discriminate|].
  cbn [find_empty_loop] in H. fold (probe_at h hash j0) in H.
  destruct (groups h !! Z.to_nat (probe_at h hash j0)) as [g|] eqn:Eg;
    [|discriminate].
  destruct (group_is_full g) eqn:Ef; cbn [negb] in H.
  - rewrite probe_seq_succ in H. apply IH in H as (n & Hlow & Hn & Ha).
    exists (S n). replace (j0 + S n)%nat with (S j0 + n)%nat by lia.
    split; [|split; assumption].
    intros j Hj. destruct j as [|j].
    + rewrite Nat.add_0_r. unfold empty_halts. rewrite Eg, Ef. reflexivity.
    + replace (j0 + S j)%nat with (S j0 + j)%nat by lia. apply Hlow. lia.
  - exists 0%nat. rewrite Nat.add_0_r. split; [intros j Hj; lia|].
    unfold empty_halts, empty_answer. rewrite Eg, Ef. split; [reflexivity|].
    exact H.
Qed.

Lemma find_entry_loop_run h entry hint hash (n : nat) :
  table_wf h ->
  forall (j0 fuel : nat),
    (forall j : nat, (j < n)%nat ->
       entry_halts h entry hint (probe_at h hash (j0 + j)) = false) ->
    entry_halts h entry hint (probe_at h hash (j0 + n)) = true ->
    (n < fuel)%nat ->
    find_entry_loop fuel h entry hint (probe_seq h hash j0)
    = entry_answer h entry hint (probe_at h hash (j0 + n)).
Proof.
  intros W. induction n as [|n IH]; intros j0 fuel Hlow Hn Hfuel.
  - destruct fuel as [|fuel]; [lia|]. cbn [find_entry_loop].
    rewrite Nat.add_0_r in *. unfold entry_halts, entry_answer in *.
    fold (probe_at h hash j0).
    destruct (groups h !! Z.to_nat (probe_at h hash j0)) as [g|] eqn:Eg;
      [|reflexivity].
    rewrite scan_matches_group_lookup
      by (apply (wf_entries h), (wf_groups h W _ _ Eg)).
    destruct (group_lookup h entry hint g); [reflexivity|].
    rewrite Hn. reflexivity.
  - destruct fuel as [|fuel]; [lia|]. cbn [find_entry_loop].
    pose proof (Hlow 0%nat ltac:(lia)) as H0. rewrite Nat.add_0_r in H0.
    unfold entry_halts in H0. fold (probe_at h hash j0).
    destruct (groups h !! Z.to_nat (probe_at h hash j0)) as [g|] eqn:Eg;
      [|discriminate].
    rewrite scan_matches_group_lookup
      by (apply (wf_entries h), (wf_groups h W _ _ Eg)).
    destruct (group_lookup h entry hint g); [discriminate|].
    rewrite H0. rewrite probe_seq_succ.
    replace (j0 + S n)%nat with (S j0 + n)%nat by lia.
    apply IH; [|replace (S j0 + n)%nat with (j0 + S n)%nat by lia; exact Hn|lia].
    intros j Hj. replace (S j0 + j)%nat with (j0 + S j)%nat by lia.
    apply Hlow. lia.
Qed.

Lemma find_entry_loop_inv h entry hint hash (fuel : nat) :
  table_wf h ->
  forall (j0 : nat) r,
    find_entry_loop fuel h entry hint (probe_seq h hash j0) = Ok r ->
    exists n : nat,
      (forall j : nat, (j < n)%nat ->
         entry_halts h entry hint (probe_at h hash (j0 + j)) = false) /\
      entry_halts h entry hint (probe_at h hash (j0 + n)) = true /\
      entry_answer h entry hint (probe_at h hash (j0 + n)) = Ok r.
Proof.
  intros W. induction fuel as [|fuel IH]; intros j0 r H; [discriminate|].
  cbn [find_entry_loop] in H. fold (probe_at h hash j0) in H.
  destruct (groups h !! Z.to_nat (probe_at h hash j0)) as [g|] eqn:Eg;
    [|discriminate].
  rewrite scan_matches_group_lookup in H
    by (apply (wf_entries h), (wf_groups h W _ _ Eg)).
  destruct (group_lookup h entry hint g) as [idx|] eqn:El.
  - exists 0%nat. rewrite Nat.add_0_r. split; [intros j Hj; lia|].
    unfold entry_halts, entry_answer. rewrite Eg, El. split; [reflexivity|].
    exact H.
  - destruct (group_was_full g =? 0) eqn:Ew.
    + exists 0%nat. rewrite Nat.add_0_r. split; [intros j Hj; lia|].
      unfold entry_halts, entry_answer. rewrite Eg, El.
      split; [exact Ew|exact H].
    + rewrite probe_seq_succ in H. apply IH in H as (n & Hlow & Hn & Ha).
      exists (S n). replace (j0 + S n)%nat with (S j0 + n)%nat by lia.
      split; [|split; assumption].
      intros j Hj. destruct j as [|j].
      * rewrite Nat.add_0_r. unfold entry_halts. rewrite Eg, El. exact Ew.
      * replace (j0 + S j)%nat with (S j0 + j)%nat by lia. apply Hlow. lia.
Qed.

(** The halting iteration lies in the first round over the groups: the
    first [size_in_groups] iterations visit every group, and whether a
    loop leaves at a group depends on the group only. *)
Lemma first_halt_in_first_round h hash (halts : Z -> bool) (n : nat) :
  table_wf h ->
  (forall j : nat, (j < n)%nat -> halts (probe_at h hash j) = false) ->
  halts (probe_at h hash n) = true ->
  Z.of_nat n < size_in_groups h.
Proof.
  intros W Hlow Hn.
  destruct (Z.lt_ge_cases (Z.of_nat n) (size_in_groups h)) as [L|G];
    [exact L|exfalso].
  pose proof (wf_probe_lt h hash n W) as Hlt.
  destruct (wf_probe_surj h hash _ W Hlt) as (j & Hj & Ej).
  rewrite Z2Nat.id in Ej.
  2:{ destruct (wf_size h W) as (k & Hk & Hs).
      pose proof (probe_at_range h hash n k Hs ltac:(lia)). lia. }
  rewrite <- Ej, Hlow in Hn by lia. discriminate.
Qed.

(** ** Specification of [h64_find_empty_entry] *)

Lemma empty_halts_false h pos :
  table_wf h -> empty_halts h pos = false ->
  exists group,
    groups h !! Z.to_nat pos = Some group /\ group_is_full group = true /\
    group_was_full group = 1.
Proof.
  intros W H. unfold empty_halts in H.
  destruct (groups h !! Z.to_nat pos) as [g|] eqn:Eg; [|discriminate].
  exists g. split; [reflexivity|].
  destruct (group_is_full g) eqn:Ef; [|discriminate].
  split; [reflexivity|].
  apply (wf_full h g (wf_groups h W _ _ Eg)). exact Ef.
Qed.

(** The slot [h64_find_empty_entry] answers: the first group on the probe
    path that is not full, and its lowest free slot. *)
Lemma find_empty_spec h hash :
  table_wf h ->
  exists (j pos : nat) group idx,
    Z.of_nat j < size_in_groups h /\
    probe_at h hash j = Z.of_nat pos /\
    groups h !! pos = Some group /\
    0 <= idx < 7 /\ Z.testbit (status group) idx = false /\
    (forall i : nat, (i < j)%nat -> was_full_at h (probe_at h hash i)) /\
    (forall fuel : nat, (j < fuel)%nat ->
       h64_find_empty_entry fuel h hash
       = Ok (find_result_init (Some (Z.of_nat pos)) idx true)) /\
    (forall (fuel : nat) r,
       h64_find_empty_entry fuel h hash = Ok r ->
       r = find_result_init (Some (Z.of_nat pos)) idx true).
Proof.
  intros W.
  destruct (wf_not_all_full h W) as (pos0 & g0 & Eg0 & Hf0).
  destruct (wf_probe_surj h hash pos0 W) as (t0 & Ht0 & Et0).
  { apply lookup_lt_Some in Eg0. exact Eg0. }
  assert (H0 : empty_halts h (probe_at h hash t0) = true).
  { unfold empty_halts. rewrite Et0, Nat2Z.id, Eg0, Hf0. reflexivity. }
  destruct (least_true (fun j => empty_halts h (probe_at h hash j)) t0 H0)
    as (n & Hn & Hhalt & Hlow).
  pose proof (first_halt_in_first_round h hash (empty_halts h) n W Hlow Hhalt)
    as Hround.
  destruct (wf_probe_group h hash n W) as (g & Eg).
  pose proof (wf_groups h W _ _ Eg) as G.
  assert (Hnf : group_is_full g = false).
  { unfold empty_halts in Hhalt. rewrite Eg in Hhalt.
    destruct (group_is_full g); [discriminate|reflexivity]. }
  assert (Hnf' : Z.land (status g) ENTRIES_MASK <> ENTRIES_MASK).
  { intros C. apply group_is_full_iff in C. congruence. }
  destruct (status_free_slot (status g) (wf_status h g G) Hnf') as (Hidx & Hbit).
  assert (Hpos : probe_at h hash n = Z.of_nat (Z.to_nat (probe_at h hash n))).
  { destruct (wf_size h W) as (k & Hk & Hs).
    pose proof (probe_at_range h hash n k Hs ltac:(lia)). lia. }
  assert (Hans : empty_answer h (probe_at h hash n)
                 = Ok (find_result_init
                         (Some (Z.of_nat (Z.to_nat (probe_at h hash n))))
                         (builtin_ctz (Z.lnot (status g))) true)).
  { unfold empty_answer. rewrite Eg, <- Hpos. reflexivity. }
  exists n, (Z.to_nat (probe_at h hash n)), g, (builtin_ctz (Z.lnot (status g))).
  split; [exact Hround|]. split; [exact Hpos|]. split; [exact Eg|].
  split; [exact Hidx|]. split; [exact Hbit|]. split; [|split].
  - intros i Hi. destruct (empty_halts_false h _ W (Hlow i Hi))
      as (gi & Egi & _ & Hwi). exists gi. split; assumption.
  - intros fuel Hfuel. unfold h64_find_empty_entry.
    change (ps_init hash (size_in_groups h)) with (probe_seq h hash 0).
    rewrite (find_empty_loop_run h hash n 0 fuel); [exact Hans| |exact Hhalt|exact Hfuel].
    intros j Hj. apply Hlow. exact Hj.
  - intros fuel r Hr. unfold h64_find_empty_entry in Hr.
    change (ps_init hash (size_in_groups h)) with (probe_seq h hash 0) in Hr.
    apply find_empty_loop_inv in Hr as (n' & Hlow' & Hhalt' & Ha').
    cbn [Nat.add] in *.
    assert (n = n').
    { apply (first_true_unique (fun j => empty_halts h (probe_at h hash j)));
        assumption. }
    subst n'. rewrite Hans in Ha'. inversion Ha'. reflexivity.
Qed.

(** ** Specification of [h64_find_entry] *)

Lemma entry_halts_false h entry hint pos :
  table_wf h -> entry_halts h entry hint pos = false ->
  exists group,
    groups h !! Z.to_nat pos = Some group /\
    group_lookup h entry hint group = None /\
    group_was_full group = 1.
Proof.
  intros W H. unfold entry_halts in H.
  destruct (groups h !! Z.to_nat pos) as [g|] eqn:Eg; [|discriminate].
  exists g. split; [reflexivity|].
  destruct (group_lookup h entry hint g); [discriminate|].
  split; [reflexivity|].
  destruct (wf_was_full_cases h g _ W Eg) as [C|C]; [|exact C].
  rewrite C in H. discriminate.
Qed.

Lemma probe_at_nat h hash (j : nat) :
  table_wf h ->
  probe_at h hash j = Z.of_nat (Z.to_nat (probe_at h hash j)).
Proof.
  intros W. destruct (wf_size h W) as (k & Hk & Hs).
  pose proof (probe_at_range h hash j k Hs ltac:(lia)). lia.
Qed.

(** A successful run of the loop stopped in the first round, after groups
    that all missed and all have their was-full bit set. *)
Lemma find_entry_inv h entry hash (fuel : nat) r :
  table_wf h ->
  h64_find_entry fuel h entry hash = Ok r ->
  exists (j pos : nat) group,
    Z.of_nat j < size_in_groups h /\
    probe_at h hash j = Z.of_nat pos /\
    groups h !! pos = Some group /\
    (forall i : nat, (i < j)%nat ->
       entry_halts h entry (hash_hint hash) (probe_at h hash i) = false) /\
    match group_lookup h entry (hash_hint hash) group with
    | Some idx => r = find_result_init (Some (Z.of_nat pos)) idx true
    | None => group_was_full group = 0 /\
              r = find_result_init None (u64 (-1)) false
    end.
Proof.
  intros W Hr. unfold h64_find_entry in Hr.
  change (ps_init hash (size_in_groups h)) with (probe_seq h hash 0) in Hr.
  apply find_entry_loop_inv in Hr as (n & Hlow & Hhalt & Ha); [|exact W].
  cbn [Nat.add] in *.
  pose proof (first_halt_in_first_round h hash
                (entry_halts h entry (hash_hint hash)) n W Hlow Hhalt) as Hround.
  destruct (wf_probe_group h hash n W) as (g & Eg).
  exists n, (Z.to_nat (probe_at h hash n)), g.
  split; [exact Hround|]. split; [apply probe_at_nat, W|].
  split; [exact Eg|]. split; [exact Hlow|].
  unfold entry_answer in Ha. unfold entry_halts in Hhalt.
  rewrite Eg in Ha, Hhalt. rewrite <- (probe_at_nat h hash n W).
  destruct (group_lookup h entry (hash_hint hash) g) as [idx|].
  - inversion Ha. reflexivity.
  - apply Z.eqb_eq in Hhalt. split; [exact Hhalt|]. inversion Ha. reflexivity.
Qed.

Lemma stored_hint h (pos idx : nat) x group :
  table_wf h -> groups h !! pos = Some group ->
  entries group !! idx = Some x -> x <> NULL ->
  hints group !! idx = Some (hash_hint (h64_hash h x)).
Proof.
  intros W Eg Ex Hx. apply (wf_hint h group (wf_groups h W _ _ Eg) idx x Ex Hx).
Qed.

Lemma h64_hash_equal h a b :
  callbacks_ok (hasher h) (equals h) ->
  h64_equals h a b = true -> h64_hash h a = h64_hash h b.
Proof.
  intros C H. unfold h64_hash. f_equal.
  apply (equals_hash _ _ C). unfold h64_equals in H.
  apply negb_true_iff, Z.eqb_neq in H. exact H.
Qed.

(** When the answer is "found", the slot holds an element equal to the
    probe, and the slot lies on the probe path of the probe. *)
Lemma find_entry_found h entry (fuel : nat) r :
  table_wf h ->
  h64_find_entry fuel h entry (h64_hash h entry) = Ok r ->
  fr_found r = true ->
  exists (pos : nat) idx group x,
    r = find_result_init (Some (Z.of_nat pos)) idx true /\
    0 <= idx < 7 /\
    groups h !! pos = Some group /\
    entries group !! Z.to_nat idx = Some x /\ x <> NULL /\
    Z.testbit (status group) idx = true /\
    hints group !! Z.to_nat idx = Some (hash_hint (h64_hash h entry)) /\
    h64_equals h entry x = true /\
    on_path h entry pos.
Proof.
  intros W Hr Hfound.
  destruct (find_entry_inv h entry _ fuel r W Hr)
    as (j & pos & g & Hj & Epos & Eg & Hlow & Hres).
  destruct (group_lookup h entry (hash_hint (h64_hash h entry)) g)
    as [idx|] eqn:El.
  2:{ destruct Hres as [_ ->]. discriminate Hfound. }
  destruct (group_lookup_Some h entry _ g idx (wf_groups h W _ _ Eg) El)
    as (Hidx & Hbit & Hhint & x & Ex & Hx & Heq).
  exists pos, idx, g, x. repeat (split; [assumption|]).
  exists j. split; [exact Hj|]. split; [exact Epos|].
  intros i Hi. destruct (entry_halts_false h _ _ _ W (Hlow i Hi))
    as (gi & Egi & _ & Hwi). exists gi. split; assumption.
Qed.

(** When the answer is "not found", no element of the table equals the
    probe. *)
Lemma find_entry_not_found h entry (fuel : nat) r :
  table_wf h -> callbacks_ok (hasher h) (equals h) ->
  h64_find_entry fuel h entry (h64_hash h entry) = Ok r ->
  fr_found r = false ->
  r = find_result_init None (u64 (-1)) false /\
  forall (pos idx : nat) x, stored h pos idx x -> h64_equals h entry x = false.
Proof.
  intros W C Hr Hnf.
  destruct (find_entry_inv h entry _ fuel r W Hr)
    as (j & pos & g & Hj & Epos & Eg & Hlow & Hres).
  destruct (group_lookup h entry (hash_hint (h64_hash h entry)) g)
    as [idx|] eqn:El.
  { subst r. discriminate Hnf. }
  destruct Hres as [Hw ->]. split; [reflexivity|].
  intros pos' idx' x Hst.
  destruct (h64_equals h entry x) eqn:Heq; [exfalso|reflexivity].
  pose proof (wf_path h W pos' idx' x Hst) as (jx & Hjx & Ejx & Hfull).
  destruct Hst as (gx & Egx & Ex & Hx).
  rewrite <- (h64_hash_equal h entry x C Heq) in Ejx, Hfull.
  pose proof (stored_hint h pos' idx' x gx W Egx Ex Hx) as Hhint.
  rewrite <- (h64_hash_equal h entry x C Heq) in Hhint.
  destruct (Nat.lt_trichotomy jx j) as [L | [L | L]].
  - destruct (entry_halts_false h _ _ _ W (Hlow jx L)) as (g' & Eg' & El' & _).
    rewrite Ejx, Nat2Z.id, Egx in Eg'. inversion Eg'; subst g'.
    rewrite (group_lookup_None h entry _ gx idx' x
               (wf_groups h W _ _ Egx) El' Ex Hx Hhint) in Heq.
    discriminate.
  - subst jx. rewrite Epos in Ejx. apply Nat2Z.inj in Ejx. subst pos'.
    rewrite Eg in Egx. inversion Egx; subst gx.
    rewrite (group_lookup_None h entry _ g idx' x
               (wf_groups h W _ _ Eg) El Ex Hx Hhint) in Heq.
    discriminate.
  - destruct (Hfull j L) as (g' & Eg' & Hw').
    rewrite Epos, Nat2Z.id, Eg in Eg'. inversion Eg'; subst g'. lia.
Qed.

(** An element equal to the probe makes the loop stop with "found" within
    the first round. *)
Lemma find_entry_present h entry (pos idx : nat) x :
  table_wf h -> callbacks_ok (hasher h) (equals h) ->
  stored h pos idx x -> h64_equals h entry x = true ->
  exists (j : nat) r,
    Z.of_nat j < size_in_groups h /\ fr_found r = true /\
    forall fuel : nat, (j < fuel)%nat ->
      h64_find_entry fuel h entry (h64_hash h entry) = Ok r.
Proof.
  intros W C Hst Heq.
  pose proof (wf_path h W pos idx x Hst) as (jx & Hjx & Ejx & Hfull).
  destruct Hst as (gx & Egx & Ex & Hx).
  rewrite <- (h64_hash_equal h entry x C Heq) in Ejx, Hfull.
  pose proof (stored_hint h pos idx x gx W Egx Ex Hx) as Hhint.
  rewrite <- (h64_hash_equal h entry x C Heq) in Hhint.
  set (hash := h64_hash h entry) in *.
  destruct (group_lookup_present h entry _ gx idx x
              (wf_groups h W _ _ Egx) Ex Hx Hhint Heq) as (idx0 & El0).
  assert (H0 : entry_halts h entry (hash_hint hash) (probe_at h hash jx) = true).
  { unfold entry_halts. rewrite Ejx, Nat2Z.id, Egx, El0. reflexivity. }
  destruct (least_true
              (fun j => entry_halts h entry (hash_hint hash) (probe_at h hash j))
              jx H0) as (n & Hn & Hhalt & Hlow).
  destruct (wf_probe_group h hash n W) as (g & Eg).
  assert (Hl : exists idx1, group_lookup h entry (hash_hint hash) g = Some idx1).
  { destruct (group_lookup h entry (hash_hint hash) g) as [idx1|] eqn:El;
      [eauto|exfalso].
    unfold entry_halts in Hhalt. rewrite Eg, El in Hhalt.
    apply Z.eqb_eq in Hhalt.
    destruct (decide (n = jx)) as [->|Hne].
    - rewrite Ejx, Nat2Z.id, Egx in Eg. inversion Eg; subst g. congruence.
    - destruct (Hfull n ltac:(lia)) as (g' & Eg' & Hw').
      rewrite Eg in Eg'. inversion Eg'; subst g'. lia. }
  destruct Hl as (idx1 & El).
  exists n, (find_result_init (Some (probe_at h hash n)) idx1 true).
  split; [lia|]. split; [reflexivity|].
  intros fuel Hfuel. unfold h64_find_entry.
  change (ps_init hash (size_in_groups h)) with (probe_seq h hash 0).
  rewrite (find_entry_loop_run h entry (hash_hint hash) hash n W 0 fuel);
    [|intros j Hj; apply Hlow; exact Hj|exact Hhalt|exact Hfuel].
  unfold entry_answer. cbn [Nat.add]. rewrite Eg, El. reflexivity.
Qed.

(** ** The entries of a table *)

Lemma for_each_flat h :
  table_wf h ->
  h64_for_each h = filter (fun e => e <> NULL) (flat_entries (groups h)).
Proof.
  intros W. unfold h64_for_each, flat_entries.
  rewrite take_ge by (rewrite (wf_length h W); lia).
  f_equal. f_equal. apply map_ext_in. intros g Hg.
  apply list_elem_of_In, list_elem_of_lookup in Hg as (pos & Eg).
  apply take_ge. rewrite (wf_entries h g (wf_groups h W _ _ Eg)). lia.
Qed.

Lemma flat_entries_app gs1 gs2 :
  flat_entries (gs1 ++ gs2) = flat_entries gs1 ++ flat_entries gs2.
Proof. unfold flat_entries. rewrite map_app, concat_app. reflexivity. Qed.

Lemma list_split_at {A : Type} (l : list A) (i : nat) x :
  l !! i = Some x -> l = take i l ++ x :: drop (S i) l.
Proof. intros E. symmetry. apply take_drop_middle. exact E. Qed.

(** Writing one slot of one group changes one place of the flat list. *)
Lemma flat_entries_update gs (pos idx : nat) group group' old new :
  gs !! pos = Some group ->
  entries group !! idx = Some old ->
  entries group' = <[idx := new]> (entries group) ->
  exists l1 l2,
    flat_entries gs = l1 ++ old :: l2 /\
    flat_entries (<[pos := group']> gs) = l1 ++ new :: l2.
Proof.
  intros Eg Eo Enew.
  exists (flat_entries (take pos gs) ++ take idx (entries group)),
         (drop (S idx) (entries group) ++ flat_entries (drop (S pos) gs)).
  split.
  - rewrite (list_split_at gs pos group Eg) at 1.
    rewrite flat_entries_app. unfold flat_entries at 2. cbn [map concat].
    fold (flat_entries (drop (S pos) gs)).
    rewrite (list_split_at (entries group) idx old Eo) at 1.
    rewrite <- !app_assoc. reflexivity.
  - rewrite insert_take_drop by (apply lookup_lt_Some in Eg; exact Eg).
    rewrite flat_entries_app. unfold flat_entries at 2. cbn [map concat].
    fold (flat_entries (drop (S pos) gs)).
    rewrite Enew.
    rewrite insert_take_drop by (apply lookup_lt_Some in Eo; exact Eo).
    rewrite <- !app_assoc. reflexivity.
Qed.

Lemma elem_of_flat_entries gs x :
  x ∈ flat_entries gs <->
  exists (pos idx : nat) group,
    gs !! pos = Some group /\ entries group !! idx = Some x.
Proof.
  unfold flat_entries. rewrite list_elem_of_In, in_concat. split.
  - intros (l & Hl & Hx). apply in_map_iff in Hl as (g & <- & Hg).
    apply list_elem_of_In, list_elem_of_lookup in Hg as (pos & Eg).
    apply list_elem_of_In, list_elem_of_lookup in Hx as (idx & Ex).
    eauto.
  - intros (pos & idx & g & Eg & Ex). exists (entries g). split.
    + apply in_map. apply list_elem_of_In, list_elem_of_lookup. eauto.
    + apply list_elem_of_In, list_elem_of_lookup. eauto.
Qed.

Lemma for_each_stored h x :
  table_wf h ->
  x ∈ h64_for_each h <-> exists pos idx : nat, stored h pos idx x.
Proof.
  intros W. rewrite (for_each_flat h W), list_elem_of_filter.
  rewrite elem_of_flat_entries. unfold stored. split.
  - intros (Hx & pos & idx & g & Eg & Ex). eauto 10.
  - intros (pos & idx & g & Eg & Ex & Hx). eauto 10.
Qed.

(** ** Counting the entries *)

Lemma group_occupancy_non_null h group :
  group_wf h group -> occupancy group = non_null_entries group.
Proof.
  intros W. unfold occupancy, non_null_entries.
  destruct (status_popcount (status group) (wf_status h group W))
    as (-> & _).
  pose proof (wf_entries h group W) as Hlen.
  pose proof (wf_present h group W) as Hp.
  destruct (entries group) as [|e0 [|e1 [|e2 [|e3 [|e4 [|e5 [|e6 [|]]]]]]]];
    try discriminate Hlen.
  pose proof (Hp 0%nat e0 eq_refl) as H0.
  pose proof (Hp 1%nat e1 eq_refl) as H1.
  pose proof (Hp 2%nat e2 eq_refl) as H2.
  pose proof (Hp 3%nat e3 eq_refl) as H3.
  pose proof (Hp 4%nat e4 eq_refl) as H4.
  pose proof (Hp 5%nat e5 eq_refl) as H5.
  pose proof (Hp 6%nat e6 eq_refl) as H6.
  change (seqZ 0 7) with [0; 1; 2; 3; 4; 5; 6]. cbn [foldr].
  change (Z.of_nat 0) with 0 in H0. change (Z.of_nat 1) with 1 in H1.
  change (Z.of_nat 2) with 2 in H2. change (Z.of_nat 3) with 3 in H3.
  change (Z.of_nat 4) with 4 in H4. change (Z.of_nat 5) with 5 in H5.
  change (Z.of_nat 6) with 6 in H6.
  rewrite H0, H1, H2, H3, H4, H5, H6.
  rewrite !filter_cons, filter_nil.
  repeat match goal with
  | |- context [decide (?e <> NULL)] =>
    destruct (decide (e <> NULL));
      [rewrite (bool_decide_eq_true_2 (e <> NULL)) by assumption
      |rewrite (bool_decide_eq_false_2 (e <> NULL)) by assumption]
  end; reflexivity.
Qed.

Lemma occupancy_sum_flat h gs :
  (forall pos group, gs !! pos = Some group -> group_wf h group) ->
  occupancy_sum gs
  = Z.of_nat (length (filter (fun e => e <> NULL) (flat_entries gs))).
Proof.
  induction gs as [|g gs IH]; intros Hwf; [reflexivity|].
  change (flat_entries (g :: gs)) with (entries g ++ flat_entries gs).
  rewrite filter_app, length_app, Nat2Z.inj_add.
  cbn [occupancy_sum foldr]. fold (occupancy_sum gs).
  rewrite IH by (intros pos group E; apply (Hwf (S pos)), E).
  rewrite (group_occupancy_non_null h g (Hwf 0%nat g eq_refl)).
  reflexivity.
Qed.

Lemma wf_count_length h :
  table_wf h -> count h = Z.of_nat (length (h64_for_each h)).
Proof.
  intros W. rewrite (wf_count h W), (for_each_flat h W).
  apply (occupancy_sum_flat h). apply (wf_groups h W).
Qed.

(** ** Replacing one group of a table *)

Lemma probe_at_same_size h h' hash j :
  size_in_groups h' = size_in_groups h ->
  probe_at h' hash j = probe_at h hash j.
Proof. intros E. unfold probe_at, probe_seq. rewrite E. reflexivity. Qed.

Lemma on_path_mono h h' x pos :
  size_in_groups h' = size_in_groups h ->
  (forall e, h64_hash h' e = h64_hash h e) ->
  (forall p, was_full_at h p -> was_full_at h' p) ->
  on_path h x pos -> on_path h' x pos.
Proof.
  intros Es Eh Hmono (j & Hj & Ej & Hfull).
  exists j. rewrite Es, Eh. rewrite !(probe_at_same_size h h') by exact Es.
  split; [exact Hj|]. split; [exact Ej|].
  intros i Hi. rewrite (probe_at_same_size h h') by exact Es.
  apply Hmono, Hfull, Hi.
Qed.

Lemma was_full_at_update h (pos : nat) group group' c p :
  groups h !! pos = Some group ->
  (group_was_full group = 1 -> group_was_full group' = 1) ->
  was_full_at h p -> was_full_at (table_update h pos group' c) p.
Proof.
  intros Eg Hmono (g & Ep & Hw). unfold was_full_at, table_update. simpl.
  destruct (decide (pos = Z.to_nat p)) as [->|Hne].
  - exists group'. rewrite list_lookup_insert_eq
      by (apply lookup_lt_Some in Eg; exact Eg).
    split; [reflexivity|]. apply Hmono. congruence.
  - exists g. rewrite list_lookup_insert_ne by exact Hne.
    split; assumption.
Qed.

Lemma table_update_wf h (pos : nat) group group' c :
  table_wf h -> groups h !! pos = Some group -> group_wf h group' ->
  c = count h - occupancy group + occupancy group' ->
  c <= max_count (size_in_groups h) + 1 ->
  (group_was_full group = 1 -> group_was_full group' = 1) ->
  (forall (idx : nat) x,
     entries group' !! idx = Some x -> x <> NULL ->
     entries group !! idx = Some x \/ on_path h x pos) ->
  table_wf (table_update h pos group' c).
Proof.
  intros W Eg G' Hc Hload Hmono Hnew.
  assert (Hlt : (pos < length (groups h))%nat)
    by (apply lookup_lt_Some in Eg; exact Eg).
  constructor.
  - apply (wf_size h W).
  - unfold table_update. simpl. rewrite length_insert. apply (wf_length h W).
  - unfold table_update. simpl. intros pos' g' E.
    apply (group_wf_same_hash h); [reflexivity|].
    destruct (decide (pos = pos')) as [<-|Hne].
    + rewrite list_lookup_insert_eq in E by exact Hlt.
      inversion E; subst. exact G'.
    + rewrite list_lookup_insert_ne in E by exact Hne.
      apply (wf_groups h W pos'), E.
  - unfold table_update. simpl.
    rewrite (occupancy_sum_insert _ pos group group' Eg).
    rewrite <- (wf_count h W). exact Hc.
  - exact Hload.
  - intros pos' idx x (g' & E & Ex & Hx). unfold table_update in E. simpl in E.
    apply (on_path_mono h); [reflexivity|reflexivity| |].
    { intros p. apply (was_full_at_update h pos group); assumption. }
    destruct (decide (pos = pos')) as [<-|Hne].
    + rewrite list_lookup_insert_eq in E by exact Hlt.
      inversion E; subst g'.
      destruct (Hnew idx x Ex Hx) as [Eold|Hp]; [|exact Hp].
      apply (wf_path h W pos idx x). exists group. auto.
    + rewrite list_lookup_insert_ne in E by exact Hne.
      apply (wf_path h W pos' idx x). exists g'. auto.
Qed.

(** The entries after one slot changed. *)
Lemma table_update_for_each h (pos idx : nat) group group' c old new :
  table_wf h -> table_wf (table_update h pos group' c) ->
  groups h !! pos = Some group ->
  entries group !! idx = Some old ->
  entries group' = <[idx := new]> (entries group) ->
  exists l1 l2,
    h64_for_each h
    = l1 ++ filter (fun e => e <> NULL) [old] ++ l2 /\
    h64_for_each (table_update h pos group' c)
    = l1 ++ filter (fun e => e <> NULL) [new] ++ l2.
Proof.
  intros W W' Eg Eo En.
  destruct (flat_entries_update (groups h) pos idx group group' old new
              Eg Eo En) as (l1 & l2 & E1 & E2).
  exists (filter (fun e => e <> NULL) l1), (filter (fun e => e <> NULL) l2).
  rewrite (for_each_flat h W), (for_each_flat _ W').
  unfold table_update. cbn [groups with_count with_groups].
  rewrite E1, E2.
  change (old :: l2) with ([old] ++ l2). change (new :: l2) with ([new] ++ l2).
  rewrite !filter_app. split; reflexivity.
Qed.

(** ** The three writes, on a table *)

Lemma count_no_wrap h :
  table_wf h -> 0 <= count h /\ count h + 1 < 2 ^ 64.
Proof.
  intros W. split.
  - rewrite (wf_count_length h W). lia.
  - destruct (wf_size h W) as (k & Hk & Hs).
    pose proof (load_thresholds k Hk) as (_ & _ & Hcap & _).
    pose proof (wf_load h W) as Hl. rewrite Hs in Hl.
    pose proof (pow2_le_mono k 57 ltac:(lia)).
    assert (7 * 2 ^ 57 + 1 < 2 ^ 64) by reflexivity. lia.
Qed.

Lemma insert_at_ok h (pos : nat) group entry idx :
  table_wf h -> groups h !! pos = Some group -> 0 <= idx < 7 ->
  Z.testbit (status group) idx = false -> entry <> NULL ->
  insert_at h (find_result_init (Some (Z.of_nat pos)) idx true) entry
            (hash_hint (h64_hash h entry))
  = Ok (with_groups h
          (<[pos := group_after_insert h group entry idx]> (groups h))).
Proof.
  intros W Eg Hidx Hbit Hne. unfold insert_at, on_group.
  cbn [fr_group fr_index find_result_init]. rewrite Nat2Z.id, Eg.
  rewrite (group_insert_ok h group entry idx
             (wf_groups h W _ _ Eg) Hidx Hbit Hne).
  reflexivity.
Qed.

Lemma table_insert_wf h (pos : nat) group entry idx :
  table_wf h -> groups h !! pos = Some group -> 0 <= idx < 7 ->
  Z.testbit (status group) idx = false -> entry <> NULL ->
  on_path h entry pos ->
  count h <= max_count (size_in_groups h) ->
  table_wf (table_update h pos (group_after_insert h group entry idx)
                         (count h + 1)).
Proof.
  intros W Eg Hidx Hbit Hne Hpath Hload.
  pose proof (wf_groups h W _ _ Eg) as G.
  apply (table_update_wf h pos group); try assumption.
  - apply group_after_insert_wf; assumption.
  - rewrite (group_after_insert_occupancy h group entry idx G Hidx Hbit). lia.
  - lia.
  - apply group_after_insert_was_full; assumption.
  - intros i x Ex Hx. cbn [entries group_after_insert] in Ex.
    destruct (decide (Z.to_nat idx = i)) as [<-|Hd].
    + rewrite list_lookup_insert_eq in Ex
        by (rewrite (wf_entries h group G); lia).
      inversion Ex; subst x. right. exact Hpath.
    + rewrite list_lookup_insert_ne in Ex by exact Hd. left. exact Ex.
Qed.

Lemma table_insert_for_each h (pos : nat) group entry idx :
  table_wf h -> groups h !! pos = Some group -> 0 <= idx < 7 ->
  Z.testbit (status group) idx = false -> entry <> NULL ->
  table_wf (table_update h pos (group_after_insert h group entry idx)
                         (count h + 1)) ->
  exists l1 l2,
    h64_for_each h = l1 ++ l2 /\
    h64_for_each (table_update h pos (group_after_insert h group entry idx)
                               (count h + 1))
    = l1 ++ entry :: l2.
Proof.
  intros W Eg Hidx Hbit Hne W'.
  pose proof (wf_groups h W _ _ Eg) as G.
  assert (E0 : entries group !! Z.to_nat idx = Some NULL).
  { apply (wf_slot_null h); [exact G|lia|].
    rewrite Z2Nat.id by lia. exact Hbit. }
  destruct (table_update_for_each h pos (Z.to_nat idx) group
              (group_after_insert h group entry idx) (count h + 1)
              NULL entry W W' Eg E0 eq_refl) as (l1 & l2 & E1 & E2).
  exists l1, l2. rewrite E1, E2.
  rewrite !filter_cons, filter_nil.
  destruct (decide (NULL <> NULL)) as [C|_]; [contradiction C; reflexivity|].
  destruct (decide (entry <> NULL)) as [_|C]; [|contradiction].
  split; reflexivity.
Qed.

Lemma table_insert_pristine h (pos : nat) group entry idx :
  table_wf h -> groups h !! pos = Some group -> 0 <= idx < 7 ->
  Z.testbit (status group) idx = false ->
  pristine h ->
  pristine (table_update h pos (group_after_insert h group entry idx)
                         (count h + 1)).
Proof.
  intros W Eg Hidx Hbit P pos' g' E Hw.
  pose proof (wf_groups h W _ _ Eg) as G.
  unfold table_update in E. simpl in E.
  destruct (decide (pos = pos')) as [<-|Hne].
  - rewrite list_lookup_insert_eq in E
      by (apply lookup_lt_Some in Eg; exact Eg).
    inversion E; subst g'. apply group_is_full_iff.
    cbn [status group_after_insert].
    apply status_insert_pristine; [apply (wf_status h), G|exact Hidx| |exact Hw].
    destruct (wf_was_full_cases h group pos W Eg) as [C|C]; [exact C|].
    apply (P pos group Eg) in C. apply group_is_full_iff in C.
    destruct (status_popcount (status group) (wf_status h group G))
      as (_ & _ & _ & Hall & _).
    apply Hall in C.
    pose proof (Forall_seqZ_range _ _ C idx Hidx) as Hb. cbv beta in Hb.
    congruence.
  - rewrite list_lookup_insert_ne in E by exact Hne.
    apply (P pos' g' E Hw).
Qed.

Lemma update_at_ok h (pos : nat) group entry idx :
  table_wf h -> groups h !! pos = Some group -> 0 <= idx < 7 ->
  Z.testbit (status group) idx = true ->
  update_at h (find_result_init (Some (Z.of_nat pos)) idx true) entry
  = Ok (table_update h pos (group_after_update group entry idx) (count h)).
Proof.
  intros W Eg Hidx Hbit. unfold update_at, on_group.
  cbn [fr_group fr_index find_result_init]. rewrite Nat2Z.id, Eg.
  rewrite (group_update_ok h group entry idx
             (wf_groups h W _ _ Eg) Hidx Hbit).
  reflexivity.
Qed.

Lemma table_overwrite_wf h (pos : nat) group entry idx :
  table_wf h -> groups h !! pos = Some group -> 0 <= idx < 7 ->
  Z.testbit (status group) idx = true -> entry <> NULL ->
  hints group !! Z.to_nat idx = Some (hash_hint (h64_hash h entry)) ->
  on_path h entry pos ->
  table_wf (table_update h pos (group_after_update group entry idx) (count h)).
Proof.
  intros W Eg Hidx Hbit Hne Hhint Hpath.
  pose proof (wf_groups h W _ _ Eg) as G.
  apply (table_update_wf h pos group); try assumption.
  - apply group_after_update_wf; assumption.
  - unfold occupancy. cbn [status group_after_update]. lia.
  - apply (wf_load h W).
  - intros Hw. exact Hw.
  - intros i x Ex Hx. cbn [entries group_after_update] in Ex.
    destruct (decide (Z.to_nat idx = i)) as [<-|Hd].
    + rewrite list_lookup_insert_eq in Ex
        by (rewrite (wf_entries h group G); lia).
      inversion Ex; subst x. right. exact Hpath.
    + rewrite list_lookup_insert_ne in Ex by exact Hd. left. exact Ex.
Qed.

Lemma table_overwrite_for_each h (pos : nat) group entry idx old :
  table_wf h -> groups h !! pos = Some group ->
  entries group !! Z.to_nat idx = Some old -> old <> NULL -> entry <> NULL ->
  table_wf (table_update h pos (group_after_update group entry idx)
                         (count h)) ->
  exists l1 l2,
    h64_for_each h = l1 ++ old :: l2 /\
    h64_for_each (table_update h pos (group_after_update group entry idx)
                               (count h))
    = l1 ++ entry :: l2.
Proof.
  intros W Eg Eo Ho Hne W'.
  destruct (table_update_for_each h pos (Z.to_nat idx) group
              (group_after_update group entry idx) (count h)
              old entry W W' Eg Eo eq_refl) as (l1 & l2 & E1 & E2).
  exists l1, l2. rewrite E1, E2.
  rewrite !filter_cons, filter_nil.
  destruct (decide (old <> NULL)) as [_|C]; [|contradiction].
  destruct (decide (entry <> NULL)) as [_|C]; [|contradiction].
  split; reflexivity.
Qed.

Lemma erase_at_ok h (pos : nat) group idx x :
  groups h !! pos = Some group -> 0 <= idx < 7 ->
  entries group !! Z.to_nat idx = Some x ->
  erase_at h (find_result_init (Some (Z.of_nat pos)) idx true)
  = Ok (x, with_groups h (<[pos := group_after_erase group idx]> (groups h))).
Proof.
  intros Eg Hidx Ex. unfold erase_at, on_group.
  cbn [fr_group fr_index find_result_init]. rewrite Nat2Z.id, Eg.
  rewrite (group_erase_ok group idx x Hidx Ex). reflexivity.
Qed.

Lemma table_erase_wf h (pos : nat) group idx :
  table_wf h -> groups h !! pos = Some group -> 0 <= idx < 7 ->
  Z.testbit (status group) idx = true ->
  table_wf (table_update h pos (group_after_erase group idx) (count h - 1)).
Proof.
  intros W Eg Hidx Hbit.
  pose proof (wf_groups h W _ _ Eg) as G.
  apply (table_update_wf h pos group); try assumption.
  - apply group_after_erase_wf; assumption.
  - rewrite (group_after_erase_occupancy h group idx G Hidx Hbit). lia.
  - pose proof (wf_load h W). lia.
  - rewrite (group_after_erase_was_full h group idx G Hidx). auto.
  - intros i x Ex Hx. cbn [entries group_after_erase] in Ex.
    destruct (decide (Z.to_nat idx = i)) as [<-|Hd].
    + rewrite list_lookup_insert_eq in Ex
        by (rewrite (wf_entries h group G); lia).
      inversion Ex; subst x. contradiction Hx. reflexivity.
    + rewrite list_lookup_insert_ne in Ex by exact Hd. left. exact Ex.
Qed.

Lemma table_erase_for_each h (pos : nat) group idx old :
  table_wf h -> groups h !! pos = Some group ->
  entries group !! Z.to_nat idx = Some old -> old <> NULL ->
  table_wf (table_update h pos (group_after_erase group idx) (count h - 1)) ->
  exists l1 l2,
    h64_for_each h = l1 ++ old :: l2 /\
    h64_for_each (table_update h pos (group_after_erase group idx)
                               (count h - 1))
    = l1 ++ l2.
Proof.
  intros W Eg Eo Ho W'.
  destruct (table_update_for_each h pos (Z.to_nat idx) group
              (group_after_erase group idx) (count h - 1)
              old NULL W W' Eg Eo eq_refl) as (l1 & l2 & E1 & E2).
  exists l1, l2. rewrite E1, E2.
  rewrite !filter_cons, filter_nil.
  destruct (decide (old <> NULL)) as [_|C]; [|contradiction].
  destruct (decide (NULL <> NULL)) as [C|_]; [contradiction C; reflexivity|].
  split; reflexivity.
Qed.

(** ** Powers of two *)

Lemma is_power_of_2_pow2 k : 0 <= k <= 63 -> is_power_of_2 (2 ^ k) = true.
Proof.
  intros Hk. unfold is_power_of_2. rewrite size_mask_pow2 by lia.
  rewrite land_mask by lia. rewrite Z.mod_same by (apply Z.pow_nonzero; lia).
  reflexivity.
Qed.

Lemma is_power_of_2_spec n :
  0 < n < 2 ^ 64 -> is_power_of_2 n = true -> n = 2 ^ Z.log2 n.
Proof.
  intros Hn H. unfold is_power_of_2 in H. apply Z.eqb_eq in H.
  rewrite u64_small in H by lia.
  destruct (Z.log2_spec n ltac:(lia)) as [Hlo Hhi].
  destruct (Z.eq_dec n (2 ^ Z.log2 n)) as [E|Hne]; [exact E|exfalso].
  assert (Hl : Z.log2 (n - 1) = Z.log2 n).
  { apply Z.log2_unique; [apply Z.log2_nonneg|].
    replace (Z.succ (Z.log2 n)) with (Z.log2 n + 1) in * by lia. lia. }
  assert (Hb : Z.testbit (Z.land n (n - 1)) (Z.log2 n) = true).
  { rewrite Z.land_spec, Z.bit_log2 by lia.
    rewrite <- Hl. rewrite Z.bit_log2; [reflexivity|].
    pose proof (pow2_pos (Z.log2 n) (Z.log2_nonneg n)). lia. }
  rewrite H, Z.testbit_0_l in Hb. discriminate.
Qed.

Lemma table_size_pow2 size :
  is_power_of_2 size = true -> Z.max 4 size * 64 < 2 ^ 64 ->
  exists k, 2 <= k <= 57 /\ Z.max 4 size = 2 ^ k.
Proof.
  intros Hp Hb. destruct (Z.le_gt_cases size 4) as [L|G].
  - exists 2. split; [lia|]. rewrite Z.max_l by lia. reflexivity.
  - rewrite Z.max_r in * by lia.
    assert (Hlt : size < 2 ^ 58).
    { change (2 ^ 64) with (2 ^ 58 * 64) in Hb. lia. }
    assert (2 ^ 58 < 2 ^ 64) by reflexivity.
    pose proof (is_power_of_2_spec size ltac:(lia) Hp) as E.
    exists (Z.log2 size). split; [|exact E].
    pose proof (Z.log2_nonneg size).
    split.
    + destruct (Z.le_gt_cases 2 (Z.log2 size)) as [?|C]; [assumption|].
      pose proof (pow2_le_mono (Z.log2 size) 1 ltac:(lia)).
      change (2 ^ 1) with 2 in *. lia.
    + destruct (Z.le_gt_cases (Z.log2 size) 57) as [?|C]; [assumption|].
      pose proof (pow2_le_mono 58 (Z.log2 size) ltac:(lia)). lia.
Qed.

(** ** [h64_init] *)

(** The size of a table whose array does not fit: a power of two from
    [2 ^ 58] on. *)
Lemma large_size_pow2 size :
  is_power_of_2 size = true -> 0 <= size < 2 ^ 64 ->
  2 ^ 64 <= Z.max 4 size * 64 ->
  exists k, 58 <= k <= 63 /\ Z.max 4 size = 2 ^ k.
Proof.
  intros Hp Hs Hb.
  assert (H58 : 2 ^ 58 <= size).
  { change (2 ^ 64) with (2 ^ 58 * 64) in Hb.
    assert (4 < 2 ^ 58) by reflexivity. lia. }
  assert (4 < 2 ^ 58) by reflexivity.
  rewrite Z.max_r by lia.
  pose proof (is_power_of_2_spec size ltac:(lia) Hp) as E.
  exists (Z.log2 size). split; [|exact E].
  pose proof (Z.log2_nonneg size). split.
  - destruct (Z.le_gt_cases 58 (Z.log2 size)) as [?|C]; [assumption|].
    pose proof (pow2_lt_mono (Z.log2 size) 58 ltac:(lia)). lia.
  - destruct (Z.le_gt_cases (Z.log2 size) 63) as [?|C]; [assumption|].
    pose proof (pow2_le_mono 64 (Z.log2 size) ltac:(lia)). lia.
Qed.

Lemma init_size_max size : (if size <? 4 then 4 else size) = Z.max 4 size.
Proof. destruct (Z.ltb_spec size 4); lia. Qed.

(** The number of groups in the array of [h64_init]. *)
Lemma init_array_fits size :
  0 <= size -> size * 64 < 2 ^ 64 -> u64 (size * 64) / 64 = size.
Proof.
  intros H0 Hb. rewrite u64_small by lia. apply Z.div_mul. lia.
Qed.

Lemma init_array_wraps k : 58 <= k <= 63 -> u64 (2 ^ k * 64) / 64 = 0.
Proof.
  intros Hk. unfold u64.
  replace (2 ^ k * 64) with (2 ^ (k - 58) * 2 ^ 64).
  - rewrite Z.mod_mul by (apply Z.pow_nonzero; lia). reflexivity.
  - change 64 with (2 ^ 6) at 2. replace 64 with (58 + 6) at 1 by lia.
    rewrite (Z.pow_add_r 2 58 6) by lia.
    replace k with ((k - 58) + 58) at 2 by lia.
    rewrite (Z.pow_add_r 2 (k - 58) 58) by lia. lia.
Qed.

Lemma h64_init_inv size hs eq hp h hp' :
  0 <= size < 2 ^ 64 ->
  h64_init size hs eq hp = Ok (h, hp') ->
  is_power_of_2 size = true /\
  exists addr, hp = addr :: hp' /\
    ((Z.max 4 size * 64 < 2 ^ 64 /\ h = fresh_table size hs eq addr) \/
     (2 ^ 64 <= Z.max 4 size * 64 /\
      h = hollow_table (Z.max 4 size) hs eq addr /\ hollow h)).
Proof.
  unfold h64_init, MIN_SIZE, DEFAULT_SIZE, sizeof_group. intros Hs H.
  destruct (is_power_of_2 size) eqn:Hp; [|discriminate H]. cbn [negb] in H.
  rewrite init_size_max in H.
  split; [reflexivity|].
  unfold bind, xalloc, ret in H. destruct hp as [|addr hp]; [discriminate H|].
  inversion H; subst. exists addr. split; [reflexivity|].
  destruct (Z_lt_ge_dec (Z.max 4 size * 64) (2 ^ 64)) as [Hfit|Hbig].
  - left. split; [exact Hfit|]. unfold fresh_table.
    rewrite init_array_fits by lia. reflexivity.
  - right. split; [lia|].
    destruct (large_size_pow2 size Hp Hs ltac:(lia)) as (k & Hk & Ek).
    assert (E : hollow_table (Z.max 4 size) hs eq addr
                = {| hasher := hs; equals := eq; seed := mixer64 addr;
                     groups := replicate
                                 (Z.to_nat (u64 (Z.max 4 size * 64) / 64))
                                 empty_group;
                     size_in_groups := Z.max 4 size; count := 0 |}).
    { rewrite Ek, init_array_wraps by exact Hk. reflexivity. }
    rewrite <- E. split; [reflexivity|].
    split; [reflexivity|]. split; [reflexivity|].
    exists k. split; [exact Hk|exact Ek].
Qed.

Lemma h64_init_ok size hs eq addr hp :
  is_power_of_2 size = true -> Z.max 4 size * 64 < 2 ^ 64 ->
  h64_init size hs eq (addr :: hp) = Ok (fresh_table size hs eq addr, hp).
Proof.
  intros Hp Hb. unfold h64_init, MIN_SIZE, DEFAULT_SIZE, sizeof_group.
  rewrite Hp. cbn [negb]. rewrite init_size_max.
  unfold bind, xalloc, ret, fresh_table.
  rewrite init_array_fits by lia. reflexivity.
Qed.

Lemma flat_entries_replicate n :
  filter (fun e => e <> NULL) (flat_entries (replicate n empty_group)) = [].
Proof.
  induction n as [|n IH]; [reflexivity|].
  change (flat_entries (replicate (S n) empty_group))
    with (entries empty_group ++ flat_entries (replicate n empty_group)).
  rewrite filter_app, IH. reflexivity.
Qed.

Lemma fresh_table_wf size hs eq addr :
  is_power_of_2 size = true -> Z.max 4 size * 64 < 2 ^ 64 ->
  table_wf (fresh_table size hs eq addr).
Proof.
  intros Hp Hb. destruct (table_size_pow2 size Hp Hb) as (k & Hk & Ek).
  constructor; unfold fresh_table; cbn [size_in_groups groups count].
  - exists k. split; assumption.
  - apply length_replicate.
  - intros pos g E. apply lookup_replicate in E as [-> _].
    apply empty_group_wf.
  - rewrite occupancy_sum_replicate. reflexivity.
  - rewrite Ek. pose proof (load_thresholds k Hk). lia.
  - intros pos idx x (g & E & Ex & Hx). cbn [groups] in E.
    apply lookup_replicate in E as [-> _].
    unfold empty_group in Ex. cbn [entries] in Ex.
    apply lookup_replicate in Ex as [-> _]. contradiction Hx. reflexivity.
Qed.

Lemma fresh_table_for_each size hs eq addr :
  is_power_of_2 size = true -> Z.max 4 size * 64 < 2 ^ 64 ->
  h64_for_each (fresh_table size hs eq addr) = [].
Proof.
  intros Hp Hb. rewrite for_each_flat by (apply fresh_table_wf; assumption).
  apply flat_entries_replicate.
Qed.

Lemma fresh_table_pristine size hs eq addr :
  pristine (fresh_table size hs eq addr).
Proof.
  intros pos g E Hw. unfold fresh_table in E. cbn [groups] in E.
  apply lookup_replicate in E as [-> _]. discriminate Hw.
Qed.

(** ** [install_new] *)

Lemma installed_wf h entry h' :
  table_wf h -> count h <= max_count (size_in_groups h) -> entry <> NULL ->
  installed h entry h' -> table_wf h'.
Proof.
  intros W Hload Hne (pos & g & idx & Eg & Hidx & Hbit & Hpath & ->).
  apply table_insert_wf; assumption.
Qed.

Lemma installed_for_each h entry h' :
  table_wf h -> count h <= max_count (size_in_groups h) -> entry <> NULL ->
  installed h entry h' ->
  exists l1 l2,
    h64_for_each h = l1 ++ l2 /\ h64_for_each h' = l1 ++ entry :: l2.
Proof.
  intros W Hload Hne (pos & g & idx & Eg & Hidx & Hbit & Hpath & ->).
  apply table_insert_for_each; try assumption.
  apply table_insert_wf; assumption.
Qed.

Lemma installed_pristine h entry h' :
  table_wf h -> installed h entry h' -> pristine h -> pristine h'.
Proof.
  intros W (pos & g & idx & Eg & Hidx & Hbit & Hpath & ->).
  apply table_insert_pristine; assumption.
Qed.

Lemma installed_fields h entry h' :
  installed h entry h' ->
  hasher h' = hasher h /\ equals h' = equals h /\ seed h' = seed h /\
  size_in_groups h' = size_in_groups h /\ count h' = count h + 1.
Proof.
  intros (pos & g & idx & _ & _ & _ & _ & ->). repeat split.
Qed.

Lemma installed_was_full h entry h' p :
  table_wf h -> installed h entry h' -> was_full_at h p -> was_full_at h' p.
Proof.
  intros W (pos & g & idx & Eg & Hidx & Hbit & Hpath & ->).
  apply (was_full_at_update h pos g); [exact Eg|].
  apply group_after_insert_was_full; [apply (wf_groups h W _ _ Eg)|exact Hidx].
Qed.

(** [install_new] returns, within one round over the groups, and what it
    returns is the table with the element installed. *)
Lemma install_new_spec h entry :
  table_wf h -> count h <= max_count (size_in_groups h) -> entry <> NULL ->
  exists (j : nat) h',
    Z.of_nat j < size_in_groups h /\
    installed h entry h' /\
    (forall (fuel : nat) hp, (j < fuel)%nat ->
       install_new fuel h entry hp = Ok (h', hp)) /\
    (forall (fuel : nat) hp h'' hp',
       install_new fuel h entry hp = Ok (h'', hp') -> h'' = h' /\ hp' = hp).
Proof.
  intros W Hload Hne.
  destruct (find_empty_spec h (h64_hash h entry) W)
    as (j & pos & g & idx & Hj & Epos & Eg & Hidx & Hbit & Hfull & Hrun & Hinv).
  pose proof (count_no_wrap h W) as [Hc0 Hc1].
  exists j, (table_update h pos (group_after_insert h g entry idx) (count h + 1)).
  split; [exact Hj|]. split; [|split].
  - exists pos, g, idx. repeat (split; [assumption|]). split; [|reflexivity].
    exists j. split; [exact Hj|]. split; [exact Epos|exact Hfull].
  - intros fuel hp Hfuel. unfold install_new.
    rewrite (bind_of_Ok _ _ hp _ hp (lift_of_Ok _ hp _ (Hrun fuel Hfuel))).
    rewrite (bind_of_Ok _ _ hp _ hp
               (lift_of_Ok _ hp _ (insert_at_ok h pos g entry idx
                                     W Eg Hidx Hbit Hne))).
    unfold ret, table_update. cbn [count with_groups].
    rewrite u64_small by lia. reflexivity.
  - intros fuel hp h'' hp' H. unfold install_new in H.
    run_inv H.
    match goal with
    | Hf : h64_find_empty_entry _ _ _ = Ok _ |- _ => apply Hinv in Hf; subst
    end.
    match goal with
    | Hi : insert_at _ _ _ _ = Ok _ |- _ =>
      rewrite (insert_at_ok h pos g entry idx W Eg Hidx Hbit Hne) in Hi;
        inversion Hi; subst
    end.
    split; [|reflexivity].
    unfold table_update. cbn [count with_groups].
    rewrite u64_small by lia. reflexivity.
Qed.

(** ** Rehashing *)

Lemma should_grow_up_eq h :
  h64_should_grow_up h = (max_count (size_in_groups h) <? count h).
Proof. reflexivity. Qed.

Lemma should_grow_down_eq h :
  h64_should_grow_down h
  = (count h <? min_count (size_in_groups h)) && (4 <? size_in_groups h).
Proof. reflexivity. Qed.

Lemma no_grow_room h :
  h64_should_grow_up h = false -> count h <= max_count (size_in_groups h).
Proof. rewrite should_grow_up_eq. intros H. apply Z.ltb_ge in H. exact H. Qed.

Lemma for_each_non_null h x : x ∈ h64_for_each h -> x <> NULL.
Proof.
  unfold h64_for_each. intros H. apply list_elem_of_filter in H as [H _].
  exact H.
Qed.

Lemma wf_count_perm h h' :
  table_wf h -> table_wf h' ->
  h64_for_each h' ≡ₚ h64_for_each h -> count h' = count h.
Proof.
  intros W W' P. rewrite (wf_count_length h W), (wf_count_length h' W').
  rewrite (Permutation_length P). reflexivity.
Qed.

(** ** Tables over an empty array *)

Lemma hollow_size_cases h :
  hollow h ->
  size_in_groups h = 2 ^ 58 \/ size_in_groups h = 2 ^ 59 \/
  size_in_groups h = 2 ^ 60 \/ size_in_groups h = 2 ^ 61 \/
  size_in_groups h = 2 ^ 62 \/ size_in_groups h = 2 ^ 63.
Proof.
  intros (_ & _ & k & Hk & ->).
  assert (k = 58 \/ k = 59 \/ k = 60 \/ k = 61 \/ k = 62 \/ k = 63) as Hc
    by lia.
  repeat (destruct Hc as [->|Hc]; [tauto|]). subst k. tauto.
Qed.

Lemma hollow_no_growth h : hollow h -> h64_should_grow_up h = false.
Proof.
  intros Hh. rewrite should_grow_up_eq.
  destruct Hh as (Eg & Ec & Hk). rewrite Ec.
  assert (Hh : hollow h) by (split; [exact Eg|split; [exact Ec|exact Hk]]).
  apply Z.ltb_ge.
  destruct (hollow_size_cases h Hh) as [E|[E|[E|[E|[E|E]]]]]; rewrite E;
    vm_compute; discriminate.
Qed.

Lemma wf_not_hollow h : table_wf h -> hollow h -> False.
Proof.
  intros W (_ & _ & k & Hk & Ek).
  destruct (wf_size h W) as (k' & Hk' & Ek'). rewrite Ek in Ek'.
  apply Z.pow_inj_r in Ek'; lia.
Qed.

(** Every read of a group is outside the array. *)
Lemma hollow_find_entry fuel h entry hash r :
  groups h = [] -> h64_find_entry fuel h entry hash <> Ok r.
Proof.
  intros Eg. unfold h64_find_entry. destruct fuel as [|fuel]; [discriminate|].
  cbn [find_entry_loop]. rewrite Eg, lookup_nil. discriminate.
Qed.

Lemma hollow_find_empty_entry fuel h hash r :
  groups h = [] -> h64_find_empty_entry fuel h hash <> Ok r.
Proof.
  intros Eg. unfold h64_find_empty_entry.
  destruct fuel as [|fuel]; [discriminate|].
  cbn [find_empty_loop]. rewrite Eg, lookup_nil. discriminate.
Qed.

Lemma hollow_find fuel h entry x : groups h = [] -> h64_find fuel h entry <> Ok x.
Proof.
  intros Eg H. unfold h64_find in H.
  destruct (h64_find_entry fuel h entry (h64_hash h entry)) as [r| |] eqn:E;
    try discriminate H.
  apply (hollow_find_entry fuel h entry _ r Eg E).
Qed.

Lemma hollow_insert_new fuel h entry hp r :
  hollow h -> h64_insert_new fuel h entry hp <> Ok r.
Proof.
  intros Hh H. destruct fuel as [|fuel]; [discriminate H|].
  cbn [h64_insert_new] in H. rewrite (hollow_no_growth h Hh) in H.
  destruct r as [h' hp'].
  apply bind_Ok in H as (h1 & hp1 & Hr & H). apply ret_Ok in Hr as [-> ->].
  apply bind_Ok in H as (r & hp1 & Hf & _).
  apply lift_Ok in Hf as [Hf _].
  apply (hollow_find_empty_entry fuel h _ r (proj1 Hh) Hf).
Qed.

(** On a well-formed table the loop of [h64_for_each] stays inside the
    array. *)
Lemma resize_guard h :
  table_wf h -> (Z.of_nat (length (groups h)) <? size_in_groups h) = false.
Proof.
  intros W. apply Z.ltb_ge. rewrite (wf_length h W).
  destruct (wf_size h W) as (k & Hk & Ek).
  pose proof (pow2_pos k ltac:(lia)). lia.
Qed.

Section Rehash.

Variable fuel : nat.

Hypothesis insert_new_ok :
  forall h entry hp h' hp',
    table_wf h -> entry <> NULL ->
    h64_insert_new fuel h entry hp = Ok (h', hp') ->
    inserted_new h entry hp h' hp'.

Lemma inserted_new_pristine h entry hp h' hp' :
  table_wf h -> inserted_new h entry hp h' hp' -> pristine h -> pristine h'.
Proof.
  intros W I P. destruct (h64_should_grow_up h) eqn:E.
  - destruct (ins_rehashed _ _ _ _ _ I E) as (h1 & R & Hi).
    apply (installed_pristine h1 entry h' (rs_wf _ _ _ _ _ R) Hi).
    apply (rs_pristine _ _ _ _ _ R).
  - destruct (ins_in_place _ _ _ _ _ I E) as [Hi _].
    apply (installed_pristine h entry h' W Hi P).
Qed.

Lemma inserted_new_heap h entry hp h' hp' :
  inserted_new h entry hp h' hp' -> (length hp' <= length hp)%nat.
Proof.
  intros I. destruct (h64_should_grow_up h) eqn:E.
  - destruct (ins_rehashed _ _ _ _ _ I E) as (h1 & R & _).
    pose proof (rs_heap _ _ _ _ _ R). lia.
  - destruct (ins_in_place _ _ _ _ _ I E) as [_ ->]. lia.
Qed.

Lemma foldM_insert_new l :
  forall tmp hp h' hp',
    table_wf tmp -> Forall (fun x => x <> NULL) l ->
    foldM (h64_insert_new fuel) l tmp hp = Ok (h', hp') ->
    table_wf h' /\
    h64_for_each h' ≡ₚ l ++ h64_for_each tmp /\
    hasher h' = hasher tmp /\ equals h' = equals tmp /\
    (pristine tmp -> pristine h') /\
    (length hp' <= length hp)%nat /\
    (count tmp + Z.of_nat (length l) <= max_count (size_in_groups tmp) + 1 ->
     size_in_groups h' = size_in_groups tmp /\ seed h' = seed tmp /\
     hp' = hp).
Proof.
  induction l as [|x l IHl]; intros tmp hp h' hp' W Hl H.
  - cbn [foldM] in H. apply ret_Ok in H as [-> ->].
    split; [exact W|]. split; [reflexivity|].
    split; [reflexivity|]. split; [reflexivity|].
    split; [auto|]. split; [lia|]. intros _. auto.
  - cbn [foldM] in H. apply bind_Ok in H as (t1 & hp1 & H1 & H).
    apply Forall_cons in Hl as [Hx Hl].
    pose proof (insert_new_ok tmp x hp t1 hp1 W Hx H1) as I.
    destruct (IHl t1 hp1 h' hp' (ins_wf _ _ _ _ _ I) Hl H)
      as (W' & P' & Hh & He & Hp & Hhp & Hexact).
    split; [exact W'|]. split; [|split; [|split; [|split; [|split]]]].
    + rewrite P', (ins_for_each _ _ _ _ _ I).
      symmetry. apply Permutation_middle.
    + rewrite Hh. apply (ins_hasher _ _ _ _ _ I).
    + rewrite He. apply (ins_equals _ _ _ _ _ I).
    + intros P. apply Hp. apply (inserted_new_pristine tmp x hp t1 hp1 W I P).
    + pose proof (inserted_new_heap _ _ _ _ _ I). lia.
    + intros Hroom. cbn [length] in Hroom.
      assert (Hng : h64_should_grow_up tmp = false).
      { rewrite should_grow_up_eq. apply Z.ltb_ge. lia. }
      destruct (ins_in_place _ _ _ _ _ I Hng) as [Hi ->].
      destruct (installed_fields tmp x t1 Hi) as (_ & _ & Es & Ez & Ec).
      rewrite Ez, Ec, Es in Hexact. apply Hexact. lia.
Qed.

Lemma resize_with_cases h size hp h' hp' :
  table_wf h -> 0 <= size < 2 ^ 64 ->
  resize_with (h64_insert_new fuel) h size hp = Ok (h', hp') ->
  resized h size hp h' hp' \/
  (h64_for_each h = [] /\ 2 ^ 64 <= Z.max 4 size * 64 /\
   exists addr,
     hp = addr :: hp' /\
     h' = hollow_table (Z.max 4 size) (hasher h) (equals h) addr /\
     hollow h').
Proof.
  intros W Hs H. unfold resize_with in H.
  destruct (is_power_of_2 size) eqn:Hp; [|discriminate H]. cbn [negb] in H.
  apply bind_Ok in H as (tmp & hp1 & Hinit & H).
  rewrite (resize_guard h W) in H.
  apply (h64_init_inv _ _ _ _ _ _ Hs) in Hinit
    as (_ & addr & -> & [[Hfit ->]|(Hbig & -> & Hh)]).
  - left.
    pose proof (fresh_table_wf size (hasher h) (equals h) addr Hp Hfit) as Wt.
    assert (Hall : Forall (fun x => x <> NULL) (h64_for_each h)).
    { apply Forall_forall. intros x. apply for_each_non_null. }
    destruct (foldM_insert_new _ _ _ _ _ Wt Hall H)
      as (W' & P' & Hh & He & Hpr & Hhp & Hexact).
    rewrite fresh_table_for_each, app_nil_r in P' by assumption.
    constructor; try assumption.
    + apply Hpr, fresh_table_pristine.
    + cbn [length]. lia.
    + intros Hroom.
      destruct Hexact as (Es & Ed & ->).
      { cbn [count size_in_groups fresh_table].
        rewrite <- (wf_count_length h W). lia. }
      split; [exact Es|]. exists addr. split; [reflexivity|exact Ed].
  - right. destruct (h64_for_each h) as [|x l] eqn:El.
    + cbn [foldM] in H. apply ret_Ok in H as [-> ->].
      split; [reflexivity|]. split; [exact Hbig|].
      exists addr. split; [reflexivity|]. split; [reflexivity|exact Hh].
    + exfalso. cbn [foldM] in H. apply bind_Ok in H as (t1 & hp2 & H1 & _).
      apply (hollow_insert_new fuel _ x hp1 (t1, hp2) Hh H1).
Qed.

(** With an element to move, or a size whose array fits, the rehash
    leaves a table over an array of the size its [size_in_groups] says. *)
Lemma resize_with_spec h size hp h' hp' :
  table_wf h -> 0 <= size < 2 ^ 64 ->
  h64_for_each h <> [] \/ Z.max 4 size * 64 < 2 ^ 64 ->
  resize_with (h64_insert_new fuel) h size hp = Ok (h', hp') ->
  resized h size hp h' hp'.
Proof.
  intros W Hs Hc H.
  destruct (resize_with_cases h size hp h' hp' W Hs H)
    as [R|(El & Hbig & _)]; [exact R|].
  destruct Hc as [Hc|Hc]; [contradiction|lia].
Qed.

End Rehash.

Lemma h64_insert_new_unfold fuel h entry :
  h64_insert_new (S fuel) h entry
  = bind (if h64_should_grow_up h then h64_grow_up fuel h else ret h)
         (fun h1 => install_new fuel h1 entry).
Proof. reflexivity. Qed.

Lemma doubled_size h :
  table_wf h ->
  u64 (size_in_groups h * 2) = 2 * size_in_groups h /\
  (Z.max 4 (2 * size_in_groups h) * 64 < 2 ^ 64 ->
   Z.max 4 (2 * size_in_groups h) = 2 * size_in_groups h /\
   max_count (size_in_groups h) + 1 <= max_count (2 * size_in_groups h) /\
   min_count (2 * size_in_groups h) <= max_count (size_in_groups h) + 1).
Proof.
  intros W. destruct (wf_size h W) as (k & Hk & Hs). rewrite Hs.
  pose proof (pow2_le_mono k 57 ltac:(lia)) as Hup.
  pose proof (pow2_le_mono 2 k ltac:(lia)) as Hlo.
  change (2 ^ 2) with 4 in Hlo.
  assert (H57 : 2 ^ 57 * 2 < 2 ^ 64) by reflexivity.
  split.
  { rewrite u64_small; lia. }
  intros Hfit. rewrite Z.max_r in Hfit by lia. rewrite Z.max_r by lia.
  split; [reflexivity|].
  assert (Hb : 2 * 2 ^ k <= 2 ^ 57).
  { destruct (Z.eq_dec k 57) as [->|Hne].
    - exfalso. revert Hfit. vm_compute. intros C. discriminate C.
    - pose proof (pow2_le_mono k 56 ltac:(lia)) as H56.
      change (2 ^ 57) with (2 * 2 ^ 56). lia. }
  pose proof (load_thresholds k Hk) as (_ & _ & _ & Hd).
  destruct (Hd Hb) as (? & ? & _). split; assumption.
Qed.

(** What [h64_grow_up] does when the load check asked for it: the table
    has twice the groups and the same entries. *)
Lemma grow_up_exact h size hp h' hp' :
  table_wf h -> size = u64 (size_in_groups h * 2) ->
  resized h size hp h' hp' ->
  size_in_groups h' = 2 * size_in_groups h /\
  count h' = count h /\
  count h' <= max_count (size_in_groups h').
Proof.
  intros W -> R.
  destruct (doubled_size h W) as (Eu & Hd). rewrite Eu in R.
  destruct (Hd (rs_fits _ _ _ _ _ R)) as (Em & Hmax & _).
  pose proof (wf_load h W) as Hl.
  destruct (rs_exact _ _ _ _ _ R) as (Es & _); [rewrite Em; lia|].
  rewrite Em in Es.
  pose proof (wf_count_perm h h' W (rs_wf _ _ _ _ _ R)
                (rs_for_each _ _ _ _ _ R)) as Ec.
  rewrite Es, Ec. split; [reflexivity|]. split; [reflexivity|]. lia.
Qed.

Lemma h64_insert_new_spec fuel :
  forall h entry hp h' hp',
    table_wf h -> entry <> NULL ->
    h64_insert_new fuel h entry hp = Ok (h', hp') ->
    inserted_new h entry hp h' hp'.
Proof.
  induction fuel as [|fuel IH]; intros h entry hp h' hp' W Hne H;
    [discriminate H|].
  rewrite h64_insert_new_unfold in H.
  apply bind_Ok in H as (h1 & hp1 & Hg & H).
  destruct (h64_should_grow_up h) eqn:Eg.
  - assert (Hne' : h64_for_each h <> []).
    { intros El. rewrite should_grow_up_eq in Eg. apply Z.ltb_lt in Eg.
      rewrite (wf_count_length h W), El in Eg. cbn [length] in Eg.
      destruct (wf_size h W) as (k & Hk & Ek). rewrite Ek in Eg.
      pose proof (load_thresholds k Hk). lia. }
    pose proof (resize_with_spec fuel IH h _ hp h1 hp1 W
                  (u64_range _) (or_introl Hne') Hg) as R.
    destruct (grow_up_exact h _ hp h1 hp1 W eq_refl R) as (Es & Ec & Hroom).
    pose proof (rs_wf _ _ _ _ _ R) as W1.
    destruct (install_new_spec h1 entry W1 Hroom Hne)
      as (j & h2 & Hj & Hi & _ & Hinv).
    apply Hinv in H as [-> ->].
    destruct (installed_for_each h1 entry h2 W1 Hroom Hne Hi)
      as (l1 & l2 & E1 & E2).
    destruct (installed_fields h1 entry h2 Hi) as (Eh & Ee & _).
    constructor.
    + apply (installed_wf h1 entry h2 W1 Hroom Hne Hi).
    + rewrite E2, <- (rs_for_each _ _ _ _ _ R), E1.
      symmetry. apply Permutation_middle.
    + rewrite Eh. apply (rs_hasher _ _ _ _ _ R).
    + rewrite Ee. apply (rs_equals _ _ _ _ _ R).
    + intros C. congruence.
    + intros _. exists h1. split; [exact R|exact Hi].
  - apply ret_Ok in Hg as [-> ->].
    pose proof (no_grow_room h Eg) as Hroom.
    destruct (install_new_spec h entry W Hroom Hne)
      as (j & h2 & Hj & Hi & _ & Hinv).
    apply Hinv in H as [-> ->].
    destruct (installed_for_each h entry h2 W Hroom Hne Hi)
      as (l1 & l2 & E1 & E2).
    destruct (installed_fields h entry h2 Hi) as (Eh & Ee & _).
    constructor.
    + apply (installed_wf h entry h2 W Hroom Hne Hi).
    + rewrite E2, E1. symmetry. apply Permutation_middle.
    + exact Eh.
    + exact Ee.
    + intros _. split; [exact Hi|reflexivity].
    + intros C. congruence.
Qed.

Lemma h64_resize_cases fuel h size hp h' hp' :
  table_wf h -> 0 <= size < 2 ^ 64 ->
  h64_resize fuel h size hp = Ok (h', hp') ->
  resized h size hp h' hp' \/
  (h64_for_each h = [] /\ 2 ^ 64 <= Z.max 4 size * 64 /\
   exists addr,
     hp = addr :: hp' /\
     h' = hollow_table (Z.max 4 size) (hasher h) (equals h) addr /\
     hollow h').
Proof.
  intros W Hs H. apply (resize_with_cases fuel); [|exact W|exact Hs|exact H].
  apply h64_insert_new_spec.
Qed.

Lemma h64_resize_spec fuel h size hp h' hp' :
  table_wf h -> 0 <= size < 2 ^ 64 ->
  h64_for_each h <> [] \/ Z.max 4 size * 64 < 2 ^ 64 ->
  h64_resize fuel h size hp = Ok (h', hp') ->
  resized h size hp h' hp'.
Proof.
  intros W Hs Hc H.
  apply (resize_with_spec fuel); [|exact W|exact Hs|exact Hc|exact H].
  apply h64_insert_new_spec.
Qed.

(** A growth is asked for only when the table holds an element. *)
Lemma grow_up_non_empty h :
  table_wf h -> h64_should_grow_up h = true -> h64_for_each h <> [].
Proof.
  intros W Eg El. rewrite should_grow_up_eq in Eg. apply Z.ltb_lt in Eg.
  rewrite (wf_count_length h W), El in Eg. cbn [length] in Eg.
  destruct (wf_size h W) as (k & Hk & Ek). rewrite Ek in Eg.
  pose proof (load_thresholds k Hk). lia.
Qed.

(** The size a shrink asks for fits. *)
Lemma halved_size_fits h :
  table_wf h ->
  0 <= size_in_groups h / 2 < 2 ^ 64 /\
  Z.max 4 (size_in_groups h / 2) * 64 < 2 ^ 64.
Proof.
  intros W. destruct (wf_size h W) as (k & Hk & Ek). rewrite Ek.
  pose proof (pow2_le_mono k 57 ltac:(lia)) as Hup.
  pose proof (pow2_pos k ltac:(lia)) as Hpos.
  assert (H57 : 2 ^ 57 * 64 < 2 ^ 64) by reflexivity.
  assert (Hh : 0 <= 2 ^ k / 2 <= 2 ^ 57).
  { split; [apply Z.div_pos; lia|].
    apply Z.div_le_upper_bound; lia. }
  split; [lia|]. destruct (Z.max_spec 4 (2 ^ k / 2)) as [[_ ->]|[_ ->]]; lia.
Qed.

(** ** The public operations, taken apart *)

Lemma overwritten_wf h entry h' :
  table_wf h -> entry <> NULL -> overwritten h entry h' -> table_wf h'.
Proof.
  intros W Hne (pos & idx & g & x & Eg & Hidx & Ex & Hx & Heq & Hbit & Hhint
                & Hpath & ->).
  apply table_overwrite_wf; assumption.
Qed.

Lemma overwritten_fields h entry h' :
  overwritten h entry h' ->
  hasher h' = hasher h /\ equals h' = equals h /\ seed h' = seed h /\
  size_in_groups h' = size_in_groups h /\ count h' = count h.
Proof.
  intros (pos & idx & g & x & _ & _ & _ & _ & _ & _ & _ & _ & ->).
  repeat split.
Qed.

Lemma erased_wf h probe x h' :
  table_wf h -> erased h probe x h' -> table_wf h'.
Proof.
  intros W (pos & idx & g & Eg & Hidx & Ex & Hx & Heq & Hbit & ->).
  apply table_erase_wf; assumption.
Qed.

Lemma erased_fields h probe x h' :
  erased h probe x h' ->
  hasher h' = hasher h /\ equals h' = equals h /\ seed h' = seed h /\
  size_in_groups h' = size_in_groups h /\ count h' = count h - 1.
Proof.
  intros (pos & idx & g & _ & _ & _ & _ & _ & _ & ->). repeat split.
Qed.

Lemma h64_insert_unfold fuel h entry :
  h64_insert fuel h entry
  = bind (if h64_should_grow_up h then h64_grow_up fuel h else ret h)
      (fun h1 =>
         bind (lift (h64_find_entry fuel h1 entry (h64_hash h1 entry)))
           (fun r => if fr_found r then lift (update_at h1 r entry)
                     else install_new fuel h1 entry)).
Proof. reflexivity. Qed.

(** The two steps of [h64_insert] after the load check, on a table with
    room for one more element. *)
Lemma upsert_inv fuel h entry hp h' hp' :
  table_wf h -> count h <= max_count (size_in_groups h) -> entry <> NULL ->
  bind (lift (h64_find_entry fuel h entry (h64_hash h entry)))
       (fun r => if fr_found r then lift (update_at h r entry)
                 else install_new fuel h entry) hp = Ok (h', hp') ->
  hp' = hp /\
  (overwritten h entry h' \/
   (installed h entry h' /\
    (callbacks_ok (hasher h) (equals h) -> absent h entry))).
Proof.
  intros W Hroom Hne H.
  apply bind_Ok in H as (r & hp1 & Hf & H).
  apply lift_Ok in Hf as [Hf ->].
  destruct (fr_found r) eqn:Efound.
  - destruct (find_entry_found h entry fuel r W Hf Efound)
      as (pos & idx & g & x & -> & Hidx & Eg & Ex & Hx & Hbit & Hhint & Heq
          & Hpath).
    rewrite (update_at_ok h pos g entry idx W Eg Hidx Hbit) in H.
    apply lift_Ok in H as [H ->]. inversion H; subst h'.
    split; [reflexivity|]. left.
    exists pos, idx, g, x. repeat (split; [assumption|]). reflexivity.
  - destruct (install_new_spec h entry W Hroom Hne)
      as (j & h2 & Hj & Hi & _ & Hinv).
    apply Hinv in H as [-> ->]. split; [reflexivity|]. right.
    split; [exact Hi|]. intros C.
    exact (proj2 (find_entry_not_found h entry fuel r W C Hf Efound)).
Qed.

(** [h64_insert]: an optional doubling, then an overwrite or an
    installation. *)
Lemma h64_insert_inv fuel h entry hp h' hp' :
  table_wf h -> entry <> NULL ->
  h64_insert fuel h entry hp = Ok (h', hp') ->
  exists h1,
    ((h64_should_grow_up h = false /\ h1 = h /\ hp' = hp) \/
     (h64_should_grow_up h = true /\
      resized h (u64 (size_in_groups h * 2)) hp h1 hp' /\
      size_in_groups h1 = 2 * size_in_groups h)) /\
    table_wf h1 /\ count h1 = count h /\
    count h1 <= max_count (size_in_groups h1) /\
    (overwritten h1 entry h' \/
     (installed h1 entry h' /\
      (callbacks_ok (hasher h1) (equals h1) -> absent h1 entry))).
Proof.
  intros W Hne H. rewrite h64_insert_unfold in H.
  apply bind_Ok in H as (h1 & hp1 & Hg & H). exists h1.
  destruct (h64_should_grow_up h) eqn:Eg.
  - pose proof (h64_resize_spec fuel h _ hp h1 hp1 W (u64_range _)
                  (or_introl (grow_up_non_empty h W Eg)) Hg) as R.
    destruct (grow_up_exact h _ hp h1 hp1 W eq_refl R) as (Es & Ec & Hroom).
    pose proof (rs_wf _ _ _ _ _ R) as W1.
    destruct (upsert_inv fuel h1 entry hp1 h' hp' W1 Hroom Hne H) as [-> Hcase].
    split; [right; auto|]. auto.
  - apply ret_Ok in Hg as [-> ->].
    pose proof (no_grow_room h Eg) as Hroom.
    destruct (upsert_inv fuel h entry hp h' hp' W Hroom Hne H) as [-> Hcase].
    split; [left; auto|]. auto.
Qed.

Lemma halved_size h :
  table_wf h -> 4 < size_in_groups h ->
  Z.max 4 (size_in_groups h / 2) = size_in_groups h / 2 /\
  min_count (size_in_groups h) <= max_count (size_in_groups h / 2) + 1 /\
  (4 < size_in_groups h / 2 ->
   min_count (size_in_groups h / 2) <= min_count (size_in_groups h) - 1).
Proof.
  intros W Hgt. destruct (wf_size h W) as (k & Hk & Hs). rewrite Hs in *.
  assert (Hk3 : 3 <= k).
  { destruct (Z.le_gt_cases 3 k) as [?|C]; [assumption|].
    pose proof (pow2_le_mono k 2 ltac:(lia)). change (2 ^ 2) with 4 in *. lia. }
  assert (E : 2 ^ k = 2 * 2 ^ (k - 1)).
  { rewrite <- Z.pow_succ_r by lia. f_equal. lia. }
  assert (Eh : 2 ^ k / 2 = 2 ^ (k - 1)).
  { rewrite E. rewrite Z.mul_comm, Z.div_mul by lia. reflexivity. }
  rewrite Eh.
  pose proof (pow2_le_mono 2 (k - 1) ltac:(lia)) as Hlo.
  change (2 ^ 2) with 4 in Hlo.
  pose proof (pow2_le_mono k 57 ltac:(lia)) as Hup.
  split; [lia|].
  pose proof (load_thresholds (k - 1) ltac:(lia)) as (_ & _ & _ & Hd).
  rewrite <- E in Hd. destruct (Hd Hup) as (_ & ? & ?). split; assumption.
Qed.

Lemma grow_down_exact h hp h' hp' :
  table_wf h -> h64_should_grow_down h = true ->
  resized h (size_in_groups h / 2) hp h' hp' ->
  size_in_groups h' = size_in_groups h / 2 /\ count h' = count h.
Proof.
  intros W Hd R. rewrite should_grow_down_eq in Hd.
  apply andb_true_iff in Hd as [Hc Hs].
  apply Z.ltb_lt in Hc. apply Z.ltb_lt in Hs.
  destruct (halved_size h W Hs) as (Em & Hmin & _).
  destruct (rs_exact _ _ _ _ _ R) as (Es & _); [rewrite Em; lia|].
  rewrite Em in Es. split; [exact Es|].
  apply (wf_count_perm h h' W (rs_wf _ _ _ _ _ R) (rs_for_each _ _ _ _ _ R)).
Qed.

Lemma h64_erase_unfold fuel h entry :
  h64_erase fuel h entry
  = bind (lift (h64_find_entry fuel h entry (h64_hash h entry)))
      (fun r =>
         if fr_found r then
           bind (lift (erase_at h r))
             (fun eh =>
                bind (if h64_should_grow_down
                           (with_count eh.2 (u64 (count eh.2 - 1)))
                      then h64_grow_down fuel
                             (with_count eh.2 (u64 (count eh.2 - 1)))
                      else ret (with_count eh.2 (u64 (count eh.2 - 1))))
                  (fun h3 => ret (eh.1, h3)))
         else ret (NULL, h)).
Proof. reflexivity. Qed.

(** [h64_erase]: nothing when the probe is not found, else the slot is
    cleared and the table possibly halved. *)
Lemma h64_erase_inv fuel h probe hp x h' hp' :
  table_wf h ->
  h64_erase fuel h probe hp = Ok ((x, h'), hp') ->
  (x = NULL /\ h' = h /\ hp' = hp /\
   (callbacks_ok (hasher h) (equals h) -> absent h probe)) \/
  (exists h1,
     erased h probe x h1 /\
     ((h64_should_grow_down h1 = false /\ h' = h1 /\ hp' = hp) \/
      (h64_should_grow_down h1 = true /\
       resized h1 (size_in_groups h1 / 2) hp h' hp'))).
Proof.
  intros W H. rewrite h64_erase_unfold in H.
  apply bind_Ok in H as (r & hp1 & Hf & H).
  apply lift_Ok in Hf as [Hf ->].
  destruct (fr_found r) eqn:Efound.
  - right.
    destruct (find_entry_found h probe fuel r W Hf Efound)
      as (pos & idx & g & y & -> & Hidx & Eg & Ex & Hx & Hbit & Hhint & Heq
          & Hpath).
    apply bind_Ok in H as (eh & hp1 & He & H).
    rewrite (erase_at_ok h pos g idx y Eg Hidx Ex) in He.
    apply lift_Ok in He as [He ->]. inversion He; subst eh. clear He.
    cbn [fst snd] in H.
    pose proof (table_erase_wf h pos g idx W Eg Hidx Hbit) as W1.
    pose proof (count_no_wrap _ W1) as [Hc0 _].
    cbn [count table_update with_count] in Hc0.
    assert (E1 : with_count
                   (with_groups h (<[pos := group_after_erase g idx]> (groups h)))
                   (u64 (count (with_groups h
                      (<[pos := group_after_erase g idx]> (groups h))) - 1))
                 = table_update h pos (group_after_erase g idx) (count h - 1)).
    { unfold table_update. cbn [count with_groups].
      pose proof (count_no_wrap h W) as [_ Hc1].
      rewrite u64_small by lia. reflexivity. }
    rewrite E1 in H.
    set (h1 := table_update h pos (group_after_erase g idx) (count h - 1)) in *.
    apply bind_Ok in H as (h3 & hp3 & Hg & H).
    apply ret_Ok in H as [H ->]. inversion H; subst x h'. clear H.
    exists h1. split.
    { exists pos, idx, g. repeat (split; [assumption|]). reflexivity. }
    destruct (h64_should_grow_down h1) eqn:Ed.
    + right. split; [reflexivity|].
      destruct (halved_size_fits h1 W1) as [Hr Hfit].
      apply (h64_resize_spec fuel h1 _ hp h3 hp3 W1 Hr (or_intror Hfit) Hg).
    + left. apply ret_Ok in Hg as [-> ->]. auto.
  - left. apply ret_Ok in H as [H ->]. inversion H; subst x h'.
    split; [reflexivity|]. split; [reflexivity|]. split; [reflexivity|].
    intros C.
    exact (proj2 (find_entry_not_found h probe fuel r W C Hf Efound)).
Qed.

Lemma reserve_size_range n : 0 <= reserve_size n < 2 ^ 64.
Proof. unfold reserve_size, roundup_to_pow2. apply u64_range. Qed.

(** [h64_reserve]: a rehash into the computed size, which on a table
    without elements may be a size whose array does not fit. *)
Lemma h64_reserve_cases fuel h n hp h' hp' :
  table_wf h ->
  h64_reserve fuel h n hp = Ok (h', hp') ->
  resized h (reserve_size n) hp h' hp' \/
  (h64_for_each h = [] /\ 2 ^ 64 <= Z.max 4 (reserve_size n) * 64 /\
   exists addr,
     hp = addr :: hp' /\
     h' = hollow_table (Z.max 4 (reserve_size n)) (hasher h) (equals h) addr /\
     hollow h').
Proof.
  intros W H. unfold h64_reserve in H.
  destruct (2 ^ 64 <=? trunc_double (ddiv (double_of_size_t n) MAX_LOAD_FACTOR));
    [discriminate H|].
  apply (h64_resize_cases fuel h _ hp h' hp' W (reserve_size_range n) H).
Qed.

Lemma h64_reserve_inv fuel h n hp h' hp' :
  table_wf h ->
  h64_for_each h <> [] \/ Z.max 4 (reserve_size n) * 64 < 2 ^ 64 ->
  h64_reserve fuel h n hp = Ok (h', hp') ->
  resized h (reserve_size n) hp h' hp'.
Proof.
  intros W Hc H.
  destruct (h64_reserve_cases fuel h n hp h' hp' W H)
    as [R|(El & Hbig & _)]; [exact R|].
  destruct Hc as [Hc|Hc]; [contradiction|lia].
Qed.

Lemma h64_create_inv hs eq hp h hp' :
  h64_create hs eq hp = Ok (h, hp') ->
  exists a0 addr, hp = a0 :: addr :: hp' /\ h = fresh_table 4 hs eq addr.
Proof.
  intros H. unfold h64_create in H.
  apply bind_Ok in H as (a0 & hp1 & Ha & H).
  unfold xalloc in Ha. destruct hp as [|a hp]; [discriminate Ha|].
  inversion Ha; subst a0 hp1.
  apply h64_init_inv in H as (_ & addr & -> & [[_ ->]|(Hbig & _)]);
    [|exfalso; revert Hbig; vm_compute; intros C; apply C; reflexivity
     |vm_compute; split; [discriminate|reflexivity]].
  exists a, addr. split; reflexivity.
Qed.

(** ** No operation returns on a table over an empty array *)

Lemma hollow_insert fuel h entry hp r :
  hollow h -> h64_insert fuel h entry hp <> Ok r.
Proof.
  intros Hh H. rewrite h64_insert_unfold in H.
  rewrite (hollow_no_growth h Hh) in H. destruct r as [h' hp'].
  apply bind_Ok in H as (h1 & hp1 & Hr & H). apply ret_Ok in Hr as [-> ->].
  apply bind_Ok in H as (r & hp1 & Hf & _).
  apply lift_Ok in Hf as [Hf _].
  apply (hollow_find_entry fuel h entry _ r (proj1 Hh) Hf).
Qed.

Lemma hollow_erase fuel h entry hp r :
  hollow h -> h64_erase fuel h entry hp <> Ok r.
Proof.
  intros Hh H. rewrite h64_erase_unfold in H. destruct r as [xh hp'].
  apply bind_Ok in H as (r & hp1 & Hf & _).
  apply lift_Ok in Hf as [Hf _].
  apply (hollow_find_entry fuel h entry _ r (proj1 Hh) Hf).
Qed.

Lemma hollow_resize fuel h size hp r :
  hollow h -> h64_resize fuel h size hp <> Ok r.
Proof.
  intros (Eg & _ & k & Hk & Ek) H. unfold h64_resize, resize_with in H.
  destruct (negb (is_power_of_2 size)); [discriminate H|].
  destruct r as [h' hp'].
  apply bind_Ok in H as (tmp & hp1 & _ & H).
  rewrite Eg, Ek in H. cbn [length] in H.
  pose proof (pow2_pos k ltac:(lia)) as Hpos.
  destruct (Z.ltb_spec (Z.of_nat 0) (2 ^ k)) as [_|C]; [discriminate H|].
  change (Z.of_nat 0) with 0 in C. lia.
Qed.

Lemma hollow_reserve fuel h n hp r :
  hollow h -> h64_reserve fuel h n hp <> Ok r.
Proof.
  intros Hh H. unfold h64_reserve in H.
  destruct (2 ^ 64 <=? trunc_double (ddiv (double_of_size_t n) MAX_LOAD_FACTOR));
    [discriminate H|].
  apply (hollow_resize fuel h _ hp r Hh H).
Qed.

Lemma hollow_run_op fuel o h hp r : hollow h -> run_op fuel o h hp <> Ok r.
Proof.
  intros Hh H. destruct o as [e|e|e|n]; cbn [run_op] in H.
  - apply (hollow_insert fuel h e hp r Hh H).
  - apply (hollow_insert_new fuel h e hp r Hh H).
  - destruct r as [h' hp'].
    apply bind_Ok in H as (eh & hp1 & He & _).
    apply (hollow_erase fuel h e hp (eh, hp1) Hh He).
  - apply (hollow_reserve fuel h n hp r Hh H).
Qed.

(** The entries and the invariants of a table over an empty array. *)
Lemma hollow_for_each h : hollow h -> h64_for_each h = [].
Proof.
  intros (Eg & _). unfold h64_for_each. rewrite Eg, take_nil. reflexivity.
Qed.

Lemma created_wf hs eq addr : table_wf (fresh_table 4 hs eq addr).
Proof. apply fresh_table_wf; reflexivity. Qed.

(** ** Every public operation keeps the table well-formed *)

Lemma run_op_wf strict fuel o h hp h' hp' :
  table_wf h -> op_valid strict h o ->
  run_op fuel o h hp = Ok (h', hp') ->
  (table_wf h' \/
   (hollow h' /\ count h = 0 /\ exists n, o = OpReserve n)) /\
  hasher h' = hasher h /\ equals h' = equals h.
Proof.
  intros W V H. destruct o as [e|e|e|n]; cbn [run_op op_valid] in *.
  - destruct (h64_insert_inv fuel h e hp h' hp' W V H)
      as (h1 & Hg & W1 & Ec & Hroom & Hcase).
    assert (Hcb : hasher h1 = hasher h /\ equals h1 = equals h).
    { destruct Hg as [(_ & -> & _)|(_ & R & _)]; [auto|].
      split; [apply (rs_hasher _ _ _ _ _ R)|apply (rs_equals _ _ _ _ _ R)]. }
    destruct Hcb as [Eh Ee].
    destruct Hcase as [Ho|[Hi _]].
    + destruct (overwritten_fields h1 e h' Ho) as (-> & -> & _).
      split; [|auto]. left. apply (overwritten_wf h1 e h' W1 V Ho).
    + destruct (installed_fields h1 e h' Hi) as (-> & -> & _).
      split; [|auto]. left. apply (installed_wf h1 e h' W1 Hroom V Hi).
  - destruct V as [Hne _].
    pose proof (h64_insert_new_spec fuel h e hp h' hp' W Hne H) as I.
    split; [left; apply (ins_wf _ _ _ _ _ I)|].
    split; [apply (ins_hasher _ _ _ _ _ I)|apply (ins_equals _ _ _ _ _ I)].
  - apply bind_Ok in H as ([x h2] & hp2 & He & H).
    apply ret_Ok in H as [E1 E2]. cbn [snd] in E1. subst h' hp'.
    destruct (h64_erase_inv fuel h e hp x h2 hp2 W He)
      as [(_ & -> & _)|(h1 & Her & Hg)]; [auto|].
    pose proof (erased_wf h e x h1 W Her) as W1.
    destruct (erased_fields h e x h1 Her) as (Eh & Ee & _).
    destruct Hg as [(_ & -> & _)|(_ & R)]; [auto|].
    split; [left; apply (rs_wf _ _ _ _ _ R)|].
    rewrite (rs_hasher _ _ _ _ _ R), (rs_equals _ _ _ _ _ R). auto.
  - destruct (h64_reserve_cases fuel h n hp h' hp' W H)
      as [R|(El & _ & addr & _ & -> & Hh)].
    + split; [left; apply (rs_wf _ _ _ _ _ R)|].
      split; [apply (rs_hasher _ _ _ _ _ R)|apply (rs_equals _ _ _ _ _ R)].
    + split; [right|split; reflexivity].
      split; [exact Hh|]. split; [|exists n; reflexivity].
      rewrite (wf_count_length h W), El. reflexivity.
Qed.

(** A table the public operations can leave is well-formed, or it is a
    table without elements over an empty array, on which no further
    operation returns. *)
Lemma reachable_inv strict hs eq tr h :
  reachable strict hs eq tr h ->
  (table_wf h \/ hollow h) /\ hasher h = hs /\ equals h = eq.
Proof.
  induction 1 as [hp h hp' Hc|tr h o fuel hp h' hp' Hr IH Hv Hrun].
  - apply h64_create_inv in Hc as (a0 & addr & -> & ->).
    split; [left; apply created_wf|]. split; reflexivity.
  - destruct IH as ([W|Hh] & Eh & Ee).
    + destruct (run_op_wf strict fuel o h hp h' hp' W Hv Hrun)
        as (W' & Eh' & Ee').
      split; [|split; congruence].
      destruct W' as [W'|(Hh & _)]; [left; exact W'|right; exact Hh].
    + exfalso. apply (hollow_run_op fuel o h hp (h', hp') Hh Hrun).
Qed.

(** It is well-formed when its array is not empty. *)
Lemma reachable_wf strict hs eq tr h :
  reachable strict hs eq tr h -> ~ hollow h ->
  table_wf h /\ hasher h = hs /\ equals h = eq.
Proof.
  intros Hr Hn. destruct (reachable_inv strict hs eq tr h Hr) as ([W|Hh] & E).
  - split; [exact W|exact E].
  - contradiction.
Qed.

(** In particular when an operation on it returned. *)
Lemma reachable_run_wf strict hs eq tr h fuel o hp r :
  reachable strict hs eq tr h -> run_op fuel o h hp = Ok r ->
  table_wf h /\ hasher h = hs /\ equals h = eq.
Proof.
  intros Hr H. apply (reachable_wf strict hs eq tr h Hr).
  intros Hh. apply (hollow_run_op fuel o h hp r Hh H).
Qed.

Lemma reachable_erase_wf strict hs eq tr h fuel probe hp r :
  reachable strict hs eq tr h -> h64_erase fuel h probe hp = Ok r ->
  table_wf h /\ hasher h = hs /\ equals h = eq.
Proof.
  intros Hr H. apply (reachable_wf strict hs eq tr h Hr).
  intros Hh. apply (hollow_erase fuel h probe hp r Hh H).
Qed.

Lemma reachable_find_wf strict hs eq tr h fuel probe x :
  reachable strict hs eq tr h -> h64_find fuel h probe = Ok x ->
  table_wf h /\ hasher h = hs /\ equals h = eq.
Proof.
  intros Hr H. apply (reachable_wf strict hs eq tr h Hr).
  intros Hh. apply (hollow_find fuel h probe x (proj1 Hh) H).
Qed.

(** Or when it holds an element, or says fewer than [2 ^ 58] groups. *)
Lemma reachable_elem_wf strict hs eq tr h x :
  reachable strict hs eq tr h -> x ∈ h64_for_each h ->
  table_wf h /\ hasher h = hs /\ equals h = eq.
Proof.
  intros Hr Hx. apply (reachable_wf strict hs eq tr h Hr).
  intros Hh. rewrite (hollow_for_each h Hh) in Hx.
  apply elem_of_nil in Hx. exact Hx.
Qed.

Lemma small_not_hollow h : size_in_groups h < 2 ^ 58 -> ~ hollow h.
Proof.
  intros Hs (_ & _ & k & Hk & Ek). rewrite Ek in Hs.
  pose proof (pow2_le_mono 58 k ltac:(lia)). lia.
Qed.

Lemma reachable_small_wf strict hs eq tr h :
  reachable strict hs eq tr h -> size_in_groups h < 2 ^ 58 ->
  table_wf h /\ hasher h = hs /\ equals h = eq.
Proof.
  intros Hr Hs. apply (reachable_wf strict hs eq tr h Hr).
  apply small_not_hollow, Hs.
Qed.

Lemma hollow_invariant h : hollow h -> table_invariant h.
Proof.
  intros (Eg & Ec & _). unfold table_invariant. rewrite Eg, Ec.
  split; [constructor|reflexivity].
Qed.

(** A table over an empty array is what [h64_reserve] made of a table
    without elements. *)
Lemma reachable_hollow_reserve strict hs eq tr h :
  reachable strict hs eq tr h -> hollow h ->
  exists tr0 n, tr = tr0 ++ [OpReserve n].
Proof.
  intros Hr Hh.
  inversion Hr as [hp h0 hp' Hc|tr0 h0 o fuel hp h1 hp' Hr0 Hv Hrun]; subst.
  - apply h64_create_inv in Hc as (a0 & addr & _ & ->).
    exfalso. apply (wf_not_hollow _ (created_wf hs eq addr) Hh).
  - destruct (reachable_run_wf strict hs eq tr0 h0 fuel o hp (h, hp') Hr0 Hrun)
      as (W0 & _).
    destruct (run_op_wf strict fuel o h0 hp h hp' W0 Hv Hrun)
      as ([W|(_ & _ & n & ->)] & _).
    + exfalso. apply (wf_not_hollow h W Hh).
    + exists tr0, n. reflexivity.
Qed.

(** ** Lists of pairwise different keys *)

Section DistinctKeys.

Variables hs eq : Z -> Z -> Z.
Hypothesis contract : callbacks_ok hs eq.

Lemma equals_sym_zero a b : eq a b = 0 -> eq b a = 0.
Proof.
  intros H. destruct (Z.eq_dec (eq b a) 0) as [E|N]; [exact E|].
  apply (equals_sym hs eq contract) in N. contradiction.
Qed.

Lemma distinct_keys_perm l l' :
  l ≡ₚ l' -> distinct_keys eq l -> distinct_keys eq l'.
Proof.
  induction 1 as [|x l l' P IH|x y l|l l' l'' P1 IH1 P2 IH2].
  - auto.
  - cbn [distinct_keys]. intros [Hx Hl]. split; [|auto].
    rewrite <- P. exact Hx.
  - cbn [distinct_keys]. intros [Hy [Hx Hl]].
    apply Forall_cons in Hy as [Hyx Hy].
    split; [|split; assumption].
    apply Forall_cons. split; [|exact Hx]. apply equals_sym_zero, Hyx.
  - auto.
Qed.

Lemma distinct_keys_add l1 l2 e :
  distinct_keys eq (l1 ++ l2) ->
  (forall y, y ∈ l1 ++ l2 -> eq e y = 0) ->
  distinct_keys eq (l1 ++ e :: l2).
Proof.
  intros D Hnew. apply (distinct_keys_perm (e :: l1 ++ l2)).
  - apply Permutation_middle.
  - cbn [distinct_keys]. split; [|exact D].
    apply Forall_forall. exact Hnew.
Qed.

Lemma distinct_keys_remove l1 l2 x :
  distinct_keys eq (l1 ++ x :: l2) ->
  distinct_keys eq (l1 ++ l2) /\ forall y, y ∈ l1 ++ l2 -> eq x y = 0.
Proof.
  intros D.
  apply (distinct_keys_perm _ (x :: l1 ++ l2)) in D.
  - destruct D as [Hx D]. split; [exact D|].
    apply Forall_forall. exact Hx.
  - symmetry. apply Permutation_middle.
Qed.

Lemma distinct_keys_replace l1 l2 x e :
  distinct_keys eq (l1 ++ x :: l2) -> eq e x <> 0 ->
  distinct_keys eq (l1 ++ e :: l2).
Proof.
  intros D He. apply distinct_keys_remove in D as [D Hx].
  apply distinct_keys_add; [exact D|].
  intros y Hy. destruct (Z.eq_dec (eq e y) 0) as [E|N]; [exact E|exfalso].
  apply (equals_sym hs eq contract) in He.
  pose proof (equals_trans hs eq contract x e y He N) as C.
  apply C, Hx, Hy.
Qed.

Lemma distinct_keys_unique l x y :
  distinct_keys eq l -> x ∈ l -> y ∈ l -> eq x y <> 0 -> x = y.
Proof.
  induction l as [|a l IH]; intros D Hx Hy He.
  - apply elem_of_nil in Hx. contradiction.
  - destruct D as [Ha D]. rewrite Forall_forall in Ha.
    apply elem_of_cons in Hx as [->|Hx];
      apply elem_of_cons in Hy as [->|Hy].
    + reflexivity.
    + exfalso. apply He, Ha, Hy.
    + exfalso. apply He, equals_sym_zero, Ha, Hx.
    + apply IH; assumption.
Qed.

End DistinctKeys.

Lemma h64_equals_true h a b : h64_equals h a b = true <-> equals h a b <> 0.
Proof.
  unfold h64_equals. rewrite negb_true_iff, Z.eqb_neq. reflexivity.
Qed.

Lemma h64_equals_false h a b : h64_equals h a b = false <-> equals h a b = 0.
Proof.
  unfold h64_equals. rewrite negb_false_iff, Z.eqb_eq. reflexivity.
Qed.

Lemma absent_for_each h probe :
  table_wf h -> absent h probe ->
  forall y, y ∈ h64_for_each h -> equals h probe y = 0.
Proof.
  intros W Ha y Hy. apply (for_each_stored h y W) in Hy as (pos & idx & Hs).
  apply h64_equals_false. apply (Ha pos idx y Hs).
Qed.

(** ** The entries after each kind of change *)

Lemma overwritten_for_each h entry h' :
  table_wf h -> entry <> NULL -> overwritten h entry h' ->
  exists l1 l2 x,
    h64_for_each h = l1 ++ x :: l2 /\ h64_for_each h' = l1 ++ entry :: l2 /\
    h64_equals h entry x = true.
Proof.
  intros W Hne O. pose proof (overwritten_wf h entry h' W Hne O) as W'.
  destruct O as (pos & idx & g & x & Eg & Hidx & Ex & Hx & Heq & Hbit & Hhint
                 & Hpath & ->).
  destruct (table_overwrite_for_each h pos g entry idx x W Eg Ex Hx Hne W')
    as (l1 & l2 & E1 & E2).
  exists l1, l2, x. auto.
Qed.

Lemma erased_for_each h probe x h' :
  table_wf h -> erased h probe x h' ->
  exists l1 l2,
    h64_for_each h = l1 ++ x :: l2 /\ h64_for_each h' = l1 ++ l2.
Proof.
  intros W Er. pose proof (erased_wf h probe x h' W Er) as W'.
  destruct Er as (pos & idx & g & Eg & Hidx & Ex & Hx & Heq & Hbit & ->).
  apply (table_erase_for_each h pos g idx x W Eg Ex Hx W').
Qed.

(** ** Keys stay unique *)

Lemma unique_keys_installed h entry h' :
  callbacks_ok (hasher h) (equals h) -> table_wf h ->
  count h <= max_count (size_in_groups h) -> entry <> NULL ->
  installed h entry h' -> absent h entry ->
  unique_keys h -> unique_keys h'.
Proof.
  intros C W Hroom Hne Hi Ha U. unfold unique_keys in *.
  destruct (installed_for_each h entry h' W Hroom Hne Hi) as (l1 & l2 & E1 & E2).
  destruct (installed_fields h entry h' Hi) as (_ & -> & _).
  rewrite E2. rewrite E1 in U.
  apply (distinct_keys_add (hasher h) (equals h) C); [exact U|].
  rewrite <- E1. apply absent_for_each; assumption.
Qed.

Lemma unique_keys_overwritten h entry h' :
  callbacks_ok (hasher h) (equals h) -> table_wf h -> entry <> NULL ->
  overwritten h entry h' -> unique_keys h -> unique_keys h'.
Proof.
  intros C W Hne O U. unfold unique_keys in *.
  destruct (overwritten_for_each h entry h' W Hne O)
    as (l1 & l2 & x & E1 & E2 & Heq).
  destruct (overwritten_fields h entry h' O) as (_ & -> & _).
  rewrite E2. rewrite E1 in U.
  apply (distinct_keys_replace (hasher h) (equals h) C l1 l2 x); [exact U|].
  apply h64_equals_true. exact Heq.
Qed.

Lemma unique_keys_erased h probe x h' :
  callbacks_ok (hasher h) (equals h) -> table_wf h ->
  erased h probe x h' -> unique_keys h -> unique_keys h'.
Proof.
  intros C W Er U. unfold unique_keys in *.
  destruct (erased_for_each h probe x h' W Er) as (l1 & l2 & E1 & E2).
  destruct (erased_fields h probe x h' Er) as (_ & -> & _).
  rewrite E2. rewrite E1 in U.
  apply (distinct_keys_remove (hasher h) (equals h) C l1 l2 x U).
Qed.

Lemma unique_keys_resized h size hp h' hp' :
  callbacks_ok (hasher h) (equals h) ->
  resized h size hp h' hp' -> unique_keys h -> unique_keys h'.
Proof.
  intros C R U. unfold unique_keys in *.
  rewrite (rs_equals _ _ _ _ _ R).
  apply (distinct_keys_perm (hasher h) (equals h) C (h64_for_each h));
    [|exact U].
  symmetry. apply (rs_for_each _ _ _ _ _ R).
Qed.

Lemma unique_keys_inserted_new h entry hp h' hp' :
  callbacks_ok (hasher h) (equals h) ->
  inserted_new h entry hp h' hp' ->
  (forall x, x ∈ h64_for_each h -> h64_equals h entry x = false) ->
  unique_keys h -> unique_keys h'.
Proof.
  intros C I Hnew U. unfold unique_keys in *.
  rewrite (ins_equals _ _ _ _ _ I).
  apply (distinct_keys_perm (hasher h) (equals h) C (entry :: h64_for_each h)).
  - symmetry. apply (ins_for_each _ _ _ _ _ I).
  - cbn [distinct_keys]. split; [|exact U].
    apply Forall_forall. intros x Hx. apply h64_equals_false, Hnew, Hx.
Qed.

Lemma run_op_unique fuel o h hp h' hp' :
  callbacks_ok (hasher h) (equals h) ->
  table_wf h -> op_valid true h o ->
  run_op fuel o h hp = Ok (h', hp') ->
  unique_keys h -> unique_keys h'.
Proof.
  intros C W V H U. destruct o as [e|e|e|n]; cbn [run_op op_valid] in *.
  - destruct (h64_insert_inv fuel h e hp h' hp' W V H)
      as (h1 & Hg & W1 & Ec & Hroom & Hcase).
    assert (Hcb : hasher h1 = hasher h /\ equals h1 = equals h /\ unique_keys h1).
    { destruct Hg as [(_ & -> & _)|(_ & R & _)]; [auto|].
      split; [apply (rs_hasher _ _ _ _ _ R)|].
      split; [apply (rs_equals _ _ _ _ _ R)|].
      apply (unique_keys_resized h _ hp h1 hp' C R U). }
    destruct Hcb as (Eh & Ee & U1).
    assert (C1 : callbacks_ok (hasher h1) (equals h1)) by (rewrite Eh, Ee; exact C).
    destruct Hcase as [Ho|[Hi Ha]].
    + apply (unique_keys_overwritten h1 e h' C1 W1 V Ho U1).
    + apply (unique_keys_installed h1 e h' C1 W1 Hroom V Hi (Ha C1) U1).
  - destruct V as [Hne Hnew].
    pose proof (h64_insert_new_spec fuel h e hp h' hp' W Hne H) as I.
    apply (unique_keys_inserted_new h e hp h' hp' C I (Hnew eq_refl) U).
  - apply bind_Ok in H as ([x h2] & hp2 & He & H).
    apply ret_Ok in H as [E1 E2]. cbn [snd] in E1. subst h' hp'.
    destruct (h64_erase_inv fuel h e hp x h2 hp2 W He)
      as [(_ & -> & _)|(h1 & Her & Hg)]; [exact U|].
    pose proof (erased_wf h e x h1 W Her) as W1.
    pose proof (unique_keys_erased h e x h1 C W Her U) as U1.
    destruct (erased_fields h e x h1 Her) as (Eh & Ee & _).
    destruct Hg as [(_ & -> & _)|(_ & R)]; [exact U1|].
    apply (unique_keys_resized h1 (size_in_groups h1 / 2) hp h2 hp2);
      [|exact R|exact U1].
    rewrite Eh, Ee. exact C.
  - destruct (h64_reserve_cases fuel h n hp h' hp' W H)
      as [R|(_ & _ & addr & _ & _ & Hh)].
    + apply (unique_keys_resized h _ hp h' hp' C R U).
    + unfold unique_keys. rewrite (hollow_for_each h' Hh). exact I.
Qed.

Lemma reachable_unique hs eq tr h :
  callbacks_ok hs eq -> reachable true hs eq tr h -> unique_keys h.
Proof.
  intros C. induction 1 as [hp h hp' Hc|tr h o fuel hp h' hp' Hr IH Hv Hrun].
  - apply h64_create_inv in Hc as (a0 & addr & -> & ->).
    unfold unique_keys. rewrite fresh_table_for_each by reflexivity. exact I.
  - destruct (reachable_run_wf true hs eq tr h fuel o hp (h', hp') Hr Hrun)
      as (W & Eh & Ee).
    apply (run_op_unique fuel o h hp h' hp'); try assumption.
    rewrite Eh, Ee. exact C.
Qed.

(** ** Concrete runs *)

Lemma simple_op_valid strict h o : simple_op o = true -> op_valid strict h o.
Proof.
  destruct o as [e|e|e|n]; cbn [simple_op op_valid]; intros H.
  - apply negb_true_iff, Z.eqb_neq in H. exact H.
  - discriminate H.
  - exact I.
  - apply andb_true_iff in H as [H1 H2].
    apply Z.leb_le in H1. apply Z.ltb_lt in H2. lia.
Qed.

Lemma reachable_run_ops strict hs eq fuel os :
  forall tr h hp h' hp',
    forallb simple_op os = true ->
    reachable strict hs eq tr h ->
    run_ops fuel os h hp = Ok (h', hp') ->
    reachable strict hs eq (tr ++ os) h'.
Proof.
  induction os as [|o os IH]; intros tr h hp h' hp' Hs Hr H.
  - apply ret_Ok in H as [-> _]. rewrite app_nil_r. exact Hr.
  - cbn [run_ops] in H. apply bind_Ok in H as (h1 & hp1 & H1 & H).
    cbn [forallb] in Hs. apply andb_true_iff in Hs as [Ho Hs].
    replace (tr ++ o :: os) with ((tr ++ [o]) ++ os)
      by (rewrite <- app_assoc; reflexivity).
    apply (IH (tr ++ [o]) h1 hp1 h' hp' Hs); [|exact H].
    apply (reach_step strict hs eq tr h o fuel hp h1 hp1 Hr); [|exact H1].
    apply simple_op_valid, Ho.
Qed.

Lemma reachable_from_create strict hs eq fuel os hp h0 hp0 h' hp' :
  h64_create hs eq hp = Ok (h0, hp0) ->
  forallb simple_op os = true ->
  run_ops fuel os h0 hp0 = Ok (h', hp') ->
  reachable strict hs eq os h'.
Proof.
  intros Hc Hs H.
  apply (reachable_run_ops strict hs eq fuel os [] h0 hp0 h' hp' Hs); [|exact H].
  apply (reach_create strict hs eq hp h0 hp0 Hc).
Qed.

Lemma addr_callbacks_ok : callbacks_ok addr_hasher addr_equals.
Proof.
  constructor; unfold addr_equals, addr_hasher.
  - intros a. rewrite Z.eqb_refl. discriminate.
  - intros a b. destruct (Z.eqb_spec a b) as [->|]; [|contradiction].
    rewrite Z.eqb_refl. discriminate.
  - intros a b c. destruct (Z.eqb_spec a b) as [->|]; [|contradiction].
    auto.
  - intros a b s. destruct (Z.eqb_spec a b) as [->|]; [|contradiction].
    reflexivity.
Qed.

Lemma one_entry_table_reachable strict :
  reachable strict addr_hasher addr_equals [OpInsert 1] one_entry_table.
Proof.
  apply (reachable_from_create strict addr_hasher addr_equals 8 [OpInsert 1]
           example_heap (fresh_table 4 addr_hasher addr_equals 4096)
           (replicate 14 4096) one_entry_table (replicate 14 4096));
    vm_compute; reflexivity.
Qed.

Lemma saturated_table_reachable strict :
  reachable strict addr_hasher addr_equals saturating_trace saturated_table.
Proof.
  apply (reachable_from_create strict addr_hasher addr_equals 8
           saturating_trace example_heap
           (fresh_table 4 addr_hasher addr_equals 4096)
           (replicate 14 4096) saturated_table (replicate 14 4096));
    vm_compute; reflexivity.
Qed.

(** ** A loop that never leaves *)

Lemma find_entry_loop_diverges h entry hint hash :
  table_wf h ->
  (forall j : nat,
     entry_halts h entry hint (probe_at h hash j) = false) ->
  forall (fuel j0 : nat),
    find_entry_loop fuel h entry hint (probe_seq h hash j0) = OutOfFuel.
Proof.
  intros W Hno. induction fuel as [|fuel IH]; intros j0; [reflexivity|].
  cbn [find_entry_loop]. fold (probe_at h hash j0).
  destruct (entry_halts_false h entry hint _ W (Hno j0)) as (g & Eg & El & Hw).
  rewrite Eg.
  rewrite scan_matches_group_lookup
    by (apply (wf_entries h), (wf_groups h W _ _ Eg)).
  rewrite El, Hw. cbn [Z.eqb]. rewrite probe_seq_succ. apply IH.
Qed.

Lemma worn_group_lookup h entry hint :
  group_lookup h entry hint worn_group = None.
Proof.
  apply first_hit_none_intro. intros j Hj.
  replace j with (Z.of_nat (Z.to_nat j)) at 1 by lia.
  rewrite group_match_testbit.
  destruct (hints worn_group !! Z.to_nat j) as [b|]; [|reflexivity].
  replace (Z.testbit (status worn_group) (Z.of_nat (Z.to_nat j))) with false.
  - rewrite andb_false_r. reflexivity.
  - rewrite Z2Nat.id by lia. unfold worn_group. cbn [status].
    assert (Hc : j = 0 \/ j = 1 \/ j = 2 \/ j = 3 \/ j = 4 \/ j = 5 \/ j = 6)
      by lia.
    destruct Hc as [-> | [-> | [-> | [-> | [-> | [-> | ->]]]]]]; reflexivity.
Qed.

Lemma saturated_table_never_halts entry hint (j : nat) :
  entry_halts saturated_table entry hint
    (probe_at saturated_table (h64_hash saturated_table entry) j) = false.
Proof.
  pose proof (probe_at_range saturated_table
                (h64_hash saturated_table entry) j 2 eq_refl ltac:(lia)) as Hr.
  change (2 ^ 2) with 4 in Hr.
  set (pos := probe_at saturated_table (h64_hash saturated_table entry) j) in *.
  assert (Hg : groups saturated_table !! Z.to_nat pos = Some worn_group).
  { assert (Hpos : pos = 0 \/ pos = 1 \/ pos = 2 \/ pos = 3) by lia.
    destruct Hpos as [-> | [-> | [-> | ->]]]; reflexivity. }
  unfold entry_halts. rewrite Hg, worn_group_lookup. reflexivity.
Qed.

(** ** The was-full bit between two rehashes *)

Lemma resized_heap_differs h size hp h' :
  resized h size hp h' hp -> False.
Proof. intros R. pose proof (rs_heap _ _ _ _ _ R). lia. Qed.

Lemma overwritten_was_full h entry h' p :
  overwritten h entry h' -> was_full_at h p -> was_full_at h' p.
Proof.
  intros (pos & idx & g & x & Eg & _ & _ & _ & _ & _ & _ & _ & ->).
  apply (was_full_at_update h pos g); [exact Eg|]. auto.
Qed.

Lemma erased_was_full h probe x h' p :
  table_wf h -> erased h probe x h' -> was_full_at h p -> was_full_at h' p.
Proof.
  intros W (pos & idx & g & Eg & Hidx & _ & _ & _ & _ & ->).
  apply (was_full_at_update h pos g); [exact Eg|].
  rewrite (group_after_erase_was_full h g idx (wf_groups h W _ _ Eg) Hidx).
  auto.
Qed.

(** An operation that allocated nothing did not rehash, and then every
    was-full bit that was set is still set. *)
Lemma run_op_was_full strict fuel o h hp h' p :
  table_wf h -> op_valid strict h o ->
  run_op fuel o h hp = Ok (h', hp) ->
  was_full_at h p -> was_full_at h' p.
Proof.
  intros W V H Hw. destruct o as [e|e|e|n]; cbn [run_op op_valid] in *.
  - destruct (h64_insert_inv fuel h e hp h' hp W V H)
      as (h1 & Hg & W1 & Ec & Hroom & Hcase).
    destruct Hg as [(_ & -> & _)|(_ & R & _)];
      [|exfalso; apply (resized_heap_differs _ _ _ _ R)].
    destruct Hcase as [Ho|[Hi _]].
    + apply (overwritten_was_full h e h' p Ho Hw).
    + apply (installed_was_full h e h' p W Hi Hw).
  - destruct V as [Hne _].
    pose proof (h64_insert_new_spec fuel h e hp h' hp W Hne H) as I.
    destruct (h64_should_grow_up h) eqn:Eg.
    + destruct (ins_rehashed _ _ _ _ _ I Eg) as (h1 & R & _).
      exfalso. apply (resized_heap_differs _ _ _ _ R).
    + destruct (ins_in_place _ _ _ _ _ I Eg) as [Hi _].
      apply (installed_was_full h e h' p W Hi Hw).
  - apply bind_Ok in H as ([x h2] & hp2 & He & H).
    apply ret_Ok in H as [E1 E2]. cbn [snd] in E1. subst h2 hp2.
    destruct (h64_erase_inv fuel h e hp x h' hp W He)
      as [(_ & -> & _)|(h1 & Her & Hg)]; [exact Hw|].
    destruct Hg as [(_ & -> & _)|(_ & R)];
      [|exfalso; apply (resized_heap_differs _ _ _ _ R)].
    apply (erased_was_full h e x h1 p W Her Hw).
  - exfalso.
    destruct (h64_reserve_cases fuel h n hp h' hp W H)
      as [R|(_ & _ & addr & E & _)].
    + apply (resized_heap_differs _ _ _ _ R).
    + apply (f_equal length) in E. cbn [length] in E. lia.
Qed.

Lemma status_erase_other_bits s i j :
  0 <= s < 256 -> 0 <= i < 7 -> 0 <= j < 8 ->
  Z.testbit (status_after_erase s i) j = negb (j =? i) && Z.testbit s j.
Proof.
  intros Hs Hi Hj.
  destruct (status_erase_facts s i Hs Hi) as (_ & Hbits & _).
  apply (Forall_seqZ_range _ _ Hbits j Hj).
Qed.

(** ** The invariant of the specification *)

Lemma hash_hint_high_byte h entry :
  hash_hint (h64_hash h entry) = Z.shiftr (h64_hash h entry) 56.
Proof.
  unfold hash_hint. change (CHAR_BIT * 7) with 56.
  apply u8_small. rewrite Z.shiftr_div_pow2 by lia.
  pose proof (u64_range (hasher h entry (seed h))) as Hr.
  fold (h64_hash h entry) in Hr.
  split.
  - apply Z.div_pos; lia.
  - apply Z.div_lt_upper_bound; [lia|].
    change (2 ^ 56 * 256) with (2 ^ 64). lia.
Qed.

Lemma group_wf_invariant h group :
  group_wf h group -> group_invariant h group.
Proof.
  intros W. split; [|split].
  - apply (group_occupancy_non_null h group W).
  - intros F. apply group_is_full_iff in F.
    pose proof (wf_full h group W F) as Hw. unfold group_was_full in Hw.
    change (CHAR_BIT - 1) with 7 in Hw.
    destruct (status_popcount (status group) (wf_status h group W))
      as (_ & _ & _ & _ & Hb).
    rewrite Hb in Hw. destruct (Z.testbit (status group) 7);
      [reflexivity|discriminate Hw].
  - intros i entry Hbit Hi E.
    rewrite (wf_present h group W i entry E) in Hbit.
    apply bool_decide_eq_true in Hbit.
    rewrite <- hash_hint_high_byte.
    apply (wf_hint h group W i entry E Hbit).
Qed.

Lemma table_wf_invariant h : table_wf h -> table_invariant h.
Proof.
  intros W. split.
  - apply Forall_forall. intros g Hg.
    apply list_elem_of_lookup in Hg as (pos & Eg).
    apply group_wf_invariant, (wf_groups h W pos g Eg).
  - symmetry. apply (wf_count h W).
Qed.

(** ** Finding what is stored *)

Lemma deref_found h (pos : nat) idx group x :
  groups h !! pos = Some group ->
  entries group !! Z.to_nat idx = Some x ->
  deref_entry h (find_result_init (Some (Z.of_nat pos)) idx true) = Ok x.
Proof.
  intros Eg Ex. unfold deref_entry. cbn [fr_group fr_index find_result_init].
  rewrite Nat2Z.id, Eg, Ex. reflexivity.
Qed.

Lemma stored_in_for_each h (pos idx : nat) group x :
  table_wf h -> groups h !! pos = Some group ->
  entries group !! idx = Some x -> x <> NULL -> x ∈ h64_for_each h.
Proof.
  intros W Eg Ex Hx. apply (for_each_stored h x W).
  exists pos, idx, group. auto.
Qed.

(** [h64_find] returns the stored handle of the class of the probe, within
    one round over the groups. *)
Lemma h64_find_present h probe x :
  table_wf h -> callbacks_ok (hasher h) (equals h) -> unique_keys h ->
  x ∈ h64_for_each h -> h64_equals h probe x = true ->
  exists j : nat,
    Z.of_nat j < size_in_groups h /\
    forall fuel : nat, (j < fuel)%nat -> h64_find fuel h probe = Ok x.
Proof.
  intros W C U Hx Heq.
  destruct (proj1 (for_each_stored h x W) Hx) as (pos & idx & Hst).
  destruct (find_entry_present h probe pos idx x W C Hst Heq)
    as (j & r & Hj & Hfound & Hrun).
  exists j. split; [exact Hj|].
  destruct (find_entry_found h probe (S j) r W (Hrun (S j) ltac:(lia)) Hfound)
    as (pos' & idx' & g' & y & -> & Hidx' & Eg' & Ey & Hy & _ & _ & Heqy & _).
  assert (Exy : x = y).
  { apply (distinct_keys_unique (hasher h) (equals h) C (h64_for_each h));
      [exact U|exact Hx| |].
    - apply (stored_in_for_each h pos' (Z.to_nat idx') g' y W Eg' Ey Hy).
    - apply h64_equals_true in Heq, Heqy.
      apply (equals_trans _ _ C x probe y); [|exact Heqy].
      apply (equals_sym _ _ C), Heq. }
  subst y. intros fuel Hfuel. unfold h64_find.
  rewrite (Hrun fuel Hfuel). cbn [rbind fr_found find_result_init].
  apply (deref_found h pos' idx' g' x Eg' Ey).
Qed.

(** ** Membership along the operations *)

Lemma elem_of_middle {A : Type} (x y : A) l1 l2 :
  x ∈ l1 ++ y :: l2 <-> x = y \/ x ∈ l1 ++ l2.
Proof.
  rewrite !elem_of_app, elem_of_cons. tauto.
Qed.

Lemma insert_contents fuel h entry hp h' hp' :
  table_wf h -> entry <> NULL ->
  h64_insert fuel h entry hp = Ok (h', hp') ->
  entry ∈ h64_for_each h' /\
  forall x, x ∈ h64_for_each h -> equals h entry x = 0 -> x ∈ h64_for_each h'.
Proof.
  intros W Hne H.
  destruct (h64_insert_inv fuel h entry hp h' hp' W Hne H)
    as (h1 & Hg & W1 & Ec & Hroom & Hcase).
  assert (Hsame : equals h1 = equals h /\
                  forall x, x ∈ h64_for_each h -> x ∈ h64_for_each h1).
  { destruct Hg as [(_ & -> & _)|(_ & R & _)]; [auto|].
    split; [apply (rs_equals _ _ _ _ _ R)|].
    intros x Hx. rewrite (rs_for_each _ _ _ _ _ R). exact Hx. }
  destruct Hsame as [Ee Hsub].
  destruct Hcase as [Ho|[Hi _]].
  - destruct (overwritten_for_each h1 entry h' W1 Hne Ho)
      as (l1 & l2 & y & E1 & E2 & Heq).
    rewrite E2. split; [apply elem_of_middle; auto|].
    intros x Hx Hex. apply Hsub in Hx. rewrite E1 in Hx.
    apply elem_of_middle in Hx as [->|Hx]; [|apply elem_of_middle; auto].
    apply h64_equals_true in Heq. rewrite Ee in Heq. contradiction.
  - destruct (installed_for_each h1 entry h' W1 Hroom Hne Hi)
      as (l1 & l2 & E1 & E2).
    rewrite E2. split; [apply elem_of_middle; auto|].
    intros x Hx _. apply Hsub in Hx. rewrite E1 in Hx.
    apply elem_of_middle. auto.
Qed.

Lemma erase_contents fuel h probe hp y h' hp' :
  table_wf h ->
  h64_erase fuel h probe hp = Ok ((y, h'), hp') ->
  forall x, x ∈ h64_for_each h -> equals h probe x = 0 -> x ∈ h64_for_each h'.
Proof.
  intros W H x Hx Hex.
  destruct (h64_erase_inv fuel h probe hp y h' hp' W H)
    as [(_ & -> & _)|(h1 & Her & Hg)]; [exact Hx|].
  assert (Hx1 : x ∈ h64_for_each h1).
  { destruct (erased_for_each h probe y h1 W Her) as (l1 & l2 & E1 & E2).
    rewrite E1 in Hx. rewrite E2.
    apply elem_of_middle in Hx as [->|Hx]; [|exact Hx].
    destruct Her as (_ & _ & _ & _ & _ & _ & _ & Heq & _).
    apply h64_equals_true in Heq. contradiction. }
  destruct Hg as [(_ & -> & _)|(_ & R)]; [exact Hx1|].
  rewrite (rs_for_each _ _ _ _ _ R). exact Hx1.
Qed.

Lemma run_op_keeps fuel o h hp h' hp' x :
  table_wf h -> op_valid true h o ->
  run_op fuel o h hp = Ok (h', hp') ->
  x ∈ h64_for_each h -> leaves_alone (equals h) x o ->
  x ∈ h64_for_each h'.
Proof.
  intros W V H Hx Hl.
  destruct o as [e|e|e|n]; cbn [run_op op_valid leaves_alone] in *.
  - apply (proj2 (insert_contents fuel h e hp h' hp' W V H) x Hx Hl).
  - destruct V as [Hne _].
    pose proof (h64_insert_new_spec fuel h e hp h' hp' W Hne H) as I.
    rewrite (ins_for_each _ _ _ _ _ I). right. exact Hx.
  - apply bind_Ok in H as ([y h2] & hp2 & He & H).
    apply ret_Ok in H as [E1 E2]. cbn [snd] in E1. subst h' hp'.
    apply (erase_contents fuel h e hp y h2 hp2 W He x Hx Hl).
  - destruct (h64_reserve_cases fuel h n hp h' hp' W H)
      as [R|(El & _)].
    + rewrite (rs_for_each _ _ _ _ _ R). exact Hx.
    + rewrite El in Hx. apply elem_of_nil in Hx. contradiction.
Qed.

(** An element inserted and then left alone is an entry of the table. *)
Lemma inserted_stays hs eq tr h :
  reachable true hs eq tr h ->
  forall tr1 entry tr2,
    tr = tr1 ++ OpInsert entry :: tr2 ->
    Forall (leaves_alone eq entry) tr2 ->
    entry ∈ h64_for_each h.
Proof.
  induction 1 as [hp h hp' Hc|tr h o fuel hp h' hp' Hr IH Hv Hrun];
    intros tr1 entry tr2 E Hl.
  - destruct tr1; discriminate E.
  - destruct (reachable_run_wf true hs eq tr h fuel o hp (h', hp') Hr Hrun)
      as (W & Eh & Ee).
    destruct (decide (tr2 = [])) as [->|Hne].
    + apply app_inj_tail in E as [-> ->]. cbn [run_op op_valid] in *.
      apply (proj1 (insert_contents fuel h entry hp h' hp' W Hv Hrun)).
    + destruct (exists_last Hne) as (tr2' & o' & ->).
      change (tr1 ++ OpInsert entry :: tr2' ++ [o'])
        with (tr1 ++ (OpInsert entry :: tr2') ++ [o']) in E.
      rewrite app_assoc in E. apply app_inj_tail in E as [-> ->].
      apply Forall_app in Hl as [Hl Ho]. apply Forall_inv in Ho.
      apply (run_op_keeps fuel o' h hp h' hp' entry W Hv Hrun).
      * apply (IH tr1 entry tr2' eq_refl Hl).
      * rewrite Ee. exact Ho.
Qed.

(** ** Runs of the examples *)

Lemma reachable_table_of_run strict os :
  forallb simple_op os = true -> run_returns os = true ->
  reachable strict addr_hasher addr_equals os (table_of_run os).
Proof.
  intros Hs Hr. unfold run_returns in Hr. unfold table_of_run.
  destruct (bind (h64_create addr_hasher addr_equals) (run_ops 8 os)
                 example_heap) as [[h hp']| |] eqn:E; try discriminate Hr.
  apply bind_Ok in E as (h0 & hp0 & Hc & Hrun).
  apply (reachable_from_create strict addr_hasher addr_equals 8 os
           example_heap h0 hp0 h hp' Hc Hs Hrun).
Qed.

(** ** The load after each operation *)





(** ** Upsert of an element that is present *)

Lemma upsert_count fuel h entry x hp h' hp' :
  table_wf h -> callbacks_ok (hasher h) (equals h) ->
  x ∈ h64_for_each h -> entry <> NULL -> equals h entry x <> 0 ->
  h64_insert fuel h entry hp = Ok (h', hp') ->
  count h' = count h.
Proof.
  intros W C Hx Hne Heq H.
  destruct (h64_insert_inv fuel h entry hp h' hp' W Hne H)
    as (h1 & Hg & W1 & Ec & Hroom & Hcase).
  assert (Hsame : hasher h1 = hasher h /\ equals h1 = equals h /\
                  x ∈ h64_for_each h1).
  { destruct Hg as [(_ & -> & _)|(_ & R & _)]; [auto|].
    split; [apply (rs_hasher _ _ _ _ _ R)|].
    split; [apply (rs_equals _ _ _ _ _ R)|].
    rewrite (rs_for_each _ _ _ _ _ R). exact Hx. }
  destruct Hsame as (Eh & Ee & Hx1).
  destruct Hcase as [Ho|[_ Ha]].
  - destruct (overwritten_fields h1 entry h' Ho) as (_ & _ & _ & _ & ->).
    exact Ec.
  - exfalso. apply Heq. rewrite <- Ee.
    apply (absent_for_each h1 entry W1); [|exact Hx1].
    apply Ha. rewrite Eh, Ee. exact C.
Qed.

Lemma h64_insert_in_place h entry x :
  table_wf h -> callbacks_ok (hasher h) (equals h) -> unique_keys h ->
  x ∈ h64_for_each h -> entry <> NULL -> equals h entry x <> 0 ->
  h64_should_grow_up h = false ->
  exists (j pos : nat) idx group,
    Z.of_nat j < size_in_groups h /\
    groups h !! pos = Some group /\ 0 <= idx < 7 /\
    entries group !! Z.to_nat idx = Some x /\
    forall (fuel : nat) hp, (j < fuel)%nat ->
      h64_insert fuel h entry hp
      = Ok (table_update h pos (group_after_update group entry idx) (count h),
            hp).
Proof.
  intros W C U Hx Hne Heq Hng.
  apply h64_equals_true in Heq.
  destruct (proj1 (for_each_stored h x W) Hx) as (pos0 & idx0 & Hst).
  destruct (find_entry_present h entry pos0 idx0 x W C Hst Heq)
    as (j & r & Hj & Hfound & Hrun).
  destruct (find_entry_found h entry (S j) r W (Hrun (S j) ltac:(lia)) Hfound)
    as (pos & idx & g & y & -> & Hidx & Eg & Ey & Hy & Hbit & _ & Heqy & _).
  assert (Exy : x = y).
  { apply (distinct_keys_unique (hasher h) (equals h) C (h64_for_each h));
      [exact U|exact Hx| |].
    - apply (stored_in_for_each h pos (Z.to_nat idx) g y W Eg Ey Hy).
    - apply h64_equals_true in Heq, Heqy.
      apply (equals_trans _ _ C x entry y); [|exact Heqy].
      apply (equals_sym _ _ C), Heq. }
  subst y. exists j, pos, idx, g.
  split; [exact Hj|]. split; [exact Eg|]. split; [exact Hidx|].
  split; [exact Ey|].
  intros fuel hp Hfuel. rewrite h64_insert_unfold, Hng.
  unfold bind at 1. unfold ret at 1.
  rewrite (bind_of_Ok _ _ hp _ hp (lift_of_Ok _ hp _ (Hrun fuel Hfuel))).
  cbn [fr_found find_result_init].
  rewrite (update_at_ok h pos g entry idx W Eg Hidx Hbit). reflexivity.
Qed.

Lemma reachable_nil_inv strict hs eq h :
  reachable strict hs eq [] h ->
  exists addr, h = fresh_table 4 hs eq addr.
Proof.
  intros Hr. inversion Hr as [hp h0 hp' Hc|tr h0 o fuel hp h1 hp' _ _ _ E].
  - apply h64_create_inv in Hc as (a0 & addr & _ & ->). eauto.
  - destruct tr; discriminate E.
Qed.

Lemma reachable_single_insert strict hs eq x h :
  reachable strict hs eq [OpInsert x] h ->
  count h = 1 /\ size_in_groups h = 4.
Proof.
  intros Hr.
  inversion Hr as [|tr h0 o fuel hp h1 hp' Hr0 Hv Hrun E]; subst.
  assert (E' : tr ++ [o] = [] ++ [OpInsert x]) by exact E.
  apply app_inj_tail in E' as [-> ->].
  apply reachable_nil_inv in Hr0 as (addr & ->).
  cbn [run_op op_valid] in *.
  pose proof (created_wf hs eq addr) as W.
  destruct (h64_insert_inv fuel _ x hp h hp' W Hv Hrun)
    as (h1 & Hg & W1 & Ec & Hroom & Hcase).
  destruct Hg as [(_ & -> & _)|(Eg & _)].
  2: { exfalso. rewrite should_grow_up_eq in Eg.
       cbn [fresh_table size_in_groups count] in Eg. revert Eg.
       vm_compute. intros Eg. discriminate Eg. }
  destruct Hcase as [Ho|[Hi _]].
  - destruct (overwritten_for_each _ x h W Hv Ho) as (l1 & l2 & y & E1 & _).
    rewrite fresh_table_for_each in E1 by reflexivity.
    destruct l1; discriminate E1.
  - destruct (installed_fields _ x h Hi) as (_ & _ & _ & -> & ->).
    split; reflexivity.
Qed.

(** ** The size after an erase *)


(** ** binary64: rounding is monotone *)

Lemma round_ne_lower c num den :
  0 < den -> c * den <= num -> c <= round_ne num den.
Proof.
  intros Hd H. unfold round_ne.
  assert (c <= num / den) by (apply Z.div_le_lower_bound; lia).
  destruct ((den <? 2 * (num mod den))
            || ((2 * (num mod den) =? den) && Z.odd (num / den))); lia.
Qed.

Lemma round_ne_upper c num den :
  0 < den -> num < c * den -> round_ne num den <= c.
Proof.
  intros Hd H. unfold round_ne.
  assert (num / den < c) by (apply Z.div_lt_upper_bound; lia).
  destruct ((den <? 2 * (num mod den))
            || ((2 * (num mod den) =? den) && Z.odd (num / den))); lia.
Qed.

Lemma round_ne_mono num num' den :
  0 < den -> num <= num' -> round_ne num den <= round_ne num' den.
Proof.
  intros Hd Hn. unfold round_ne.
  pose proof (Z.div_mod num den ltac:(lia)) as E.
  pose proof (Z.div_mod num' den ltac:(lia)) as E'.
  pose proof (Z.mod_pos_bound num den Hd) as B.
  pose proof (Z.mod_pos_bound num' den Hd) as B'.
  pose proof (Z.div_le_mono num num' den Hd Hn) as Hm.
  set (m := num / den) in *. set (r := num mod den) in *.
  set (m' := num' / den) in *. set (r' := num' mod den) in *.
  destruct (Z.eq_dec m m') as [Em|Nm].
  - rewrite <- Em in *. assert (r <= r') by nia.
    destruct (Z.ltb_spec den (2 * r)), (Z.ltb_spec den (2 * r')),
      (Z.eqb_spec (2 * r) den), (Z.eqb_spec (2 * r') den), (Z.odd m);
      cbn [orb andb]; lia.
  - destruct ((den <? 2 * r) || ((2 * r =? den) && Z.odd m)),
      ((den <? 2 * r') || ((2 * r' =? den) && Z.odd m')); lia.
Qed.

Lemma log2_bounds p :
  1 <= p -> 0 <= Z.log2 p /\ 2 ^ Z.log2 p <= p < 2 * 2 ^ Z.log2 p.
Proof.
  intros Hp. pose proof (Z.log2_nonneg p) as H0.
  pose proof (Z.log2_spec p ltac:(lia)) as H.
  rewrite Z.pow_succ_r in H by exact H0. auto.
Qed.

(** [ilog2_ratio p q] is the integer part of the binary logarithm of
    [p / q]; [K] scales the fraction away. *)
Lemma ilog2_ratio_spec p q K :
  1 <= p -> 1 <= q -> 0 <= K -> 0 <= K + ilog2_ratio p q ->
  2 ^ (K + ilog2_ratio p q) * q <= p * 2 ^ K
  < 2 * 2 ^ (K + ilog2_ratio p q) * q.
Proof.
  intros Hp Hq HK. unfold ilog2_ratio.
  destruct (log2_bounds p Hp) as (Ha0 & Ha).
  destruct (log2_bounds q Hq) as (Hb0 & Hb).
  set (a := Z.log2 p) in *. set (b := Z.log2 q) in *.
  pose proof (pow2_pos K HK) as PK.
  pose proof (pow2_pos a Ha0) as Pa. pose proof (pow2_pos b Hb0) as Pb.
  destruct (Z.leb_spec 0 (a - b)) as [Hd|Hd].
  - pose proof (pow2_pos (a - b) Hd) as Pd.
    assert (Eab : 2 ^ a = 2 ^ (a - b) * 2 ^ b).
    { rewrite <- Z.pow_add_r by lia. f_equal. lia. }
    destruct (Z.leb_spec (q * 2 ^ (a - b)) p) as [Ht|Ht]; intros HKd.
    + rewrite Z.pow_add_r by lia.
      set (X := 2 ^ K) in *. set (D := 2 ^ (a - b)) in *.
      set (A := 2 ^ a) in *. set (B := 2 ^ b) in *. clearbody X D A B.
      assert (p < 2 * D * q) by nia.
      split; [|assert (p * X < (2 * D * q) * X) by nia]; nia.
    + replace (K + (a - b - 1)) with (K + (a - b) - 1) in * by lia.
      assert (E2 : 2 ^ (K + (a - b)) = 2 * 2 ^ (K + (a - b) - 1)).
      { rewrite <- Z.pow_succ_r by lia. f_equal. lia. }
      assert (E3 : 2 ^ (K + (a - b)) = 2 ^ K * 2 ^ (a - b)).
      { rewrite Z.pow_add_r by lia. reflexivity. }
      pose proof (pow2_pos (K + (a - b) - 1) HKd) as PY.
      set (X := 2 ^ K) in *. set (D := 2 ^ (a - b)) in *.
      set (A := 2 ^ a) in *. set (B := 2 ^ b) in *.
      set (Y := 2 ^ (K + (a - b) - 1)) in *.
      set (Z' := 2 ^ (K + (a - b))) in *. clearbody X D A B Y Z'.
      (* Y q <= p X < 2 Y q ; 2Y = X D; p < q D ; A <= p; A = D B; q < 2 B *)
      split.
      * assert (2 * (Y * q) <= 2 * (p * X)); [|lia].
        replace (2 * (Y * q)) with (X * D * q) by lia.
        assert (D * q <= 2 * p) by nia. nia.
      * replace (2 * Y * q) with (X * (q * D)) by lia. nia.
  - pose proof (pow2_pos (- (a - b)) ltac:(lia)) as Pd.
    assert (Eba : 2 ^ b = 2 ^ a * 2 ^ (- (a - b))).
    { rewrite <- Z.pow_add_r by lia. f_equal. lia. }
    destruct (Z.leb_spec q (p * 2 ^ (- (a - b)))) as [Ht|Ht]; intros HKd.
    + assert (EK : 2 ^ K = 2 ^ (K + (a - b)) * 2 ^ (- (a - b))).
      { rewrite <- Z.pow_add_r by lia. f_equal. lia. }
      pose proof (pow2_pos (K + (a - b)) HKd) as PY.
      set (X := 2 ^ K) in *. set (D := 2 ^ (- (a - b))) in *.
      set (A := 2 ^ a) in *. set (B := 2 ^ b) in *.
      set (Y := 2 ^ (K + (a - b))) in *. clearbody X D A B Y.
      (* Y q <= p X < 2 Y q; X = Y D; q <= p D; p < 2A; B = A D; B <= q *)
      subst X. split.
      * replace (p * (Y * D)) with (Y * (p * D)) by lia. nia.
      * assert (p * D < 2 * q) by nia.
        replace (p * (Y * D)) with (Y * (p * D)) by lia.
        replace (2 * Y * q) with (Y * (2 * q)) by lia. nia.
    + replace (K + (a - b - 1)) with (K + (a - b) - 1) in * by lia.
      assert (E2 : 2 ^ (K + (a - b)) = 2 * 2 ^ (K + (a - b) - 1)).
      { rewrite <- Z.pow_succ_r by lia. f_equal. lia. }
      assert (EK : 2 ^ K = 2 ^ (K + (a - b)) * 2 ^ (- (a - b))).
      { rewrite <- Z.pow_add_r by lia. f_equal. lia. }
      pose proof (pow2_pos (K + (a - b) - 1) HKd) as PY.
      set (X := 2 ^ K) in *. set (D := 2 ^ (- (a - b))) in *.
      set (A := 2 ^ a) in *. set (B := 2 ^ b) in *.
      set (Y := 2 ^ (K + (a - b) - 1)) in *.
      set (Z' := 2 ^ (K + (a - b))) in *. clearbody X D A B Y Z'.
      (* Y q <= p X < 2 Y q; X = 2 Y D; p D < q; A <= p; B = A D; q < 2B *)
      subst Z' X. split.
      * assert (q <= 2 * (p * D)) by nia.
        replace (p * (2 * Y * D)) with (Y * (2 * (p * D))) by lia. nia.
      * replace (p * (2 * Y * D)) with (2 * Y * (p * D)) by lia. nia.
Qed.

Lemma ilog2_ratio_mono p p' q :
  1 <= p <= p' -> 1 <= q -> ilog2_ratio p q <= ilog2_ratio p' q.
Proof.
  intros Hp Hq.
  set (d := ilog2_ratio p q). set (d' := ilog2_ratio p' q).
  set (K := Z.max 0 (Z.max (- d) (- d'))).
  pose proof (ilog2_ratio_spec p q K ltac:(lia) Hq ltac:(lia) ltac:(lia))
    as [H1 _].
  pose proof (ilog2_ratio_spec p' q K ltac:(lia) Hq ltac:(lia) ltac:(lia))
    as [_ H2].
  fold d in H1. fold d' in H2.
  destruct (Z_le_gt_dec d d') as [Hle|Hgt]; [exact Hle|exfalso].
  pose proof (pow2_pos K ltac:(lia)) as PK.
  pose proof (pow2_le_mono (K + d' + 1) (K + d) ltac:(lia)) as Hpow.
  replace (2 ^ (K + d' + 1)) with (2 * 2 ^ (K + d')) in Hpow
    by (rewrite <- Z.pow_succ_r by lia; f_equal; lia).
  set (X := 2 ^ K) in *. set (Y := 2 ^ (K + d)) in *.
  set (Y' := 2 ^ (K + d')) in *. clearbody X Y Y'.
  assert (p * X <= p' * X) by nia. nia.
Qed.

Lemma round53_expo p q :
  1 <= p -> expo (round53 p q) = ilog2_ratio p q - 52.
Proof.
  intros Hp. unfold round53.
  destruct (Z.eqb_spec p 0) as [->|_]; [lia|reflexivity].
Qed.

Lemma round53_mant p q :
  1 <= p ->
  mant (round53 p q)
  = if 0 <=? ilog2_ratio p q - 52
    then round_ne p (q * 2 ^ (ilog2_ratio p q - 52))
    else round_ne (p * 2 ^ (- (ilog2_ratio p q - 52))) q.
Proof.
  intros Hp. unfold round53.
  destruct (Z.eqb_spec p 0) as [->|_]; [lia|reflexivity].
Qed.

Lemma round53_mant_bounds p q :
  1 <= p -> 1 <= q -> 2 ^ 52 <= mant (round53 p q) <= 2 ^ 53.
Proof.
  intros Hp Hq. rewrite round53_mant by exact Hp.
  set (d := ilog2_ratio p q).
  destruct (Z.leb_spec 0 (d - 52)) as [He|He].
  - pose proof (ilog2_ratio_spec p q 0 Hp Hq ltac:(lia) ltac:(fold d; lia))
      as [H1 H2].
    fold d in H1, H2. rewrite Z.add_0_l, Z.pow_0_r, Z.mul_1_r in *.
    assert (Ed : 2 ^ d = 2 ^ 52 * 2 ^ (d - 52)).
    { rewrite <- Z.pow_add_r by lia. f_equal. lia. }
    pose proof (pow2_pos (d - 52) He) as PE. rewrite Ed in *.
    set (E := 2 ^ (d - 52)) in *. clearbody E.
    split.
    + apply round_ne_lower; nia.
    + apply round_ne_upper; [nia|].
      change (2 ^ 53) with (2 * 2 ^ 52). nia.
  - pose proof (ilog2_ratio_spec p q (- (d - 52)) Hp Hq ltac:(lia)
                  ltac:(fold d; lia)) as [H1 H2].
    fold d in H1, H2.
    replace (- (d - 52) + d) with 52 in * by lia.
    split.
    + apply round_ne_lower; lia.
    + apply round_ne_upper; [lia|]. change (2 ^ 53) with (2 * 2 ^ 52). lia.
Qed.

Lemma round53_mono p p' q :
  1 <= p <= p' -> 1 <= q -> dle (round53 p q) (round53 p' q).
Proof.
  intros Hp Hq. unfold dle.
  rewrite !round53_expo by lia.
  pose proof (ilog2_ratio_mono p p' q Hp Hq) as Hd.
  split; [lia|].
  destruct (Z.eq_dec (ilog2_ratio p q) (ilog2_ratio p' q)) as [E|N].
  - rewrite !round53_mant by lia. rewrite <- E.
    replace (ilog2_ratio p q - 52 - (ilog2_ratio p q - 52)) with 0 by lia.
    rewrite Z.pow_0_r, Z.mul_1_r.
    destruct (0 <=? ilog2_ratio p q - 52) eqn:He.
    + apply Z.leb_le in He.
      pose proof (pow2_pos (ilog2_ratio p q - 52) He).
      apply round_ne_mono; nia.
    + apply Z.leb_gt in He.
      pose proof (pow2_pos (- (ilog2_ratio p q - 52)) ltac:(lia)).
      apply round_ne_mono; nia.
  - pose proof (round53_mant_bounds p q ltac:(lia) Hq) as [_ Hu].
    pose proof (round53_mant_bounds p' q ltac:(lia) Hq) as [Hl _].
    pose proof (pow2_le_mono 1 (ilog2_ratio p' q - 52 - (ilog2_ratio p q - 52))
                  ltac:(lia)) as Hpow.
    change (2 ^ 1) with 2 in Hpow. change (2 ^ 53) with (2 * 2 ^ 52) in Hu.
    set (T := 2 ^ 52) in *. assert (0 < T) by reflexivity. clearbody T. nia.
Qed.

Lemma trunc_double_mono a b : dle a b -> trunc_double a <= trunc_double b.
Proof.
  intros [He Hm]. unfold trunc_double.
  destruct (Z.leb_spec 0 (expo a)) as [Ha|Ha],
           (Z.leb_spec 0 (expo b)) as [Hb|Hb]; try lia.
  - replace (2 ^ expo b) with (2 ^ (expo b - expo a) * 2 ^ expo a)
      by (rewrite <- Z.pow_add_r by lia; f_equal; lia).
    pose proof (pow2_pos (expo a) Ha). nia.
  - pose proof (pow2_pos (- expo a) ltac:(lia)) as P.
    apply (Z.div_le_mono _ _ (2 ^ (- expo a)) P) in Hm.
    replace (2 ^ (expo b - expo a)) with (2 ^ expo b * 2 ^ (- expo a)) in Hm
      by (rewrite <- Z.pow_add_r by lia; f_equal; lia).
    rewrite Z.mul_assoc, Z.div_mul in Hm by lia. exact Hm.
  - pose proof (pow2_pos (- expo a) ltac:(lia)) as P.
    apply (Z.div_le_mono _ _ (2 ^ (- expo a)) P) in Hm.
    replace (2 ^ (- expo a))
      with (2 ^ (- expo b) * 2 ^ (expo b - expo a)) in Hm at 2
      by (rewrite <- Z.pow_add_r by lia; f_equal; lia).
    rewrite Z.div_mul_cancel_r in Hm.
    + exact Hm.
    + pose proof (pow2_pos (- expo b) ltac:(lia)). lia.
    + pose proof (pow2_pos (expo b - expo a) ltac:(lia)). lia.
Qed.

Lemma MAX_LOAD_FACTOR_value :
  MAX_LOAD_FACTOR = {| mant := 6034823500676465; expo := -53 |}.
Proof. vm_compute. reflexivity. Qed.

(** The entries [h64_reserve] computes grow with the entries asked for. *)
Lemma reserve_total_mono n n' :
  1 <= n <= n' -> reserve_total n <= reserve_total n'.
Proof.
  intros Hn. unfold reserve_total. apply trunc_double_mono.
  unfold double_of_size_t.
  pose proof (round53_mono n n' 1 Hn ltac:(lia)) as [He Hm].
  pose proof (round53_mono 1 n 1 ltac:(lia) ltac:(lia)) as [He1 _].
  pose proof (round53_mant_bounds n 1 ltac:(lia) ltac:(lia)) as [Hl _].
  change (expo (round53 1 1)) with (-52) in He1.
  set (a := round53 n 1) in *. set (a' := round53 n' 1) in *.
  unfold ddiv. rewrite MAX_LOAD_FACTOR_value. cbn [mant expo].
  rewrite (Z.max_r 0 (expo a - -53)), (Z.max_r 0 (expo a' - -53)),
    (Z.max_l 0 (- (expo a - -53))), (Z.max_l 0 (- (expo a' - -53))) by lia.
  pose proof (pow2_pos (expo a - -53) ltac:(lia)) as P.
  apply round53_mono; [|rewrite Z.pow_0_r; lia].
  split; [change (2 ^ 52) with 4503599627370496 in Hl; nia|].
  replace (2 ^ (expo a' - -53))
    with (2 ^ (expo a' - expo a) * 2 ^ (expo a - -53))
    by (rewrite <- Z.pow_add_r by lia; f_equal; lia).
  nia.
Qed.

(** No count above the grow threshold of a size is reserved that size. *)
Lemma reserve_threshold k :
  2 <= k <= 57 -> 7 * 2 ^ k <= reserve_total (max_count (2 ^ k) + 1).
Proof.
  revert k.
  simple refine (@size_enum (fun s =>
    7 * s <= reserve_total (max_count s + 1)) _ _);
    first [solve [intros; cbv beta; apply _] | vm_compute; reflexivity].
Qed.

(** ** [roundup_to_pow2] *)

(** Bit [i] of [n] is set exactly when one of the [w] bits of [y] from
    [i] on is. *)
Lemma smear_step y n w :
  0 < w ->
  (forall i, 0 <= i ->
     Z.testbit n i = true <->
     exists j, 0 <= j < w /\ Z.testbit y (i + j) = true) ->
  forall i, 0 <= i ->
    Z.testbit (Z.lor n (Z.shiftr n w)) i = true <->
    exists j, 0 <= j < 2 * w /\ Z.testbit y (i + j) = true.
Proof.
  intros Hw H i Hi.
  rewrite Z.lor_spec, Z.shiftr_spec, orb_true_iff by lia.
  rewrite (H i Hi), (H (i + w) ltac:(lia)). split.
  - intros [(j & Hj & Hb)|(j & Hj & Hb)].
    + exists j. split; [lia|exact Hb].
    + exists (w + j). split; [lia|].
      replace (i + (w + j)) with (i + w + j) by lia. exact Hb.
  - intros (j & Hj & Hb). destruct (Z_lt_ge_dec j w) as [Hlt|Hge].
    + left. exists j. split; [lia|exact Hb].
    + right. exists (j - w). split; [lia|].
      replace (i + w + (j - w)) with (i + j) by lia. exact Hb.
Qed.

Lemma roundup_to_pow2_spec x :
  2 <= x <= 2 ^ 63 -> roundup_to_pow2 x = 2 ^ (Z.log2 (x - 1) + 1).
Proof.
  intros Hx. unfold roundup_to_pow2. cbv zeta.
  assert (H63 : 2 ^ 63 < 2 ^ 64) by reflexivity.
  rewrite (u64_small (x - 1)) by lia.
  set (y := x - 1).
  assert (Hy : 0 < y < 2 ^ 63) by (unfold y; lia).
  assert (Hl : 0 <= Z.log2 y < 63).
  { split; [apply Z.log2_nonneg|]. apply Z.log2_lt_pow2; lia. }
  assert (H0 : forall i, 0 <= i ->
             Z.testbit y i = true <->
             exists j, 0 <= j < 1 /\ Z.testbit y (i + j) = true).
  { intros i Hi. split.
    - intros Hb. exists 0. rewrite Z.add_0_r. split; [lia|exact Hb].
    - intros (j & Hj & Hb). replace (i + j) with i in Hb by lia. exact Hb. }
  pose proof (smear_step y _ 1 ltac:(lia) H0) as H1.
  pose proof (smear_step y _ 2 ltac:(lia) H1) as H2.
  pose proof (smear_step y _ 4 ltac:(lia) H2) as H3.
  pose proof (smear_step y _ 8 ltac:(lia) H3) as H4.
  pose proof (smear_step y _ 16 ltac:(lia) H4) as H5.
  pose proof (smear_step y _ 32 ltac:(lia) H5) as H6.
  cbv beta in H6. clear H0 H1 H2 H3 H4 H5.
  match type of H6 with
  | forall i, _ -> Z.testbit ?n i = true <-> _ => set (r := n) in *
  end.
  assert (Er : r = Z.ones (Z.log2 y + 1)).
  { apply Z.bits_inj'. intros i Hi.
    destruct (Z_lt_ge_dec i (Z.log2 y + 1)) as [Hlt|Hge].
    - rewrite Z.ones_spec_low by lia. apply H6; [exact Hi|].
      exists (Z.log2 y - i). split; [lia|].
      replace (i + (Z.log2 y - i)) with (Z.log2 y) by lia.
      apply Z.bit_log2. lia.
    - rewrite Z.ones_spec_high by lia.
      destruct (Z.testbit r i) eqn:Hb; [exfalso|reflexivity].
      apply H6 in Hb as (j & Hj & Hb); [|exact Hi].
      rewrite Z.bits_above_log2 in Hb by lia. discriminate Hb. }
  rewrite Er, Z.ones_equiv.
  replace (Z.pred (2 ^ (Z.log2 y + 1)) + 1) with (2 ^ (Z.log2 y + 1)) by lia.
  apply u64_small. split; [apply Z.pow_nonneg; lia|].
  apply pow2_lt_mono. lia.
Qed.

Lemma roundup_to_pow2_bounds x :
  1 <= x <= 2 ^ 63 ->
  exists k, 0 <= k <= 63 /\ roundup_to_pow2 x = 2 ^ k /\ x <= 2 ^ k.
Proof.
  intros Hx. destruct (Z.eq_dec x 1) as [->|Hne].
  - exists 0. split; [lia|]. split; reflexivity.
  - rewrite roundup_to_pow2_spec by lia.
    assert (Hl : 0 <= Z.log2 (x - 1) < 63).
    { split; [apply Z.log2_nonneg|]. apply Z.log2_lt_pow2; lia. }
    exists (Z.log2 (x - 1) + 1). split; [lia|]. split; [reflexivity|].
    pose proof (Z.log2_spec (x - 1) ltac:(lia)) as [_ H].
    rewrite <- Z.add_1_r in H. lia.
Qed.

(** ** The size [h64_reserve] asks for *)

Lemma reserve_total_nonneg n : 0 <= n -> 0 <= reserve_total n.
Proof.
  intros Hn. destruct (Z.eq_dec n 0) as [->|Hne]; [vm_compute; discriminate|].
  pose proof (reserve_total_mono 1 n ltac:(lia)) as H.
  change (reserve_total 1) with 1 in H. lia.
Qed.

Lemma reserve_size_facts n :
  0 <= n -> reserve_total n < 2 ^ 64 ->
  exists k,
    0 <= k <= 63 /\ reserve_size n = 2 ^ k /\ reserve_total n < 7 * 2 ^ k.
Proof.
  intros Hn Ht. pose proof (reserve_total_nonneg n Hn) as H0.
  unfold reserve_size. fold (reserve_total n). unfold GROUP_ENTRIES.
  assert (Hx : 1 <= reserve_total n / 7 + 1 <= 2 ^ 63).
  { pose proof (Z.div_pos (reserve_total n) 7 H0 ltac:(lia)).
    assert (reserve_total n / 7 < 2 ^ 62); [|lia].
    apply Z.div_lt_upper_bound; [lia|]. change (2 ^ 64) with (4 * 2 ^ 62) in Ht.
    lia. }
  assert (H63 : 2 ^ 63 < 2 ^ 64) by reflexivity.
  rewrite u64_small by lia.
  destruct (roundup_to_pow2_bounds _ Hx) as (k & Hk & E & Hle).
  exists k. split; [exact Hk|]. split; [exact E|].
  pose proof (Z.mul_succ_div_gt (reserve_total n) 7 ltac:(lia)). lia.
Qed.

Lemma h64_reserve_unfold fuel h n :
  h64_reserve fuel h n
  = if 2 ^ 64 <=? reserve_total n then abort
    else h64_resize fuel h (reserve_size n).
Proof.
  unfold h64_reserve, reserve_total, reserve_size. cbv zeta. reflexivity.
Qed.

Lemma h64_reserve_total fuel h n hp h' hp' :
  h64_reserve fuel h n hp = Ok (h', hp') -> reserve_total n < 2 ^ 64.
Proof.
  rewrite h64_reserve_unfold.
  destruct (Z.leb_spec (2 ^ 64) (reserve_total n)); [discriminate|auto].
Qed.

(** The size reserved for [n] entries holds them below the threshold of
    the grow check. *)
Lemma reserve_room n k :
  0 <= n -> reserve_total n < 2 ^ 64 ->
  Z.max 4 (reserve_size n) = 2 ^ k -> 2 <= k <= 57 ->
  n <= max_count (2 ^ k).
Proof.
  intros Hn Ht Es Hk.
  destruct (reserve_size_facts n Hn Ht) as (k0 & Hk0 & E0 & Hlt).
  pose proof (load_thresholds k Hk) as (Hmin & Hmm & _).
  destruct (Z_le_gt_dec n (max_count (2 ^ k))) as [Hle|Hgt]; [exact Hle|].
  exfalso.
  pose proof (reserve_total_mono (max_count (2 ^ k) + 1) n ltac:(lia)) as Hm.
  pose proof (reserve_threshold k Hk) as Hth.
  pose proof (pow2_pos k0 ltac:(lia)). lia.
Qed.

Lemma empty_table_for_each h : table_wf h -> count h = 0 -> h64_for_each h = [].
Proof.
  intros W Hc. rewrite (wf_count_length h W) in Hc.
  destruct (h64_for_each h); [reflexivity|discriminate Hc].
Qed.

(** ** Inserts into a table with room *)

Lemma inserts_keep_size es :
  forall fuel h hp h2 hp2,
    table_wf h -> Forall (fun e => e <> NULL) es ->
    count h + Z.of_nat (length es) <= max_count (size_in_groups h) + 1 ->
    run_ops fuel (OpInsert <$> es) h hp = Ok (h2, hp2) ->
    size_in_groups h2 = size_in_groups h /\ seed h2 = seed h /\ hp2 = hp.
Proof.
  induction es as [|e es IH]; intros fuel h hp h2 hp2 W Hes Hroom H.
  - cbn in H. apply ret_Ok in H as [-> ->]. auto.
  - rewrite fmap_cons in H. cbn [run_ops] in H.
    apply bind_Ok in H as (h1 & hp1 & H1 & H). cbn [run_op] in H1.
    apply Forall_cons in Hes as [He Hes]. cbn [length] in Hroom.
    destruct (h64_insert_inv fuel h e hp h1 hp1 W He H1)
      as (h0 & Hg & W0 & Ec & Hr0 & Hcase).
    destruct Hg as [(_ & -> & ->)|(Eg & _)].
    2:{ rewrite should_grow_up_eq in Eg. apply Z.ltb_lt in Eg. lia. }
    assert (Hf : table_wf h1 /\ seed h1 = seed h /\
                 size_in_groups h1 = size_in_groups h /\
                 count h1 <= count h + 1).
    { destruct Hcase as [Ho|[Hi _]].
      - destruct (overwritten_fields h e h1 Ho) as (_ & _ & Es & Ez & Ec1).
        split; [apply (overwritten_wf h e h1 W He Ho)|]. repeat split; lia.
      - destruct (installed_fields h e h1 Hi) as (_ & _ & Es & Ez & Ec1).
        split; [apply (installed_wf h e h1 W Hr0 He Hi)|]. repeat split; lia. }
    destruct Hf as (W1 & Es & Ez & Ec1).
    destruct (IH fuel h1 hp h2 hp2 W1 Hes ltac:(rewrite Ez; lia) H)
      as (Ez2 & Es2 & ->).
    split; [lia|]. split; [congruence|reflexivity].
Qed.

Lemma find_entry_total_pristine h entry hash :
  table_wf h -> pristine h ->
  exists (j : nat) r,
    Z.of_nat j < size_in_groups h /\
    forall fuel : nat, (j < fuel)%nat ->
      h64_find_entry fuel h entry hash = Ok r.
Proof.
  intros W P.
  destruct (wf_not_all_full h W) as (pos0 & g0 & Eg0 & Hf0).
  destruct (wf_probe_surj h hash pos0 W) as (t0 & Ht0 & Et0).
  { apply lookup_lt_Some in Eg0. exact Eg0. }
  set (halts := fun j : nat =>
                  entry_halts h entry (hash_hint hash) (probe_at h hash j)).
  assert (H0 : halts t0 = true).
  { unfold halts, entry_halts. rewrite Et0, Nat2Z.id, Eg0.
    destruct (group_lookup h entry (hash_hint hash) g0); [reflexivity|].
    destruct (wf_was_full_cases h g0 pos0 W Eg0) as [C|C].
    - rewrite C. reflexivity.
    - apply (P pos0 g0 Eg0) in C. congruence. }
  destruct (least_true halts t0 H0) as (n & Hn & Hhalt & Hlow).
  destruct (wf_probe_group h hash n W) as (g & Eg).
  exists n.
  destruct (entry_answer h entry (hash_hint hash) (probe_at h hash n))
    as [r| |] eqn:Ea;
    [|unfold entry_answer in Ea; rewrite Eg in Ea;
      destruct (group_lookup h entry (hash_hint hash) g); discriminate Ea..].
  exists r. split; [lia|].
  intros fuel Hfuel. unfold h64_find_entry.
  change (ps_init hash (size_in_groups h)) with (probe_seq h hash 0).
  rewrite (find_entry_loop_run h entry (hash_hint hash) hash n W 0 fuel);
    [exact Ea|intros j Hj; apply Hlow; exact Hj|exact Hhalt|exact Hfuel].
Qed.

Lemma overwritten_pristine h entry h' :
  overwritten h entry h' -> pristine h -> pristine h'.
Proof.
  intros (pos & idx & g & x & Eg & _ & _ & _ & _ & _ & _ & _ & ->) P pos' g' E Hw.
  unfold table_update in E. simpl in E.
  destruct (decide (pos = pos')) as [<-|Hne].
  - rewrite list_lookup_insert_eq in E
      by (apply lookup_lt_Some in Eg; exact Eg).
    inversion E; subst g'. apply (P pos g Eg Hw).
  - rewrite list_lookup_insert_ne in E by exact Hne.
    apply (P pos' g' E Hw).
Qed.

(** In a table that has seen no erase an upsert returns, within one round
    over the groups. *)
Lemma h64_insert_total h entry :
  table_wf h -> pristine h -> count h <= max_count (size_in_groups h) ->
  entry <> NULL ->
  exists h',
    (forall (fuel : nat) hp, (Z.to_nat (size_in_groups h) <= fuel)%nat ->
       h64_insert fuel h entry hp = Ok (h', hp)) /\
    table_wf h' /\ pristine h' /\
    size_in_groups h' = size_in_groups h /\ count h' <= count h + 1.
Proof.
  intros W P Hroom Hne.
  assert (Hng : h64_should_grow_up h = false).
  { rewrite should_grow_up_eq. apply Z.ltb_ge. exact Hroom. }
  destruct (find_entry_total_pristine h entry (h64_hash h entry) W P)
    as (j & r & Hj & Hrun).
  destruct (install_new_spec h entry W Hroom Hne)
    as (j' & h2 & Hj' & Hi & Hinst & _).
  assert (Hex : exists h',
             forall (fuel : nat) hp, (Z.to_nat (size_in_groups h) <= fuel)%nat ->
               h64_insert fuel h entry hp = Ok (h', hp)).
  { destruct (fr_found r) eqn:Efound.
    - destruct (find_entry_found h entry (S j) r W (Hrun (S j) ltac:(lia)) Efound)
        as (pos & idx & g & x & -> & Hidx & Eg & _ & _ & Hbit & _).
      exists (table_update h pos (group_after_update g entry idx) (count h)).
      intros fuel hp Hfuel. rewrite h64_insert_unfold, Hng.
      unfold bind at 1. unfold ret at 1.
      rewrite (bind_of_Ok _ _ hp _ hp
                 (lift_of_Ok _ hp _ (Hrun fuel ltac:(lia)))).
      cbn [fr_found find_result_init].
      rewrite (update_at_ok h pos g entry idx W Eg Hidx Hbit). reflexivity.
    - exists h2. intros fuel hp Hfuel. rewrite h64_insert_unfold, Hng.
      unfold bind at 1. unfold ret at 1.
      rewrite (bind_of_Ok _ _ hp _ hp
                 (lift_of_Ok _ hp _ (Hrun fuel ltac:(lia)))).
      rewrite Efound. apply Hinst. lia. }
  destruct Hex as (h' & Hrun').
  exists h'. split; [exact Hrun'|].
  pose proof (Hrun' (Z.to_nat (size_in_groups h)) [] ltac:(lia)) as H.
  destruct (h64_insert_inv _ h entry [] h' [] W Hne H)
    as (h0 & Hg & W0 & Ec & Hr0 & Hcase).
  destruct Hg as [(_ & -> & _)|(Eg & _)]; [|congruence].
  destruct Hcase as [Ho|[Hi' _]].
  - destruct (overwritten_fields h entry h' Ho) as (_ & _ & _ & Ez & Ec1).
    split; [apply (overwritten_wf h entry h' W Hne Ho)|].
    split; [apply (overwritten_pristine h entry h' Ho P)|]. split; lia.
  - destruct (installed_fields h entry h' Hi') as (_ & _ & _ & Ez & Ec1).
    split; [apply (installed_wf h entry h' W Hr0 Hne Hi')|].
    split; [apply (installed_pristine h entry h' W Hi' P)|]. split; lia.
Qed.

Lemma inserts_total es :
  forall h,
    table_wf h -> pristine h -> Forall (fun e => e <> NULL) es ->
    count h + Z.of_nat (length es) <= max_count (size_in_groups h) + 1 ->
    exists h2,
      forall (fuel : nat) hp, (Z.to_nat (size_in_groups h) <= fuel)%nat ->
        run_ops fuel (OpInsert <$> es) h hp = Ok (h2, hp).
Proof.
  induction es as [|e es IH]; intros h W P Hes Hroom.
  - exists h. intros fuel hp _. reflexivity.
  - apply Forall_cons in Hes as [He Hes]. cbn [length] in Hroom.
    destruct (h64_insert_total h e W P ltac:(lia) He)
      as (h1 & Hrun & W1 & P1 & Ez & Ec).
    destruct (IH h1 W1 P1 Hes ltac:(rewrite Ez; lia)) as (h2 & Hrun2).
    exists h2. intros fuel hp Hfuel. rewrite fmap_cons. cbn [run_ops run_op].
    rewrite (bind_of_Ok _ _ hp _ hp (Hrun fuel hp Hfuel)).
    apply Hrun2. rewrite Ez. exact Hfuel.
Qed.

(** ** A rehash returns *)

Lemma insert_new_in_place h entry :
  table_wf h -> count h <= max_count (size_in_groups h) -> entry <> NULL ->
  exists h',
    installed h entry h' /\
    forall (fuel : nat) hp, (Z.to_nat (size_in_groups h) < fuel)%nat ->
      h64_insert_new fuel h entry hp = Ok (h', hp).
Proof.
  intros W Hroom Hne.
  destruct (install_new_spec h entry W Hroom Hne)
    as (j & h' & Hj & Hi & Hrun & _).
  exists h'. split; [exact Hi|].
  intros fuel hp Hfuel. destruct fuel as [|fuel]; [lia|].
  rewrite h64_insert_new_unfold.
  assert (Hng : h64_should_grow_up h = false).
  { rewrite should_grow_up_eq. apply Z.ltb_ge. exact Hroom. }
  rewrite Hng. unfold bind at 1. unfold ret at 1.
  apply Hrun. lia.
Qed.

Lemma foldM_insert_new_total l :
  forall tmp,
    table_wf tmp -> Forall (fun x => x <> NULL) l ->
    count tmp + Z.of_nat (length l) <= max_count (size_in_groups tmp) + 1 ->
    exists h',
      forall (fuel : nat) hp, (Z.to_nat (size_in_groups tmp) < fuel)%nat ->
        foldM (h64_insert_new fuel) l tmp hp = Ok (h', hp).
Proof.
  induction l as [|x l IH]; intros tmp W Hl Hroom.
  - exists tmp. intros fuel hp _. reflexivity.
  - apply Forall_cons in Hl as [Hx Hl]. cbn [length] in Hroom.
    destruct (insert_new_in_place tmp x W ltac:(lia) Hx) as (t1 & Hi & Hrun).
    destruct (installed_fields tmp x t1 Hi) as (_ & _ & _ & Ez & Ec).
    destruct (IH t1 (installed_wf tmp x t1 W ltac:(lia) Hx Hi) Hl
                ltac:(rewrite Ez, Ec; lia)) as (h' & Hrun').
    exists h'. intros fuel hp Hfuel. cbn [foldM].
    rewrite (bind_of_Ok _ _ hp _ hp (Hrun fuel hp Hfuel)).
    apply Hrun'. rewrite Ez. exact Hfuel.
Qed.

Lemma resize_total h size addr :
  table_wf h -> is_power_of_2 size = true -> Z.max 4 size * 64 < 2 ^ 64 ->
  count h <= max_count (Z.max 4 size) + 1 ->
  exists h',
    forall (fuel : nat) hp, (Z.to_nat (Z.max 4 size) < fuel)%nat ->
      h64_resize fuel h size (addr :: hp) = Ok (h', hp).
Proof.
  intros W Hp Hfit Hroom.
  pose proof (fresh_table_wf size (hasher h) (equals h) addr Hp Hfit) as Wt.
  destruct (foldM_insert_new_total (h64_for_each h)
              (fresh_table size (hasher h) (equals h) addr) Wt) as (h' & Hrun).
  - apply Forall_forall. intros x. apply for_each_non_null.
  - cbn [count size_in_groups fresh_table].
    rewrite <- (wf_count_length h W). lia.
  - exists h'. intros fuel hp Hfuel. unfold h64_resize, resize_with.
    rewrite Hp. cbn [negb].
    rewrite (bind_of_Ok _ _ _ _ _
               (h64_init_ok size (hasher h) (equals h) addr hp Hp Hfit)).
    rewrite (resize_guard h W). apply Hrun. exact Hfuel.
Qed.

Lemma grow_up_total h addr :
  table_wf h -> 2 * size_in_groups h * 64 < 2 ^ 64 ->
  exists h',
    forall (fuel : nat) hp, (Z.to_nat (2 * size_in_groups h) < fuel)%nat ->
      h64_grow_up fuel h (addr :: hp) = Ok (h', hp).
Proof.
  intros W Hfit. destruct (wf_size h W) as (k & Hk & Ek).
  destruct (doubled_size h W) as (Eu & Hd).
  assert (H4 : 4 <= size_in_groups h).
  { rewrite Ek. pose proof (pow2_le_mono 2 k ltac:(lia)) as H.
    change (2 ^ 2) with 4 in H. exact H. }
  assert (Em : Z.max 4 (2 * size_in_groups h) = 2 * size_in_groups h) by lia.
  destruct (Hd ltac:(rewrite Em; exact Hfit)) as (_ & Hmax & _).
  assert (Hk56 : k <= 56).
  { destruct (Z_le_gt_dec k 56) as [Hle|Hgt]; [exact Hle|exfalso].
    assert (k = 57) by lia. subst k. rewrite Ek in Hfit.
    revert Hfit. vm_compute. intros C. discriminate C. }
  destruct (resize_total h (2 * size_in_groups h) addr W) as (h' & Hrun).
  - rewrite Ek, <- Z.pow_succ_r by lia. apply is_power_of_2_pow2. lia.
  - rewrite Em. exact Hfit.
  - rewrite Em. pose proof (wf_load h W). lia.
  - exists h'. intros fuel hp Hfuel. unfold h64_grow_up. rewrite Eu.
    apply Hrun. rewrite Em. exact Hfuel.
Qed.

(** [h64_insert_new] returns on every well-formed table, given an array
    for the rehash when the load check asks for one. *)
Lemma h64_insert_new_total h entry addr :
  table_wf h -> entry <> NULL ->
  (h64_should_grow_up h = true -> 2 * size_in_groups h * 64 < 2 ^ 64) ->
  exists h',
    forall (fuel : nat) hp, (Z.to_nat (2 * size_in_groups h) + 1 < fuel)%nat ->
      h64_insert_new fuel h entry (addr :: hp)
      = Ok (h', if h64_should_grow_up h then hp else addr :: hp).
Proof.
  intros W Hne Hfit. destruct (h64_should_grow_up h) eqn:Eg.
  - destruct (grow_up_total h addr W (Hfit eq_refl)) as (h1 & Hrun1).
    pose proof (Hrun1 (S (Z.to_nat (2 * size_in_groups h))) [] ltac:(lia)) as H1.
    pose proof (h64_resize_spec _ h _ _ h1 _ W (u64_range _)
                  (or_introl (grow_up_non_empty h W Eg)) H1) as R.
    destruct (grow_up_exact h _ _ h1 _ W eq_refl R) as (Es & Ec & Hroom).
    destruct (install_new_spec h1 entry (rs_wf _ _ _ _ _ R) Hroom Hne)
      as (j & h' & Hj & Hi & Hrun & _).
    exists h'. intros fuel hp Hfuel. destruct fuel as [|fuel]; [lia|].
    rewrite h64_insert_new_unfold, Eg.
    rewrite (bind_of_Ok _ _ _ _ _ (Hrun1 fuel hp ltac:(lia))).
    apply Hrun. lia.
  - destruct (insert_new_in_place h entry W (no_grow_room h Eg) Hne)
      as (h' & _ & Hrun).
    exists h'. intros fuel hp Hfuel. apply Hrun. lia.
Qed.

(** ** Tables that have seen no erase *)

Lemma run_op_pristine strict fuel o h hp h' hp' :
  table_wf h -> op_valid strict h o ->
  is_erase o = false ->
  run_op fuel o h hp = Ok (h', hp') ->
  pristine h -> pristine h'.
Proof.
  intros W V Hne H P.
  destruct o as [e|e|e|n]; cbn [run_op op_valid is_erase] in *;
    [| |discriminate Hne|].
  - destruct (h64_insert_inv fuel h e hp h' hp' W V H)
      as (h1 & Hg & W1 & Ec & Hroom & Hcase).
    assert (P1 : pristine h1).
    { destruct Hg as [(_ & -> & _)|(_ & R & _)]; [exact P|].
      apply (rs_pristine _ _ _ _ _ R). }
    destruct Hcase as [Ho|[Hi _]].
    + apply (overwritten_pristine h1 e h' Ho P1).
    + apply (installed_pristine h1 e h' W1 Hi P1).
  - destruct V as [He _].
    pose proof (h64_insert_new_spec fuel h e hp h' hp' W He H) as I.
    apply (inserted_new_pristine h e hp h' hp' W I P).
  - destruct (h64_reserve_cases fuel h n hp h' hp' W H)
      as [R|(_ & _ & addr & _ & _ & Eg & _)].
    + apply (rs_pristine _ _ _ _ _ R).
    + intros pos g E. rewrite Eg, lookup_nil in E. discriminate E.
Qed.

Lemma reachable_pristine strict hs eq tr h :
  reachable strict hs eq tr h ->
  Forall (fun o => is_erase o = false) tr -> pristine h.
Proof.
  induction 1 as [hp h hp' Hc|tr h o fuel hp h' hp' Hr IH Hv Hrun]; intros Hne.
  - apply h64_create_inv in Hc as (a0 & addr & -> & ->).
    apply fresh_table_pristine.
  - apply Forall_app in Hne as [Hne Ho]. apply Forall_inv in Ho.
    destruct (reachable_run_wf strict hs eq tr h fuel o hp (h', hp') Hr Hrun)
      as (W & _).
    apply (run_op_pristine strict fuel o h hp h' hp' W Hv Ho Hrun).
    apply IH, Hne.
Qed.

Lemma h64_find_total_pristine h probe :
  table_wf h -> pristine h ->
  exists x,
    forall fuel : nat, (Z.to_nat (size_in_groups h) <= fuel)%nat ->
      h64_find fuel h probe = Ok x.
Proof.
  intros W P.
  destruct (find_entry_total_pristine h probe (h64_hash h probe) W P)
    as (j & r & Hj & Hrun).
  destruct (fr_found r) eqn:Ef.
  - destruct (find_entry_found h probe (S j) r W (Hrun (S j) ltac:(lia)) Ef)
      as (pos & idx & g & x & -> & Hidx & Eg & Ex & _).
    exists x. intros fuel Hfuel. unfold h64_find.
    rewrite (Hrun fuel ltac:(lia)). cbn [rbind fr_found find_result_init].
    apply (deref_found h pos idx g x Eg Ex).
  - exists NULL. intros fuel Hfuel. unfold h64_find.
    rewrite (Hrun fuel ltac:(lia)). cbn [rbind]. rewrite Ef. reflexivity.
Qed.

(** ** What [h64_find] answers *)

Lemma h64_find_sound h probe fuel x :
  table_wf h -> h64_find fuel h probe = Ok x -> x <> NULL ->
  x ∈ h64_for_each h /\ equals h probe x <> 0.
Proof.
  intros W H Hx. unfold h64_find in H.
  destruct (h64_find_entry fuel h probe (h64_hash h probe)) as [r| |] eqn:Hf;
    try discriminate H.
  cbn [rbind] in H. destruct (fr_found r) eqn:Ef.
  - destruct (find_entry_found h probe fuel r W Hf Ef)
      as (pos & idx & g & y & -> & Hidx & Eg & Ey & Hy & _ & _ & Heq & _).
    rewrite (deref_found h pos idx g y Eg Ey) in H. inversion H; subst y.
    split.
    + apply (stored_in_for_each h pos (Z.to_nat idx) g x W Eg Ey Hy).
    + apply h64_equals_true. exact Heq.
  - inversion H. congruence.
Qed.

Lemma h64_find_null h probe fuel :
  table_wf h -> callbacks_ok (hasher h) (equals h) ->
  h64_find fuel h probe = Ok NULL ->
  forall x, x ∈ h64_for_each h -> equals h probe x = 0.
Proof.
  intros W C H x Hx. unfold h64_find in H.
  destruct (h64_find_entry fuel h probe (h64_hash h probe)) as [r| |] eqn:Hf;
    try discriminate H.
  cbn [rbind] in H. destruct (fr_found r) eqn:Ef.
  - exfalso.
    destruct (find_entry_found h probe fuel r W Hf Ef)
      as (pos & idx & g & y & -> & Hidx & Eg & Ey & Hy & _).
    rewrite (deref_found h pos idx g y Eg Ey) in H. inversion H. congruence.
  - destruct (find_entry_not_found h probe fuel r W C Hf Ef) as [_ Ha].
    apply (absent_for_each h probe W Ha x Hx).
Qed.

(** ** What [h64_erase] and [h64_insert] do to the entries *)

Lemma h64_erase_effect fuel h probe hp x h' hp' :
  table_wf h ->
  h64_erase fuel h probe hp = Ok ((x, h'), hp') ->
  (x = NULL /\ h' = h /\ hp' = hp) \/
  (x <> NULL /\ equals h probe x <> 0 /\
   table_wf h' /\ equals h' = equals h /\ hasher h' = hasher h /\
   count h' = count h - 1 /\
   exists l1 l2,
     h64_for_each h = l1 ++ x :: l2 /\ h64_for_each h' ≡ₚ l1 ++ l2).
Proof.
  intros W H.
  destruct (h64_erase_inv fuel h probe hp x h' hp' W H)
    as [(-> & -> & -> & _)|(h1 & Her & Hg)]; [left; auto|right].
  pose proof (erased_wf h probe x h1 W Her) as W1.
  destruct (erased_fields h probe x h1 Her) as (Eh & Ee & _ & _ & Ec).
  destruct (erased_for_each h probe x h1 W Her) as (l1 & l2 & E1 & E2).
  assert (Hx : x <> NULL /\ equals h probe x <> 0).
  { destruct Her as (_ & _ & _ & _ & _ & _ & Hx & Heq & _).
    split; [exact Hx|]. apply h64_equals_true. exact Heq. }
  destruct Hx as [Hx Heq]. split; [exact Hx|]. split; [exact Heq|].
  destruct Hg as [(_ & -> & _)|(Ed & R)].
  - split; [exact W1|]. split; [exact Ee|]. split; [exact Eh|].
    split; [exact Ec|]. exists l1, l2. rewrite E2. auto.
  - destruct (grow_down_exact h1 hp h' hp' W1 Ed R) as (_ & Ec').
    split; [apply (rs_wf _ _ _ _ _ R)|].
    split; [rewrite (rs_equals _ _ _ _ _ R); exact Ee|].
    split; [rewrite (rs_hasher _ _ _ _ _ R); exact Eh|].
    split; [lia|]. exists l1, l2. split; [exact E1|].
    rewrite (rs_for_each _ _ _ _ _ R), E2. reflexivity.
Qed.

Lemma h64_insert_absent fuel h entry hp h' hp' :
  table_wf h -> entry <> NULL ->
  (forall x, x ∈ h64_for_each h -> equals h entry x = 0) ->
  h64_insert fuel h entry hp = Ok (h', hp') ->
  h64_for_each h' ≡ₚ entry :: h64_for_each h /\ count h' = count h + 1.
Proof.
  intros W Hne Ha H.
  destruct (h64_insert_inv fuel h entry hp h' hp' W Hne H)
    as (h1 & Hg & W1 & Ec & Hroom & Hcase).
  assert (Hsame : equals h1 = equals h /\ h64_for_each h1 ≡ₚ h64_for_each h).
  { destruct Hg as [(_ & -> & _)|(_ & R & _)]; [auto|].
    split; [apply (rs_equals _ _ _ _ _ R)|apply (rs_for_each _ _ _ _ _ R)]. }
  destruct Hsame as (Ee & Hp).
  destruct Hcase as [Ho|[Hi _]].
  - exfalso.
    destruct (overwritten_for_each h1 entry h' W1 Hne Ho)
      as (l1 & l2 & x & E1 & _ & Heq).
    apply h64_equals_true in Heq. apply Heq. rewrite Ee. apply Ha.
    rewrite <- Hp, E1. apply elem_of_app. right. left.
  - destruct (installed_for_each h1 entry h' W1 Hroom Hne Hi)
      as (l1 & l2 & E1 & E2).
    destruct (installed_fields h1 entry h' Hi) as (_ & _ & _ & _ & Ec').
    split; [|lia]. rewrite E2, <- Hp, E1. symmetry. apply Permutation_middle.
Qed.

(** ** Erase and upsert on tables that have seen no erase *)

Lemma h64_erase_total_pristine h probe addr :
  table_wf h -> pristine h ->
  exists x h',
    forall (fuel : nat) hp, (Z.to_nat (size_in_groups h) < fuel)%nat ->
      exists hp',
        h64_erase fuel h probe (addr :: hp) = Ok ((x, h'), hp') /\
        (hp' = addr :: hp \/ hp' = hp).
Proof.
  intros W P.
  destruct (find_entry_total_pristine h probe (h64_hash h probe) W P)
    as (j & r & Hj & Hrun).
  destruct (fr_found r) eqn:Ef.
  - destruct (find_entry_found h probe (S j) r W (Hrun (S j) ltac:(lia)) Ef)
      as (pos & idx & g & x & -> & Hidx & Eg & Ex & Hx & Hbit & _).
    pose proof (table_erase_wf h pos g idx W Eg Hidx Hbit) as W1.
    assert (E1 : with_count
                   (with_groups h (<[pos := group_after_erase g idx]> (groups h)))
                   (u64 (count (with_groups h
                      (<[pos := group_after_erase g idx]> (groups h))) - 1))
                 = table_update h pos (group_after_erase g idx) (count h - 1)).
    { unfold table_update. cbn [count with_groups].
      pose proof (count_no_wrap h W) as [_ Hc1].
      pose proof (count_no_wrap _ W1) as [Hc0 _].
      cbn [count table_update with_count] in Hc0.
      rewrite u64_small by lia. reflexivity. }
    assert (Ez1 : size_in_groups
                    (table_update h pos (group_after_erase g idx) (count h - 1))
                  = size_in_groups h) by reflexivity.
    set (h1 := table_update h pos (group_after_erase g idx) (count h - 1)) in *.
    assert (Hstart : forall (fuel : nat) hp0, (j < fuel)%nat ->
               h64_erase fuel h probe hp0
               = bind (if h64_should_grow_down h1 then h64_grow_down fuel h1
                       else ret h1) (fun h3 => ret (x, h3)) hp0).
    { intros fuel hp0 Hfuel. rewrite h64_erase_unfold.
      rewrite (bind_of_Ok _ _ hp0 _ hp0 (lift_of_Ok _ hp0 _ (Hrun fuel Hfuel))).
      cbn [fr_found find_result_init].
      rewrite (bind_of_Ok _ _ hp0 _ hp0
                 (lift_of_Ok _ hp0 _ (erase_at_ok h pos g idx x Eg Hidx Ex))).
      cbn [fst snd]. rewrite E1. reflexivity. }
    destruct (h64_should_grow_down h1) eqn:Ed.
    + assert (Ed' := Ed). rewrite should_grow_down_eq in Ed'.
      apply andb_true_iff in Ed' as [Hc Hs].
      apply Z.ltb_lt in Hc. apply Z.ltb_lt in Hs.
      destruct (halved_size h1 W1 Hs) as (Em & Hmin & _).
      destruct (wf_size h1 W1) as (k & Hk & Ek).
      assert (Hk3 : 3 <= k).
      { destruct (Z.le_gt_cases 3 k) as [?|C]; [assumption|].
        pose proof (pow2_le_mono k 2 ltac:(lia)) as Hp.
        change (2 ^ 2) with 4 in Hp. lia. }
      assert (Eh : size_in_groups h1 / 2 = 2 ^ (k - 1)).
      { rewrite Ek. replace (2 ^ k) with (2 ^ (k - 1) * 2)
          by (rewrite Z.mul_comm, <- Z.pow_succ_r by lia; f_equal; lia).
        apply Z.div_mul. lia. }
      pose proof (pow2_le_mono (k - 1) 57 ltac:(lia)) as Hle.
      assert (H57 : 2 ^ 57 * 64 < 2 ^ 64) by reflexivity.
      destruct (resize_total h1 (size_in_groups h1 / 2) addr W1) as (h' & Hrs).
      * rewrite Eh. apply is_power_of_2_pow2. lia.
      * rewrite Em, Eh. lia.
      * rewrite Em. lia.
      * exists x, h'. intros fuel hp Hfuel. exists hp. split; [|auto].
        rewrite Hstart by lia. unfold h64_grow_down.
        assert (Hf2 : (Z.to_nat (Z.max 4 (size_in_groups h1 / 2)) < fuel)%nat).
        { rewrite Em, Ez1.
          assert (size_in_groups h / 2 <= size_in_groups h)
            by (apply Z.div_le_upper_bound; lia).
          lia. }
        rewrite (bind_of_Ok _ _ _ _ _ (Hrs fuel hp Hf2)). reflexivity.
    + exists x, h1. intros fuel hp Hfuel. exists (addr :: hp). split; [|auto].
      rewrite Hstart by lia. reflexivity.
  - exists NULL, h. intros fuel hp Hfuel. exists (addr :: hp). split; [|auto].
    rewrite h64_erase_unfold.
    rewrite (bind_of_Ok _ _ _ _ _ (lift_of_Ok _ _ _ (Hrun fuel ltac:(lia)))).
    rewrite Ef. reflexivity.
Qed.

Lemma h64_insert_total_pristine h entry addr :
  table_wf h -> pristine h -> entry <> NULL ->
  (h64_should_grow_up h = true -> 2 * size_in_groups h * 64 < 2 ^ 64) ->
  exists h',
    forall (fuel : nat) hp, (Z.to_nat (2 * size_in_groups h) < fuel)%nat ->
      h64_insert fuel h entry (addr :: hp)
      = Ok (h', if h64_should_grow_up h then hp else addr :: hp).
Proof.
  intros W P Hne Hfit. destruct (h64_should_grow_up h) eqn:Eg.
  - destruct (grow_up_total h addr W (Hfit eq_refl)) as (h1 & Hrun1).
    pose proof (Hrun1 (S (Z.to_nat (2 * size_in_groups h))) [] ltac:(lia)) as H1.
    pose proof (h64_resize_spec _ h _ _ h1 _ W (u64_range _)
                  (or_introl (grow_up_non_empty h W Eg)) H1) as R.
    destruct (grow_up_exact h _ _ h1 _ W eq_refl R) as (Es & Ec & Hroom).
    destruct (h64_insert_total h1 entry (rs_wf _ _ _ _ _ R)
                (rs_pristine _ _ _ _ _ R) Hroom Hne) as (h' & Hrun & _).
    assert (Hng : h64_should_grow_up h1 = false).
    { rewrite should_grow_up_eq. apply Z.ltb_ge. exact Hroom. }
    exists h'. intros fuel hp Hfuel.
    rewrite h64_insert_unfold, Eg.
    rewrite (bind_of_Ok _ _ _ _ _ (Hrun1 fuel hp Hfuel)).
    transitivity (h64_insert fuel h1 entry hp).
    + rewrite (h64_insert_unfold fuel h1), Hng. reflexivity.
    + apply Hrun. rewrite Es. lia.
  - destruct (h64_insert_total h entry W P (no_grow_room h Eg) Hne)
      as (h' & Hrun & _).
    exists h'. intros fuel hp Hfuel. apply Hrun.
    destruct (wf_size h W) as (k & Hk & Ek).
    pose proof (pow2_pos k ltac:(lia)). lia.
Qed.

(** ** The number of groups after an insertion *)

Lemma h64_insert_size fuel h entry hp h' hp' :
  table_wf h -> entry <> NULL ->
  h64_insert fuel h entry hp = Ok (h', hp') ->
  size_in_groups h'
  = (if max_count (size_in_groups h) <? count h
     then 2 * size_in_groups h else size_in_groups h) /\
  (h64_should_grow_up h = false -> hp' = hp).
Proof.
  intros W Hne H.
  destruct (h64_insert_inv fuel h entry hp h' hp' W Hne H)
    as (h1 & Hg & W1 & Ec & Hroom & Hcase).
  assert (Ez : size_in_groups h' = size_in_groups h1).
  { destruct Hcase as [Ho|[Hi _]].
    - apply (overwritten_fields h1 entry h' Ho).
    - apply (installed_fields h1 entry h' Hi). }
  rewrite <- should_grow_up_eq.
  destruct Hg as [(Eg & -> & ->)|(Eg & _ & Es)]; rewrite Eg.
  - split; [exact Ez|reflexivity].
  - split; [lia|discriminate].
Qed.

Lemma h64_insert_new_size fuel h entry hp h' hp' :
  table_wf h -> entry <> NULL ->
  h64_insert_new fuel h entry hp = Ok (h', hp') ->
  size_in_groups h'
  = (if max_count (size_in_groups h) <? count h
     then 2 * size_in_groups h else size_in_groups h) /\
  (h64_should_grow_up h = false -> hp' = hp).
Proof.
  intros W Hne H.
  pose proof (h64_insert_new_spec fuel h entry hp h' hp' W Hne H) as I.
  rewrite <- should_grow_up_eq. destruct (h64_should_grow_up h) eqn:Eg.
  - destruct (ins_rehashed _ _ _ _ _ I Eg) as (h1 & R & Hi).
    destruct (grow_up_exact h _ hp h1 hp' W eq_refl R) as (Es & _).
    destruct (installed_fields h1 entry h' Hi) as (_ & _ & _ & Ez & _).
    split; [lia|discriminate].
  - destruct (ins_in_place _ _ _ _ _ I Eg) as [Hi ->].
    destruct (installed_fields h entry h' Hi) as (_ & _ & _ & Ez & _).
    split; [exact Ez|reflexivity].
Qed.

(** ** [roundup_to_pow2] and [is_power_of_2] on every 64-bit value *)

Lemma roundup_to_pow2_log2_up n :
  2 <= n <= 2 ^ 63 -> roundup_to_pow2 n = 2 ^ Z.log2_up n.
Proof.
  intros Hn. rewrite roundup_to_pow2_spec by exact Hn.
  f_equal. rewrite Z.log2_up_eqn by lia.
  replace (Z.pred n) with (n - 1) by lia. lia.
Qed.

Lemma roundup_to_pow2_wraps n :
  2 ^ 63 < n < 2 ^ 64 -> roundup_to_pow2 n = 0.
Proof.
  intros Hn. unfold roundup_to_pow2. cbv zeta.
  rewrite (u64_small (n - 1)) by lia.
  set (y := n - 1).
  assert (Hy : 2 ^ 63 <= y < 2 ^ 64) by (unfold y; lia).
  assert (Hl : Z.log2 y = 63).
  { apply Z.log2_unique; [lia|]. change (2 ^ Z.succ 63) with (2 ^ 64). lia. }
  assert (H0 : forall i, 0 <= i ->
             Z.testbit y i = true <->
             exists j, 0 <= j < 1 /\ Z.testbit y (i + j) = true).
  { intros i Hi. split.
    - intros Hb. exists 0. rewrite Z.add_0_r. split; [lia|exact Hb].
    - intros (j & Hj & Hb). replace (i + j) with i in Hb by lia. exact Hb. }
  pose proof (smear_step y _ 1 ltac:(lia) H0) as H1.
  pose proof (smear_step y _ 2 ltac:(lia) H1) as H2.
  pose proof (smear_step y _ 4 ltac:(lia) H2) as H3.
  pose proof (smear_step y _ 8 ltac:(lia) H3) as H4.
  pose proof (smear_step y _ 16 ltac:(lia) H4) as H5.
  pose proof (smear_step y _ 32 ltac:(lia) H5) as H6.
  cbv beta in H6. clear H0 H1 H2 H3 H4 H5.
  match type of H6 with
  | forall i, _ -> Z.testbit ?m i = true <-> _ => set (r := m) in *
  end.
  assert (Er : r = Z.ones 64).
  { apply Z.bits_inj'. intros i Hi.
    destruct (Z_lt_ge_dec i 64) as [Hlt|Hge].
    - rewrite Z.ones_spec_low by lia. apply H6; [exact Hi|].
      exists (63 - i). split; [lia|].
      replace (i + (63 - i)) with (Z.log2 y) by lia.
      apply Z.bit_log2. lia.
    - rewrite Z.ones_spec_high by lia.
      destruct (Z.testbit r i) eqn:Hb; [exfalso|reflexivity].
      apply H6 in Hb as (j & Hj & Hb); [|exact Hi].
      rewrite Z.bits_above_log2 in Hb by lia. discriminate Hb. }
  rewrite Er. reflexivity.
Qed.

Lemma is_power_of_2_iff n :
  0 <= n < 2 ^ 64 ->
  is_power_of_2 n = true <-> n = 0 \/ exists k, 0 <= k <= 63 /\ n = 2 ^ k.
Proof.
  intros Hn. split.
  - intros H. destruct (Z.eq_dec n 0) as [->|Hne]; [left; reflexivity|right].
    pose proof (is_power_of_2_spec n ltac:(lia) H) as E.
    exists (Z.log2 n). split; [|exact E].
    split; [apply Z.log2_nonneg|].
    assert (Z.log2 n < 64) by (apply Z.log2_lt_pow2; lia). lia.
  - intros [->|(k & Hk & ->)]; [reflexivity|].
    apply is_power_of_2_pow2. exact Hk.
Qed.

(** ** Lists without two equal keys *)

Lemma distinct_keys_later eq l1 x l2 y l3 :
  distinct_keys eq (l1 ++ x :: l2 ++ y :: l3) -> eq x y = 0.
Proof.
  induction l1 as [|a l1 IH]; cbn [app distinct_keys].
  - intros [Hx _]. rewrite Forall_forall in Hx. apply Hx.
    apply elem_of_app. right. left.
  - intros [_ D]. apply IH, D.
Qed.

Lemma distinct_keys_not_twice hs eq l1 x l2 :
  callbacks_ok hs eq -> distinct_keys eq (l1 ++ x :: l2) -> x ∉ l1 ++ l2.
Proof.
  intros C D Hin.
  apply (distinct_keys_perm hs eq C _ (x :: l1 ++ l2)) in D.
  - destruct D as [Hx _]. rewrite Forall_forall in Hx.
    apply (equals_refl hs eq C x), Hx, Hin.
  - symmetry. apply Permutation_middle.
Qed.

(** ** Steps of the mixers that lose nothing *)

(** Multiplication by an odd constant modulo 2^64. *)
Lemma mul_odd_injective z zi a b :
  u64 (z * zi) = 1 ->
  0 <= a < 2 ^ 64 -> 0 <= b < 2 ^ 64 ->
  u64 (a * z) = u64 (b * z) -> a = b.
Proof.
  unfold u64. intros Hz Ha Hb H.
  assert (E : forall x, (x * z mod 2 ^ 64 * zi) mod 2 ^ 64 = x mod 2 ^ 64).
  { intros x. rewrite Z.mul_mod_idemp_l by lia.
    rewrite <- Z.mul_assoc, <- Z.mul_mod_idemp_r, Hz by lia.
    rewrite Z.mul_1_r. reflexivity. }
  pose proof (E a) as Ea. pose proof (E b) as Eb.
  rewrite H, Eb in Ea. rewrite !Z.mod_small in Ea by lia. lia.
Qed.

(** [x ^ (x >> s)] on 64-bit values. *)
Lemma xorshift_injective s a b :
  0 < s ->
  0 <= a < 2 ^ 64 -> 0 <= b < 2 ^ 64 ->
  Z.lxor a (Z.shiftr a s) = Z.lxor b (Z.shiftr b s) -> a = b.
Proof.
  intros Hs Ha Hb H.
  assert (Hhigh : forall x i, 0 <= x < 2 ^ 64 -> 64 <= i -> Z.testbit x i = false).
  { intros x i Hx Hi. destruct (Z.eq_dec x 0) as [->|Hne];
      [apply Z.testbit_0_l|].
    apply Z.bits_above_log2; [lia|].
    assert (Z.log2 x < 64) by (apply Z.log2_lt_pow2; lia). lia. }
  assert (Hk : forall (k : nat) i, 0 <= i -> 64 - Z.of_nat k * s <= i ->
                 Z.testbit a i = Z.testbit b i).
  { induction k as [|k IH]; intros i Hi Hle.
    - rewrite !Hhigh by lia. reflexivity.
    - assert (Hb1 : Z.testbit (Z.lxor a (Z.shiftr a s)) i
                    = Z.testbit (Z.lxor b (Z.shiftr b s)) i) by (rewrite H; reflexivity).
      rewrite !Z.lxor_spec, !Z.shiftr_spec in Hb1 by lia.
      rewrite (IH (i + s)) in Hb1 by lia.
      destruct (Z.testbit a i), (Z.testbit b i), (Z.testbit b (i + s));
        cbn in Hb1; congruence. }
  apply Z.bits_inj'. intros i Hi. apply (Hk 64%nat i Hi). lia.
Qed.

Lemma lxor_range a b :
  0 <= a < 2 ^ 64 -> 0 <= b < 2 ^ 64 -> 0 <= Z.lxor a b < 2 ^ 64.
Proof.
  intros Ha Hb. split; [apply Z.lxor_nonneg; lia|].
  destruct (Z.eq_dec (Z.lxor a b) 0) as [->|Hne]; [lia|].
  apply Z.log2_lt_pow2; [pose proof (proj2 (Z.lxor_nonneg a b)); lia|].
  pose proof (Z.log2_lxor a b ltac:(lia) ltac:(lia)) as Hl.
  assert (Z.log2 a < 64).
  { destruct (Z.eq_dec a 0) as [->|?]; [reflexivity|apply Z.log2_lt_pow2; lia]. }
  assert (Z.log2 b < 64).
  { destruct (Z.eq_dec b 0) as [->|?]; [reflexivity|apply Z.log2_lt_pow2; lia]. }
  lia.
Qed.

Lemma lor_range a b :
  0 <= a < 2 ^ 64 -> 0 <= b < 2 ^ 64 -> 0 <= Z.lor a b < 2 ^ 64.
Proof.
  intros Ha Hb. split; [apply Z.lor_nonneg; lia|].
  destruct (Z.eq_dec (Z.lor a b) 0) as [->|Hne]; [lia|].
  apply Z.log2_lt_pow2; [pose proof (proj2 (Z.lor_nonneg a b)); lia|].
  rewrite Z.log2_lor by lia.
  assert (Z.log2 a < 64).
  { destruct (Z.eq_dec a 0) as [->|?]; [reflexivity|apply Z.log2_lt_pow2; lia]. }
  assert (Z.log2 b < 64).
  { destruct (Z.eq_dec b 0) as [->|?]; [reflexivity|apply Z.log2_lt_pow2; lia]. }
  lia.
Qed.

Lemma shiftr_range a s :
  0 <= s -> 0 <= a < 2 ^ 64 -> 0 <= Z.shiftr a s < 2 ^ 64.
Proof.
  intros Hs Ha. rewrite Z.shiftr_div_pow2 by lia.
  pose proof (pow2_pos s Hs) as P. split; [apply Z.div_pos; lia|].
  apply Z.div_lt_upper_bound; [lia|]. nia.
Qed.

Lemma xorshift_range a s :
  0 <= s -> 0 <= a < 2 ^ 64 -> 0 <= Z.lxor a (Z.shiftr a s) < 2 ^ 64.
Proof.
  intros Hs Ha. apply lxor_range; [exact Ha|apply shiftr_range; assumption].
Qed.

(** ** The first step of [mixer64] *)

Lemma rot_xor_ext a b f g :
  (forall i, 0 <= i < 64 -> f i = g i) ->
  forall i, 0 <= i < 64 -> rot_xor a b f i = rot_xor a b g i.
Proof.
  intros H i Hi. unfold rot_xor.
  rewrite (H i Hi), (H ((i - a) mod 64)), (H ((i - b) mod 64));
    [reflexivity|apply Z.mod_pos_bound; lia..].
Qed.

Lemma rot_xor_twice a b f i :
  0 <= i < 64 ->
  rot_xor a b (rot_xor a b f) i = rot_xor (2 * a) (2 * b) f i.
Proof.
  intros Hi. unfold rot_xor.
  rewrite !Zminus_mod_idemp_l.
  replace (i - a - a) with (i - 2 * a) by lia.
  replace (i - b - b) with (i - 2 * b) by lia.
  replace (i - b - a) with (i - a - b) by lia.
  destruct (f i), (f ((i - a) mod 64)), (f ((i - b) mod 64)),
    (f ((i - 2 * a) mod 64)), (f ((i - 2 * b) mod 64)),
    (f ((i - a - b) mod 64)); reflexivity.
Qed.

Lemma rot_xor_injective f g :
  (forall i, 0 <= i < 64 -> rot_xor 49 24 f i = rot_xor 49 24 g i) ->
  forall i, 0 <= i < 64 -> f i = g i.
Proof.
  intros H0.
  assert (Hd : forall a b,
             (forall i, 0 <= i < 64 -> rot_xor a b f i = rot_xor a b g i) ->
             forall i, 0 <= i < 64 ->
               rot_xor (2 * a) (2 * b) f i = rot_xor (2 * a) (2 * b) g i).
  { intros a b H i Hi. rewrite <- !rot_xor_twice by exact Hi.
    apply rot_xor_ext; [exact H|exact Hi]. }
  pose proof (Hd _ _ (Hd _ _ (Hd _ _ (Hd _ _ (Hd _ _ (Hd _ _ H0)))))) as H6.
  intros i Hi. specialize (H6 i Hi). unfold rot_xor in H6.
  replace ((i - 2 * (2 * (2 * (2 * (2 * (2 * 49)))))) mod 64) with i in H6
    by (rewrite <- (Z.mod_small i 64) at 1 by lia;
        replace (i - 2 * (2 * (2 * (2 * (2 * (2 * 49))))))
          with (i + (-49) * 64) by lia;
        rewrite Z.mod_add by lia; reflexivity).
  replace ((i - 2 * (2 * (2 * (2 * (2 * (2 * 24)))))) mod 64) with i in H6
    by (rewrite <- (Z.mod_small i 64) at 1 by lia;
        replace (i - 2 * (2 * (2 * (2 * (2 * (2 * 24))))))
          with (i + (-24) * 64) by lia;
        rewrite Z.mod_add by lia; reflexivity).
  destruct (f i), (g i); cbn in H6; congruence.
Qed.

Lemma rotl_testbit n a i :
  0 < a < 64 -> 0 <= n < 2 ^ 64 -> 0 <= i < 64 ->
  Z.testbit (Z.lor (u64 (Z.shiftl n a)) (Z.shiftr n (64 - a))) i
  = Z.testbit n ((i - a) mod 64).
Proof.
  intros Ha Hn Hi. unfold u64.
  rewrite Z.lor_spec, Z.mod_pow2_bits_low, Z.shiftr_spec by lia.
  assert (Hhigh : forall j, 64 <= j -> Z.testbit n j = false).
  { intros j Hj. destruct (Z.eq_dec n 0) as [->|Hne]; [apply Z.testbit_0_l|].
    apply Z.bits_above_log2; [lia|].
    assert (Z.log2 n < 64) by (apply Z.log2_lt_pow2; lia). lia. }
  destruct (Z_lt_ge_dec i a) as [Hlt|Hge].
  - rewrite Z.shiftl_spec_low by lia. cbn [orb].
    f_equal. replace (i - a) with (i + (64 - a) + (-1) * 64) by lia.
    rewrite Z.mod_add, Z.mod_small by lia. reflexivity.
  - rewrite Z.shiftl_spec, (Hhigh (i + (64 - a))), orb_false_r by lia.
    f_equal. rewrite Z.mod_small by lia. reflexivity.
Qed.

Lemma mixer64_first_step_injective a b :
  0 <= a < 2 ^ 64 -> 0 <= b < 2 ^ 64 ->
  Z.lxor a (Z.lxor (Z.lor (u64 (Z.shiftl a 49)) (Z.shiftr a 15))
                   (Z.lor (u64 (Z.shiftl a 24)) (Z.shiftr a 40)))
  = Z.lxor b (Z.lxor (Z.lor (u64 (Z.shiftl b 49)) (Z.shiftr b 15))
                     (Z.lor (u64 (Z.shiftl b 24)) (Z.shiftr b 40))) ->
  a = b.
Proof.
  intros Ha Hb H.
  assert (Hbits : forall n, 0 <= n < 2 ^ 64 -> forall i, 0 <= i < 64 ->
            Z.testbit
              (Z.lxor n (Z.lxor (Z.lor (u64 (Z.shiftl n 49)) (Z.shiftr n 15))
                                (Z.lor (u64 (Z.shiftl n 24)) (Z.shiftr n 40)))) i
            = rot_xor 49 24 (Z.testbit n) i).
  { intros n Hn i Hi. rewrite !Z.lxor_spec. unfold rot_xor.
    pose proof (rotl_testbit n 49 i ltac:(lia) Hn Hi) as R1.
    pose proof (rotl_testbit n 24 i ltac:(lia) Hn Hi) as R2.
    change (64 - 49) with 15 in R1. change (64 - 24) with 40 in R2.
    rewrite R1, R2. reflexivity. }
  assert (Hlow : forall i, 0 <= i < 64 -> Z.testbit a i = Z.testbit b i).
  { apply rot_xor_injective. intros i Hi.
    rewrite <- (Hbits a Ha i Hi), <- (Hbits b Hb i Hi), H. reflexivity. }
  apply Z.bits_inj'. intros i Hi.
  destruct (Z_lt_ge_dec i 64) as [Hlt|Hge]; [apply Hlow; lia|].
  assert (Hhigh : forall n, 0 <= n < 2 ^ 64 -> Z.testbit n i = false).
  { intros n Hn. destruct (Z.eq_dec n 0) as [->|Hne]; [apply Z.testbit_0_l|].
    apply Z.bits_above_log2; [lia|].
    assert (Z.log2 n < 64) by (apply Z.log2_lt_pow2; lia). lia. }
  rewrite (Hhigh a Ha), (Hhigh b Hb). reflexivity.
Qed.

Lemma mixer64_range n : 0 <= n < 2 ^ 64 -> 0 <= mixer64 n < 2 ^ 64.
Proof.
  intros Hn. unfold mixer64. cbv zeta.
  apply xorshift_range; [lia|]. apply u64_range.
Qed.

Lemma mixer64_inj a b :
  0 <= a < 2 ^ 64 -> 0 <= b < 2 ^ 64 -> mixer64 a = mixer64 b -> a = b.
Proof.
  intros Ha Hb H. unfold mixer64 in H. cbv zeta in H.
  assert (Hz : u64 (0x9FB21C651E98DF25 * 0x2AB9C720D1024AD) = 1)
    by (vm_compute; reflexivity).
  assert (Hr : forall n, 0 <= n < 2 ^ 64 ->
            0 <= Z.lxor n (Z.lxor (Z.lor (u64 (Z.shiftl n 49)) (Z.shiftr n 15))
                                  (Z.lor (u64 (Z.shiftl n 24)) (Z.shiftr n 40)))
            < 2 ^ 64).
  { intros n Hn. apply lxor_range; [exact Hn|].
    apply lxor_range; apply lor_range;
      first [apply u64_range | apply shiftr_range; [lia|exact Hn]]. }
  apply xorshift_injective in H; [|lia|apply u64_range..].
  apply (mul_odd_injective _ _ _ _ Hz) in H;
    [|apply xorshift_range; [lia|apply u64_range]..].
  apply xorshift_injective in H; [|lia|apply u64_range..].
  apply (mul_odd_injective _ _ _ _ Hz) in H; [|apply Hr; assumption..].
  apply (mixer64_first_step_injective a b Ha Hb H).
Qed.

(** ** [h64_byte_hash] *)

(** The values the compiled function gives. *)
Lemma h64_byte_hash_known_answers :
  h64_byte_hash bytes_help 4 12345 = Some 3483496305299233654 /\
  h64_byte_hash bytes_not_in_the_table 16 0xdeadbeefcafef00d
  = Some 7800118328893760305 /\
  h64_byte_hash [] 0 7 = Some 7962528000681819666 /\
  h64_byte_hash bytes_ramp 23 0xffffffffffffffff = Some 7102625973498579515 /\
  h64_byte_hash bytes_ramp 15 1 = Some 10669614784005914028 /\
  h64_byte_hash [232; 3; 0; 0] 4 99 = Some 12705433757896562597 /\
  h64_byte_hash (seqZ 1 16) (-1) 99 = Some 15806336105809113557 /\
  h64_byte_hash (seqZ 1 16) (-7) 99 = Some 9156922996326088995 /\
  h64_byte_hash (seqZ 1 16) (-8) 99 = None.
Proof. vm_compute. repeat split; reflexivity. Qed.

Lemma lxor_cancel_r a b c : Z.lxor a c = Z.lxor b c -> a = b.
Proof.
  intros H. apply (f_equal (fun x => Z.lxor x c)) in H.
  rewrite !Z.lxor_assoc, !Z.lxor_nilpotent, !Z.lxor_0_r in H. exact H.
Qed.

Lemma lxor_cancel_l a b c : Z.lxor c a = Z.lxor c b -> a = b.
Proof. rewrite !(Z.lxor_comm c). apply lxor_cancel_r. Qed.

Lemma byte_hash_m_inverse : u64 (byte_hash_m * 0x5f7a0ea7e59b19bd) = 1.
Proof. vm_compute. reflexivity. Qed.

Lemma mul_m_injective a b :
  0 <= a < 2 ^ 64 -> 0 <= b < 2 ^ 64 ->
  u64 (a * byte_hash_m) = u64 (b * byte_hash_m) -> a = b.
Proof. apply (mul_odd_injective _ _ a b byte_hash_m_inverse). Qed.

Lemma byte_hash_round_range h k : 0 <= byte_hash_round h k < 2 ^ 64.
Proof. unfold byte_hash_round. cbv zeta. apply u64_range. Qed.

Lemma byte_hash_round_inj_h k h1 h2 :
  0 <= h1 < 2 ^ 64 -> 0 <= h2 < 2 ^ 64 ->
  byte_hash_round h1 k = byte_hash_round h2 k -> h1 = h2.
Proof.
  intros H1 H2 H. unfold byte_hash_round in H. cbv zeta in H.
  apply mul_m_injective in H;
    [|apply lxor_range; [assumption|apply u64_range]..].
  apply lxor_cancel_r in H. exact H.
Qed.

Lemma byte_hash_round_inj_k h k1 k2 :
  0 <= k1 < 2 ^ 64 -> 0 <= k2 < 2 ^ 64 -> 0 <= h < 2 ^ 64 ->
  byte_hash_round h k1 = byte_hash_round h k2 -> k1 = k2.
Proof.
  intros H1 H2 Hh H. unfold byte_hash_round in H. cbv zeta in H.
  apply mul_m_injective in H;
    [|apply lxor_range; [assumption|apply u64_range]..].
  apply lxor_cancel_l in H.
  apply mul_m_injective in H;
    [|apply xorshift_range; [unfold byte_hash_r; lia|apply u64_range]..].
  apply xorshift_injective in H;
    [|unfold byte_hash_r; lia|apply u64_range..].
  apply mul_m_injective in H; assumption.
Qed.

Lemma byte_hash_final_inj h1 h2 :
  0 <= h1 < 2 ^ 64 -> 0 <= h2 < 2 ^ 64 ->
  Z.lxor (u64 (Z.lxor h1 (Z.shiftr h1 byte_hash_r) * byte_hash_m))
         (Z.shiftr (u64 (Z.lxor h1 (Z.shiftr h1 byte_hash_r) * byte_hash_m))
                   byte_hash_r)
  = Z.lxor (u64 (Z.lxor h2 (Z.shiftr h2 byte_hash_r) * byte_hash_m))
           (Z.shiftr (u64 (Z.lxor h2 (Z.shiftr h2 byte_hash_r) * byte_hash_m))
                     byte_hash_r) ->
  h1 = h2.
Proof.
  intros H1 H2 H.
  apply xorshift_injective in H;
    [|unfold byte_hash_r; lia|apply u64_range..].
  apply mul_m_injective in H;
    [|apply xorshift_range; [unfold byte_hash_r; lia|assumption]..].
  apply xorshift_injective in H; [exact H|unfold byte_hash_r; lia|assumption..].
Qed.

(** *** The loop over the words *)

Lemma load64_Some data k :
  load64 data = Some k <-> (8 <= length data)%nat /\ k = le_bytes (take 8 data).
Proof.
  unfold load64. destruct (Nat.ltb_spec (length data) 8).
  - split; [discriminate|lia].
  - split.
    + intros E. inversion E. auto.
    + intros [_ ->]. reflexivity.
Qed.

Lemma byte_hash_words_Some n :
  forall data h,
    (8 * n <= length data)%nat <->
    exists h', byte_hash_words n data h = Some (h', drop (8 * n) data).
Proof.
  induction n as [|n IH]; intros data h.
  - cbn [byte_hash_words]. split; [|lia]. intros _. exists h.
    rewrite Nat.mul_0_r, drop_0. reflexivity.
  - cbn [byte_hash_words]. unfold load64.
    destruct (Nat.ltb_spec (length data) 8) as [Hlt|Hge].
    + split; [lia|]. intros (h' & E). discriminate E.
    + replace (8 * S n)%nat with (8 + 8 * n)%nat by lia.
      rewrite <- drop_drop.
      rewrite <- (IH (drop 8 data)). rewrite length_drop. lia.
Qed.

Lemma byte_hash_words_data n data h h' data2 :
  byte_hash_words n data h = Some (h', data2) ->
  data2 = drop (8 * n) data /\ (8 * n <= length data)%nat.
Proof.
  intros E.
  assert (Hlen : (8 * n <= length data)%nat).
  { destruct (le_lt_dec (8 * n) (length data)) as [L|G]; [exact L|exfalso].
    revert data h E G. induction n as [|n IH]; intros data h E G; [lia|].
    cbn [byte_hash_words] in E. unfold load64 in E.
    destruct (Nat.ltb_spec (length data) 8) as [Hlt|Hge]; [discriminate E|].
    apply (IH _ _ E). rewrite length_drop. lia. }
  split; [|exact Hlen].
  destruct (proj1 (byte_hash_words_Some n data h) Hlen) as (h0 & E0).
  rewrite E in E0. inversion E0. reflexivity.
Qed.

Lemma byte_hash_words_range n :
  forall data h h' data2,
    0 <= h < 2 ^ 64 ->
    byte_hash_words n data h = Some (h', data2) -> 0 <= h' < 2 ^ 64.
Proof.
  induction n as [|n IH]; intros data h h' data2 Hh E;
    cbn [byte_hash_words] in E.
  - inversion E; subst. exact Hh.
  - destruct (load64 data) as [k|]; [|discriminate E].
    apply (IH _ _ _ _ (byte_hash_round_range h k) E).
Qed.

Lemma byte_hash_words_inj n :
  forall data h1 h2 v d1 d2,
    0 <= h1 < 2 ^ 64 -> 0 <= h2 < 2 ^ 64 ->
    byte_hash_words n data h1 = Some (v, d1) ->
    byte_hash_words n data h2 = Some (v, d2) -> h1 = h2.
Proof.
  induction n as [|n IH]; intros data h1 h2 v d1 d2 H1 H2 E1 E2;
    cbn [byte_hash_words] in E1, E2.
  - inversion E1; inversion E2; congruence.
  - destruct (load64 data) as [k|]; [|discriminate E1].
    pose proof (IH _ _ _ _ _ _ (byte_hash_round_range h1 k)
                  (byte_hash_round_range h2 k) E1 E2) as E.
    apply (byte_hash_round_inj_h k h1 h2 H1 H2 E).
Qed.

(** *** The switch over the last bytes *)

Lemma byte_hash_tail_Some t :
  forall data2 h,
    (t <= length data2)%nat <-> exists h', byte_hash_tail t data2 h = Some h'.
Proof.
  induction t as [|t IH]; intros data2 h.
  - cbn [byte_hash_tail]. split; [eauto|lia].
  - cbn [byte_hash_tail].
    destruct (data2 !! t) as [b|] eqn:Eb.
    + apply lookup_lt_Some in Eb. split; [intros _|lia].
      destruct t as [|t']; [eauto|]. apply IH. lia.
    + apply lookup_ge_None in Eb. split; [lia|].
      intros (h' & E). discriminate E.
Qed.

Lemma byte_hash_tail_range t :
  forall data2 h h',
    0 <= h < 2 ^ 64 ->
    byte_hash_tail t data2 h = Some h' -> 0 <= h' < 2 ^ 64.
Proof.
  induction t as [|t IH]; intros data2 h h' Hh E; cbn [byte_hash_tail] in E.
  - inversion E; subst. exact Hh.
  - destruct (data2 !! t) as [b|]; [|discriminate E].
    destruct t as [|t'].
    + inversion E. apply u64_range.
    + apply (IH _ _ _ (lxor_range _ _ Hh (u64_range _)) E).
Qed.

Lemma byte_hash_tail_inj t :
  forall data2 h1 h2 v,
    0 <= h1 < 2 ^ 64 -> 0 <= h2 < 2 ^ 64 ->
    byte_hash_tail t data2 h1 = Some v ->
    byte_hash_tail t data2 h2 = Some v -> h1 = h2.
Proof.
  induction t as [|t IH]; intros data2 h1 h2 v H1 H2 E1 E2;
    cbn [byte_hash_tail] in E1, E2.
  - congruence.
  - destruct (data2 !! t) as [b|]; [|discriminate E1].
    pose proof (lxor_range _ _ H1 (u64_range (Z.shiftl b (8 * Z.of_nat t)))) as R1.
    pose proof (lxor_range _ _ H2 (u64_range (Z.shiftl b (8 * Z.of_nat t)))) as R2.
    destruct t as [|t'].
    + inversion E1 as [E1']. inversion E2 as [E2']. rewrite <- E2' in E1'.
      apply mul_m_injective in E1'; [|assumption..].
      apply lxor_cancel_r in E1'. exact E1'.
    + pose proof (IH _ _ _ _ R1 R2 E1 E2) as E.
      apply lxor_cancel_r in E. exact E.
Qed.

(** *** Little-endian values *)

Lemma le_bytes_range l :
  Forall (fun b => 0 <= b < 256) l -> 0 <= le_bytes l < 256 ^ Z.of_nat (length l).
Proof.
  induction 1 as [|b l Hb Hl IH]; [cbn; lia|].
  cbn [le_bytes foldr length]. fold (le_bytes l).
  rewrite Nat2Z.inj_succ, Z.pow_succ_r by lia. lia.
Qed.

Lemma le_bytes_inj l1 :
  forall l2,
    length l1 = length l2 ->
    Forall (fun b => 0 <= b < 256) l1 -> Forall (fun b => 0 <= b < 256) l2 ->
    le_bytes l1 = le_bytes l2 -> l1 = l2.
Proof.
  induction l1 as [|b1 l1 IH]; intros [|b2 l2] Hlen F1 F2 E;
    try discriminate Hlen; [reflexivity|].
  apply Forall_cons in F1 as [B1 F1]. apply Forall_cons in F2 as [B2 F2].
  cbn [le_bytes foldr] in E. fold (le_bytes l1) in E. fold (le_bytes l2) in E.
  assert (b1 = b2 /\ le_bytes l1 = le_bytes l2) as [-> E'] by lia.
  f_equal. apply IH; [cbn in Hlen; lia|assumption..].
Qed.

Lemma le_bytes_snoc l b :
  le_bytes (l ++ [b]) = le_bytes l + 256 ^ Z.of_nat (length l) * b.
Proof.
  induction l as [|a l IH].
  - cbn. lia.
  - cbn [app le_bytes foldr length]. fold (le_bytes (l ++ [b])).
    fold (le_bytes l). rewrite IH, Nat2Z.inj_succ, Z.pow_succ_r by lia. lia.
Qed.

Lemma lxor_disjoint x b k :
  0 <= k -> 0 <= x < 2 ^ k -> 0 <= b ->
  Z.lxor x (Z.shiftl b k) = x + 2 ^ k * b.
Proof.
  intros Hk Hx Hb. rewrite Z.shiftl_mul_pow2 by lia.
  rewrite (Z.mul_comm (2 ^ k)). symmetry. apply Z.add_nocarry_lxor.
  apply Z.bits_inj'. intros i Hi. rewrite Z.land_spec, Z.bits_0.
  destruct (Z_lt_ge_dec i k) as [Hlt|Hge].
  - rewrite Z.mul_pow2_bits_low by lia. apply andb_false_r.
  - destruct (Z.eq_dec x 0) as [->|Hne]; [rewrite Z.bits_0; reflexivity|].
    rewrite (Z.bits_above_log2 x i); [reflexivity|lia|].
    assert (Z.log2 x < k) by (apply Z.log2_lt_pow2; lia). lia.
Qed.

(** The bytes the switch folds into [h] are the little-endian value of
    the last [t] bytes. *)
Lemma byte_hash_tail_value t :
  forall data2 h,
    (t < 7)%nat -> (S t <= length data2)%nat ->
    Forall (fun b => 0 <= b < 256) data2 ->
    byte_hash_tail (S t) data2 h
    = Some (u64 (Z.lxor h (le_bytes (take (S t) data2)) * byte_hash_m)).
Proof.
  induction t as [|t IH]; intros data2 h Ht Hlen F.
  - cbn [byte_hash_tail].
    destruct data2 as [|b0 rest]; [cbn in Hlen; lia|].
    apply Forall_cons in F as [B0 _].
    cbn [lookup list_lookup take le_bytes foldr].
    change (8 * Z.of_nat 0) with 0. rewrite Z.shiftl_0_r.
    cbv beta in B0. assert (H64 : 256 < 2 ^ 64) by reflexivity.
    rewrite (u64_small b0) by lia. rewrite take_0. cbn [foldr].
    rewrite Z.mul_0_r, Z.add_0_r. reflexivity.
  - change (byte_hash_tail (S (S t)) data2 h)
      with (match data2 !! S t with
            | None => None
            | Some b =>
              byte_hash_tail (S t) data2
                (Z.lxor h (u64 (Z.shiftl b (8 * Z.of_nat (S t)))))
            end).
    destruct (data2 !! S t) as [b|] eqn:Eb;
      [|apply lookup_ge_None in Eb; lia].
    rewrite IH by (assumption || lia).
    assert (Hb : 0 <= b < 256).
    { rewrite Forall_forall in F. apply F.
      apply (list_elem_of_lookup_2 _ _ _ Eb). }
    rewrite (take_S_r _ _ _ Eb), le_bytes_snoc, length_take.
    replace (S t `min` length data2)%nat with (S t) by lia.
    pose proof (le_bytes_range (take (S t) data2)
                  (Forall_take _ _ _ F)) as Hr.
    rewrite length_take in Hr.
    replace (S t `min` length data2)%nat with (S t) in Hr by lia.
    assert (E256 : 256 ^ Z.of_nat (S t) = 2 ^ (8 * Z.of_nat (S t))).
    { change 256 with (2 ^ 8). rewrite <- Z.pow_mul_r by lia. reflexivity. }
    rewrite E256 in Hr. rewrite E256.
    assert (Hsh : u64 (Z.shiftl b (8 * Z.of_nat (S t)))
                  = Z.shiftl b (8 * Z.of_nat (S t))).
    { apply u64_small. rewrite Z.shiftl_mul_pow2 by lia.
      pose proof (pow2_pos (8 * Z.of_nat (S t)) ltac:(lia)) as P.
      pose proof (pow2_le_mono (8 * Z.of_nat (S t)) 48 ltac:(lia)) as Hle.
      assert (2 ^ 48 * 256 < 2 ^ 64) by reflexivity. nia. }
    rewrite Hsh.
    rewrite <- (lxor_disjoint _ b (8 * Z.of_nat (S t))) by lia.
    do 3 f_equal. rewrite !Z.lxor_assoc. f_equal. apply Z.lxor_comm.
Qed.

(** *** Which bytes are read *)

Lemma land_7_mod len : Z.land len 7 = len mod 8.
Proof. change 7 with (Z.ones 3). rewrite Z.land_ones by lia. reflexivity. Qed.

(** The number of bytes [h64_byte_hash] reads for a length [len] it
    accepts: [len] itself, or [len & 7] for a negative [len]. *)
Lemma byte_hash_split len :
  - 8 < len ->
  Z.quot len 8 = (if len <? 0 then 0 else len / 8) /\
  Z.of_nat (8 * Z.to_nat (Z.quot len 8)) + Z.of_nat (Z.to_nat (Z.land len 7))
  = (if len <? 0 then Z.land len 7 else len) /\
  (Z.to_nat (Z.land len 7) < 8)%nat.
Proof.
  intros H. rewrite !land_7_mod.
  pose proof (Z.div_mod len 8 ltac:(lia)) as E.
  pose proof (Z.mod_pos_bound len 8 ltac:(lia)) as B.
  destruct (Z.ltb_spec len 0) as [Hneg|Hpos].
  - assert (Eq : Z.quot len 8 = 0).
    { replace len with (- (- len)) by lia. rewrite Z.quot_opp_l by lia.
      rewrite Z.quot_small by lia. reflexivity. }
    rewrite Eq. split; [reflexivity|].
    assert (Ed : len / 8 = -1).
    { symmetry. apply (Z.div_unique len 8 (-1) (len + 8)); lia. }
    split; lia.
  - rewrite Z.quot_div_nonneg by lia.
    pose proof (Z.div_pos len 8 Hpos ltac:(lia)) as D.
    split; [reflexivity|]. split; lia.
Qed.

(** From [-8] down [len / 8] is negative. *)
Lemma byte_hash_quot_neg len : len <= - 8 -> Z.quot len 8 < 0.
Proof.
  intros H. replace len with (- (- len)) by lia. rewrite Z.quot_opp_l by lia.
  assert (1 <= Z.quot (- len) 8); [|lia].
  rewrite Z.quot_div_nonneg by lia. apply Z.div_le_lower_bound; lia.
Qed.

(** The lengths [h64_byte_hash] accepts. *)
Lemma byte_hash_guard len :
  (len <? - 2 ^ 31) || (2 ^ 31 <=? len) || (Z.quot len 8 <? 0) = false <->
  - 8 < len < 2 ^ 31.
Proof.
  split.
  - intros H. apply orb_false_iff in H as [H H3].
    apply orb_false_iff in H as [H1 H2].
    apply Z.ltb_ge in H1, H3. apply Z.leb_gt in H2.
    split; [|exact H2].
    destruct (Z_lt_ge_dec (- 8) len) as [?|Hle]; [assumption|].
    pose proof (byte_hash_quot_neg len ltac:(lia)). lia.
  - intros H. destruct (byte_hash_split len ltac:(lia)) as (Eq & _).
    rewrite Eq.
    assert (0 <= (if len <? 0 then 0 else len / 8)).
    { destruct (Z.ltb_spec len 0); [lia|]. apply Z.div_pos; lia. }
    apply orb_false_iff. split; [apply orb_false_iff; split|].
    + apply Z.ltb_ge. assert (- 2 ^ 31 < - 8) by reflexivity. lia.
    + apply Z.leb_gt. lia.
    + apply Z.ltb_ge. assumption.
Qed.

Lemma byte_hash_words_prefix n :
  forall data h (m : nat),
    (8 * n <= m)%nat -> (8 * n <= length data)%nat ->
    exists h',
      byte_hash_words n data h = Some (h', drop (8 * n) data) /\
      byte_hash_words n (take m data) h
      = Some (h', drop (8 * n) (take m data)).
Proof.
  induction n as [|n IH]; intros data h m Hm Hlen.
  - exists h. rewrite Nat.mul_0_r, !drop_0. split; reflexivity.
  - cbn [byte_hash_words]. unfold load64.
    rewrite length_take.
    destruct (Nat.ltb_spec (length data) 8) as [?|_]; [lia|].
    destruct (Nat.ltb_spec (m `min` length data) 8) as [?|_]; [lia|].
    rewrite take_take. replace (8 `min` m)%nat with 8%nat by lia.
    destruct (IH (drop 8 data) (byte_hash_round h (le_bytes (take 8 data)))
                (m - 8)%nat ltac:(lia) ltac:(rewrite length_drop; lia))
      as (h' & E1 & E2).
    exists h'. replace (8 * S n)%nat with (8 + 8 * n)%nat by lia.
    rewrite <- !drop_drop. split; [exact E1|].
    assert (Ed : drop 8 (take m data) = take (m - 8) (drop 8 data)).
    { rewrite take_drop_commute. do 2 f_equal. lia. }
    rewrite Ed. exact E2.
Qed.

Lemma byte_hash_tail_ext t :
  forall d1 d2 h,
    (forall i : nat, (i < t)%nat -> d1 !! i = d2 !! i) ->
    byte_hash_tail t d1 h = byte_hash_tail t d2 h.
Proof.
  induction t as [|t IH]; intros d1 d2 h H; [reflexivity|].
  cbn [byte_hash_tail]. rewrite (H t ltac:(lia)).
  destruct (d2 !! t) as [b|]; [|reflexivity].
  destruct t as [|t']; [reflexivity|].
  apply IH. intros i Hi. apply H. lia.
Qed.

Lemma h64_byte_hash_defined key len seed :
  (exists v, h64_byte_hash key len seed = Some v) <->
  - 8 < len < 2 ^ 31 /\
  (if len <? 0 then Z.land len 7 else len) <= Z.of_nat (length key).
Proof.
  unfold h64_byte_hash.
  destruct ((len <? - 2 ^ 31) || (2 ^ 31 <=? len) || (Z.quot len 8 <? 0))
    eqn:Hg.
  { split; [intros (v & E); discriminate E|].
    intros [Hl _]. apply byte_hash_guard in Hl. congruence. }
  apply byte_hash_guard in Hg.
  destruct (byte_hash_split len ltac:(lia)) as (_ & Esplit & Ht).
  set (n := Z.to_nat (Z.quot len 8)) in *.
  set (t := Z.to_nat (Z.land len 7)) in *.
  set (h0 := Z.lxor seed (u64 (len * byte_hash_m))).
  split.
  - intros (v & E). split; [exact Hg|].
    destruct (byte_hash_words n key h0) as [[h1 d2]|] eqn:Ew; [|discriminate E].
    destruct (byte_hash_words_data n key h0 h1 d2 Ew) as [-> Hn].
    destruct (byte_hash_tail t (drop (8 * n) key) h1) as [h2|] eqn:Et;
      [|discriminate E].
    assert (Hlt : (t <= length (drop (8 * n) key))%nat).
    { apply (byte_hash_tail_Some t _ h1). eauto. }
    rewrite length_drop in Hlt. lia.
  - intros [_ Hlen].
    destruct (proj1 (byte_hash_words_Some n key h0) ltac:(lia)) as (h1 & Ew).
    rewrite Ew.
    destruct (proj1 (byte_hash_tail_Some t (drop (8 * n) key) h1)
                ltac:(rewrite length_drop; lia)) as (h2 & Et).
    rewrite Et. eauto.
Qed.

Lemma h64_byte_hash_take key len seed :
  (if len <? 0 then Z.land len 7 else len) <= Z.of_nat (length key) ->
  h64_byte_hash
    (take (Z.to_nat (if len <? 0 then Z.land len 7 else len)) key) len seed
  = h64_byte_hash key len seed.
Proof.
  intros Hlen. unfold h64_byte_hash.
  destruct ((len <? - 2 ^ 31) || (2 ^ 31 <=? len) || (Z.quot len 8 <? 0))
    eqn:Hg; [reflexivity|].
  apply byte_hash_guard in Hg.
  destruct (byte_hash_split len ltac:(lia)) as (_ & Esplit & Ht).
  set (n := Z.to_nat (Z.quot len 8)) in *.
  set (t := Z.to_nat (Z.land len 7)) in *.
  set (r := Z.to_nat (if len <? 0 then Z.land len 7 else len)).
  assert (Er : r = (8 * n + t)%nat) by (unfold r; lia).
  set (h0 := Z.lxor seed (u64 (len * byte_hash_m))).
  destruct (byte_hash_words_prefix n key h0 r ltac:(lia) ltac:(lia))
    as (h1 & E1 & E2).
  rewrite E1, E2.
  rewrite (byte_hash_tail_ext t (drop (8 * n) (take r key))
             (drop (8 * n) key) h1); [reflexivity|].
  intros i Hi. rewrite !lookup_drop. apply lookup_take_lt. lia.
Qed.

(** For a length that is not negative [len / 8] and [len & 7] are the
    quotient and the remainder. *)
Lemma h64_byte_hash_nonneg key len seed :
  0 <= len ->
  h64_byte_hash key len seed
  = if 2 ^ 31 <=? len then None
    else
      match byte_hash_words (Z.to_nat (len / 8)) key
              (Z.lxor seed (u64 (len * byte_hash_m))) with
      | None => None
      | Some (h, data2) =>
        match byte_hash_tail (Z.to_nat (Z.land len 7)) data2 h with
        | None => None
        | Some h =>
          let h := Z.lxor h (Z.shiftr h byte_hash_r) in
          let h := u64 (h * byte_hash_m) in
          let h := Z.lxor h (Z.shiftr h byte_hash_r) in
          Some h
        end
      end.
Proof.
  intros H. unfold h64_byte_hash.
  assert (Eq : Z.quot len 8 = len / 8) by (apply Z.quot_div_nonneg; lia).
  rewrite Eq.
  assert (Hd : 0 <= len / 8) by (apply Z.div_pos; lia).
  assert (H31 : - 2 ^ 31 < 0) by reflexivity.
  destruct (Z.ltb_spec len (- 2 ^ 31)); [lia|].
  destruct (Z.ltb_spec (len / 8) 0); [lia|].
  rewrite orb_false_r. reflexivity.
Qed.

(** ** Tables in which no group has been full *)

Lemma never_full_pristine h : never_full h -> pristine h.
Proof. intros Hn pos g Eg Hw. rewrite (Hn pos g Eg) in Hw. discriminate Hw. Qed.

Lemma occupancy_le_sum h gs (pos : nat) group :
  (forall p g, gs !! p = Some g -> group_wf h g) ->
  gs !! pos = Some group -> occupancy group <= occupancy_sum gs.
Proof.
  revert pos. induction gs as [|g gs IH]; intros pos W E; [discriminate E|].
  cbn [occupancy_sum foldr]. fold (occupancy_sum gs).
  assert (Hs : 0 <= occupancy_sum gs).
  { clear -W. induction gs as [|g' gs IH]; [cbn; lia|].
    cbn [occupancy_sum foldr]. fold (occupancy_sum gs).
    pose proof (occupancy_range h g' (W 1%nat g' eq_refl)).
    assert (0 <= occupancy_sum gs); [|lia].
    apply IH. intros [|p] g0 E0.
    - apply (W 0%nat g0 E0).
    - apply (W (S (S p)) g0 E0). }
  pose proof (occupancy_range h g (W 0%nat g eq_refl)).
  destruct pos as [|pos].
  - inversion E; subst. lia.
  - assert (occupancy group <= occupancy_sum gs); [|lia].
    apply (IH pos); [|exact E]. intros p g0 E0. apply (W (S p) g0 E0).
Qed.

Lemma small_never_full h :
  table_wf h -> pristine h -> count h < 7 -> never_full h.
Proof.
  intros W P Hc pos g Eg.
  destruct (wf_was_full_cases h g pos W Eg) as [C|C]; [exact C|exfalso].
  pose proof (P pos g Eg C) as F.
  apply (occupancy_full h g (wf_groups h W pos g Eg)) in F.
  pose proof (occupancy_le_sum h (groups h) pos g (wf_groups h W) Eg) as Hle.
  rewrite <- (wf_count h W) in Hle. lia.
Qed.

(** At four groups [h64_erase] never halves the table, so it never
    allocates. *)
Lemma h64_erase_small_heap fuel h probe hp r hp' hp1 :
  table_wf h -> size_in_groups h <= 4 ->
  h64_erase fuel h probe hp = Ok (r, hp') ->
  h64_erase fuel h probe hp1 = Ok (r, hp1).
Proof.
  intros W Hs H. rewrite h64_erase_unfold in H |- *.
  apply bind_Ok in H as (r0 & hp2 & Hf & H).
  apply lift_Ok in Hf as [Hf ->].
  unfold bind at 1. unfold lift at 1. rewrite Hf. cbn [rbind].
  destruct (fr_found r0) eqn:Efound.
  - destruct (find_entry_found h probe fuel r0 W Hf Efound)
      as (pos & idx & g & y & -> & Hidx & Eg & Ex & _).
    apply bind_Ok in H as (eh & hp2 & He & H).
    unfold bind at 1. unfold lift at 1.
    rewrite (erase_at_ok h pos g idx y Eg Hidx Ex) in He |- *.
    apply lift_Ok in He as [He ->]. inversion He; subst eh. clear He.
    cbn [rbind fst snd] in H |- *.
    rewrite should_grow_down_eq in H |- *.
    cbn [size_in_groups with_count with_groups] in H |- *.
    replace (4 <? size_in_groups h) with false in H |- *
      by (symmetry; apply Z.ltb_ge; exact Hs).
    rewrite andb_false_r in H |- *.
    unfold bind, ret in H |- *. inversion H; subst. reflexivity.
  - unfold ret in H |- *. inversion H; subst. reflexivity.
Qed.

Section SmallTable.

Variables hs eq : Z -> Z -> Z.
Hypothesis C : callbacks_ok hs eq.

Lemma small_table_count h l :
  small_table hs eq h l -> count h = Z.of_nat (length l).
Proof.
  intros S. rewrite (wf_count_length h (st_wf _ _ _ _ S)).
  rewrite (Permutation_length (st_entries _ _ _ _ S)). reflexivity.
Qed.

Lemma small_table_unique h l : small_table hs eq h l -> unique_keys h.
Proof.
  intros S. unfold unique_keys. rewrite (st_equals _ _ _ _ S).
  apply (distinct_keys_perm hs eq C l); [|apply (st_distinct _ _ _ _ S)].
  symmetry. apply (st_entries _ _ _ _ S).
Qed.

Lemma small_table_callbacks h l :
  small_table hs eq h l -> callbacks_ok (hasher h) (equals h).
Proof.
  intros S. rewrite (st_hasher _ _ _ _ S), (st_equals _ _ _ _ S). exact C.
Qed.

Lemma small_find_present h l probe x (fuel : nat) :
  small_table hs eq h l -> x ∈ l -> eq probe x <> 0 -> (4 <= fuel)%nat ->
  h64_find fuel h probe = Ok x.
Proof.
  intros S Hx Heq Hfuel.
  destruct (h64_find_present h probe x (st_wf _ _ _ _ S)
              (small_table_callbacks h l S) (small_table_unique h l S))
    as (j & Hj & Hrun).
  - rewrite (st_entries _ _ _ _ S). exact Hx.
  - apply h64_equals_true. rewrite (st_equals _ _ _ _ S). exact Heq.
  - apply Hrun. rewrite (st_size _ _ _ _ S) in Hj. lia.
Qed.

Lemma small_find_absent h l probe (fuel : nat) :
  small_table hs eq h l -> (forall x, x ∈ l -> eq probe x = 0) ->
  (4 <= fuel)%nat ->
  h64_find fuel h probe = Ok NULL.
Proof.
  intros S Ha Hfuel. pose proof (st_wf _ _ _ _ S) as W.
  destruct (h64_find_total_pristine h probe W
              (never_full_pristine h (st_never_full _ _ _ _ S))) as (x & Hrun).
  rewrite (Hrun fuel) by (rewrite (st_size _ _ _ _ S); lia).
  f_equal. destruct (Z.eq_dec x NULL) as [E|Hne]; [exact E|exfalso].
  destruct (h64_find_sound h probe fuel x W) as [Hin Heq];
    [apply Hrun; rewrite (st_size _ _ _ _ S); lia|exact Hne|].
  apply Heq. rewrite (st_equals _ _ _ _ S). apply Ha.
  rewrite <- (st_entries _ _ _ _ S). exact Hin.
Qed.

Lemma max_count_4 : max_count 4 = 18.
Proof. vm_compute. reflexivity. Qed.

Lemma small_insert h l entry (fuel : nat) hp :
  small_table hs eq h l -> entry <> NULL -> (length l <= 5)%nat ->
  (4 <= fuel)%nat ->
  exists h',
    h64_insert fuel h entry hp = Ok (h', hp) /\
    ((forall x, x ∈ l -> eq entry x = 0) -> small_table hs eq h' (entry :: l)) /\
    (entry ∈ l -> small_table hs eq h' l).
Proof.
  intros S Hne Hlen Hfuel. pose proof (st_wf _ _ _ _ S) as W.
  pose proof (small_table_count h l S) as Ec.
  pose proof (never_full_pristine h (st_never_full _ _ _ _ S)) as P.
  assert (Hroom : count h <= max_count (size_in_groups h)).
  { rewrite (st_size _ _ _ _ S), max_count_4. lia. }
  destruct (h64_insert_total h entry W P Hroom Hne)
    as (h' & Hrun & W' & P' & Ez & Ec').
  exists h'.
  pose proof (Hrun fuel hp ltac:(rewrite (st_size _ _ _ _ S); lia)) as H.
  split; [exact H|].
  destruct (h64_insert_inv fuel h entry hp h' hp W Hne H)
    as (h1 & Hg & W1 & Ec1 & Hroom1 & Hcase).
  destruct Hg as [(_ & -> & _)|(Eg & _)].
  2:{ rewrite should_grow_up_eq in Eg. apply Z.ltb_lt in Eg. lia. }
  assert (Hfields : hasher h' = hs /\ equals h' = eq).
  { destruct Hcase as [Ho|[Hi _]].
    - destruct (overwritten_fields h entry h' Ho) as (-> & -> & _).
      split; [apply (st_hasher _ _ _ _ S)|apply (st_equals _ _ _ _ S)].
    - destruct (installed_fields h entry h' Hi) as (-> & -> & _).
      split; [apply (st_hasher _ _ _ _ S)|apply (st_equals _ _ _ _ S)]. }
  destruct Hfields as [Eh' Ee'].
  assert (Hnf : never_full h').
  { apply (small_never_full h' W' P'). lia. }
  split.
  - intros Ha.
    destruct (h64_insert_absent fuel h entry hp h' hp W Hne) as [Hp _];
      [|exact H|].
    { intros x Hx. rewrite (st_equals _ _ _ _ S). apply Ha.
      rewrite <- (st_entries _ _ _ _ S). exact Hx. }
    constructor; try assumption.
    + rewrite Ez. apply (st_size _ _ _ _ S).
    + rewrite Hp, (st_entries _ _ _ _ S). reflexivity.
    + cbn [distinct_keys]. split; [|apply (st_distinct _ _ _ _ S)].
      apply Forall_forall. exact Ha.
  - intros Hin.
    assert (Hin' : entry ∈ h64_for_each h)
      by (rewrite (st_entries _ _ _ _ S); exact Hin).
    destruct Hcase as [Ho|[_ Habs]].
    + destruct (overwritten_for_each h entry h' W Hne Ho)
        as (l1 & l2 & x & E1 & E2 & Heq).
      assert (x = entry).
      { apply (distinct_keys_unique hs eq C (h64_for_each h)).
        - pose proof (small_table_unique h l S) as U. unfold unique_keys in U.
          rewrite (st_equals _ _ _ _ S) in U. exact U.
        - rewrite E1. apply elem_of_app. right. left.
        - exact Hin'.
        - apply (equals_sym hs eq C). apply h64_equals_true in Heq.
          rewrite (st_equals _ _ _ _ S) in Heq. exact Heq. }
      subst x. constructor; try assumption.
      * rewrite Ez. apply (st_size _ _ _ _ S).
      * rewrite E2, <- E1. apply (st_entries _ _ _ _ S).
      * apply (st_distinct _ _ _ _ S).
    + exfalso. apply (equals_refl hs eq C entry).
      rewrite <- (st_equals _ _ _ _ S).
      apply (absent_for_each h entry W); [|exact Hin'].
      apply Habs, (small_table_callbacks h l S).
Qed.

Lemma small_erase h l l' probe x (fuel : nat) hp :
  small_table hs eq h l -> l ≡ₚ x :: l' -> eq probe x <> 0 ->
  (4 < fuel)%nat ->
  exists h',
    h64_erase fuel h probe hp = Ok ((x, h'), hp) /\ small_table hs eq h' l'.
Proof.
  intros S Hl Heq Hfuel. pose proof (st_wf _ _ _ _ S) as W.
  pose proof (never_full_pristine h (st_never_full _ _ _ _ S)) as P.
  assert (Hin : x ∈ h64_for_each h).
  { rewrite (st_entries _ _ _ _ S), Hl. left. }
  destruct (h64_erase_total_pristine h probe 0 W P) as (x0 & h' & Hrun).
  destruct (Hrun fuel [] ltac:(rewrite (st_size _ _ _ _ S); lia))
    as (hp0 & H0 & _).
  pose proof (h64_erase_small_heap fuel h probe _ _ _ hp W
                ltac:(rewrite (st_size _ _ _ _ S); lia) H0) as H.
  clear H0 Hrun hp0.
  destruct (h64_erase_inv fuel h probe _ x0 h' _ W H)
    as [(_ & _ & _ & Habs)|(h1 & Her & Hg)].
  { exfalso. apply Heq. rewrite <- (st_equals _ _ _ _ S).
    apply (absent_for_each h probe W); [|exact Hin].
    apply Habs, (small_table_callbacks h l S). }
  destruct (erased_fields h probe x0 h1 Her) as (Eh1 & Ee1 & _ & Ez1 & Ec1).
  assert (Hnd : h64_should_grow_down h1 = false).
  { rewrite should_grow_down_eq, Ez1, (st_size _ _ _ _ S).
    apply andb_false_r. }
  destruct Hg as [(_ & -> & _)|(Ed & _)]; [|congruence].
  assert (Hx0 : x0 = x).
  { destruct (h64_erase_effect fuel h probe _ x0 h1 _ W H)
      as [(Hnull & _)|(_ & Heq0 & _ & _ & _ & _ & l1 & l2 & E1 & _)].
    - destruct Her as (_ & _ & _ & _ & _ & _ & Hx0 & _). contradiction.
    - pose proof (small_table_unique h l S) as U. unfold unique_keys in U.
      rewrite (st_equals _ _ _ _ S) in U, Heq0.
      apply (distinct_keys_unique hs eq C (h64_for_each h) x0 x U).
      + rewrite E1. apply elem_of_app. right. left.
      + exact Hin.
      + apply (equals_trans hs eq C x0 probe x); [|exact Heq].
        apply (equals_sym hs eq C), Heq0. }
  subst x0. exists h1. split; [exact H|].
  destruct (erased_for_each h probe x h1 W Her) as (l1 & l2 & E1 & E2).
  constructor.
  - apply (erased_wf h probe x h1 W Her).
  - rewrite Eh1. apply (st_hasher _ _ _ _ S).
  - rewrite Ee1. apply (st_equals _ _ _ _ S).
  - destruct Her as (pos & idx & g & Eg & Hidx & _ & _ & _ & _ & ->).
    intros pos' g' E'. unfold table_update in E'. simpl in E'.
    destruct (decide (pos = pos')) as [<-|Hne].
    + rewrite list_lookup_insert_eq in E'
        by (apply lookup_lt_Some in Eg; exact Eg).
      inversion E'; subst g'.
      rewrite (group_after_erase_was_full h g idx (wf_groups h W _ _ Eg) Hidx).
      apply (st_never_full _ _ _ _ S pos g Eg).
    + rewrite list_lookup_insert_ne in E' by exact Hne.
      apply (st_never_full _ _ _ _ S pos' g' E').
  - rewrite Ez1. apply (st_size _ _ _ _ S).
  - rewrite E2. apply (Permutation_cons_inv (a := x)).
    rewrite Permutation_middle, <- E1, (st_entries _ _ _ _ S). exact Hl.
  - pose proof (st_distinct _ _ _ _ S) as D.
    apply (distinct_keys_perm hs eq C l (x :: l') Hl) in D.
    apply D.
Qed.

End SmallTable.

(** ** Running [general_test] statement by statement *)

Lemma bind_run {A B : Type} (m : M A) (k : A -> M B) hp a hp' :
  m hp = Ok (a, hp') -> bind m k hp = k a hp'.
Proof. intros E. unfold bind. rewrite E. reflexivity. Qed.

Lemma bind_lift_run {A B : Type} (r : result A) (k : A -> M B) hp a :
  r = Ok a -> bind (lift r) k hp = k a hp.
Proof. intros ->. reflexivity. Qed.

Lemma bind_assert_that {B : Type} (cond : bool) (k : unit -> M B) hp :
  cond = true -> bind (assert_that cond) k hp = k tt hp.
Proof. intros ->. reflexivity. Qed.

Lemma created_small_table hs eq addr :
  small_table hs eq (fresh_table 4 hs eq addr) [].
Proof.
  constructor.
  - apply created_wf.
  - reflexivity.
  - reflexivity.
  - intros pos g E. unfold fresh_table in E. cbn [groups] in E.
    apply lookup_replicate in E as [-> _]. reflexivity.
  - reflexivity.
  - rewrite fresh_table_for_each by reflexivity. reflexivity.
  - exact I.
Qed.

Lemma h64_create_run hs eq a0 addr hp :
  h64_create hs eq (a0 :: addr :: hp) = Ok (fresh_table 4 hs eq addr, hp).
Proof. reflexivity. Qed.

(** The callbacks of the test keep the contract whatever the strings. *)
Lemma str_callbacks_ok mem : callbacks_ok (str_hash mem) (str_equals mem).
Proof.
  constructor; unfold str_equals, str_hash.
  - intros a. rewrite bool_decide_eq_true_2 by reflexivity. discriminate.
  - intros a b H. destruct (decide (mem a = mem b)) as [E|Hne].
    + rewrite bool_decide_eq_true_2 by (symmetry; exact E). discriminate.
    + rewrite bool_decide_eq_false_2 in H by exact Hne. contradiction.
  - intros a b c H1 H2.
    destruct (decide (mem a = mem b)) as [E1|Hne];
      [|rewrite bool_decide_eq_false_2 in H1 by exact Hne; contradiction].
    destruct (decide (mem b = mem c)) as [E2|Hne];
      [|rewrite bool_decide_eq_false_2 in H2 by exact Hne; contradiction].
    rewrite bool_decide_eq_true_2 by congruence. discriminate.
  - intros a b s H.
    destruct (decide (mem a = mem b)) as [E|Hne];
      [|rewrite bool_decide_eq_false_2 in H by exact Hne; contradiction].
    rewrite E. reflexivity.
Qed.

(** ** Upsert into a table that has to grow *)

(** The upsert of an element equal to a stored [x] when the load check
    asks for growth: the call returns, given the array of the doubled
    size; the table has twice the groups and holds [entry] in the place
    of [x]. *)
Lemma upsert_after_growth h entry x addr :
  table_wf h -> callbacks_ok (hasher h) (equals h) -> unique_keys h ->
  x ∈ h64_for_each h -> entry <> NULL -> equals h entry x <> 0 ->
  h64_should_grow_up h = true -> 2 * size_in_groups h * 64 < 2 ^ 64 ->
  exists h',
    (forall (fuel : nat) hp, (Z.to_nat (2 * size_in_groups h) < fuel)%nat ->
       h64_insert fuel h entry (addr :: hp) = Ok (h', hp)) /\
    size_in_groups h' = 2 * size_in_groups h /\
    count h' = count h /\
    exists l1 l2,
      h64_for_each h ≡ₚ l1 ++ x :: l2 /\
      h64_for_each h' = l1 ++ entry :: l2.
Proof.
  intros W C U Hx Hne Heq Eg Hfit.
  destruct (grow_up_total h addr W Hfit) as (h1 & Hrun1).
  pose proof (Hrun1 (S (Z.to_nat (2 * size_in_groups h))) [] ltac:(lia)) as H1.
  pose proof (h64_resize_spec _ h _ _ h1 _ W (u64_range _)
                (or_introl (grow_up_non_empty h W Eg)) H1) as R.
  destruct (grow_up_exact h _ _ h1 _ W eq_refl R) as (Es & Ec & Hroom).
  pose proof (rs_wf _ _ _ _ _ R) as W1.
  pose proof (unique_keys_resized h _ _ h1 _ C R U) as U1.
  assert (C1 : callbacks_ok (hasher h1) (equals h1)).
  { rewrite (rs_hasher _ _ _ _ _ R), (rs_equals _ _ _ _ _ R). exact C. }
  assert (Hx1 : x ∈ h64_for_each h1).
  { rewrite (rs_for_each _ _ _ _ _ R). exact Hx. }
  assert (Heq1 : equals h1 entry x <> 0).
  { rewrite (rs_equals _ _ _ _ _ R). exact Heq. }
  assert (Hng : h64_should_grow_up h1 = false).
  { rewrite should_grow_up_eq. apply Z.ltb_ge. exact Hroom. }
  destruct (h64_insert_in_place h1 entry x W1 C1 U1 Hx1 Hne Heq1 Hng)
    as (j & pos & idx & g & Hj & Eg1 & Hidx & Ex & Hrun).
  set (h' := table_update h1 pos (group_after_update g entry idx) (count h1))
    in *.
  exists h'. split; [|split; [|split]].
  - intros fuel hp Hfuel. rewrite h64_insert_unfold, Eg.
    rewrite (bind_of_Ok _ _ _ _ _ (Hrun1 fuel hp Hfuel)).
    transitivity (h64_insert fuel h1 entry hp).
    + rewrite (h64_insert_unfold fuel h1), Hng. reflexivity.
    + apply Hrun. lia.
  - exact Es.
  - exact Ec.
  - pose proof (Hrun (S j) [] ltac:(lia)) as H.
    destruct (h64_insert_inv _ h1 entry [] h' [] W1 Hne H)
      as (h0 & Hg & W0 & _ & _ & Hcase).
    destruct Hg as [(_ & -> & _)|(Eg' & _)]; [|congruence].
    destruct Hcase as [Ho|[_ Ha]].
    + destruct (overwritten_for_each h1 entry h' W1 Hne Ho)
        as (l1 & l2 & y & E1 & E2 & Hy).
      assert (y = x).
      { apply (distinct_keys_unique (hasher h1) (equals h1) C1
                 (h64_for_each h1) y x U1).
        - rewrite E1. apply elem_of_app. right. left.
        - exact Hx1.
        - apply h64_equals_true in Hy.
          apply (equals_trans _ _ C1 y entry x); [|exact Heq1].
          apply (equals_sym _ _ C1), Hy. }
      subst y. exists l1, l2. split; [|exact E2].
      rewrite <- E1. symmetry. apply (rs_for_each _ _ _ _ _ R).
    + exfalso. apply Heq1.
      apply (absent_for_each h1 entry W1 (Ha C1) x Hx1).
Qed.

(** ** [h64_reserve] on a table whose elements fit the reserved size *)

Lemma reserve_size_room n :
  0 <= n -> reserve_total n < 2 ^ 64 ->
  Z.max 4 (reserve_size n) * 64 < 2 ^ 64 ->
  is_power_of_2 (reserve_size n) = true /\
  n <= max_count (Z.max 4 (reserve_size n)).
Proof.
  intros Hn Ht Hfit.
  destruct (reserve_size_facts n Hn Ht) as (k0 & Hk0 & E0 & _).
  assert (Hp : is_power_of_2 (reserve_size n) = true).
  { rewrite E0. apply (is_power_of_2_pow2 k0 Hk0). }
  split; [exact Hp|].
  destruct (table_size_pow2 _ Hp Hfit) as (k & Hk & Ek).
  rewrite Ek. apply (reserve_room n k Hn Ht Ek Hk).
Qed.

Lemma reserve_returns h n addr :
  table_wf h -> 0 <= n -> reserve_total n < 2 ^ 64 ->
  Z.max 4 (reserve_size n) * 64 < 2 ^ 64 ->
  count h <= max_count (Z.max 4 (reserve_size n)) + 1 ->
  exists h1,
    forall (fuel : nat) hp,
      (Z.to_nat (Z.max 4 (reserve_size n)) < fuel)%nat ->
      h64_reserve fuel h n (addr :: hp) = Ok (h1, hp).
Proof.
  intros W Hn Ht Hfit Hroom.
  destruct (reserve_size_room n Hn Ht Hfit) as [Hp _].
  destruct (resize_total h (reserve_size n) addr W Hp Hfit Hroom)
    as (h1 & Hrun).
  exists h1. intros fuel hp Hfuel. rewrite h64_reserve_unfold.
  destruct (Z.leb_spec (2 ^ 64) (reserve_total n)); [lia|].
  apply Hrun, Hfuel.
Qed.

Lemma reserve_with_room_inv fuel h n hp h1 hp1 :
  table_wf h ->
  Z.max 4 (reserve_size n) * 64 < 2 ^ 64 ->
  count h <= max_count (Z.max 4 (reserve_size n)) + 1 ->
  h64_reserve fuel h n hp = Ok (h1, hp1) ->
  table_wf h1 /\ pristine h1 /\
  size_in_groups h1 = Z.max 4 (reserve_size n) /\ count h1 = count h /\
  h64_for_each h1 ≡ₚ h64_for_each h.
Proof.
  intros W Hfit Hroom H.
  pose proof (h64_reserve_inv fuel h n hp h1 hp1 W (or_intror Hfit) H) as R.
  destruct (rs_exact _ _ _ _ _ R Hroom) as (Es & _).
  split; [apply (rs_wf _ _ _ _ _ R)|]. split; [apply (rs_pristine _ _ _ _ _ R)|].
  split; [exact Es|]. split.
  - apply (wf_count_perm h h1 W (rs_wf _ _ _ _ _ R) (rs_for_each _ _ _ _ _ R)).
  - apply (rs_for_each _ _ _ _ _ R).
Qed.

(** * The properties of the specification *)

Lemma iter_ps_next s m (j : nat) :
  Z.of_nat j < 2 ^ 64 ->
  Nat.iter j ps_next {| start := s; iteration := 0; size_mask := m |}
  = {| start := s; iteration := Z.of_nat j; size_mask := m |}.
Proof.
  induction j as [|j IH]; intros Hj; [reflexivity|].
  rewrite Nat.iter_succ, IH by lia. unfold ps_next.
  cbn [start iteration size_mask].
  rewrite u64_small by lia. f_equal. lia.
Qed.

(** C2.  For a table of [2 ^ k] groups, [k <= 63] as the size is a
    [size_t], and every hash, the probe sequence [ps_init] makes starts
    at [hash & (2 ^ k - 1)]; after [j] calls of [ps_next], [ps_position]
    answers [(start + j * (j + 1) / 2) & (2 ^ k - 1)]; and the positions
    after 0, 1, ..., [2 ^ k - 1] calls are a permutation of the group
    positions [0 .. 2 ^ k - 1]: each group is visited exactly once in
    the first round. *)
Theorem probe_sequence_visits_each_group_once k hash :
  0 <= k <= 63 ->
  (forall j : nat,
     Z.of_nat j < 2 ^ k ->
     ps_position (Nat.iter j ps_next (ps_init hash (2 ^ k)))
     = Z.land (start (ps_init hash (2 ^ k))
               + Z.of_nat j * (Z.of_nat j + 1) / 2) (2 ^ k - 1)) /\
  start (ps_init hash (2 ^ k)) = Z.land hash (2 ^ k - 1) /\
  (fun j : nat =>
     ps_position (Nat.iter j ps_next (ps_init hash (2 ^ k))))
    <$> seq 0 (Z.to_nat (2 ^ k))
  ≡ₚ seqZ 0 (2 ^ k).
Proof.
  intros Hk.
  assert (Hb : 2 ^ k <= 2 ^ 63) by (apply pow2_le_mono; lia).
  assert (H63 : 2 ^ 63 < 2 ^ 64 - 1) by reflexivity.
  assert (Hpos : forall j : nat,
             Z.of_nat j < 2 ^ k ->
             ps_position (Nat.iter j ps_next (ps_init hash (2 ^ k)))
             = (Z.land hash (2 ^ k - 1) + tri (Z.of_nat j)) mod 2 ^ k).
  { intros j Hj. unfold ps_init.
    rewrite iter_ps_next, size_mask_pow2 by lia.
    apply ps_position_tri; lia. }
  split; [|split].
  - intros j Hj. rewrite (Hpos j Hj). unfold ps_init. cbn [start].
    rewrite size_mask_pow2 by lia. rewrite (land_mask (_ + _)) by lia.
    reflexivity.
  - unfold ps_init. cbn [start]. rewrite size_mask_pow2 by lia. reflexivity.
  - rewrite <- (probe_positions_perm k (Z.land hash (2 ^ k - 1))) by lia.
    unfold seqZ at 1. rewrite <- list_fmap_compose.
    match goal with
    | |- ?a ≡ₚ ?b => replace a with b; [reflexivity|]
    end.
    apply list_fmap_ext.
    intros i j Hj. apply lookup_seq in Hj as [-> Hj]. cbn [Nat.add].
    unfold compose. rewrite (Hpos i) by lia. f_equal. f_equal. f_equal. lia.
Qed.

Lemma probe_sequence_visits_each_group_once_witness :
  0 <= 3 <= 63 /\
  (fun j : nat => ps_position (Nat.iter j ps_next (ps_init 13 (2 ^ 3))))
    <$> seq 0 (Z.to_nat (2 ^ 3))
  ≡ₚ seqZ 0 (2 ^ 3).
Proof.
  split; [lia|].
  apply (probe_sequence_visits_each_group_once 3 13). lia.
Defined.

(** C3.  Erase-at-index on a valid slot returns the element the slot held
    and clears the entry, the hint byte and the presence bit of that slot;
    the other slots, the other presence bits and the was-full bit stay as
    they were.  Consequently an operation of a reachable table that did
    not rehash (it took nothing from the allocator) leaves every was-full
    bit that was set, set. *)
Theorem erase_at_index_keeps_was_full
    group idx entry hs eq tr h o fuel hp h' :
  0 <= idx < 7 ->
  0 <= status group < 256 ->
  entries group !! Z.to_nat idx = Some entry ->
  reachable false hs eq tr h ->
  op_valid false h o ->
  run_op fuel o h hp = Ok (h', hp) ->
  (exists group',
     group_erase_entry group idx = Ok (entry, group') /\
     entries group' = <[Z.to_nat idx := NULL]> (entries group) /\
     hints group' = <[Z.to_nat idx := 0]> (hints group) /\
     Z.testbit (status group') idx = false /\
     (forall j, 0 <= j < 8 -> j <> idx ->
        Z.testbit (status group') j = Z.testbit (status group) j) /\
     group_was_full group' = group_was_full group) /\
  (forall pos, was_full_at h pos -> was_full_at h' pos).
Proof.
  intros Hidx Hs E Hr Hv Hrun. split.
  - exists (group_after_erase group idx).
    split; [apply group_erase_ok; assumption|].
    split; [reflexivity|]. split; [reflexivity|].
    cbn [status group_after_erase]. split; [|split].
    + rewrite status_erase_other_bits by lia.
      rewrite Z.eqb_refl. reflexivity.
    + intros j Hj Hne. rewrite status_erase_other_bits by lia.
      destruct (Z.eqb_spec j idx); [contradiction|reflexivity].
    + unfold group_was_full. cbn [status group_after_erase].
      apply (status_erase_facts (status group) idx Hs Hidx).
  - intros pos.
    apply (run_op_was_full false fuel o h hp h' pos); try assumption.
    apply (reachable_run_wf false hs eq tr h fuel o hp (h', hp) Hr Hrun).
Qed.

Lemma erase_at_index_keeps_was_full_witness :
  exists group',
    group_erase_entry
      {| status := 0x81; hints := [9; 0; 0; 0; 0; 0; 0];
         entries := [1; 0; 0; 0; 0; 0; 0] |} 0 = Ok (1, group') /\
    group_was_full group' = 1.
Proof.
  destruct (erase_at_index_keeps_was_full
              {| status := 0x81; hints := [9; 0; 0; 0; 0; 0; 0];
                 entries := [1; 0; 0; 0; 0; 0; 0] |} 0 1
              addr_hasher addr_equals [OpInsert 1] one_entry_table
              (OpErase 2) 8 example_heap one_entry_table
              ltac:(lia) ltac:(simpl; lia) eq_refl
              (one_entry_table_reachable false) I eq_refl)
    as [(group' & He & _ & _ & _ & _ & Hw) _].
  exists group'. split; [exact He|]. rewrite Hw. reflexivity.
Defined.

(** C4.  Every table that [h64_create] and the four public operations,
    called with elements that are not [NULL], can leave satisfies the
    table invariant: in every group the popcount of the presence bits is
    the number of non-null entries, seven presence bits imply the
    was-full bit, the hint of an occupied slot is the high byte of the
    hash of its element under the seed of the table; and the popcounts
    add up to [count]. *)
Theorem public_operations_preserve_table_invariant hs eq tr h :
  reachable false hs eq tr h -> table_invariant h.
Proof.
  intros Hr. destruct (reachable_inv false hs eq tr h Hr) as ([W|Hh] & _).
  - apply table_wf_invariant, W.
  - apply hollow_invariant, Hh.
Qed.

Lemma public_operations_preserve_table_invariant_witness :
  reachable false addr_hasher addr_equals [OpInsert 1] one_entry_table /\
  table_invariant one_entry_table.
Proof.
  split; [apply one_entry_table_reachable|].
  apply (public_operations_preserve_table_invariant
           addr_hasher addr_equals [OpInsert 1]).
  apply one_entry_table_reachable.
Defined.

(** C10 (defect of the code).  The public operations reach a table in
    which every group has its was-full bit set: fill and empty each of
    the four groups of a new table.  On that table the loop of
    [h64_find_entry] runs out of any fuel, for every probe: [h64_find]
    never returns. *)
Theorem find_never_returns_on_saturated_table :
  reachable false addr_hasher addr_equals saturating_trace saturated_table /\
  Forall (fun group => group_was_full group = 1) (groups saturated_table) /\
  forall (fuel : nat) probe, h64_find fuel saturated_table probe = OutOfFuel.
Proof.
  split; [apply saturated_table_reachable|]. split.
  - repeat constructor.
  - intros fuel probe. unfold h64_find, h64_find_entry.
    change (ps_init (h64_hash saturated_table probe)
                    (size_in_groups saturated_table))
      with (probe_seq saturated_table (h64_hash saturated_table probe) 0).
    rewrite find_entry_loop_diverges; [reflexivity| |].
    + apply (reachable_small_wf false addr_hasher addr_equals saturating_trace);
        [apply saturated_table_reachable|reflexivity].
    + intros j. apply saturated_table_never_halts.
Qed.

(** C6 (defect of the code, the one of C10).  On the saturated table no
    stored element equals any probe, and [h64_erase] does not return
    [NULL]: it runs out of any fuel. *)
Theorem erase_never_returns_on_saturated_table :
  reachable true addr_hasher addr_equals saturating_trace saturated_table /\
  h64_for_each saturated_table = [] /\
  forall (fuel : nat) probe hp,
    h64_erase fuel saturated_table probe hp = OutOfFuel.
Proof.
  split; [apply saturated_table_reachable|]. split; [reflexivity|].
  intros fuel probe hp. rewrite h64_erase_unfold. unfold bind, lift.
  unfold h64_find_entry.
  change (ps_init (h64_hash saturated_table probe)
                  (size_in_groups saturated_table))
    with (probe_seq saturated_table (h64_hash saturated_table probe) 0).
  rewrite find_entry_loop_diverges; [reflexivity| |].
  - apply (reachable_small_wf false addr_hasher addr_equals saturating_trace);
      [apply saturated_table_reachable|reflexivity].
  - intros j. apply saturated_table_never_halts.
Qed.

(** C5.  The callbacks satisfy their contract and [h64_insert_new] is
    called as documented, with elements equal to none in the table.  An
    element [entry] put in by [h64_insert] and left alone by every later
    operation (no erase and no upsert of an element equal to it) is what
    [h64_find] returns for every probe that [equals] identifies with it,
    the hashes of the two being equal under the seed of the table; the
    probe need not be the stored pointer.  The search ends: every fuel
    from [fuel0] on gives the answer. *)
Theorem find_after_insert hs eq tr1 entry tr2 h probe :
  callbacks_ok hs eq ->
  reachable true hs eq (tr1 ++ OpInsert entry :: tr2) h ->
  Forall (leaves_alone eq entry) tr2 ->
  hs probe (seed h) = hs entry (seed h) ->
  eq probe entry <> 0 ->
  exists fuel0 : nat,
    forall fuel : nat, (fuel0 <= fuel)%nat -> h64_find fuel h probe = Ok entry.
Proof.
  intros C Hr Hl _ Heq.
  pose proof (reachable_unique hs eq _ h C Hr) as U.
  pose proof (inserted_stays hs eq _ h Hr tr1 entry tr2 eq_refl Hl) as Hin.
  destruct (reachable_elem_wf true hs eq _ h entry Hr Hin) as (W & Eh & Ee).
  destruct (h64_find_present h probe entry W) as (j & _ & Hj);
    [rewrite Eh, Ee; exact C|exact U|exact Hin| |].
  - apply h64_equals_true. rewrite Ee. exact Heq.
  - exists (S j). intros fuel Hf. apply Hj. lia.
Qed.

Lemma find_after_insert_witness :
  exists fuel0 : nat,
    forall fuel : nat,
      (fuel0 <= fuel)%nat -> h64_find fuel one_entry_table 1 = Ok 1.
Proof.
  apply (find_after_insert addr_hasher addr_equals [] 1 [] one_entry_table 1
           addr_callbacks_ok (one_entry_table_reachable true)).
  - constructor.
  - reflexivity.
  - vm_compute. discriminate.
Defined.




(** C7.  Upsert of an element [entry] into a table that holds an element
    [x] equal to it.  When the load check of [h64_insert] asks for no
    growth, the call returns, whatever the fuel from [j] on, the table in
    which slot [idx] of one group holds [entry] instead of [x]: the
    status byte and the hints of the group, the other slots, the other
    groups, the size and [count] are the same.  When the check asks for
    growth and the array of twice the groups fits, the call returns,
    given that array, a table of twice the groups whose entries are
    those of before with [entry] in the place of [x].  In both cases
    [count] is the same after the call and [h64_find] then returns
    [entry] for every probe equal to it.  A second [h64_insert] of the
    same element leaves [count] as the first left it, in every table;
    and after the insert of [x] into a new table the upsert of an equal
    [entry] is of the first kind, with [count] equal to [1]. *)
Theorem upsert_of_present_element hs eq tr h entry :
  callbacks_ok hs eq -> reachable true hs eq tr h -> entry <> NULL ->
  (forall x, x ∈ h64_for_each h -> eq entry x <> 0 ->
     (h64_should_grow_up h = false ->
      exists (j pos : nat) idx group,
        Z.of_nat j < size_in_groups h /\
        groups h !! pos = Some group /\ 0 <= idx < 7 /\
        entries group !! Z.to_nat idx = Some x /\
        forall (fuel : nat) hp, (j < fuel)%nat ->
          h64_insert fuel h entry hp
          = Ok (with_groups h
                  (<[pos := {| status := status group;
                               hints := hints group;
                               entries := <[Z.to_nat idx := entry]>
                                            (entries group) |}]> (groups h)),
                hp)) /\
     (h64_should_grow_up h = true -> 2 * size_in_groups h * 64 < 2 ^ 64 ->
      forall addr,
      exists h',
        (forall (fuel : nat) hp,
           (Z.to_nat (2 * size_in_groups h) < fuel)%nat ->
           h64_insert fuel h entry (addr :: hp) = Ok (h', hp)) /\
        size_in_groups h' = 2 * size_in_groups h /\
        count h' = count h /\
        exists l1 l2,
          h64_for_each h ≡ₚ l1 ++ x :: l2 /\
          h64_for_each h' = l1 ++ entry :: l2) /\
     (forall fuel hp h' hp',
        h64_insert fuel h entry hp = Ok (h', hp') ->
        count h' = count h /\
        exists fuel0 : nat,
          forall (fuel1 : nat) probe,
            (fuel0 <= fuel1)%nat -> eq probe entry <> 0 ->
            h64_find fuel1 h' probe = Ok entry)) /\
  (forall fuel hp h1 hp1 fuel' hp' h2 hp2,
     h64_insert fuel h entry hp = Ok (h1, hp1) ->
     h64_insert fuel' h1 entry hp' = Ok (h2, hp2) ->
     count h2 = count h1) /\
  (forall x, tr = [OpInsert x] -> eq entry x <> 0 ->
     x ∈ h64_for_each h /\ count h = 1 /\ h64_should_grow_up h = false).
Proof.
  intros C Hr Hne.
  pose proof (reachable_unique hs eq tr h C Hr) as U.
  assert (Hnext : forall fuel hp h' hp',
             h64_insert fuel h entry hp = Ok (h', hp') ->
             reachable true hs eq (tr ++ [OpInsert entry]) h').
  { intros fuel hp h' hp' H.
    apply (reach_step true hs eq tr h (OpInsert entry) fuel hp h' hp' Hr Hne H). }
  assert (Hwf : forall fuel hp h' hp',
             h64_insert fuel h entry hp = Ok (h', hp') ->
             table_wf h /\ hasher h = hs /\ equals h = eq).
  { intros fuel hp h' hp' H.
    apply (reachable_run_wf true hs eq tr h fuel (OpInsert entry) hp (h', hp')
             Hr H). }
  assert (Hafter : forall fuel hp h' hp',
             h64_insert fuel h entry hp = Ok (h', hp') ->
             entry ∈ h64_for_each h' /\
             table_wf h' /\ hasher h' = hs /\ equals h' = eq).
  { intros fuel hp h' hp' H.
    destruct (Hwf fuel hp h' hp' H) as (W & _).
    pose proof (proj1 (insert_contents fuel h entry hp h' hp' W Hne H)) as Hin.
    split; [exact Hin|].
    apply (reachable_elem_wf true hs eq _ h' entry (Hnext fuel hp h' hp' H) Hin). }
  split; [|split].
  - intros x Hx Heq.
    destruct (reachable_elem_wf true hs eq tr h x Hr Hx) as (W & Eh & Ee).
    assert (Ch : callbacks_ok (hasher h) (equals h))
      by (rewrite Eh, Ee; exact C).
    split; [|split].
    + intros Hng.
      destruct (h64_insert_in_place h entry x W Ch U Hx Hne) as
        (j & pos & idx & group & Hj & Eg & Hidx & Ex & Hrun);
        [rewrite Ee; exact Heq|exact Hng|].
      exists j, pos, idx, group. repeat (split; [assumption|]).
      intros fuel hp Hf. rewrite (Hrun fuel hp Hf). reflexivity.
    + intros Hg Hfit addr.
      destruct (upsert_after_growth h entry x addr W Ch U Hx Hne
                  ltac:(rewrite Ee; exact Heq) Hg Hfit)
        as (h' & Hrun & Es & Ec & Hl).
      exists h'. split; [exact Hrun|]. split; [exact Es|].
      split; [exact Ec|exact Hl].
    + intros fuel hp h' hp' H. split.
      * apply (upsert_count fuel h entry x hp h' hp' W Ch Hx Hne); [|exact H].
        rewrite Ee. exact Heq.
      * destruct (Hafter fuel hp h' hp' H) as (Hin & W' & Eh' & Ee').
        pose proof (reachable_unique hs eq _ h' C (Hnext fuel hp h' hp' H))
          as U'.
        exists (Z.to_nat (size_in_groups h')). intros fuel1 probe Hf Hp.
        destruct (h64_find_present h' probe entry W') as (j & Hj & Hfind);
          [rewrite Eh', Ee'; exact C|exact U'|exact Hin| |].
        -- apply h64_equals_true. rewrite Ee'. exact Hp.
        -- apply Hfind. lia.
  - intros fuel hp h1 hp1 fuel' hp' h2 hp2 H1 H2.
    destruct (Hafter fuel hp h1 hp1 H1) as (Hin & W1 & Eh1 & Ee1).
    apply (upsert_count fuel' h1 entry entry hp' h2 hp2 W1); try assumption.
    + rewrite Eh1, Ee1. exact C.
    + rewrite Ee1. apply (equals_refl _ _ C).
  - intros x -> Heq.
    destruct (reachable_single_insert true hs eq x h Hr) as (Ec & Es).
    split; [|split; [exact Ec|]].
    + apply (inserted_stays hs eq _ h Hr [] x [] eq_refl). constructor.
    + rewrite should_grow_up_eq, Ec, Es. vm_compute. reflexivity.
Qed.

Lemma upsert_of_present_element_witness :
  1 ∈ h64_for_each one_entry_table /\ count one_entry_table = 1 /\
  h64_should_grow_up one_entry_table = false.
Proof.
  destruct (upsert_of_present_element addr_hasher addr_equals [OpInsert 1]
              one_entry_table 1 addr_callbacks_ok
              (one_entry_table_reachable true))
    as (_ & _ & Hs); [discriminate|].
  apply (Hs 1 eq_refl). vm_compute. discriminate.
Defined.

(** Counterexample to C7 as stated, for every table that holds an equal
    element.  A table of 4 groups with 19 elements holds [5]; the upsert
    of [5] grows it first, and the status bytes are those of a new array
    of 8 groups. *)
Lemma upsert_rehashes_loaded_table :
  let h := table_of_run (inserts 1 19) in
  reachable true addr_hasher addr_equals (inserts 1 19) h /\
  5 ∈ h64_for_each h /\ addr_equals 5 5 <> 0 /\
  exists h' hp',
    h64_insert 8 h 5 example_heap = Ok (h', hp') /\
    size_in_groups h = 4 /\ size_in_groups h' = 8 /\
    status <$> groups h = [15; 31; 31; 31] /\
    status <$> groups h' = [3; 7; 7; 7; 3; 3; 3; 3].
Proof.
  cbv zeta. split.
  - apply reachable_table_of_run; vm_compute; reflexivity.
  - split; [apply (bool_decide_unpack _); vm_compute; exact I|]. split; [vm_compute; discriminate|].
    eexists _, _. split; [vm_compute; reflexivity|].
    vm_compute. repeat split; reflexivity.
Qed.




(** C9.  Reserve, then inserts.  [reserve_size n] is the size the code
    computes, [roundup_to_pow2 (total / 7 + 1)] with [total] the quotient
    [n / MAX_LOAD_FACTOR] in [double] converted to [size_t]; the table
    gets [Z.max 4 (reserve_size n)] groups.  When [total] fits a
    [size_t] and the byte size of the array fits too, [n] is at most the
    threshold of the grow check of that size.  When moreover [count] is
    at most one more than that threshold: the call returns, given the
    array and one unit of fuel per group; whenever it returns, the table
    has that many groups and the entries of before; and every run of
    inserts of elements that are not [NULL], as many as keep [count]
    and their number together within one more than the threshold, then
    returns, and whenever it returns the table has the same number of
    groups and nothing was allocated.  These are [n] inserts when
    [count] is at most [1]. *)
Theorem reserve_then_inserts_below_threshold hs eq tr h n :
  reachable false hs eq tr h -> 0 <= n < 2 ^ 64 ->
  reserve_total n < 2 ^ 64 -> Z.max 4 (reserve_size n) * 64 < 2 ^ 64 ->
  n <= max_count (Z.max 4 (reserve_size n)) /\
  (count h <= max_count (Z.max 4 (reserve_size n)) + 1 ->
   (size_in_groups h < 2 ^ 58 ->
    forall addr,
    exists h1,
      forall (fuel : nat) hp,
        (Z.to_nat (Z.max 4 (reserve_size n)) < fuel)%nat ->
        h64_reserve fuel h n (addr :: hp) = Ok (h1, hp)) /\
   (forall fuel hp h1 hp1,
      h64_reserve fuel h n hp = Ok (h1, hp1) ->
      size_in_groups h1 = Z.max 4 (reserve_size n) /\
      count h1 = count h /\
      h64_for_each h1 ≡ₚ h64_for_each h /\
      forall es,
        count h + Z.of_nat (length es)
        <= max_count (Z.max 4 (reserve_size n)) + 1 ->
        Forall (fun e => e <> NULL) es ->
        (exists h2,
           forall (fuel' : nat) hp',
             (Z.to_nat (size_in_groups h1) <= fuel')%nat ->
             run_ops fuel' (OpInsert <$> es) h1 hp' = Ok (h2, hp')) /\
        (forall fuel' hp' h2 hp2,
           run_ops fuel' (OpInsert <$> es) h1 hp' = Ok (h2, hp2) ->
           size_in_groups h2 = size_in_groups h1 /\ hp2 = hp'))) /\
  (count h <= 1 ->
   forall es : list Z,
     Z.of_nat (length es) <= n ->
     count h + Z.of_nat (length es)
     <= max_count (Z.max 4 (reserve_size n)) + 1).
Proof.
  intros Hr Hn Ht Hfit.
  destruct (reserve_size_room n ltac:(lia) Ht Hfit) as [_ Hroom].
  split; [exact Hroom|]. split; [|intros Hc es Hlen; lia].
  intros Hsum. split.
  - intros Hs addr.
    destruct (reachable_small_wf false hs eq tr h Hr Hs) as (W & _).
    apply (reserve_returns h n addr W ltac:(lia) Ht Hfit Hsum).
  - intros fuel hp h1 hp1 H.
    destruct (reachable_run_wf false hs eq tr h fuel (OpReserve n) hp (h1, hp1)
                Hr H) as (W & _).
    destruct (reserve_with_room_inv fuel h n hp h1 hp1 W Hfit Hsum H)
      as (W1 & P1 & Es & Ec & Hp).
    split; [exact Es|]. split; [exact Ec|]. split; [exact Hp|].
    intros es Hlen Hes. split.
    + apply (inserts_total es h1 W1 P1 Hes). rewrite Es, Ec. exact Hlen.
    + intros fuel' hp' h2 hp2 Hrun.
      destruct (inserts_keep_size es fuel' h1 hp' h2 hp2 W1 Hes
                  ltac:(rewrite Es, Ec; exact Hlen) Hrun) as (Ez & _ & Ehp).
      split; assumption.
Qed.

Lemma reserve_then_inserts_below_threshold_witness :
  let h := table_of_run (inserts 1 5) in
  count h = 5 /\ Z.max 4 (reserve_size 100) = 32 /\
  100 <= max_count (Z.max 4 (reserve_size 100)) /\
  forall addr,
  exists h1,
    forall (fuel : nat) hp,
      (Z.to_nat (Z.max 4 (reserve_size 100)) < fuel)%nat ->
      h64_reserve fuel h 100 (addr :: hp) = Ok (h1, hp).
Proof.
  cbv zeta. split; [vm_compute; reflexivity|].
  split; [vm_compute; reflexivity|].
  destruct (reserve_then_inserts_below_threshold
              addr_hasher addr_equals (inserts 1 5)
              (table_of_run (inserts 1 5)) 100) as (Hroom & Hrest & _).
  - apply reachable_table_of_run; vm_compute; reflexivity.
  - lia.
  - vm_compute. reflexivity.
  - vm_compute. reflexivity.
  - split; [exact Hroom|].
    apply Hrest; [vm_compute; discriminate|vm_compute; reflexivity].
Defined.

(** Counterexample to C9 as stated, for every table.  A table of 8 groups
    with 20 elements has 8 groups again after [h64_reserve] with [0], not
    the 4 of the formula: the rehash into 4 groups grows.  A table with
    19 elements has 4 groups after [h64_reserve] with [1], and the insert
    of one new element grows it to 8. *)
Lemma reserve_on_loaded_table :
  (let h := table_of_run (inserts 1 20 ++ [OpReserve 0]) in
   reachable false addr_hasher addr_equals (inserts 1 20 ++ [OpReserve 0]) h /\
   Z.max 4 (reserve_size 0) = 4 /\ size_in_groups h = 8) /\
  (let h := table_of_run (inserts 1 19 ++ [OpReserve 1]) in
   reachable false addr_hasher addr_equals (inserts 1 19 ++ [OpReserve 1]) h /\
   Z.max 4 (reserve_size 1) = 4 /\ size_in_groups h = 4 /\
   (100 ∉ h64_for_each h) /\
   exists h' hp',
     run_ops 8 (OpInsert <$> [100]) h example_heap = Ok (h', hp') /\
     size_in_groups h' = 8).
Proof.
  cbv zeta. split.
  - split; [apply reachable_table_of_run; vm_compute; reflexivity|].
    split; vm_compute; reflexivity.
  - split; [apply reachable_table_of_run; vm_compute; reflexivity|].
    split; [vm_compute; reflexivity|]. split; [vm_compute; reflexivity|].
    split.
    + apply (bool_decide_unpack _). vm_compute. exact I.
    + eexists _, _. split; vm_compute; reflexivity.
Qed.

(** * Further properties of the code *)

(** X1.  [h64_insert_new] always returns on a table of fewer than
    [2 ^ 57] groups that the public operations can leave (the byte
    counts of its array and of an array of twice the groups then fit a
    [size_t]): with an element that is not [NULL], given the array the
    rehash asks for when the load check fires, one unit of fuel per
    group of the table after the call is enough.  The entries afterwards
    are the entries before and the new one, also when an equal element
    is stored already; [count] is one more; the number of groups is
    doubled exactly when the load check fired, and only then an array is
    taken from the allocator. *)
Theorem insert_new_always_returns hs eq tr h entry addr :
  reachable false hs eq tr h -> entry <> NULL ->
  size_in_groups h < 2 ^ 57 ->
  exists h',
    (forall (fuel : nat) hp,
       (Z.to_nat (2 * size_in_groups h) + 1 < fuel)%nat ->
       h64_insert_new fuel h entry (addr :: hp)
       = Ok (h', if h64_should_grow_up h then hp else addr :: hp)) /\
    h64_for_each h' ≡ₚ entry :: h64_for_each h /\
    count h' = count h + 1 /\
    size_in_groups h'
    = (if h64_should_grow_up h then 2 * size_in_groups h
       else size_in_groups h).
Proof.
  intros Hr Hne Hs.
  assert (H58 : 2 ^ 57 < 2 ^ 58) by reflexivity.
  destruct (reachable_small_wf false hs eq tr h Hr ltac:(lia)) as (W & _).
  assert (Hfit : h64_should_grow_up h = true ->
                 2 * size_in_groups h * 64 < 2 ^ 64).
  { intros _. change (2 ^ 64) with (2 * 2 ^ 57 * 64). lia. }
  destruct (h64_insert_new_total h entry addr W Hne Hfit) as (h' & Hrun).
  exists h'. split; [exact Hrun|].
  pose proof (Hrun (S (S (Z.to_nat (2 * size_in_groups h)))) [] ltac:(lia)) as H.
  pose proof (h64_insert_new_spec _ h entry _ h' _ W Hne H) as I.
  split; [apply (ins_for_each _ _ _ _ _ I)|]. split.
  - rewrite (wf_count_length h W), (wf_count_length h' (ins_wf _ _ _ _ _ I)).
    rewrite (Permutation_length (ins_for_each _ _ _ _ _ I)). cbn [length]. lia.
  - rewrite should_grow_up_eq.
    apply (h64_insert_new_size _ h entry _ h' _ W Hne H).
Qed.

Lemma insert_new_always_returns_witness :
  exists h',
    (forall (fuel : nat) hp,
       (Z.to_nat (2 * size_in_groups one_entry_table) + 1 < fuel)%nat ->
       h64_insert_new fuel one_entry_table 1 (0 :: hp)
       = Ok (h', if h64_should_grow_up one_entry_table
                 then hp else 0 :: hp)) /\
    h64_for_each h' ≡ₚ 1 :: h64_for_each one_entry_table /\
    count h' = count one_entry_table + 1 /\
    size_in_groups h'
    = (if h64_should_grow_up one_entry_table
       then 2 * size_in_groups one_entry_table
       else size_in_groups one_entry_table).
Proof.
  apply (insert_new_always_returns addr_hasher addr_equals [OpInsert 1]
           one_entry_table 1 0 (one_entry_table_reachable false)).
  - discriminate.
  - vm_compute. reflexivity.
Defined.

(** X2.  A table of fewer than [2 ^ 57] groups that has seen no erase
    since it was created never makes an operation hang: for every probe
    [h64_find] returns, [h64_erase] returns, and [h64_insert] of an
    element that is not [NULL] returns when the rehash it may start gets
    its array.  The fuel of one round over the groups (two for an insert
    that grows) is enough. *)
Theorem operations_return_without_erase hs eq tr h probe addr :
  reachable false hs eq tr h ->
  Forall (fun o => is_erase o = false) tr ->
  size_in_groups h < 2 ^ 57 ->
  (exists x,
     forall fuel : nat, (Z.to_nat (size_in_groups h) <= fuel)%nat ->
       h64_find fuel h probe = Ok x) /\
  (exists x h',
     forall (fuel : nat) hp, (Z.to_nat (size_in_groups h) < fuel)%nat ->
       exists hp',
         h64_erase fuel h probe (addr :: hp) = Ok ((x, h'), hp') /\
         (hp' = addr :: hp \/ hp' = hp)) /\
  (probe <> NULL ->
   exists h',
     forall (fuel : nat) hp, (Z.to_nat (2 * size_in_groups h) < fuel)%nat ->
       h64_insert fuel h probe (addr :: hp)
       = Ok (h', if h64_should_grow_up h then hp else addr :: hp)).
Proof.
  intros Hr Hne Hs.
  assert (H58 : 2 ^ 57 < 2 ^ 58) by reflexivity.
  destruct (reachable_small_wf false hs eq tr h Hr ltac:(lia)) as (W & _).
  pose proof (reachable_pristine false hs eq tr h Hr Hne) as P.
  split; [apply (h64_find_total_pristine h probe W P)|]. split.
  - apply (h64_erase_total_pristine h probe addr W P).
  - intros Hp. apply (h64_insert_total_pristine h probe addr W P Hp).
    intros _. change (2 ^ 64) with (2 * 2 ^ 57 * 64). lia.
Qed.

Lemma operations_return_without_erase_witness :
  (exists x,
     forall fuel : nat,
       (Z.to_nat (size_in_groups (table_of_run (inserts 1 19))) <= fuel)%nat ->
       h64_find fuel (table_of_run (inserts 1 19)) 7 = Ok x) /\
  (exists x h',
     forall (fuel : nat) hp,
       (Z.to_nat (size_in_groups (table_of_run (inserts 1 19))) < fuel)%nat ->
       exists hp',
         h64_erase fuel (table_of_run (inserts 1 19)) 7 (0 :: hp)
         = Ok ((x, h'), hp') /\
         (hp' = 0 :: hp \/ hp' = hp)) /\
  (7 <> NULL ->
   exists h',
     forall (fuel : nat) hp,
       (Z.to_nat (2 * size_in_groups (table_of_run (inserts 1 19))) < fuel)%nat ->
       h64_insert fuel (table_of_run (inserts 1 19)) 7 (0 :: hp)
       = Ok (h', if h64_should_grow_up (table_of_run (inserts 1 19))
                 then hp else 0 :: hp)).
Proof.
  apply (operations_return_without_erase addr_hasher addr_equals
           (inserts 1 19) (table_of_run (inserts 1 19)) 7 0).
  - apply reachable_table_of_run; vm_compute; reflexivity.
  - vm_compute. repeat constructor.
  - vm_compute. reflexivity.
Defined.

(** X3.  [h64_reserve] loses and duplicates nothing, whatever the table
    and the number asked for: when it returns, the entries are the
    entries before and [count] is the same.  When the table it leaves
    says fewer than [2 ^ 58] groups, the rehash has left the was-full
    bit set in full groups only, so that [h64_find] returns for every
    probe within one round over the groups.  When it says [2 ^ 58]
    groups or more, the byte count of the array has wrapped around to
    [0]: the table held no element, its new array holds no group, and
    every [h64_find] reads outside the array. *)
Theorem reserve_keeps_entries_and_restores_search
    hs eq tr h fuel n hp h' hp' :
  reachable false hs eq tr h ->
  h64_reserve fuel h n hp = Ok (h', hp') ->
  h64_for_each h' ≡ₚ h64_for_each h /\
  count h' = count h /\
  (size_in_groups h' < 2 ^ 58 ->
   forall probe,
   exists x,
     forall fuel' : nat, (Z.to_nat (size_in_groups h') <= fuel')%nat ->
       h64_find fuel' h' probe = Ok x) /\
  (2 ^ 58 <= size_in_groups h' ->
   h64_for_each h = [] /\ groups h' = [] /\
   forall (fuel' : nat) probe, h64_find (S fuel') h' probe = Abort).
Proof.
  intros Hr H.
  destruct (reachable_run_wf false hs eq tr h fuel (OpReserve n) hp (h', hp')
              Hr H) as (W & _).
  destruct (h64_reserve_cases fuel h n hp h' hp' W H)
    as [R|(El & _ & addr & _ & _ & Hh)].
  - pose proof (rs_wf _ _ _ _ _ R) as W'.
    split; [apply (rs_for_each _ _ _ _ _ R)|]. split; [|split].
    + apply (wf_count_perm h h' W W' (rs_for_each _ _ _ _ _ R)).
    + intros _ probe.
      apply (h64_find_total_pristine h' probe W' (rs_pristine _ _ _ _ _ R)).
    + intros Hbig. exfalso. destruct (wf_size h' W') as (k & Hk & Ek).
      rewrite Ek in Hbig. pose proof (pow2_lt_mono k 58 ltac:(lia)). lia.
  - split; [rewrite (hollow_for_each h' Hh), El; reflexivity|].
    split; [|split].
    + destruct Hh as (_ & -> & _). rewrite (wf_count_length h W), El.
      reflexivity.
    + intros Hs. exfalso. apply (small_not_hollow h' Hs Hh).
    + intros _. split; [exact El|]. destruct Hh as (Eg & _).
      split; [exact Eg|]. intros fuel' probe.
      unfold h64_find, h64_find_entry. cbn [find_entry_loop].
      rewrite Eg, lookup_nil. reflexivity.
Qed.

Lemma reserve_keeps_entries_and_restores_search_witness :
  let h' := fresh_table 1 addr_hasher addr_equals 4096 in
  h64_for_each h' ≡ₚ h64_for_each saturated_table /\
  count h' = count saturated_table /\
  (size_in_groups h' < 2 ^ 58 ->
   forall probe,
   exists x,
     forall fuel' : nat, (Z.to_nat (size_in_groups h') <= fuel')%nat ->
       h64_find fuel' h' probe = Ok x) /\
  (2 ^ 58 <= size_in_groups h' ->
   h64_for_each saturated_table = [] /\ groups h' = [] /\
   forall (fuel' : nat) probe, h64_find (S fuel') h' probe = Abort).
Proof.
  apply (reserve_keeps_entries_and_restores_search
           addr_hasher addr_equals saturating_trace saturated_table 8 0
           example_heap (fresh_table 1 addr_hasher addr_equals 4096)
           (skipn 1 example_heap) (saturated_table_reachable false)).
  vm_compute. reflexivity.
Defined.

(** X4.  [h64_find] answers nothing it should not and misses nothing:
    whenever it returns a handle other than [NULL], that handle is stored
    in the table and [equals] identifies the probe with it; whenever it
    returns [NULL] and the callbacks satisfy their contract, [equals]
    identifies the probe with no stored element. *)
Theorem find_answers_stored_equal_element hs eq tr h fuel probe x :
  reachable false hs eq tr h ->
  h64_find fuel h probe = Ok x ->
  (x <> NULL -> x ∈ h64_for_each h /\ eq probe x <> 0) /\
  (x = NULL -> callbacks_ok hs eq ->
   forall y, y ∈ h64_for_each h -> eq probe y = 0).
Proof.
  intros Hr H.
  destruct (reachable_find_wf false hs eq tr h fuel probe x Hr H)
    as (W & Eh & Ee).
  split.
  - intros Hx. rewrite <- Ee. apply (h64_find_sound h probe fuel x W H Hx).
  - intros -> C. rewrite <- Ee. apply (h64_find_null h probe fuel W); [|exact H].
    rewrite Eh, Ee. exact C.
Qed.

Lemma find_answers_stored_equal_element_witness :
  (1 <> NULL -> 1 ∈ h64_for_each one_entry_table /\ addr_equals 1 1 <> 0) /\
  (1 = NULL -> callbacks_ok addr_hasher addr_equals ->
   forall y, y ∈ h64_for_each one_entry_table -> addr_equals 1 y = 0).
Proof.
  apply (find_answers_stored_equal_element addr_hasher addr_equals
           [OpInsert 1] one_entry_table 1 1 1 (one_entry_table_reachable false)).
  vm_compute. reflexivity.
Defined.

(** X5.  What [h64_erase] does when it returns.  Either it answers
    [NULL], and the table and the allocator are as before; or it answers
    a stored handle that [equals] identifies with the probe, exactly that
    one entry is gone (the entries afterwards are the others, also after
    the rehash of a shrink), and [count] is one less. *)
Theorem erase_removes_one_element hs eq tr h fuel probe hp x h' hp' :
  reachable false hs eq tr h ->
  h64_erase fuel h probe hp = Ok ((x, h'), hp') ->
  (x = NULL /\ h' = h /\ hp' = hp) \/
  (x <> NULL /\ eq probe x <> 0 /\ count h' = count h - 1 /\
   exists l1 l2,
     h64_for_each h = l1 ++ x :: l2 /\ h64_for_each h' ≡ₚ l1 ++ l2).
Proof.
  intros Hr H.
  destruct (reachable_erase_wf false hs eq tr h fuel probe hp _ Hr H)
    as (W & Eh & Ee).
  destruct (h64_erase_effect fuel h probe hp x h' hp' W H)
    as [Hnull|(Hx & Heq & _ & _ & _ & Ec & Hl)]; [left; exact Hnull|right].
  rewrite Ee in Heq. auto.
Qed.

Lemma erase_removes_one_element_witness :
  let h' := fresh_table 4 addr_hasher addr_equals 4096 in
  (1 = NULL /\ h' = one_entry_table /\ example_heap = example_heap) \/
  (1 <> NULL /\ addr_equals 1 1 <> 0 /\ count h' = count one_entry_table - 1 /\
   exists l1 l2,
     h64_for_each one_entry_table = l1 ++ 1 :: l2 /\
     h64_for_each h' ≡ₚ l1 ++ l2).
Proof.
  apply (erase_removes_one_element addr_hasher addr_equals [OpInsert 1]
           one_entry_table 1 1 example_heap 1
           (fresh_table 4 addr_hasher addr_equals 4096) example_heap
           (one_entry_table_reachable false)).
  vm_compute. reflexivity.
Defined.

(** X6.  Find after erase.  The callbacks satisfy their contract and
    [h64_insert_new] is used as documented.  After an [h64_erase] that
    answered a handle [x], every [h64_find] with a probe that [equals]
    identifies with [x] answers [NULL] when it returns: the table held
    one element of that class, and it is gone. *)
Theorem find_after_erase_is_null
    hs eq tr h fuel probe hp x h' hp' fuel' probe' r :
  callbacks_ok hs eq -> reachable true hs eq tr h ->
  h64_erase fuel h probe hp = Ok ((x, h'), hp') -> x <> NULL ->
  eq probe' x <> 0 ->
  h64_find fuel' h' probe' = Ok r -> r = NULL.
Proof.
  intros C Hr He Hx Hp Hf.
  destruct (reachable_erase_wf true hs eq tr h fuel probe hp _ Hr He)
    as (W & Eh & Ee).
  pose proof (reachable_unique hs eq tr h C Hr) as U.
  destruct (h64_erase_effect fuel h probe hp x h' hp' W He)
    as [(Hnull & _)|(_ & _ & W' & Ee' & _ & _ & l1 & l2 & E1 & E2)];
    [contradiction|].
  destruct (Z.eq_dec r NULL) as [Hr0|Hr0]; [exact Hr0|exfalso].
  destruct (h64_find_sound h' probe' fuel' r W' Hf Hr0) as [Hin Heq].
  rewrite Ee', Ee in Heq. rewrite E2 in Hin.
  unfold unique_keys in U. rewrite Ee, E1 in U.
  assert (Hxr : eq x r <> 0).
  { apply (equals_trans hs eq C x probe' r); [|exact Heq].
    apply (equals_sym hs eq C), Hp. }
  assert (x = r).
  { apply (distinct_keys_unique hs eq C _ x r U); [| |exact Hxr].
    - apply elem_of_app. right. left.
    - apply elem_of_app in Hin as [Hin|Hin]; apply elem_of_app;
        [left|right; right]; exact Hin. }
  subst r. apply (distinct_keys_not_twice hs eq l1 x l2 C U Hin).
Qed.

Lemma find_after_erase_is_null_witness :
  h64_find 1 (fresh_table 4 addr_hasher addr_equals 4096) 1 = Ok NULL.
Proof.
  destruct (h64_find 1 (fresh_table 4 addr_hasher addr_equals 4096) 1)
    as [r| |] eqn:E;
    [|exfalso; revert E; vm_compute; intros E; discriminate E..].
  f_equal.
  apply (find_after_erase_is_null addr_hasher addr_equals [OpInsert 1]
           one_entry_table 1 1 example_heap 1
           (fresh_table 4 addr_hasher addr_equals 4096) example_heap
           1 1 r addr_callbacks_ok (one_entry_table_reachable true)).
  - vm_compute. reflexivity.
  - discriminate.
  - vm_compute. discriminate.
  - exact E.
Defined.

(** X7.  [h64_insert] of an element that is not [NULL] and that [equals]
    identifies with no stored element adds it: when the call returns,
    the entries are the new one and those before, also after the rehash
    of a growth, and [count] is one more. *)
Theorem insert_of_absent_element_adds_it hs eq tr h fuel entry hp h' hp' :
  reachable false hs eq tr h -> entry <> NULL ->
  (forall x, x ∈ h64_for_each h -> eq entry x = 0) ->
  h64_insert fuel h entry hp = Ok (h', hp') ->
  h64_for_each h' ≡ₚ entry :: h64_for_each h /\ count h' = count h + 1.
Proof.
  intros Hr Hne Ha H.
  destruct (reachable_run_wf false hs eq tr h fuel (OpInsert entry) hp
              (h', hp') Hr H) as (W & Eh & Ee).
  apply (h64_insert_absent fuel h entry hp h' hp' W Hne); [|exact H].
  rewrite Ee. exact Ha.
Qed.

Lemma insert_of_absent_element_adds_it_witness :
  h64_for_each (table_of_run (inserts 1 20))
  ≡ₚ 20 :: h64_for_each (table_of_run (inserts 1 19)) /\
  count (table_of_run (inserts 1 20))
  = count (table_of_run (inserts 1 19)) + 1.
Proof.
  apply (insert_of_absent_element_adds_it addr_hasher addr_equals
           (inserts 1 19) (table_of_run (inserts 1 19)) 8 20 (skipn 2 example_heap)
           (table_of_run (inserts 1 20)) (skipn 3 example_heap)).
  - apply reachable_table_of_run; vm_compute; reflexivity.
  - discriminate.
  - apply (proj1 (Forall_forall _ _)). vm_compute.
    repeat (apply List.Forall_cons; [reflexivity|]). apply List.Forall_nil.
  - vm_compute. reflexivity.
Defined.

(** X8.  Insert, then erase.  The callbacks satisfy their contract and
    [h64_insert_new] is used as documented.  Whenever the insert of an
    element that no stored element equals returns, and an erase on the
    table it left, with a probe equal to that element, returns too, the
    erase has answered that element, and the entries and [count] are
    those before the insert, whatever rehashes the two calls went
    through. *)
Theorem insert_then_erase_round_trip
    hs eq tr h fuel entry hp h1 hp1 fuel' probe hp1' x h2 hp2 :
  callbacks_ok hs eq -> reachable true hs eq tr h -> entry <> NULL ->
  (forall y, y ∈ h64_for_each h -> eq entry y = 0) ->
  h64_insert fuel h entry hp = Ok (h1, hp1) ->
  eq probe entry <> 0 ->
  h64_erase fuel' h1 probe hp1' = Ok ((x, h2), hp2) ->
  x = entry /\ h64_for_each h2 ≡ₚ h64_for_each h /\ count h2 = count h.
Proof.
  intros C Hr Hne Ha Hi Hp He.
  destruct (reachable_run_wf true hs eq tr h fuel (OpInsert entry) hp
              (h1, hp1) Hr Hi) as (W & Eh & Ee).
  assert (Hr1 : reachable true hs eq (tr ++ [OpInsert entry]) h1).
  { apply (reach_step true hs eq tr h (OpInsert entry) fuel hp h1 hp1 Hr Hne Hi). }
  destruct (reachable_erase_wf true hs eq _ h1 fuel' probe hp1' _ Hr1 He)
    as (W1 & Eh1 & Ee1).
  pose proof (reachable_unique hs eq _ h1 C Hr1) as U1.
  destruct (h64_insert_absent fuel h entry hp h1 hp1 W Hne
              ltac:(rewrite Ee; exact Ha) Hi) as (P1 & Ec1).
  assert (Hin : entry ∈ h64_for_each h1) by (rewrite P1; left).
  destruct (h64_erase_inv fuel' h1 probe hp1' x h2 hp2 W1 He)
    as [(_ & _ & _ & Habs)|_].
  { exfalso. apply Hp. rewrite <- Ee1.
    apply (absent_for_each h1 probe W1); [|exact Hin].
    apply Habs. rewrite Eh1, Ee1. exact C. }
  destruct (h64_erase_effect fuel' h1 probe hp1' x h2 hp2 W1 He)
    as [(Hnull & -> & _)|(Hx & Heq & _ & _ & _ & Ec2 & l1 & l2 & E1 & E2)].
  { exfalso.
    destruct (h64_erase_inv fuel' h1 probe hp1' x h1 hp2 W1 He)
      as [(_ & _ & _ & Habs)|(h0 & Her & _)].
    - apply Hp. rewrite <- Ee1.
      apply (absent_for_each h1 probe W1); [|exact Hin].
      apply Habs. rewrite Eh1, Ee1. exact C.
    - destruct Her as (_ & _ & _ & _ & _ & _ & Hx & _). contradiction. }
  rewrite Ee1 in Heq.
  assert (Hxe : x = entry).
  { unfold unique_keys in U1. rewrite Ee1 in U1.
    apply (distinct_keys_unique hs eq C _ x entry U1).
    - rewrite E1. apply elem_of_app. right. left.
    - exact Hin.
    - apply (equals_trans hs eq C x probe entry); [|exact Hp].
      apply (equals_sym hs eq C), Heq. }
  subst x. split; [reflexivity|]. split; [|lia].
  rewrite E2. apply (Permutation_cons_inv (a := entry)).
  rewrite Permutation_middle, <- E1. exact P1.
Qed.

Lemma insert_then_erase_round_trip_witness :
  let h := fresh_table 4 addr_hasher addr_equals 4096 in
  1 = 1 /\ h64_for_each h ≡ₚ h64_for_each h /\ count h = count h.
Proof.
  apply (insert_then_erase_round_trip addr_hasher addr_equals []
           (fresh_table 4 addr_hasher addr_equals 4096) 8 1 example_heap
           one_entry_table example_heap 8 1 example_heap 1
           (fresh_table 4 addr_hasher addr_equals 4096) example_heap
           addr_callbacks_ok).
  - apply (reach_create true addr_hasher addr_equals (0 :: 4096 :: example_heap)
             _ example_heap). vm_compute. reflexivity.
  - discriminate.
  - intros y Hy. exfalso. revert Hy. vm_compute. apply elem_of_nil.
  - vm_compute. reflexivity.
  - vm_compute. discriminate.
  - vm_compute. reflexivity.
Defined.

(** X9.  Under the documented use ([h64_insert_new] only with elements
    equal to none in the table, callbacks that satisfy their contract)
    the table never holds two elements that [equals] identifies: any two
    entries that [h64_for_each] visits are different keys. *)
Theorem stored_keys_are_pairwise_distinct hs eq tr h l1 x l2 y l3 :
  callbacks_ok hs eq -> reachable true hs eq tr h ->
  h64_for_each h = l1 ++ x :: l2 ++ y :: l3 ->
  eq x y = 0.
Proof.
  intros C Hr E.
  destruct (reachable_inv true hs eq tr h Hr) as (_ & _ & Ee).
  pose proof (reachable_unique hs eq tr h C Hr) as U.
  unfold unique_keys in U. rewrite Ee, E in U.
  apply (distinct_keys_later eq l1 x l2 y l3 U).
Qed.

Lemma stored_keys_are_pairwise_distinct_witness :
  h64_for_each (table_of_run (inserts 1 3)) = [1; 2; 3] /\
  addr_equals 1 3 = 0.
Proof.
  assert (E : h64_for_each (table_of_run (inserts 1 3)) = [1; 2; 3])
    by (vm_compute; reflexivity).
  split; [exact E|].
  apply (stored_keys_are_pairwise_distinct addr_hasher addr_equals
           (inserts 1 3) (table_of_run (inserts 1 3)) [] 1 [2] 3 []
           addr_callbacks_ok).
  - apply reachable_table_of_run; vm_compute; reflexivity.
  - exact E.
Defined.

(** X10.  The growth rule of [h64_insert] and [h64_insert_new].  When
    either returns, the table has twice the groups if [count] was above
    the threshold [(size_t)(MAX_LOAD_FACTOR * (size_in_groups * 7))]
    before the call, and the same number of groups otherwise, in which
    case nothing was allocated. *)
Theorem insertion_doubles_when_overloaded hs eq tr h fuel o entry hp h' hp' :
  reachable false hs eq tr h -> entry <> NULL ->
  o = OpInsert entry \/ o = OpInsertNew entry ->
  run_op fuel o h hp = Ok (h', hp') ->
  size_in_groups h'
  = (if max_count (size_in_groups h) <? count h
     then 2 * size_in_groups h else size_in_groups h) /\
  (count h <= max_count (size_in_groups h) -> hp' = hp).
Proof.
  intros Hr Hne Ho H.
  destruct (reachable_run_wf false hs eq tr h fuel o hp (h', hp') Hr H)
    as (W & _).
  assert (Hgoal : size_in_groups h'
                  = (if max_count (size_in_groups h) <? count h
                     then 2 * size_in_groups h else size_in_groups h) /\
                  (h64_should_grow_up h = false -> hp' = hp)).
  { destruct Ho as [-> | ->]; cbn [run_op] in H.
    - apply (h64_insert_size fuel h entry hp h' hp' W Hne H).
    - apply (h64_insert_new_size fuel h entry hp h' hp' W Hne H). }
  destruct Hgoal as [Hs Hhp]. split; [exact Hs|].
  intros Hc. apply Hhp. rewrite should_grow_up_eq. apply Z.ltb_ge. exact Hc.
Qed.

Lemma insertion_doubles_when_overloaded_witness :
  size_in_groups (table_of_run (inserts 1 20))
  = (if max_count (size_in_groups (table_of_run (inserts 1 19)))
        <? count (table_of_run (inserts 1 19))
     then 2 * size_in_groups (table_of_run (inserts 1 19))
     else size_in_groups (table_of_run (inserts 1 19))) /\
  (count (table_of_run (inserts 1 19))
   <= max_count (size_in_groups (table_of_run (inserts 1 19))) ->
   skipn 3 example_heap = skipn 2 example_heap).
Proof.
  apply (insertion_doubles_when_overloaded addr_hasher addr_equals
           (inserts 1 19) (table_of_run (inserts 1 19)) 8 (OpInsert 20) 20
           (skipn 2 example_heap) (table_of_run (inserts 1 20))
           (skipn 3 example_heap)).
  - apply reachable_table_of_run; vm_compute; reflexivity.
  - discriminate.
  - left. reflexivity.
  - vm_compute. reflexivity.
Defined.

(** X11.  The shape of every table the public operations can leave.
    The number of groups is a power of two from 4 on.  When it is below
    [2 ^ 58] it is the length of the group array, and [count] is below
    the number of slots, so that at least one group has a free slot.
    When it is [2 ^ 58] or more the byte count of the array has wrapped
    around to [0] in [h64_init]: the array holds no group, the table
    holds no element, it is what the last operation, an [h64_reserve],
    made, and no further insert, erase or reserve on it returns. *)
Theorem table_array_matches_size_below_2_58 hs eq tr h :
  reachable false hs eq tr h ->
  (exists k, 2 <= k <= 63 /\ size_in_groups h = 2 ^ k) /\
  (size_in_groups h < 2 ^ 58 ->
   Z.of_nat (length (groups h)) = size_in_groups h /\
   0 <= count h < 7 * size_in_groups h /\
   exists (pos : nat) group,
     groups h !! pos = Some group /\ group_is_full group = false) /\
  (2 ^ 58 <= size_in_groups h ->
   groups h = [] /\ count h = 0 /\
   (exists tr0 n, tr = tr0 ++ [OpReserve n]) /\
   forall fuel o hp r, run_op fuel o h hp <> Ok r).
Proof.
  intros Hr. destruct (reachable_inv false hs eq tr h Hr) as ([W|Hh] & _).
  - destruct (wf_size h W) as (k & Hk & Ek).
    split; [exists k; split; [lia|exact Ek]|]. split.
    + intros _. split; [|split; [|apply (wf_not_all_full h W)]].
      * rewrite (wf_length h W), Ek.
        pose proof (pow2_pos k ltac:(lia)). lia.
      * pose proof (count_no_wrap h W) as [H0 _].
        pose proof (wf_load h W) as Hl. rewrite Ek in *.
        pose proof (load_thresholds k Hk) as (_ & _ & Hcap & _). lia.
    + intros Hbig. exfalso. rewrite Ek in Hbig.
      pose proof (pow2_lt_mono k 58 ltac:(lia)). lia.
  - pose proof Hh as (Eg & Ec & k & Hk & Ek).
    split; [exists k; split; [lia|exact Ek]|]. split.
    + intros Hs. exfalso. apply (small_not_hollow h Hs Hh).
    + intros _. split; [exact Eg|]. split; [exact Ec|]. split.
      * apply (reachable_hollow_reserve false hs eq tr h Hr Hh).
      * intros fuel o hp r. apply (hollow_run_op fuel o h hp r Hh).
Qed.

Lemma table_array_matches_size_below_2_58_witness :
  let h := table_of_run [OpReserve (10 ^ 18)] in
  size_in_groups h = 2 ^ 58 /\
  groups h = [] /\ count h = 0 /\
  (exists tr0 n, [OpReserve (10 ^ 18)] = tr0 ++ [OpReserve n]) /\
  forall fuel o hp r, run_op fuel o h hp <> Ok r.
Proof.
  cbv zeta.
  assert (Es : size_in_groups (table_of_run [OpReserve (10 ^ 18)]) = 2 ^ 58)
    by (vm_compute; reflexivity).
  split; [exact Es|].
  apply (table_array_matches_size_below_2_58 addr_hasher addr_equals
           [OpReserve (10 ^ 18)] (table_of_run [OpReserve (10 ^ 18)])).
  - apply reachable_table_of_run; vm_compute; reflexivity.
  - rewrite Es. lia.
Defined.

(** X12.  [h64_count] is the number of entries the loop of [h64_for_each]
    visits: the non-[NULL] slots of the groups [0 .. size_in_groups - 1],
    each visited once; and an element is visited exactly when it is in a
    slot of some group. *)
Theorem count_is_number_of_visited_entries hs eq tr h :
  reachable false hs eq tr h ->
  h64_count h = Z.of_nat (length (h64_for_each h)) /\
  forall x,
    x ∈ h64_for_each h <->
    x <> NULL /\
    exists (pos idx : nat) group,
      groups h !! pos = Some group /\ entries group !! idx = Some x.
Proof.
  intros Hr. destruct (reachable_inv false hs eq tr h Hr) as ([W|Hh] & _).
  - split; [apply (wf_count_length h W)|].
    intros x. rewrite (for_each_stored h x W). unfold stored. split.
    + intros (pos & idx & g & Eg & Ex & Hx). split; [exact Hx|]. eauto.
    + intros (Hx & pos & idx & g & Eg & Ex). eauto 10.
  - rewrite (hollow_for_each h Hh). destruct Hh as (Eg & Ec & _).
    split; [exact Ec|]. intros x. split.
    + intros Hx. apply elem_of_nil in Hx. contradiction.
    + intros (_ & pos & idx & g & E & _).
      rewrite Eg, lookup_nil in E. discriminate E.
Qed.

Lemma count_is_number_of_visited_entries_witness :
  h64_count (table_of_run (inserts 1 20))
  = Z.of_nat (length (h64_for_each (table_of_run (inserts 1 20)))) /\
  forall x,
    x ∈ h64_for_each (table_of_run (inserts 1 20)) <->
    x <> NULL /\
    exists (pos idx : nat) group,
      groups (table_of_run (inserts 1 20)) !! pos = Some group /\
      entries group !! idx = Some x.
Proof.
  apply (count_is_number_of_visited_entries addr_hasher addr_equals
           (inserts 1 20)).
  apply reachable_table_of_run; vm_compute; reflexivity.
Defined.

(** X13.  The invariant that makes the search complete.  In every table
    the public operations can leave, a stored element sits in a group of
    its own probe sequence, reached within one round, and every group
    the sequence visits before it has its was-full bit set: the loop of
    [h64_find_entry] cannot stop before the group of the element. *)
Theorem stored_elements_lie_on_their_probe_path hs eq tr h pos idx x :
  reachable false hs eq tr h ->
  stored h pos idx x ->
  exists j : nat,
    Z.of_nat j < size_in_groups h /\
    ps_position (Nat.iter j ps_next (ps_init (h64_hash h x) (size_in_groups h)))
    = Z.of_nat pos /\
    forall i : nat, (i < j)%nat ->
      exists group,
        groups h
        !! Z.to_nat (ps_position
                       (Nat.iter i ps_next
                          (ps_init (h64_hash h x) (size_in_groups h))))
        = Some group /\
        group_was_full group = 1.
Proof.
  intros Hr Hs.
  assert (Hn : ~ hollow h).
  { intros (Eg & _). destruct Hs as (g & E & _).
    rewrite Eg, lookup_nil in E. discriminate E. }
  destruct (reachable_wf false hs eq tr h Hr Hn) as (W & _).
  destruct (wf_path h W pos idx x Hs) as (j & Hj & Ej & Hfull).
  exists j. split; [exact Hj|]. split; [exact Ej|].
  intros i Hi. apply (Hfull i Hi).
Qed.

Lemma stored_elements_lie_on_their_probe_path_witness :
  exists j : nat,
    Z.of_nat j < size_in_groups one_entry_table /\
    ps_position (Nat.iter j ps_next
                   (ps_init (h64_hash one_entry_table 1)
                            (size_in_groups one_entry_table)))
    = Z.of_nat 1 /\
    forall i : nat, (i < j)%nat ->
      exists group,
        groups one_entry_table
        !! Z.to_nat (ps_position
                       (Nat.iter i ps_next
                          (ps_init (h64_hash one_entry_table 1)
                                   (size_in_groups one_entry_table))))
        = Some group /\
        group_was_full group = 1.
Proof.
  apply (stored_elements_lie_on_their_probe_path addr_hasher addr_equals
           [OpInsert 1] one_entry_table 1 0 1 (one_entry_table_reachable false)).
  eexists. split; [reflexivity|]. split; [reflexivity|discriminate].
Defined.

(** X14.  The match byte of [group_match_inserted]: bit [i] is set
    exactly when [i] is one of the seven slots, its presence bit is set
    and its hint byte is the one looked for; the lanes of the 16-byte
    load beyond the hints and the was-full bit never show. *)
Theorem group_match_inserted_bits group hint i :
  0 <= i ->
  Z.testbit (group_match_inserted group hint) i = true <->
  i < 7 /\ Z.testbit (status group) i = true /\
  hints group !! Z.to_nat i = Some hint.
Proof.
  intros Hi. rewrite <- (Z2Nat.id i Hi) at 1.
  rewrite group_match_testbit. rewrite Z2Nat.id by exact Hi.
  destruct (hints group !! Z.to_nat i) as [b|].
  - rewrite !andb_true_iff, Z.eqb_eq, Z.ltb_lt. split.
    + intros [[-> Hb] Hlt]. auto.
    + intros (Hlt & Hb & E). inversion E. auto.
  - split; [discriminate|]. intros (_ & _ & E). discriminate E.
Qed.

Lemma group_match_inserted_bits_witness :
  Z.testbit (group_match_inserted
               {| status := 1; hints := [0; 0; 0; 0; 0; 0; 0];
                  entries := [1; 0; 0; 0; 0; 0; 0] |} 0) 0 = true <->
  0 < 7 /\ Z.testbit 1 0 = true /\
  [0; 0; 0; 0; 0; 0; 0] !! Z.to_nat 0 = Some 0.
Proof.
  apply (group_match_inserted_bits
           {| status := 1; hints := [0; 0; 0; 0; 0; 0; 0];
              entries := [1; 0; 0; 0; 0; 0; 0] |} 0 0).
  lia.
Defined.

(** X15.  [roundup_to_pow2] on every 64-bit value: from 1 to 2^63 the
    answer is the least power of two that is not below the argument; at
    0 and above 2^63 the arithmetic wraps around and the answer is 0. *)
Theorem roundup_to_pow2_is_least_power_of_two n :
  0 <= n < 2 ^ 64 ->
  roundup_to_pow2 n
  = (if (n =? 0) || (2 ^ 63 <? n) then 0 else 2 ^ Z.log2_up n) /\
  (1 <= n <= 2 ^ 63 ->
   n <= roundup_to_pow2 n /\
   forall k, 0 <= k -> n <= 2 ^ k -> roundup_to_pow2 n <= 2 ^ k).
Proof.
  intros Hn.
  assert (E : roundup_to_pow2 n
              = (if (n =? 0) || (2 ^ 63 <? n) then 0 else 2 ^ Z.log2_up n)).
  { destruct (Z.eqb_spec n 0) as [->|Hne]; [reflexivity|]. cbn [orb].
    destruct (Z.ltb_spec (2 ^ 63) n) as [Hgt|Hle].
    - apply roundup_to_pow2_wraps. lia.
    - destruct (Z.eq_dec n 1) as [->|Hn1]; [reflexivity|].
      apply roundup_to_pow2_log2_up. lia. }
  split; [exact E|]. intros Hr. rewrite E.
  destruct (Z.eqb_spec n 0) as [->|_]; [lia|]. cbn [orb].
  destruct (Z.ltb_spec (2 ^ 63) n) as [Hgt|_]; [lia|].
  destruct (Z.eq_dec n 1) as [->|Hn1].
  - split; [reflexivity|]. intros k Hk _. change (2 ^ Z.log2_up 1) with (2 ^ 0).
    apply pow2_le_mono. lia.
  - pose proof (Z.log2_up_spec n ltac:(lia)) as [Hlo Hhi].
    split; [exact Hhi|]. intros k Hk Hle.
    apply pow2_le_mono. split; [apply Z.log2_up_nonneg|].
    destruct (Z_le_gt_dec (Z.log2_up n) k) as [H|H]; [exact H|exfalso].
    pose proof (pow2_le_mono k (Z.pred (Z.log2_up n)) ltac:(lia)). lia.
Qed.

Lemma roundup_to_pow2_is_least_power_of_two_witness :
  roundup_to_pow2 22
  = (if (22 =? 0) || (2 ^ 63 <? 22) then 0 else 2 ^ Z.log2_up 22) /\
  (1 <= 22 <= 2 ^ 63 ->
   22 <= roundup_to_pow2 22 /\
   forall k, 0 <= k -> 22 <= 2 ^ k -> roundup_to_pow2 22 <= 2 ^ k).
Proof.
  apply (roundup_to_pow2_is_least_power_of_two 22). lia.
Defined.

(** X16.  [is_power_of_2] on every 64-bit value: it answers true on the
    powers of two and on 0, and on nothing else; so the [assert] of
    [h64_init] and [h64_resize] lets the size 0 through. *)
Theorem is_power_of_2_accepts_zero_and_powers n :
  0 <= n < 2 ^ 64 ->
  is_power_of_2 n = true <-> n = 0 \/ exists k, 0 <= k <= 63 /\ n = 2 ^ k.
Proof.
  apply is_power_of_2_iff.
Qed.

Lemma is_power_of_2_accepts_zero_and_powers_witness :
  is_power_of_2 0 = true <-> 0 = 0 \/ exists k, 0 <= k <= 63 /\ 0 = 2 ^ k.
Proof.
  apply (is_power_of_2_accepts_zero_and_powers 0). lia.
Defined.

(** X17.  [mixer64], which turns the address of the group array into
    the seed of the table, loses nothing: it maps 64-bit values to 64-bit
    values, and different values to different ones. *)
Theorem mixer64_separates_values a b :
  0 <= a < 2 ^ 64 -> 0 <= b < 2 ^ 64 -> a <> b ->
  mixer64 a <> mixer64 b /\ 0 <= mixer64 a < 2 ^ 64.
Proof.
  intros Ha Hb Hne. split; [|apply mixer64_range; exact Ha].
  intros E. apply Hne. apply (mixer64_inj a b Ha Hb E).
Qed.

Lemma mixer64_separates_values_witness :
  mixer64 4096 <> mixer64 4160 /\ 0 <= mixer64 4096 < 2 ^ 64.
Proof.
  apply (mixer64_separates_values 4096 4160); lia.
Defined.

(** X18.  [h64_byte_hash] of one key under two different seeds gives two
    different hashes, whatever the key and its length. *)
Theorem byte_hash_separates_seeds key len s1 s2 v1 v2 :
  0 <= s1 < 2 ^ 64 -> 0 <= s2 < 2 ^ 64 -> s1 <> s2 ->
  h64_byte_hash key len s1 = Some v1 ->
  h64_byte_hash key len s2 = Some v2 ->
  v1 <> v2.
Proof.
  intros H1 H2 Hne E1 E2 Ev. subst v2. apply Hne.
  unfold h64_byte_hash in E1, E2.
  destruct ((len <? - 2 ^ 31) || (2 ^ 31 <=? len) || (Z.quot len 8 <? 0));
    [discriminate E1|].
  set (c := u64 (len * byte_hash_m)) in *.
  pose proof (lxor_range s1 c H1 (u64_range _)) as R1.
  pose proof (lxor_range s2 c H2 (u64_range _)) as R2.
  destruct (byte_hash_words _ key (Z.lxor s1 c)) as [[h1 d1]|] eqn:W1;
    [|discriminate E1].
  destruct (byte_hash_words _ key (Z.lxor s2 c)) as [[h2 d2]|] eqn:W2;
    [|discriminate E2].
  destruct (byte_hash_words_data _ _ _ _ _ W1) as [-> _].
  destruct (byte_hash_words_data _ _ _ _ _ W2) as [-> _].
  pose proof (byte_hash_words_range _ _ _ _ _ R1 W1) as Rh1.
  pose proof (byte_hash_words_range _ _ _ _ _ R2 W2) as Rh2.
  destruct (byte_hash_tail _ _ h1) as [t1|] eqn:T1; [|discriminate E1].
  destruct (byte_hash_tail _ _ h2) as [t2|] eqn:T2; [|discriminate E2].
  pose proof (byte_hash_tail_range _ _ _ _ Rh1 T1) as Rt1.
  pose proof (byte_hash_tail_range _ _ _ _ Rh2 T2) as Rt2.
  rewrite <- E2 in E1. inversion E1 as [E]. cbv zeta in E.
  apply (byte_hash_final_inj t1 t2 Rt1 Rt2) in E. subst t2.
  pose proof (byte_hash_tail_inj _ _ _ _ _ Rh1 Rh2 T1 T2) as Eh. subst h2.
  pose proof (byte_hash_words_inj _ _ _ _ _ _ _ R1 R2 W1 W2) as Es.
  apply (lxor_cancel_r s1 s2 c Es).
Qed.

Lemma byte_hash_separates_seeds_witness :
  3483496305299233654 <> 1295305311073499140.
Proof.
  apply (byte_hash_separates_seeds bytes_help 4 12345 12346); try lia;
    vm_compute; reflexivity.
Defined.

(** X19.  [h64_byte_hash] has no collision among keys of the same length
    up to eight bytes: under one seed, two keys of [len <= 8] bytes that
    differ in one of these bytes have different hashes.  This covers the
    [int] keys of the tests. *)
Theorem byte_hash_separates_short_keys k1 k2 len seed v1 v2 :
  0 <= len <= 8 -> is_bytes k1 -> is_bytes k2 -> 0 <= seed < 2 ^ 64 ->
  take (Z.to_nat len) k1 <> take (Z.to_nat len) k2 ->
  h64_byte_hash k1 len seed = Some v1 ->
  h64_byte_hash k2 len seed = Some v2 ->
  v1 <> v2.
Proof.
  intros Hlen B1 B2 Hs Hne E1 E2 Ev. subst v2. apply Hne.
  assert (Hd1 : len <= Z.of_nat (length k1)).
  { destruct (proj1 (h64_byte_hash_defined k1 len seed)) as [_ H]; [eauto|].
    destruct (Z.ltb_spec len 0); [lia|exact H]. }
  assert (Hd2 : len <= Z.of_nat (length k2)).
  { destruct (proj1 (h64_byte_hash_defined k2 len seed)) as [_ H]; [eauto|].
    destruct (Z.ltb_spec len 0); [lia|exact H]. }
  rewrite h64_byte_hash_nonneg in E1, E2 by lia.
  destruct (2 ^ 31 <=? len); [discriminate E1|].
  set (h0 := Z.lxor seed (u64 (len * byte_hash_m))) in *.
  assert (R0 : 0 <= h0 < 2 ^ 64) by (apply lxor_range; [exact Hs|apply u64_range]).
  assert (Hpow : forall n : nat, (n <= 8)%nat -> 256 ^ Z.of_nat n <= 2 ^ 64).
  { intros n Hn. change 256 with (2 ^ 8). rewrite <- Z.pow_mul_r by lia.
    apply pow2_le_mono. lia. }
  destruct (Z.eq_dec len 8) as [->|Hn8].
  - change (Z.to_nat (8 / 8)) with 1%nat in *.
    change (Z.to_nat (Z.land 8 7)) with 0%nat in *.
    change (Z.to_nat 8) with 8%nat.
    cbn [byte_hash_words byte_hash_tail] in E1, E2.
    destruct (load64 k1) as [w1|] eqn:L1; [|discriminate E1].
    destruct (load64 k2) as [w2|] eqn:L2; [|discriminate E2].
    apply load64_Some in L1 as [Hl1 ->]. apply load64_Some in L2 as [Hl2 ->].
    rewrite <- E2 in E1. inversion E1 as [E]. cbv zeta in E.
    apply byte_hash_final_inj in E; [|apply byte_hash_round_range..].
    pose proof (le_bytes_range _ (Forall_take _ 8%nat _ B1)) as Rw1.
    pose proof (le_bytes_range _ (Forall_take _ 8%nat _ B2)) as Rw2.
    rewrite length_take in Rw1, Rw2.
    replace (8 `min` length k1)%nat with 8%nat in Rw1 by lia.
    replace (8 `min` length k2)%nat with 8%nat in Rw2 by lia.
    pose proof (Hpow 8%nat ltac:(lia)) as H8.
    apply byte_hash_round_inj_k in E; [|lia..].
    apply le_bytes_inj; [rewrite !length_take; lia|apply Forall_take; assumption..|exact E].
  - assert (Ediv : len / 8 = 0) by (apply Z.div_small; lia).
    assert (Eland : Z.land len 7 = len).
    { rewrite land_7_mod by lia. apply Z.mod_small. lia. }
    rewrite Ediv, Eland in E1, E2. change (Z.to_nat 0) with 0%nat in E1, E2.
    cbn [byte_hash_words] in E1, E2.
    destruct (Z.to_nat len) as [|t] eqn:Et; [reflexivity|].
    rewrite (byte_hash_tail_value t k1 h0) in E1 by (assumption || lia).
    rewrite (byte_hash_tail_value t k2 h0) in E2 by (assumption || lia).
    rewrite <- E2 in E1. inversion E1 as [E]. cbv zeta in E.
    apply byte_hash_final_inj in E; [|apply u64_range..].
    pose proof (le_bytes_range _ (Forall_take _ (S t) _ B1)) as Rw1.
    pose proof (le_bytes_range _ (Forall_take _ (S t) _ B2)) as Rw2.
    rewrite length_take in Rw1, Rw2.
    replace (S t `min` length k1)%nat with (S t) in Rw1 by lia.
    replace (S t `min` length k2)%nat with (S t) in Rw2 by lia.
    pose proof (Hpow (S t) ltac:(lia)) as H8.
    apply mul_m_injective in E; [|apply lxor_range; lia..].
    apply lxor_cancel_l in E.
    apply le_bytes_inj; [rewrite !length_take; lia|apply Forall_take; assumption..|exact E].
Qed.

Lemma byte_hash_separates_short_keys_witness :
  12705433757896562597 <> 2120396276842301529.
Proof.
  apply (byte_hash_separates_short_keys [232; 3; 0; 0] [233; 3; 0; 0] 4 99);
    try lia; try (vm_compute; reflexivity);
    try (repeat constructor; lia).
  vm_compute. discriminate.
Defined.

(** X20.  [h64_byte_hash] reads the first [len] bytes of the key and no
    other, or the first [len & 7] bytes for a negative [len], which is
    an [int]: it has a value exactly when [len] is above [-8] and the key
    has at least that many bytes, and two keys with the same first bytes,
    that many, have the same hash under the same seed. *)
Theorem byte_hash_reads_the_first_len_bytes key len seed :
  ((exists v, h64_byte_hash key len seed = Some v) <->
   - 8 < len < 2 ^ 31 /\
   (if len <? 0 then Z.land len 7 else len) <= Z.of_nat (length key)) /\
  forall key',
    take (Z.to_nat (if len <? 0 then Z.land len 7 else len)) key'
    = take (Z.to_nat (if len <? 0 then Z.land len 7 else len)) key ->
    h64_byte_hash key' len seed = h64_byte_hash key len seed.
Proof.
  split; [apply h64_byte_hash_defined|].
  set (n := if len <? 0 then Z.land len 7 else len).
  intros key' Et.
  assert (El : (Z.to_nat n `min` length key' = Z.to_nat n `min` length key)%nat).
  { rewrite <- !length_take, Et. reflexivity. }
  assert (Hn : 0 <= n).
  { unfold n. destruct (Z.ltb_spec len 0); [|lia].
    rewrite land_7_mod. apply Z.mod_pos_bound. lia. }
  destruct (Z_le_gt_dec n (Z.of_nat (length key))) as [Hle|Hgt].
  - rewrite <- (h64_byte_hash_take key len seed) by exact Hle.
    rewrite <- (h64_byte_hash_take key' len seed) by (fold n; lia).
    fold n. rewrite Et. reflexivity.
  - rewrite !take_ge in Et by lia. subst key'. reflexivity.
Qed.

(** X21.  [general_test] of h64_test.c passes whatever the callbacks and
    the allocator's addresses are: with callbacks that keep the contract,
    two non-NULL strings that differ from each other and a third one that
    differs from both, every assert of the test holds and the test
    returns, having used two blocks of the allocator. *)
Theorem general_test_passes hs eq str1 str2 not_in_the_table (fuel : nat)
    a0 a1 hp :
  callbacks_ok hs eq ->
  str1 <> NULL -> str2 <> NULL ->
  eq str1 str2 = 0 ->
  eq not_in_the_table str1 = 0 -> eq not_in_the_table str2 = 0 ->
  (4 < fuel)%nat ->
  general_test fuel hs eq str1 str2 not_in_the_table (a0 :: a1 :: hp)
  = Ok (tt, hp).
Proof.
  intros C N1 N2 D12 Do1 Do2 Hfuel.
  assert (D21 : eq str2 str1 = 0).
  { destruct (Z.eq_dec (eq str2 str1) 0) as [E|E]; [exact E|exfalso].
    apply (equals_sym hs eq C) in E. contradiction. }
  pose proof (equals_refl hs eq C str1) as R1.
  pose proof (equals_refl hs eq C str2) as R2.
  assert (Hfuel' : (4 <= fuel)%nat) by lia.
  pose proof (created_small_table hs eq a1) as S0.
  unfold general_test.
  rewrite (bind_run _ _ _ _ _ (h64_create_run hs eq a0 a1 hp)). cbv beta.
  revert S0. generalize (fresh_table 4 hs eq a1). intros h0 S0.
  assert (Hnil : forall probe x, x ∈ @nil Z -> eq probe x = 0).
  { intros probe x Hx. apply elem_of_nil in Hx. contradiction. }
  assert (Hone : forall probe y x, eq probe y = 0 -> x ∈ [y] -> eq probe x = 0).
  { intros probe y x E Hx. apply list_elem_of_singleton in Hx. subst x.
    exact E. }
  (* the empty table *)
  rewrite bind_assert_that
    by (unfold h64_count; rewrite (small_table_count _ _ _ _ S0); reflexivity).
  rewrite (bind_lift_run _ _ _ NULL)
    by (eapply small_find_absent; [exact S0|apply Hnil|exact Hfuel']).
  rewrite bind_assert_that by reflexivity.
  rewrite (bind_lift_run _ _ _ NULL)
    by (eapply small_find_absent; [exact S0|apply Hnil|exact Hfuel']).
  rewrite bind_assert_that by reflexivity.
  (* insert str1 *)
  destruct (small_insert hs eq C h0 [] str1 fuel hp S0 N1 ltac:(simpl; lia)
              Hfuel') as (h1 & Hrun1 & Hnew1 & _).
  pose proof (Hnew1 (Hnil str1)) as S1. clear Hnew1.
  rewrite (bind_run _ _ _ _ _ Hrun1). cbv beta.
  rewrite bind_assert_that
    by (unfold h64_count; rewrite (small_table_count _ _ _ _ S1); reflexivity).
  rewrite (bind_lift_run _ _ _ str1)
    by (eapply small_find_present;
        [exact C|exact S1|left|exact R1|exact Hfuel']).
  rewrite bind_assert_that by apply Z.eqb_refl.
  (* erase str1 *)
  destruct (small_erase hs eq C h1 [str1] [] str1 str1 fuel hp S1
              ltac:(reflexivity) R1 Hfuel) as (h2 & Hrun2 & S2).
  rewrite (bind_run _ _ _ _ _ Hrun2). cbv beta zeta. cbn [snd].
  rewrite bind_assert_that
    by (unfold h64_count; rewrite (small_table_count _ _ _ _ S2); reflexivity).
  rewrite (bind_lift_run _ _ _ NULL)
    by (eapply small_find_absent; [exact S2|apply Hnil|exact Hfuel']).
  rewrite bind_assert_that by reflexivity.
  (* insert str1, twice *)
  destruct (small_insert hs eq C h2 [] str1 fuel hp S2 N1 ltac:(simpl; lia)
              Hfuel') as (h3 & Hrun3 & Hnew3 & _).
  pose proof (Hnew3 (Hnil str1)) as S3. clear Hnew3.
  rewrite (bind_run _ _ _ _ _ Hrun3). cbv beta.
  rewrite bind_assert_that
    by (unfold h64_count; rewrite (small_table_count _ _ _ _ S3); reflexivity).
  destruct (small_insert hs eq C h3 [str1] str1 fuel hp S3 N1
              ltac:(simpl; lia) Hfuel') as (h4 & Hrun4 & _ & Hsame4).
  pose proof (Hsame4 ltac:(left)) as S4. clear Hsame4.
  rewrite (bind_run _ _ _ _ _ Hrun4). cbv beta.
  rewrite bind_assert_that
    by (unfold h64_count; rewrite (small_table_count _ _ _ _ S4); reflexivity).
  (* insert str2 *)
  destruct (small_insert hs eq C h4 [str1] str2 fuel hp S4 N2
              ltac:(simpl; lia) Hfuel') as (h5 & Hrun5 & Hnew5 & _).
  pose proof (Hnew5 (fun x => Hone str2 str1 x D21)) as S5. clear Hnew5.
  rewrite (bind_run _ _ _ _ _ Hrun5). cbv beta.
  rewrite bind_assert_that
    by (unfold h64_count; rewrite (small_table_count _ _ _ _ S5); reflexivity).
  rewrite (bind_lift_run _ _ _ str1)
    by (eapply small_find_present;
        [exact C|exact S5|right; left|exact R1|exact Hfuel']).
  rewrite bind_assert_that by apply Z.eqb_refl.
  rewrite (bind_lift_run _ _ _ str2)
    by (eapply small_find_present;
        [exact C|exact S5|left|exact R2|exact Hfuel']).
  rewrite bind_assert_that by apply Z.eqb_refl.
  rewrite (bind_lift_run _ _ _ NULL).
  2:{ eapply small_find_absent; [exact S5| |exact Hfuel'].
      intros x Hx. apply elem_of_cons in Hx as [->|Hx]; [exact Do2|].
      apply (Hone _ str1 x Do1 Hx). }
  rewrite bind_assert_that by reflexivity.
  (* erase str2 *)
  destruct (small_erase hs eq C h5 [str2; str1] [str1] str2 str2 fuel hp S5
              ltac:(reflexivity) R2 Hfuel) as (h6 & Hrun6 & S6).
  rewrite (bind_run _ _ _ _ _ Hrun6). cbv beta zeta. cbn [snd].
  rewrite bind_assert_that
    by (unfold h64_count; rewrite (small_table_count _ _ _ _ S6); reflexivity).
  rewrite (bind_lift_run _ _ _ str1)
    by (eapply small_find_present;
        [exact C|exact S6|left|exact R1|exact Hfuel']).
  rewrite bind_assert_that by apply Z.eqb_refl.
  rewrite (bind_lift_run _ _ _ NULL)
    by (eapply small_find_absent;
        [exact S6|intros x; apply (Hone str2 str1 x D21)|exact Hfuel']).
  rewrite bind_assert_that by reflexivity.
  (* erase str1 *)
  destruct (small_erase hs eq C h6 [str1] [] str1 str1 fuel hp S6
              ltac:(reflexivity) R1 Hfuel) as (h7 & Hrun7 & S7).
  rewrite (bind_run _ _ _ _ _ Hrun7). cbv beta zeta. cbn [snd].
  rewrite bind_assert_that
    by (unfold h64_count; rewrite (small_table_count _ _ _ _ S7); reflexivity).
  rewrite (bind_lift_run _ _ _ NULL)
    by (eapply small_find_absent; [exact S7|apply Hnil|exact Hfuel']).
  rewrite bind_assert_that by reflexivity.
  rewrite (bind_lift_run _ _ _ NULL)
    by (eapply small_find_absent; [exact S7|apply Hnil|exact Hfuel']).
  rewrite bind_assert_that by reflexivity.
  reflexivity.
Qed.

Lemma general_test_passes_witness :
  general_test 5 (str_hash test_memory) (str_equals test_memory)
    1000 2000 3000 [4096; 8192]
  = Ok (tt, []).
Proof.
  apply (general_test_passes (str_hash test_memory) (str_equals test_memory)
           1000 2000 3000 5 4096 8192 []);
    [apply str_callbacks_ok|discriminate|discriminate
    |reflexivity|reflexivity|reflexivity|lia].
Defined.
